(** * Media bridging and relay subsystem: a shallow embedding

    This development models [addons/webui/media/custom_media.py]:

    - [Worker]: the decode loop [player_worker] (audio resampling and
      re-timestamping, video timestamp rebasing, the decode-ahead gate);
    - [Player]: [MediaPlayer] together with its [PlayerStreamTrack]s;
    - [Relay]: [MediaRelay] together with its [RelayStreamTrack] proxies;
    - [Blackhole]: the [MediaBlackhole] sink;
    - [Recorder]: the [MediaRecorder] sink;
    - [PlayerInit]: what [MediaPlayer.__init__] reads off the container.

    Python objects are identified by natural numbers, dictionaries and sets
    are finite maps and finite sets, and the cooperative scheduler is an
    explicit list of events, one per resumption of a task. *)

From Stdlib Require Import QArith.
From stdpp Require Import base gmap sets list strings.

#[local] Set Warnings "-clear-no-such-hyp".
Local Open Scope Z_scope.

(** ** Frames *)

Module Media.

Inductive kind := Audio | Video.

#[global] Instance kind_eq_dec : EqDecision kind.
Proof. solve_decision. Defined.

#[global] Instance kind_countable : Countable kind.
Proof.
  refine (inj_countable' (λ k, match k with Audio => false | Video => true end)
                         (λ b : bool, if b then Video else Audio) _).
  by intros [].
Defined.

(** [av.AudioFrame]: only the attributes the program reads or writes.
    [a_time_base] is a fraction, [0] standing for an unset one. *)
Record AudioFrame := mkAudio {
  a_format : string;
  a_layout : string;
  a_sample_rate : Z;
  a_data : list Z;
  a_pts : option Z;
  a_time_base : Q
}.

(** [av.VideoFrame]: [v_index] is [frame.index], [v_image] stands for the
    pixel planes. *)
Record VideoFrame := mkVideo {
  v_index : Z;
  v_pts : option Z;
  v_time_base : Q;
  v_image : nat
}.

Inductive Frame :=
| FAudio (a : AudioFrame)
| FVideo (v : VideoFrame).

Definition a_samples (a : AudioFrame) : Z := Z.of_nat (length (a_data a)).

(** [frame.time]: [None] without a time base or a timestamp, else
    [pts * time_base]. *)
Definition q_is_zero (q : Q) : bool := Qnum q =? 0.

Definition frame_time_of (pts : option Z) (tb : Q) : option Q :=
  if q_is_zero tb then None
  else match pts with
       | None => None
       | Some p => Some (inject_Z p * tb)%Q
       end.

Definition a_time (a : AudioFrame) : option Q := frame_time_of (a_pts a) (a_time_base a).
Definition v_time (v : VideoFrame) : option Q := frame_time_of (v_pts v) (v_time_base v).

Definition time (f : Frame) : option Q :=
  match f with
  | FAudio a => a_time a
  | FVideo v => v_time v
  end.

End Media.

(** ** The decode worker *)

Module Worker.
Import Media.

Definition audio_format_name : string := "s16".
Definition audio_layout_name : string := "stereo".
Definition audio_sample_rate : Z := 48000.

(** Modelled from the spec: the constant [AUDIO_PTIME] of the media-stream
    library (a nominal frame duration of 20 ms), which the repository
    imports but does not define. *)
Definition AUDIO_PTIME : Q := 20 # 1000.

(** Python's [int()] on a number: truncation towards zero. *)
Definition int_of (q : Q) : Z := Z.quot (Qnum q) (Zpos (Qden q)).

Definition audio_samples_per_frame : Z :=
  int_of (inject_Z audio_sample_rate * AUDIO_PTIME).

(** Modelled from the spec: the sample FIFO ([av.AudioFifo]) that the worker
    writes resampled frames to and reads fixed-size frames from.  It buffers
    samples, keeps the attributes of the first frame written as a template,
    refuses a frame whose attributes or timestamp do not continue the
    stream, hands out a frame only when it holds enough samples, and stamps
    every frame it hands out with the count of samples read so far. *)
Record AudioFifo := mkFifo {
  fifo_template : option (string * string * Z * Q);
  pts_per_sample : Q;
  samples_written : Z;
  samples_read : Z;
  fifo_buf : list Z
}.

Definition fifo_new : AudioFifo := mkFifo None 0 0 0 [].

Definition same_attrs (t : string * string * Z * Q) (a : AudioFrame) : bool :=
  let '(fmt, lay, rate, tb) := t in
  bool_decide (a_format a = fmt) && bool_decide (a_layout a = lay)
  && (a_sample_rate a =? rate)
  && (q_is_zero (a_time_base a) || q_is_zero tb
      || ((Qnum (a_time_base a) =? Qnum tb)
          && (Zpos (Qden (a_time_base a)) =? Zpos (Qden tb)))).

Definition pts_matches (ff : AudioFifo) (a : AudioFrame) : bool :=
  if q_is_zero (pts_per_sample ff) then true
  else match a_pts a with
       | None => true
       | Some p => p =? int_of (pts_per_sample ff * inject_Z (samples_written ff))
       end.

(** [fifo.write(frame)]; [None] stands for the [ValueError] it raises. *)
Definition fifo_write (ff : AudioFifo) (a : AudioFrame) : option AudioFifo :=
  if a_samples a =? 0 then Some ff
  else
    let opened :=
      match fifo_template ff with
      | None =>
          let pps := if q_is_zero (a_time_base a) || (a_sample_rate a =? 0) then 0%Q
                     else (/ a_time_base a / inject_Z (a_sample_rate a))%Q in
          Some (mkFifo (Some (a_format a, a_layout a, a_sample_rate a, a_time_base a))
                       pps (samples_written ff) (samples_read ff) (fifo_buf ff))
      | Some t => if same_attrs t a then Some ff else None
      end in
    match opened with
    | None => None
    | Some ff1 =>
        if pts_matches ff1 a
        then Some (mkFifo (fifo_template ff1) (pts_per_sample ff1)
                          (samples_written ff1 + a_samples a) (samples_read ff1)
                          (fifo_buf ff1 ++ a_data a))
        else None
    end.

(** [fifo.read(samples)] with [partial=False]; [None] when it returns
    nothing. *)
Definition fifo_read (ff : AudioFifo) (samples : Z) : option (AudioFrame * AudioFifo) :=
  match fifo_template ff with
  | None => None
  | Some (fmt, lay, rate, tb) =>
      let buffered := Z.of_nat (length (fifo_buf ff)) in
      if buffered <? 1 then None
      else
        let n := if samples =? 0 then buffered else samples in
        if buffered <? n then None
        else
          let pts := if q_is_zero (pts_per_sample ff) then None
                     else Some (int_of (pts_per_sample ff * inject_Z (samples_read ff))) in
          Some (mkAudio fmt lay rate (take (Z.to_nat n) (fifo_buf ff)) pts tb,
                mkFifo (fifo_template ff) (pts_per_sample ff) (samples_written ff)
                       (samples_read ff + n) (drop (Z.to_nat n) (fifo_buf ff)))
  end.

(** What one call of [next(container.decode( *streams))] does. *)
Inductive decode_result :=
| Decoded (f : Frame)
| FFmpegError (errno : Z)
| StopIteration.

Definition EAGAIN : Z := 11.

(** What the worker does to the outside world. *)
Inductive action :=
| Put (k : kind) (item : option Frame)
| Sleep (seconds : Q)
| LogAwaiting (index max_to_decode : Z)
| LogContinuing
| LogSkippingNoPts.

(** How a run of the worker ends.  [Looping] is a worker that is still in
    its loop when the recorded iterations end. *)
Inductive outcome :=
| Looping
| QuitAtLoopHead
| QuitWhileAwaiting
| EndOfStream
| Raised.

(** What the worker reads from its surroundings in one pass through the
    loop: the quit event at the loop head, the decoder, the wall clock, the
    consumer's cap and the quit event after the gate's sleep. *)
Record iteration := mkIter {
  quit_is_set : bool;
  decoded : decode_result;
  elapsed_time : Q;
  max_frame_to_decode : Z;
  quit_after_sleep : bool
}.

Section worker.

(** Modelled from the spec: the resampler ([av.AudioResampler]) built for
    the fixed target format; [resample] is its conversion of the sample
    data, [None] when it hands back no frame. *)
Variable resampler : Type.
Variable resample : resampler → AudioFrame → resampler * option (list Z).

Variables (audio_track video_track : bool) (throttle_playback : bool).

Record wstate := mkW {
  audio_fifo : AudioFifo;
  audio_samples : Z;
  audio_resampler : resampler;
  video_first_pts : option Z;
  frame_time : option Q
}.

Definition wstate_init (r : resampler) : wstate := mkW fifo_new 0 r None None.

Definition needs_resampling (a : AudioFrame) : bool :=
  negb (bool_decide (a_format a = audio_format_name))
  || negb (bool_decide (a_layout a = audio_layout_name))
  || negb (a_sample_rate a =? audio_sample_rate).

(** The inner [while True] loop that empties the FIFO one frame at a time. *)
Fixpoint drain (fuel : nat) (ff : AudioFifo) (ft : option Q)
  : list action * AudioFifo * option Q :=
  match fuel with
  | O => ([], ff, ft)
  | S fuel' =>
      match fifo_read ff audio_samples_per_frame with
      | Some (fr, ff') =>
          let '(acts, ff'', ft') := drain fuel' ff' (a_time fr) in
          (Put Audio (Some (FAudio fr)) :: acts, ff'', ft')
      | None => ([], ff, ft)
      end
  end.

Definition sentinels : list action :=
  (if audio_track then [Put Audio None] else [])
  ++ (if video_track then [Put Video None] else []).

Definition throttle (st : wstate) (it : iteration) : list action :=
  if throttle_playback then
    match frame_time st with
    | Some ft =>
        if negb (q_is_zero ft) && negb (Qle_bool ft (elapsed_time it + 1))
        then [Sleep (1 # 10)] else []
    | None => []
    end
  else [].

Definition with_actions (acts : list action) (r : list action * outcome)
  : list action * outcome := (acts ++ r.1, r.2).

Fixpoint player_worker (st : wstate) (its : list iteration)
  : list action * outcome :=
  match its with
  | [] => ([], Looping)
  | it :: rest =>
    if quit_is_set it then ([], QuitAtLoopHead)
    else
      match decoded it with
      | FFmpegError e =>
          if e =? EAGAIN
          then with_actions [Sleep (1 # 100)] (player_worker st rest)
          else (sentinels, EndOfStream)
      | StopIteration => (sentinels, EndOfStream)
      | Decoded frame =>
        with_actions (throttle st it)
          match frame with
          | FAudio a =>
            if audio_track then
              let '(r, resampled) :=
                if needs_resampling a
                then
                  let '(r, out) := resample (audio_resampler st)
                                     (mkAudio (a_format a) (a_layout a) (a_sample_rate a)
                                              (a_data a) None (a_time_base a)) in
                  (r, option_map (λ d, mkAudio audio_format_name audio_layout_name
                                          audio_sample_rate d None (a_time_base a)) out)
                else (audio_resampler st, Some a) in
              match resampled with
              | None => ([], Raised)
              | Some a1 =>
                let a2 := mkAudio (a_format a1) (a_layout a1) (a_sample_rate a1) (a_data a1)
                                  (Some (audio_samples st)) (1 # 48000) in
                match fifo_write (audio_fifo st) a2 with
                | None => ([], Raised)
                | Some ff =>
                  let '(acts, ff', ft) :=
                    drain (S (length (fifo_buf ff))) ff (frame_time st) in
                  with_actions acts
                    (player_worker
                       (mkW ff' (audio_samples st + a_samples a2) r
                            (video_first_pts st) ft) rest)
                end
              end
            else player_worker st rest
          | FVideo v =>
            if video_track then
              let cap := max_frame_to_decode it in
              let awaited := (0 <? cap) && (cap <? v_index v) in
              if awaited && quit_after_sleep it
              then ([LogAwaiting (v_index v) cap; Sleep 1], QuitWhileAwaiting)
              else
                with_actions
                  (if awaited then [LogAwaiting (v_index v) cap; Sleep 1; LogContinuing]
                   else [])
                  match v_pts v with
                  | None =>
                      with_actions [LogSkippingNoPts] (player_worker st rest)
                  | Some pts =>
                      let first := default pts (video_first_pts st) in
                      let v' := mkVideo (v_index v) (Some (pts - first))
                                        (v_time_base v) (v_image v) in
                      with_actions [Put Video (Some (FVideo v'))]
                        (player_worker
                           (mkW (audio_fifo st) (audio_samples st) (audio_resampler st)
                                (Some first) (v_time v')) rest)
                  end
            else player_worker st rest
          end
      end
  end.

(** The frames handed to the audio track and to the video track. *)
Definition audio_puts (acts : list action) : list AudioFrame :=
  omap (λ a, match a with Put Audio (Some (FAudio fr)) => Some fr | _ => None end) acts.

Definition video_puts (acts : list action) : list VideoFrame :=
  omap (λ a, match a with Put Video (Some (FVideo fr)) => Some fr | _ => None end) acts.

(** The end sentinels handed to a track. *)
Definition is_sentinel (k : kind) (a : action) : bool :=
  match a with
  | Put k' None => bool_decide (k' = k)
  | _ => false
  end.

End worker.

Arguments player_worker {resampler} resample audio_track video_track throttle_playback st its.
Arguments wstate_init {resampler} r.
Arguments mkW {resampler}.
Arguments audio_fifo {resampler}.
Arguments audio_samples {resampler}.
Arguments audio_resampler {resampler}.
Arguments video_first_pts {resampler}.
Arguments frame_time {resampler}.
Arguments throttle {resampler} throttle_playback st it.
Arguments drain fuel ff ft : clear implicits.

End Worker.

(** ** The media player and its tracks *)

Module Player.
Import Media.

(** A [PlayerStreamTrack].  [ended] is the state of the base class
    ([readyState] is "ended" or "live"), [player_bound] says that [_player]
    is not [None], [waiting] that a [recv()] is suspended in
    [self._queue.get()], [start] is [self._start]. *)
Record track := mkTrack {
  ended : bool;
  player_bound : bool;
  queue : list (option Frame);
  waiting : bool;
  start : option Q;
  max_frame_to_decode : Z
}.

(** A [MediaPlayer] with its two optional tracks, and the worker threads it
    has spawned: [alive] are the threads still running, [quit] the threads
    whose quit event is set. *)
Record state := mkState {
  container_open : bool;
  thread : option nat;
  started : gset kind;
  audio : option track;
  video : option track;
  throttle_playback : bool;
  alive : gset nat;
  quit : gset nat;
  next_thread : nat
}.

Inductive effect :=
| LogDebug (msg : string)
| ThreadStart (tid : nat)
| QuitSet (tid : nat)
| ThreadJoin (tid : nat)
| ContainerClose
| AsyncSleep (wait : Q).

Inductive result :=
| Returned (f : Frame)
| MediaStreamError
| AttributeError.

Inductive obs :=
| Effect (e : effect)
| Result (k : kind) (r : result).

(** One resumption of a task on the event loop, or one move of a worker
    thread.  [now] is what [time.time()] reads. *)
Inductive event :=
| Recv (k : kind) (now : Q)
| Wake (k : kind) (now : Q)
| Stop (k : kind)
| SetMax (k : kind) (frame_num : Z)
| WorkerPut (k : kind) (item : option Frame)
| WorkerExit (tid : nat).

Definition new_track : track := mkTrack false true [] false None (-1).

(** [MediaPlayer.__init__] for a container with or without an audio and a
    video stream. *)
Definition init (has_audio has_video throttle : bool) : state :=
  mkState true None ∅
    (if has_audio then Some new_track else None)
    (if has_video then Some new_track else None)
    throttle ∅ ∅ 0.

Definition get_track (k : kind) (s : state) : option track :=
  match k with Audio => audio s | Video => video s end.

Definition set_track (k : kind) (t : track) (s : state) : state :=
  match k with
  | Audio => mkState (container_open s) (thread s) (started s) (Some t) (video s)
               (throttle_playback s) (alive s) (quit s) (next_thread s)
  | Video => mkState (container_open s) (thread s) (started s) (audio s) (Some t)
               (throttle_playback s) (alive s) (quit s) (next_thread s)
  end.

Definition set_started (st : gset kind) (s : state) : state :=
  mkState (container_open s) (thread s) st (audio s) (video s)
    (throttle_playback s) (alive s) (quit s) (next_thread s).

(** [MediaPlayer._start(track)]; the boolean is false when [__log_debug]
    raises [AttributeError] because the container is already [None]. *)
Definition _start (k : kind) (s : state) : state * list effect * bool :=
  let s1 := set_started ({[k]} ∪ started s) s in
  match thread s1 with
  | Some _ => (s1, [], true)
  | None =>
      if container_open s1 then
        let tid := next_thread s1 in
        (mkState true (Some tid) (started s1) (audio s1) (video s1)
           (throttle_playback s1) ({[tid]} ∪ alive s1) (quit s1) (S tid),
         [LogDebug "Starting worker thread"; ThreadStart tid], true)
      else (s1, [], false)
  end.

(** [MediaPlayer._stop(track)]. *)
Definition _stop (k : kind) (s : state) : state * list effect * bool :=
  let s1 := set_started (started s ∖ {[k]}) s in
  if decide (started s1 = ∅) then
    let '(s2, effs, ok) :=
      match thread s1 with
      | Some tid =>
          if container_open s1 then
            (mkState true None (started s1) (audio s1) (video s1)
               (throttle_playback s1) (alive s1 ∖ {[tid]}) ({[tid]} ∪ quit s1)
               (next_thread s1),
             [LogDebug "Stopping worker thread"; QuitSet tid; ThreadJoin tid], true)
          else (s1, [], false)
      | None => (s1, [], true)
      end in
    if ok then
      if container_open s2 then
        (mkState false (thread s2) (started s2) (audio s2) (video s2)
           (throttle_playback s2) (alive s2) (quit s2) (next_thread s2),
         effs ++ [ContainerClose], true)
      else (s2, effs, true)
    else (s2, effs, false)
  else (s1, [], true).

Definition set_ended (t : track) : track :=
  mkTrack true (player_bound t) (queue t) (waiting t) (start t) (max_frame_to_decode t).

Definition unbind (t : track) : track :=
  mkTrack (ended t) false (queue t) (waiting t) (start t) (max_frame_to_decode t).

(** [PlayerStreamTrack.stop()]. *)
Definition stop (k : kind) (s : state) : state * list effect * bool :=
  match get_track k s with
  | None => (s, [], true)
  | Some t =>
      let s1 := set_track k (set_ended t) s in
      if player_bound t then
        let '(s2, effs, ok) := _stop k s1 in
        if ok then (set_track k (unbind (set_ended t)) s2, effs, true)
        else (s2, effs, false)
      else (s1, [], true)
  end.

(** [recv()] from the point where [self._queue.get()] has handed over
    [item]; [t] is the track without that item. *)
Definition deliver (k : kind) (now : Q) (t : track) (item : option Frame) (s : state)
  : state * list obs :=
  match item with
  | None =>
      let '(s', effs, ok) := stop k (set_track k t s) in
      (s', map Effect effs ++ [Result k (if ok then MediaStreamError else AttributeError)])
  | Some f =>
      match time f with
      | Some ft =>
          if player_bound t && throttle_playback s then
            match start t with
            | None =>
                (set_track k (mkTrack (ended t) (player_bound t) (queue t) (waiting t)
                                      (Some (now - ft)%Q) (max_frame_to_decode t)) s,
                 [Result k (Returned f)])
            | Some t0 =>
                (set_track k t s,
                 [Effect (AsyncSleep (t0 + ft - now)%Q); Result k (Returned f)])
            end
          else (set_track k t s, [Result k (Returned f)])
      | None => (set_track k t s, [Result k (Returned f)])
      end
  end.

(** [PlayerStreamTrack.recv()] up to its first suspension.  A track has one
    consumer, so a call on a live track made while another call is suspended
    is left out. *)
Definition recv (k : kind) (now : Q) (s : state) : state * list obs :=
  match get_track k s with
  | None => (s, [])
  | Some t =>
      if ended t then (s, [Result k MediaStreamError])
      else if waiting t then (s, [])
      else if negb (player_bound t) then (s, [Result k AttributeError])
      else
        let '(s1, effs, ok) := _start k s in
        if ok then
          match queue t with
          | [] =>
              (set_track k (mkTrack (ended t) (player_bound t) [] true (start t)
                                    (max_frame_to_decode t)) s1, map Effect effs)
          | item :: q =>
              let '(s2, out) :=
                deliver k now (mkTrack (ended t) (player_bound t) q false (start t)
                                       (max_frame_to_decode t)) item s1 in
              (s2, map Effect effs ++ out)
          end
        else (s1, map Effect effs ++ [Result k AttributeError])
  end.

(** The suspended [self._queue.get()] of a track resumes. *)
Definition wake (k : kind) (now : Q) (s : state) : state * list obs :=
  match get_track k s with
  | None => (s, [])
  | Some t =>
      if waiting t then
        match queue t with
        | [] => (s, [])
        | item :: q =>
            deliver k now (mkTrack (ended t) (player_bound t) q false (start t)
                                   (max_frame_to_decode t)) item s
        end
      else (s, [])
  end.

(** [set_max_frame_to_decode]. *)
Definition set_max_frame_to_decode (k : kind) (frame_num : Z) (s : state) : state :=
  match get_track k s with
  | None => s
  | Some t => set_track k (mkTrack (ended t) (player_bound t) (queue t) (waiting t)
                                   (start t) frame_num) s
  end.

(** The coroutine [track._queue.put(item)] that the worker thread scheduled
    runs on the event loop. *)
Definition worker_put (k : kind) (item : option Frame) (s : state) : state :=
  match get_track k s with
  | None => s
  | Some t => set_track k (mkTrack (ended t) (player_bound t) (queue t ++ [item]) (waiting t)
                                   (start t) (max_frame_to_decode t)) s
  end.

(** A worker thread returns from [player_worker]. *)
Definition worker_exit (tid : nat) (s : state) : state :=
  mkState (container_open s) (thread s) (started s) (audio s) (video s)
    (throttle_playback s) (alive s ∖ {[tid]}) (quit s) (next_thread s).

Definition step (s : state) (e : event) : state * list obs :=
  match e with
  | Recv k now => recv k now s
  | Wake k now => wake k now s
  | Stop k => let '(s', effs, _) := stop k s in (s', map Effect effs)
  | SetMax k n => (set_max_frame_to_decode k n s, [])
  | WorkerPut k item => (worker_put k item s, [])
  | WorkerExit tid => (worker_exit tid s, [])
  end.

Fixpoint run (s : state) (es : list event) : state * list obs :=
  match es with
  | [] => (s, [])
  | e :: es' =>
      let '(s1, out1) := step s e in
      let '(s2, out2) := run s1 es' in
      (s2, out1 ++ out2)
  end.

(** What the consumer of track [k] has seen come back from [recv()]. *)
Definition results (k : kind) (out : list obs) : list result :=
  omap (λ o, match o with
             | Result k' r => if decide (k' = k) then Some r else None
             | Effect _ => None
             end) out.

Definition effects (out : list obs) : list effect :=
  omap (λ o, match o with Effect e => Some e | Result _ _ => None end) out.

End Player.

(** ** The relay and its proxies *)

Module Relay.
Import Media.

(** A [RelayStreamTrack].  [relay_bound] says that [_relay] is not [None],
    [source] is [_source], [waiting] says that a [recv()] is suspended in
    [self._queue.get()]. *)
Record proxy := mkProxy {
  ended : bool;
  relay_bound : bool;
  source : option nat;
  queue : list (option Frame);
  waiting : bool
}.

(** A [MediaRelay] together with what it touches: the proxies it has handed
    out ([objects], by identity), the fan-out coroutines on the event loop
    that have not finished ([running], each with its [track] argument), and
    for every source track the frames it has yet to emit before it ends
    ([sources]). *)
Record state := mkState {
  proxies : gmap nat (gset nat);
  tasks : gmap nat nat;
  objects : gmap nat proxy;
  running : gmap nat nat;
  sources : gmap nat (list Frame);
  next_proxy : nat;
  next_task : nat
}.

Inductive result :=
| Returned (f : Frame)
| MediaStreamError
| AttributeError.

(** One resumption of a task on the event loop.  [Fanout task] is the
    fan-out coroutine [task] coming back from [await track.recv()] and
    running up to its next [await] or to its end. *)
Inductive event :=
| Subscribe (track : nat)
| Recv (p : nat)
| Wake (p : nat)
| Stop (p : nat)
| Fanout (task : nat).

#[global] Instance event_eq_dec : EqDecision event.
Proof. solve_decision. Defined.

Definition init (srcs : gmap nat (list Frame)) : state :=
  mkState ∅ ∅ ∅ ∅ srcs 0 0.

Definition set_proxies (ps : gmap nat (gset nat)) (s : state) : state :=
  mkState ps (tasks s) (objects s) (running s) (sources s) (next_proxy s) (next_task s).

Definition set_object (p : nat) (o : proxy) (s : state) : state :=
  mkState (proxies s) (tasks s) (<[p := o]> (objects s)) (running s) (sources s)
    (next_proxy s) (next_task s).

(** [MediaRelay.subscribe(track)]: the new state and the proxy returned. *)
Definition subscribe (track : nat) (s : state) : state * nat :=
  let p := next_proxy s in
  (mkState
     (match proxies s !! track with
      | Some _ => proxies s
      | None => <[track := ∅]> (proxies s)
      end)
     (tasks s)
     (<[p := mkProxy false true (Some track) [] false]> (objects s))
     (running s) (sources s) (S p) (next_task s),
   p).

(** [MediaRelay._start(proxy)], for a proxy whose [_source] is [src]. *)
Definition _start (p : nat) (src : option nat) (s : state) : state :=
  match src with
  | None => s
  | Some track =>
      match proxies s !! track with
      | None => s
      | Some ps =>
          let s1 := set_proxies (<[track := {[p]} ∪ ps]> (proxies s)) s in
          match tasks s1 !! track with
          | Some _ => s1
          | None =>
              let t := next_task s1 in
              mkState (proxies s1) (<[track := t]> (tasks s1)) (objects s1)
                (<[t := track]> (running s1)) (sources s1) (next_proxy s1) (S t)
          end
      end
  end.

(** [MediaRelay._stop(proxy)], for a proxy whose [_source] is [src]. *)
Definition _stop (p : nat) (src : option nat) (s : state) : state :=
  match src with
  | None => s
  | Some track =>
      match proxies s !! track with
      | None => s
      | Some ps => set_proxies (<[track := ps ∖ {[p]}]> (proxies s)) s
      end
  end.

(** [RelayStreamTrack.stop()]. *)
Definition stop (p : nat) (s : state) : state :=
  match objects s !! p with
  | None => s
  | Some o =>
      if relay_bound o then
        set_object p (mkProxy true false None (queue o) (waiting o)) (_stop p (source o) s)
      else set_object p (mkProxy true false (source o) (queue o) (waiting o)) s
  end.

(** [recv()] from the point where [self._queue.get()] has handed over
    [item]; [o] is the proxy without that item. *)
Definition deliver (p : nat) (o : proxy) (item : option Frame) (s : state)
  : state * list (nat * result) :=
  match item with
  | None => (stop p (set_object p o s), [(p, MediaStreamError)])
  | Some f => (set_object p o s, [(p, Returned f)])
  end.

(** [RelayStreamTrack.recv()] up to its first suspension.  A track has one
    consumer, so a call on a live proxy made while another call is suspended
    is left out. *)
Definition recv (p : nat) (s : state) : state * list (nat * result) :=
  match objects s !! p with
  | None => (s, [])
  | Some o =>
      if ended o then (s, [(p, MediaStreamError)])
      else if waiting o then (s, [])
      else if negb (relay_bound o) then (s, [(p, AttributeError)])
      else
        let s1 := _start p (source o) s in
        match queue o with
        | [] => (set_object p (mkProxy (ended o) (relay_bound o) (source o) [] true) s1, [])
        | item :: q =>
            deliver p (mkProxy (ended o) (relay_bound o) (source o) q false) item s1
        end
  end.

(** The suspended [self._queue.get()] of a proxy resumes. *)
Definition wake (p : nat) (s : state) : state * list (nat * result) :=
  match objects s !! p with
  | None => (s, [])
  | Some o =>
      if waiting o then
        match queue o with
        | [] => (s, [])
        | item :: q =>
            deliver p (mkProxy (ended o) (relay_bound o) (source o) q false) item s
        end
      else (s, [])
  end.

(** [await track.recv()] on a source track as the fan-out coroutine sees it:
    the next frame, or [None] for [MediaStreamError]. *)
Definition source_recv (track : nat) (srcs : gmap nat (list Frame))
  : option Frame * gmap nat (list Frame) :=
  match srcs !! track with
  | Some (f :: fs) => (Some f, <[track := fs]> srcs)
  | _ => (None, srcs)
  end.

Definition put_nowait (item : option Frame) (o : proxy) : proxy :=
  mkProxy (ended o) (relay_bound o) (source o) (queue o ++ [item]) (waiting o).

(** [for proxy in self.__proxies[track]: proxy._queue.put_nowait(frame)]. *)
Definition broadcast (item : option Frame) (ps : gset nat) (objs : gmap nat proxy)
  : gmap nat proxy :=
  set_fold (λ p acc, alter (put_nowait item) p acc) objs ps.

(** One pass through the loop of [MediaRelay.__run_track(track)]. *)
Definition run_track (task : nat) (s : state) : state :=
  match running s !! task with
  | None => s
  | Some track =>
      let '(frame, srcs) := source_recv track (sources s) in
      match proxies s !! track with
      | None =>
          mkState (proxies s) (tasks s) (objects s) (delete task (running s)) srcs
            (next_proxy s) (next_task s)
      | Some ps =>
          let objs := broadcast frame ps (objects s) in
          match frame with
          | Some _ =>
              mkState (proxies s) (tasks s) objs (running s) srcs
                (next_proxy s) (next_task s)
          | None =>
              mkState (delete track (proxies s)) (delete track (tasks s)) objs
                (delete task (running s)) srcs (next_proxy s) (next_task s)
          end
      end
  end.

Definition step (s : state) (e : event) : state * list (nat * result) :=
  match e with
  | Subscribe track => ((subscribe track s).1, [])
  | Recv p => recv p s
  | Wake p => wake p s
  | Stop p => (stop p s, [])
  | Fanout task => (run_track task s, [])
  end.

Fixpoint run (s : state) (es : list event) : state * list (nat * result) :=
  match es with
  | [] => (s, [])
  | e :: es' =>
      let '(s1, out1) := step s e in
      let '(s2, out2) := run s1 es' in
      (s2, out1 ++ out2)
  end.

(** What the consumer of proxy [p] has seen come back from [recv()]. *)
Definition results (p : nat) (out : list (nat * result)) : list result :=
  omap (λ o : nat * result, if decide (o.1 = p) then Some o.2 else None) out.

(** The active set of a source. *)
Definition active (track : nat) (s : state) : gset nat :=
  default ∅ (proxies s !! track).

(** The fan-out coroutines of a source that are on the event loop. *)
Definition fanouts (track : nat) (s : state) : gmap nat nat :=
  filter (λ kv, kv.2 = track) (running s).

End Relay.

(** ** The blackhole sink *)

Module Blackhole.
Import Media.

(** [blackhole_consume(track)] on the outcomes of the successive
    [track.recv()] calls ([None] for [MediaStreamError]): the frames it
    discards, and whether it has returned. *)
Fixpoint blackhole_consume (outcomes : list (option Frame)) : list Frame * bool :=
  match outcomes with
  | [] => ([], false)
  | None :: _ => ([], true)
  | Some f :: rest =>
      let '(fs, returned) := blackhole_consume rest in (f :: fs, returned)
  end.

(** A coroutine [blackhole_consume(track)] handed to the event loop. *)
Record task := mkTask {
  task_track : nat;
  cancelled : bool;
  returned : bool
}.

(** A [MediaBlackhole]: [tracks] is the dictionary [__tracks] in insertion
    order, [spawned] are the tasks created so far, a task being identified
    by its position. *)
Record state := mkState {
  tracks : list (nat * option nat);
  spawned : list task
}.

Inductive event :=
| AddTrack (track : nat)
| Start
| StopAll
| Return (t : nat).

Definition init : state := mkState [] [].

Definition addTrack (track : nat) (s : state) : state :=
  if decide (track ∈ (tracks s).*1) then s
  else mkState (tracks s ++ [(track, None)]) (spawned s).

(** The loop of [start()] over [self.__tracks.items()]. *)
Fixpoint start_items (items : list (nat * option nat)) (sp : list task)
  : list (nat * option nat) * list task :=
  match items with
  | [] => ([], sp)
  | (track, None) :: rest =>
      let '(rest', sp') := start_items rest (sp ++ [mkTask track false false]) in
      ((track, Some (length sp)) :: rest', sp')
  | (track, Some t) :: rest =>
      let '(rest', sp') := start_items rest sp in
      ((track, Some t) :: rest', sp')
  end.

Definition start (s : state) : state :=
  let '(items, sp) := start_items (tracks s) (spawned s) in mkState items sp.

Definition cancel (t : nat) (sp : list task) : list task :=
  match sp !! t with
  | Some k => <[t := mkTask (task_track k) true (returned k)]> sp
  | None => sp
  end.

(** [stop()]. *)
Definition stop (s : state) : state :=
  mkState []
    (foldl (λ sp item, match item.2 with Some t => cancel t sp | None => sp end)
           (spawned s) (tracks s)).

(** A task comes back from [blackhole_consume]. *)
Definition task_returns (t : nat) (s : state) : state :=
  match spawned s !! t with
  | Some k => mkState (tracks s) (<[t := mkTask (task_track k) (cancelled k) true]> (spawned s))
  | None => s
  end.

Definition step (s : state) (e : event) : state :=
  match e with
  | AddTrack track => addTrack track s
  | Start => start s
  | StopAll => stop s
  | Return t => task_returns t s
  end.

Definition run (s : state) (es : list event) : state := foldl step s es.

(** The tasks that are consuming [track]: spawned for it, neither cancelled
    nor returned. *)
Definition is_consuming (track : nat) (k : task) : bool :=
  bool_decide (task_track k = track) && negb (cancelled k) && negb (returned k).

Definition consuming (track : nat) (s : state) : list nat :=
  filter (λ t, is_consuming track <$> spawned s !! t = Some true)
         (seq 0 (length (spawned s))).

End Blackhole.

(** ** The recorder sink *)

Module Recorder.
Import Media.

(** What [addTrack] asks of [container.add_stream]: the codec, the frame
    rate and the pixel format it sets on the stream. *)
Record stream := mkStream {
  codec_name : string;
  rate : option Z;
  pix_fmt : option string
}.

(** A [MediaRecorderContext]: its stream, by position in the container, and
    its task. *)
Record context := mkContext {
  ctx_stream : nat;
  ctx_task : option nat
}.

Inductive event :=
| AddTrack (track : nat)
| Start
| Stop
| RunTrack (task : nat).

(** What goes wrong in sight of the caller or of the event loop. *)
Inductive obs :=
| AddTrackFailed (track : nat)
| TaskFailed (task : nat).

Definition audio_codec (fmt : string) : string :=
  if decide (fmt = "wav" ∨ fmt = "alsa") then "pcm_s16le"
  else if decide (fmt = "mp3") then "mp3"
  else "aac".

Definition new_stream (k : kind) (fmt : string) : stream :=
  match k with
  | Audio => mkStream (audio_codec fmt) None None
  | Video =>
      if decide (fmt = "image2") then mkStream "png" (Some 30) (Some "rgb24")
      else mkStream "libx264" (Some 30) (Some "yuv420p")
  end.

(** [d[key] = value] on a dictionary in insertion order. *)
Definition dict_set (track : nat) (c : context) (items : list (nat * context))
  : list (nat * context) :=
  if decide (track ∈ items.*1)
  then map (λ kv : nat * context, if decide (kv.1 = track) then (track, c) else kv) items
  else items ++ [(track, c)].

Section recorder.

(** The codec of a stream is a part of the media library: [encoder] is its
    state, [new_encoder] the state of a new stream, [encode] stands for
    [stream.encode(frame)], with [None] for the flush. *)
Variables (packet encoder : Type).
Variable new_encoder : stream → encoder.
Variable encode : encoder → option Frame → encoder * list packet.

(** [track.kind] of the tracks handed to the recorder. *)
Variable track_kind : nat → kind.

(** A [MediaRecorder] with what it touches: the container ([format_name],
    [container_open] for [__container] not being [None], its [streams] and
    the packets handed to [mux], each with its stream), the dictionary
    [__tracks] in insertion order, the tasks on the event loop that have
    not finished ([running], each with its track and stream) and the frames
    the tracks have yet to yield ([sources]). *)
Record state := mkState {
  format_name : string;
  container_open : bool;
  streams : list (stream * encoder);
  muxed : list (nat * packet);
  tracks : list (nat * context);
  running : gmap nat (nat * nat);
  next_task : nat;
  sources : gmap nat (list Frame)
}.

Definition init (fmt : string) (srcs : gmap nat (list Frame)) : state :=
  mkState fmt true [] [] [] ∅ 0 srcs.

(** [addTrack(track)]; with the container gone, reading its format raises
    [AttributeError]. *)
Definition addTrack (track : nat) (s : state) : state * list obs :=
  if container_open s then
    let st := new_stream (track_kind track) (format_name s) in
    (mkState (format_name s) true (streams s ++ [(st, new_encoder st)]) (muxed s)
       (dict_set track (mkContext (length (streams s)) None) (tracks s))
       (running s) (next_task s) (sources s), [])
  else (s, [AddTrackFailed track]).

(** The loop of [start()] over [self.__tracks.items()]. *)
Fixpoint start_items (items : list (nat * context)) (rn : gmap nat (nat * nat))
    (next : nat) : list (nat * context) * gmap nat (nat * nat) * nat :=
  match items with
  | [] => ([], rn, next)
  | (track, c) :: rest =>
      match ctx_task c with
      | None =>
          let '(rest', rn', next') :=
            start_items rest (<[next := (track, ctx_stream c)]> rn) (S next) in
          ((track, mkContext (ctx_stream c) (Some next)) :: rest', rn', next')
      | Some _ =>
          let '(rest', rn', next') := start_items rest rn next in
          ((track, c) :: rest', rn', next')
      end
  end.

Definition start (s : state) : state :=
  let '(items, rn, next) := start_items (tracks s) (running s) (next_task s) in
  mkState (format_name s) (container_open s) (streams s) (muxed s) items rn next
    (sources s).

(** [for packet in stream.encode(frame): container.mux(packet)] on the
    stream [idx]. *)
Definition encode_mux (idx : nat) (frame : option Frame)
    (sts : list (stream * encoder)) (mx : list (nat * packet))
  : list (stream * encoder) * list (nat * packet) :=
  match sts !! idx with
  | None => (sts, mx)
  | Some (st, e) =>
      let '(e', pkts) := encode e frame in
      (<[idx := (st, e')]> sts, mx ++ map (pair idx) pkts)
  end.

(** The loop of [stop()] over [self.__tracks.items()]. *)
Fixpoint stop_items (items : list (nat * context)) (sts : list (stream * encoder))
    (mx : list (nat * packet)) (rn : gmap nat (nat * nat))
  : list (stream * encoder) * list (nat * packet) * gmap nat (nat * nat) :=
  match items with
  | [] => (sts, mx, rn)
  | (track, c) :: rest =>
      match ctx_task c with
      | Some t =>
          let '(sts', mx') := encode_mux (ctx_stream c) None sts mx in
          stop_items rest sts' mx' (delete t rn)
      | None => stop_items rest sts mx rn
      end
  end.

Definition stop (s : state) : state :=
  if container_open s then
    let '(sts, mx, rn) := stop_items (tracks s) (streams s) (muxed s) (running s) in
    mkState (format_name s) false sts mx [] rn (next_task s) (sources s)
  else s.

(** One pass through the loop of [__run_track(track, context)]: the frame
    is encoded, then each packet is handed to [mux].  A task that outlives
    the container fails with [AttributeError] at the first packet ([mx] is
    longer than [muxed s] exactly when the codec gave a packet); without a
    packet it goes round again. *)
Definition run_track (task : nat) (s : state) : state * list obs :=
  match running s !! task with
  | None => (s, [])
  | Some (track, idx) =>
      match Relay.source_recv track (sources s) with
      | (None, srcs) =>
          (mkState (format_name s) (container_open s) (streams s) (muxed s) (tracks s)
             (delete task (running s)) (next_task s) srcs, [])
      | (Some f, srcs) =>
          let '(sts, mx) := encode_mux idx (Some f) (streams s) (muxed s) in
          if container_open s then
            (mkState (format_name s) true sts mx (tracks s) (running s) (next_task s)
               srcs, [])
          else if decide (length mx = length (muxed s)) then
            (mkState (format_name s) false sts (muxed s) (tracks s) (running s)
               (next_task s) srcs, [])
          else
            (mkState (format_name s) false sts (muxed s) (tracks s)
               (delete task (running s)) (next_task s) srcs, [TaskFailed task])
      end
  end.

Definition step (s : state) (e : event) : state * list obs :=
  match e with
  | AddTrack track => addTrack track s
  | Start => (start s, [])
  | Stop => (stop s, [])
  | RunTrack task => run_track task s
  end.

Fixpoint run (s : state) (es : list event) : state * list obs :=
  match es with
  | [] => (s, [])
  | e :: es' =>
      let '(s1, out1) := step s e in
      let '(s2, out2) := run s1 es' in
      (s2, out1 ++ out2)
  end.

End recorder.

Arguments mkState {packet encoder}.
Arguments format_name {packet encoder}.
Arguments container_open {packet encoder}.
Arguments streams {packet encoder}.
Arguments muxed {packet encoder}.
Arguments tracks {packet encoder}.
Arguments running {packet encoder}.
Arguments next_task {packet encoder}.
Arguments sources {packet encoder}.
Arguments init {packet encoder}.
Arguments addTrack {packet encoder}.
Arguments start {packet encoder}.
Arguments stop {packet encoder}.
Arguments encode_mux {packet encoder}.
Arguments stop_items {packet encoder}.
Arguments run_track {packet encoder}.
Arguments step {packet encoder}.
Arguments run {packet encoder}.

End Recorder.

(** ** Opening a player *)

Module PlayerInit.
Import Media Player.

Definition REAL_TIME_FORMATS : list string :=
  ["alsa"; "android_camera"; "avfoundation"; "bktr"; "decklink"; "dshow"; "fbdev";
   "gdigrab"; "iec61883"; "jack"; "kmsgrab"; "openal"; "oss"; "pulse"; "sndio";
   "rtsp"; "v4l2"; "vfwcap"; "x11grab"].

(** The loop of [MediaPlayer.__init__] over [container.streams], on the
    [type] of each stream: [audio] and [video] say whether [__audio] and
    [__video] are set, [kept] are the positions of the streams appended to
    [__streams], [i] is the position of the next stream. *)
Fixpoint examine_from (i : nat) (types : list string) (audio video : bool)
    (kept : list nat) : bool * bool * list nat :=
  match types with
  | [] => (audio, video, kept)
  | ty :: rest =>
      if bool_decide (ty = "audio") && negb audio
      then examine_from (S i) rest true video (kept ++ [i])
      else if bool_decide (ty = "video") && negb video
      then examine_from (S i) rest audio true (kept ++ [i])
      else examine_from (S i) rest audio video kept
  end.

Definition examine (types : list string) : bool * bool * list nat :=
  examine_from 0 types false false [].

(** [not container_format.intersection(REAL_TIME_FORMATS)], on the parts
    [format_names] of [container.format.name] between the commas. *)
Definition throttle_of (format_names : list string) : bool :=
  forallb (λ c, negb (bool_decide (c ∈ REAL_TIME_FORMATS))) format_names.

(** [MediaPlayer.__init__] on a container with streams of these [types]. *)
Definition player_init (types format_names : list string) : state :=
  init (examine types).1.1 (examine types).1.2 (throttle_of format_names).

End PlayerInit.

(** * Properties of the decode worker *)

Module WorkerFacts.
Import Media Worker.

#[local] Arguments drain : simpl never.

Lemma samples_per_frame_960 : audio_samples_per_frame = 960.
Proof. reflexivity. Qed.

(** A resampler for examples: it hands the samples back unchanged. *)
Definition copy_resample (r : unit) (a : AudioFrame) : unit * option (list Z) :=
  (r, Some (a_data a)).

Definition eagain_iteration : iteration := mkIter false (FFmpegError EAGAIN) 0 (-1) false.
Definition eof_iteration : iteration := mkIter false StopIteration 0 (-1) false.
Definition video_iteration (cap : Z) (v : VideoFrame) : iteration :=
  mkIter false (Decoded (FVideo v)) 0 cap false.
Definition audio_iteration (a : AudioFrame) : iteration :=
  mkIter false (Decoded (FAudio a)) 0 (-1) false.

Section facts.

Context {resampler : Type}.
Variable resample : resampler → AudioFrame → resampler * option (list Z).
Variables (audio_track video_track throttle_playback : bool).

Abbreviation run := (player_worker resample audio_track video_track throttle_playback).
Abbreviation ends := (sentinels audio_track video_track).

Definition retries (it : iteration) : Prop :=
  quit_is_set it = false ∧ decoded it = FFmpegError EAGAIN.

Definition fails (it : iteration) : Prop :=
  quit_is_set it = false
  ∧ (decoded it = StopIteration ∨ ∃ e, e ≠ EAGAIN ∧ decoded it = FFmpegError e).

Lemma run_retry st it rest :
  retries it → run st (it :: rest) = with_actions [Sleep (1 # 100)] (run st rest).
Proof. intros [Hq Hd]. simpl. by rewrite Hq, Hd. Qed.

Lemma run_retries st its rest :
  Forall retries its →
  run st (its ++ rest)
  = with_actions (replicate (length its) (Sleep (1 # 100))) (run st rest).
Proof.
  induction 1 as [|it its Hit _ IH].
  - unfold with_actions. simpl. by destruct (run st rest).
  - rewrite <- app_comm_cons, (run_retry _ _ _ Hit), IH.
    unfold with_actions. by simpl.
Qed.

Lemma run_fails st it rest : fails it → run st (it :: rest) = (ends, EndOfStream).
Proof.
  intros [Hq [Hd | (e & He & Hd)]]; simpl; rewrite Hq, Hd; [done|].
  by apply Z.eqb_neq in He as ->.
Qed.

End facts.

(** The video frames the decoder produced, and a frame with its timestamp
    moved back by [p0]. *)
Definition video_inputs (its : list iteration) : list VideoFrame :=
  omap (λ it, match decoded it with Decoded (FVideo v) => Some v | _ => None end) its.

Definition rebase (p0 : Z) (v : VideoFrame) : VideoFrame :=
  mkVideo (v_index v) ((λ p, p - p0) <$> v_pts v) (v_time_base v) (v_image v).

Definition origin (st_first : option Z) (origs : list VideoFrame) : Z :=
  default (default 0 (head origs ≫= v_pts)) st_first.

Section video_facts.

Context {resampler : Type}.
Variable resample : resampler → AudioFrame → resampler * option (list Z).
Variables (audio_track video_track throttle_playback : bool).

Abbreviation vrun := (player_worker resample audio_track video_track throttle_playback).

Lemma video_puts_app a b : video_puts (a ++ b) = video_puts a ++ video_puts b.
Proof. apply omap_app. Qed.

Lemma video_puts_with_actions acts r :
  video_puts (with_actions acts r).1 = video_puts acts ++ video_puts r.1.
Proof. apply video_puts_app. Qed.

Lemma video_puts_drain fuel ff ft : video_puts (drain fuel ff ft).1.1 = [].
Proof.
  revert ff ft. induction fuel as [|n IH]; intros ff ft; [done|].
  change (drain (S n) ff ft) with
    (match fifo_read ff audio_samples_per_frame with
     | Some (fr, ff') =>
         let '(acts, ff'', ft') := drain n ff' (a_time fr) in
         (Put Audio (Some (FAudio fr)) :: acts, ff'', ft')
     | None => ([], ff, ft)
     end).
  destruct (fifo_read ff audio_samples_per_frame) as [[fr ff']|]; [|done].
  specialize (IH ff' (a_time fr)).
  destruct (drain n ff' (a_time fr)) as [[acts ff''] ft']. simpl in *. done.
Qed.

Lemma video_puts_throttle (st : wstate resampler) it :
  video_puts (throttle throttle_playback st it) = [].
Proof.
  unfold throttle. destruct throttle_playback; [|done].
  destruct (frame_time st); [|done]. by case_match.
Qed.

Lemma video_puts_sentinels : video_puts (sentinels audio_track video_track) = [].
Proof. unfold sentinels. by destruct audio_track, video_track. Qed.

Lemma video_puts_rebased its : ∀ st,
  ∃ origs,
    origs `sublist_of` video_inputs its
    ∧ Forall (λ v, is_Some (v_pts v)) origs
    ∧ video_puts (vrun st its).1
      = map (rebase (origin (video_first_pts st) origs)) origs.
Proof.
  induction its as [|it rest IH]; intros st.
  { exists []. by repeat split. }
  remember (video_inputs (it :: rest)) as ins eqn:Hins.
  assert (Hrest : video_inputs rest `sublist_of` ins).
  { subst ins. unfold video_inputs. simpl. case_match; [by apply sublist_cons|done]. }
  assert (Hskip : ∀ st' pre, video_puts pre = [] →
    ∃ origs, origs `sublist_of` ins
      ∧ Forall (λ v, is_Some (v_pts v)) origs
      ∧ video_puts (with_actions pre (vrun st' rest)).1
        = map (rebase (origin (video_first_pts st') origs)) origs).
  { intros st' pre Hpre. destruct (IH st') as (origs & Hsub & Hall & Heq).
    exists origs. split_and!; [by etrans|done|].
    by rewrite video_puts_with_actions, Hpre, Heq. }
  assert (Hnone : ∀ acts o, video_puts acts = [] →
    ∃ origs, origs `sublist_of` ins
      ∧ Forall (λ v, is_Some (v_pts v)) origs
      ∧ video_puts ((acts, o) : list action * outcome).1
        = map (rebase (origin (video_first_pts st) origs)) origs).
  { intros acts o Hacts. exists []. split_and!; [apply sublist_nil_l|done|done]. }
  simpl. destruct (quit_is_set it); [by apply Hnone|].
  destruct (decoded it) as [[a|v]|e|] eqn:Hd.
  - (* an audio frame *)
    destruct audio_track.
    + destruct (if needs_resampling a then _ else _) as [r [a1|]].
      2:{ apply (Hnone _ Raised). simpl. rewrite app_nil_r. apply video_puts_throttle. }
      destruct (fifo_write _ _) as [ff|].
      2:{ apply (Hnone _ Raised). simpl. rewrite app_nil_r. apply video_puts_throttle. }
      pose proof (video_puts_drain (S (length (fifo_buf ff))) ff (frame_time st)) as Hdr.
      destruct (drain _ ff (frame_time st)) as [[acts ff'] ft]. simpl in Hdr.
      set (st' := mkW _ _ _ _ _).
      destruct (Hskip st' acts Hdr) as (origs & Hsub & Hall & Heq).
      exists origs. split_and!; [done..|].
      by rewrite video_puts_with_actions, video_puts_throttle, Heq.
    + destruct (Hskip st [] eq_refl) as (origs & Hsub & Hall & Heq).
      exists origs. split_and!; [done..|].
      rewrite video_puts_with_actions, video_puts_throttle. simpl.
      unfold with_actions in Heq. simpl in Heq. done.
  - (* a video frame *)
    destruct video_track.
    2:{ destruct (Hskip st [] eq_refl) as (origs & Hsub & Hall & Heq).
        exists origs. split_and!; [done..|].
        rewrite video_puts_with_actions, video_puts_throttle. simpl.
        unfold with_actions in Heq. simpl in Heq. done. }
    set (awaited := (0 <? max_frame_to_decode it) && (max_frame_to_decode it <? v_index v)).
    destruct (awaited && quit_after_sleep it).
    { apply (Hnone _ QuitWhileAwaiting). rewrite video_puts_app, video_puts_throttle. done. }
    set (gate := if awaited then _ else _).
    assert (Hgate : video_puts (throttle throttle_playback st it ++ gate) = []).
    { rewrite video_puts_app, video_puts_throttle. unfold gate. by destruct awaited. }
    destruct (v_pts v) as [pts|] eqn:Hpts.
    + set (st' := mkW _ _ _ _ _).
      destruct (IH st') as (origs & Hsub & Hall & Heq).
      exists (v :: origs). split_and!.
      * subst ins. unfold video_inputs. simpl. rewrite Hd. by apply sublist_skip.
      * constructor; [by rewrite Hpts|done].
      * rewrite !video_puts_with_actions, video_puts_throttle. simpl.
        replace (video_puts gate) with (@nil VideoFrame) by (unfold gate; by destruct awaited).
        simpl. rewrite Heq. simpl.
        assert (Ho : origin (video_first_pts st) (v :: origs)
                     = default pts (video_first_pts st)).
        { unfold origin. simpl. rewrite Hpts. by destruct (video_first_pts st). }
        rewrite Ho.
        f_equal. unfold rebase. by rewrite Hpts.
    + destruct (Hskip st (gate ++ [LogSkippingNoPts])) as (origs & Hsub & Hall & Heq).
      { rewrite video_puts_app. unfold gate. by destruct awaited. }
      exists origs. split_and!; [done..|].
      rewrite <- Heq. rewrite !video_puts_with_actions, !video_puts_app, video_puts_throttle.
      simpl. by rewrite app_nil_r.
  - (* a decode error *)
    destruct (e =? EAGAIN).
    + by apply Hskip.
    + apply (Hnone _ EndOfStream), video_puts_sentinels.
  - apply (Hnone _ EndOfStream), video_puts_sentinels.
Qed.

Lemma run_skips_untimed st it rest v :
  video_track = true →
  quit_is_set it = false →
  decoded it = Decoded (FVideo v) →
  v_pts v = None →
  ((0 <? max_frame_to_decode it) && (max_frame_to_decode it <? v_index v))
    && quit_after_sleep it = false →
  ∃ pre, video_puts pre = []
    ∧ vrun st (it :: rest) = with_actions (pre ++ [LogSkippingNoPts]) (vrun st rest).
Proof.
  intros Hv Hq Hd Hpts Hg. simpl. rewrite Hq, Hd, Hv, Hg, Hpts.
  set (gate := if (0 <? max_frame_to_decode it) && (max_frame_to_decode it <? v_index v)
               then _ else _).
  exists (throttle throttle_playback st it ++ gate). split.
  - rewrite video_puts_app, video_puts_throttle. unfold gate. by case_match.
  - unfold with_actions. cbn [fst snd]. f_equal. by rewrite <- !app_assoc.
Qed.

End video_facts.

(** The audio side: the FIFO as the worker leaves it after [k] frames have
    been read from it. *)
Definition tpl48 : string * string * Z * Q :=
  (audio_format_name, audio_layout_name, audio_sample_rate, (1 # 48000)%Q).

Definition pps48 : Q := (/ (1 # 48000) / inject_Z audio_sample_rate)%Q.

Definition fifo_ok (ff : AudioFifo) (k : Z) : Prop :=
  match fifo_template ff with
  | None => fifo_buf ff = []
  | Some t => t = tpl48 ∧ pts_per_sample ff = pps48
  end
  ∧ samples_read ff = audio_samples_per_frame * k
  ∧ samples_written ff = samples_read ff + Z.of_nat (length (fifo_buf ff)).

(** A frame of the nominal size that starts at sample [960 * k]. *)
Definition on_grid (k : Z) (fr : AudioFrame) : Prop :=
  a_samples fr = audio_samples_per_frame
  ∧ a_pts fr = Some (audio_samples_per_frame * k)
  ∧ a_time_base fr = (1 # 48000)%Q
  ∧ a_format fr = audio_format_name
  ∧ a_layout fr = audio_layout_name
  ∧ a_sample_rate fr = audio_sample_rate.

Definition progression (k : Z) (frs : list AudioFrame) : Prop :=
  ∀ i fr, frs !! i = Some fr → on_grid (k + Z.of_nat i) fr.

(** The same decode with the timestamp of every audio frame replaced. *)
Definition retime (g : AudioFrame → option Z) (it : iteration) : iteration :=
  match decoded it with
  | Decoded (FAudio a) =>
      mkIter (quit_is_set it)
        (Decoded (FAudio (mkAudio (a_format a) (a_layout a) (a_sample_rate a)
                                  (a_data a) (g a) (a_time_base a))))
        (elapsed_time it) (max_frame_to_decode it) (quit_after_sleep it)
  | _ => it
  end.

Lemma pps48_int n : int_of (pps48 * inject_Z n) = n.
Proof.
  unfold int_of. change (Qnum (pps48 * inject_Z n)) with (48000 * n).
  change (Z.pos (Qden (pps48 * inject_Z n))) with 48000.
  rewrite Z.mul_comm. apply Z.quot_mul. lia.
Qed.

Lemma progression_nil k : progression k [].
Proof. by intros i fr. Qed.

Lemma progression_cons k fr frs :
  on_grid k fr → progression (k + 1) frs → progression k (fr :: frs).
Proof.
  intros Hfr Hfrs [|i] fr'; simpl.
  - intros [= <-]. by rewrite Z.add_0_r.
  - intros Hi. specialize (Hfrs i fr' Hi).
    by replace (k + Z.of_nat (S i)) with (k + 1 + Z.of_nat i) by lia.
Qed.

Lemma progression_app k frs1 frs2 :
  progression k frs1 → progression (k + Z.of_nat (length frs1)) frs2 →
  progression k (frs1 ++ frs2).
Proof.
  intros H1 H2 i fr Hi. apply lookup_app_Some in Hi as [Hi | [Hlen Hi]].
  - by apply H1.
  - specialize (H2 _ _ Hi).
    by replace (k + Z.of_nat i)
      with (k + Z.of_nat (length frs1) + Z.of_nat (i - length frs1)) by lia.
Qed.

Lemma audio_puts_app a b : audio_puts (a ++ b) = audio_puts a ++ audio_puts b.
Proof. apply omap_app. Qed.

Lemma fifo_read_ok ff k fr ff' :
  fifo_ok ff k →
  fifo_read ff audio_samples_per_frame = Some (fr, ff') →
  on_grid k fr
  ∧ fifo_ok ff' (k + 1)
  ∧ samples_written ff' = samples_written ff
  ∧ (length (fifo_buf ff') < length (fifo_buf ff))%nat.
Proof.
  intros (Ht & Hr & Hw). unfold fifo_read.
  destruct (fifo_template ff) as [[[[fmt lay] rate] tb]|] eqn:Htpl; [|done].
  destruct Ht as [[= -> -> -> ->] Hpps].
  change audio_samples_per_frame with 960 in *.
  change (960 =? 0) with false. cbv iota.
  destruct (Z.ltb_spec (Z.of_nat (length (fifo_buf ff))) 1) as [|Hone]; [done|].
  destruct (Z.ltb_spec (Z.of_nat (length (fifo_buf ff))) 960) as [|Hlen]; [done|].
  rewrite Hpps. change (q_is_zero pps48) with false. cbv iota.
  rewrite pps48_int. intros [= <- <-]. unfold on_grid, fifo_ok, a_samples. simpl.
  rewrite length_take, length_drop.
  change audio_samples_per_frame with 960.
  split_and!; try done; try lia. f_equal. lia.
Qed.

Lemma drain_ok fuel : ∀ ff ft k,
  fifo_ok ff k →
  progression k (audio_puts (drain fuel ff ft).1.1)
  ∧ fifo_ok (drain fuel ff ft).1.2
      (k + Z.of_nat (length (audio_puts (drain fuel ff ft).1.1)))
  ∧ samples_written (drain fuel ff ft).1.2 = samples_written ff.
Proof.
  induction fuel as [|n IH]; intros ff ft k Hok.
  { simpl. rewrite Z.add_0_r. split_and!; [apply progression_nil|done..]. }
  change (drain (S n) ff ft) with
    (match fifo_read ff audio_samples_per_frame with
     | Some (fr, ff') =>
         let '(acts, ff'', ft') := drain n ff' (a_time fr) in
         (Put Audio (Some (FAudio fr)) :: acts, ff'', ft')
     | None => ([], ff, ft)
     end).
  destruct (fifo_read ff audio_samples_per_frame) as [[fr ff']|] eqn:Hrd.
  2:{ simpl. rewrite Z.add_0_r. split_and!; [apply progression_nil|done..]. }
  destruct (fifo_read_ok _ _ _ _ Hok Hrd) as (Hfr & Hok' & Hw & _).
  destruct (IH ff' (a_time fr) (k + 1) Hok') as (Hp & Hf & Hw').
  destruct (drain n ff' (a_time fr)) as [[acts ff''] ft'']. simpl in *.
  split_and!.
  - by apply progression_cons.
  - by replace (k + Z.of_nat (S (length (audio_puts acts))))
      with (k + 1 + Z.of_nat (length (audio_puts acts))) by lia.
  - congruence.
Qed.

(** With more fuel than buffered samples the inner loop stops because the
    FIFO has nothing more to hand out, never because the fuel ran out. *)
Lemma drain_completes fuel : ∀ ff ft k,
  fifo_ok ff k →
  (length (fifo_buf ff) < fuel)%nat →
  fifo_read (drain fuel ff ft).1.2 audio_samples_per_frame = None.
Proof.
  induction fuel as [|n IH]; intros ff ft k Hok Hlen; [lia|].
  change (drain (S n) ff ft) with
    (match fifo_read ff audio_samples_per_frame with
     | Some (fr, ff') =>
         let '(acts, ff'', ft') := drain n ff' (a_time fr) in
         (Put Audio (Some (FAudio fr)) :: acts, ff'', ft')
     | None => ([], ff, ft)
     end).
  destruct (fifo_read ff audio_samples_per_frame) as [[fr ff']|] eqn:Hrd; [|done].
  destruct (fifo_read_ok _ _ _ _ Hok Hrd) as (_ & Hok' & _ & Hshort).
  specialize (IH ff' (a_time fr) (k + 1) Hok' ltac:(lia)).
  by destruct (drain n ff' (a_time fr)) as [[acts ff''] ft''].
Qed.

Lemma fifo_write_ok ff k d :
  fifo_ok ff k →
  ∃ ff',
    fifo_write ff (mkAudio audio_format_name audio_layout_name audio_sample_rate d
                     (Some (samples_written ff)) (1 # 48000)) = Some ff'
    ∧ fifo_ok ff' k
    ∧ samples_written ff' = samples_written ff + Z.of_nat (length d).
Proof.
  intros (Ht & Hr & Hw). unfold fifo_write, a_samples. simpl.
  destruct (Z.eqb_spec (Z.of_nat (length d)) 0) as [Hz|Hnz].
  { exists ff. split_and!; [done|done|lia]. }
  destruct (fifo_template ff) as [t|] eqn:Htpl.
  - destruct Ht as [-> Hpps]. change (same_attrs tpl48 _) with true. cbv iota.
    unfold pts_matches. rewrite Hpps. change (q_is_zero pps48) with false.
    simpl. rewrite pps48_int, Z.eqb_refl.
    eexists. split; [done|]. unfold fifo_ok. simpl. rewrite ?Htpl, length_app.
    repeat split; try done; lia.
  - unfold pts_matches. simpl. change (q_is_zero _) with false. cbv iota.
    change (/ (1 # 48000) / inject_Z audio_sample_rate)%Q with pps48.
    rewrite pps48_int, Z.eqb_refl.
    eexists. split; [done|]. unfold fifo_ok. simpl. rewrite length_app, Ht.
    rewrite Ht in Hw. simpl in *. repeat split; try done; lia.
Qed.

Lemma no_resampling_needed a :
  needs_resampling a = false →
  a_format a = audio_format_name ∧ a_layout a = audio_layout_name
  ∧ a_sample_rate a = audio_sample_rate.
Proof.
  unfold needs_resampling. intros H.
  apply orb_false_iff in H as [H H3]. apply orb_false_iff in H as [H1 H2].
  apply negb_false_iff in H1, H2, H3.
  apply bool_decide_eq_true in H1, H2. by apply Z.eqb_eq in H3.
Qed.

Section audio_facts.

Context {resampler : Type}.
Variable resample : resampler → AudioFrame → resampler * option (list Z).
Variables (audio_track video_track throttle_playback : bool).

Abbreviation arun := (player_worker resample audio_track video_track throttle_playback).

Definition winv (st : wstate resampler) (k : Z) : Prop :=
  audio_samples st = samples_written (audio_fifo st) ∧ fifo_ok (audio_fifo st) k.

Definition always_resamples : Prop := ∀ r a, (resample r a).2 ≠ None.

Lemma audio_puts_throttle (st : wstate resampler) it :
  audio_puts (throttle throttle_playback st it) = [].
Proof.
  unfold throttle. destruct throttle_playback; [|done].
  destruct (frame_time st); [|done]. by case_match.
Qed.

Lemma audio_puts_sentinels : audio_puts (sentinels audio_track video_track) = [].
Proof. unfold sentinels. by destruct audio_track, video_track. Qed.

Lemma audio_puts_progression its : ∀ st k,
  winv st k →
  progression k (audio_puts (arun st its).1)
  ∧ (always_resamples → (arun st its).2 ≠ Raised).
Proof.
  induction its as [|it rest IH]; intros st k Hinv.
  { split; [apply progression_nil|done]. }
  assert (Hskip : ∀ st' pre, audio_puts pre = [] → winv st' k →
    progression k (audio_puts (with_actions pre (arun st' rest)).1)
    ∧ (always_resamples → (with_actions pre (arun st' rest)).2 ≠ Raised)).
  { intros st' pre Hpre Hinv'. destruct (IH st' k Hinv') as [Hp Hr].
    unfold with_actions. simpl. by rewrite audio_puts_app, Hpre. }
  assert (Hstop : ∀ acts o, audio_puts acts = [] → o ≠ Raised →
    progression k (audio_puts ((acts, o) : list action * outcome).1)
    ∧ (always_resamples → ((acts, o) : list action * outcome).2 ≠ Raised)).
  { intros acts o Hacts Ho. simpl. rewrite Hacts. split; [apply progression_nil|done]. }
  simpl. destruct (quit_is_set it); [by apply Hstop|].
  destruct (decoded it) as [[a|v]|e|] eqn:Hd.
  - (* an audio frame *)
    destruct audio_track; [|by apply Hskip; [apply audio_puts_throttle|]].
    destruct Hinv as [Hsamples Hok].
    assert (Hwrite : ∀ r d,
      let a2 := mkAudio audio_format_name audio_layout_name audio_sample_rate d
                        (Some (audio_samples st)) (1 # 48000) in
      let res :=
        with_actions (throttle throttle_playback st it)
          match fifo_write (audio_fifo st) a2 with
          | Some ff =>
              let '(acts, ff', ft) := drain (S (length (fifo_buf ff))) ff (frame_time st) in
              with_actions acts
                (player_worker resample true video_track throttle_playback
                   (mkW ff' (audio_samples st + a_samples a2) r
                        (video_first_pts st) ft) rest)
          | None => ([], Raised)
          end in
      progression k (audio_puts res.1) ∧ (always_resamples → res.2 ≠ Raised)).
    { intros r d a2 res. subst res a2. rewrite Hsamples.
      destruct (fifo_write_ok (audio_fifo st) k d Hok) as (ff & -> & Hok' & Hw).
      destruct (drain_ok (S (length (fifo_buf ff))) ff (frame_time st) k Hok')
        as (Hp & Hok'' & Hw').
      destruct (drain _ ff (frame_time st)) as [[acts ff'] ft]. simpl in Hp, Hok'', Hw'.
      set (st' := mkW _ _ _ _ _).
      destruct (IH st' (k + Z.of_nat (length (audio_puts acts)))) as [Hp' Hr'].
      { split; [|done]. unfold st', a_samples. simpl. lia. }
      unfold with_actions. simpl. split; [|exact Hr'].
      rewrite !audio_puts_app, audio_puts_throttle. simpl.
      by apply progression_app. }
    destruct (needs_resampling a) eqn:Hn.
    + destruct (resample _ _) as [r [d|]] eqn:Hres; simpl.
      * apply (Hwrite r d).
      * unfold with_actions. simpl. rewrite app_nil_r, audio_puts_throttle.
        split; [apply progression_nil|]. intros Hall. exfalso.
        eapply Hall. by erewrite Hres.
    + destruct (no_resampling_needed a Hn) as (-> & -> & ->).
      apply (Hwrite (audio_resampler st) (a_data a)).
  - (* a video frame *)
    destruct video_track; [|by apply Hskip; [apply audio_puts_throttle|]].
    set (awaited := (0 <? max_frame_to_decode it) && (max_frame_to_decode it <? v_index v)).
    destruct (awaited && quit_after_sleep it).
    { apply Hstop; [|done]. by rewrite audio_puts_app, audio_puts_throttle. }
    set (gate := if awaited then _ else _).
    assert (Hgate : audio_puts gate = []) by (unfold gate; by destruct awaited).
    destruct (v_pts v) as [pts|].
    + set (st' := mkW _ _ _ _ _).
      destruct (IH st' k Hinv) as [Hp Hr].
      unfold with_actions. simpl.
      by rewrite !audio_puts_app, audio_puts_throttle, Hgate.
    + destruct (IH st k Hinv) as [Hp Hr].
      unfold with_actions. simpl.
      by rewrite !audio_puts_app, audio_puts_throttle, Hgate.
  - (* a decode error *)
    destruct (e =? EAGAIN).
    + by apply Hskip.
    + apply Hstop; [apply audio_puts_sentinels|done].
  - apply Hstop; [apply audio_puts_sentinels|done].
Qed.

Lemma run_retimed g its : ∀ st, arun st (map (retime g) its) = arun st its.
Proof.
  induction its as [|it rest IH]; intros st; [done|].
  rewrite map_cons.
  destruct (decoded it) as [[a|v]|e|] eqn:Hd.
  2-4: replace (retime g it) with it by (unfold retime; by rewrite Hd).
  2-4: simpl; rewrite Hd.
  - unfold retime at 1. rewrite Hd. simpl. rewrite Hd.
    destruct (quit_is_set it); [done|]. f_equal.
    destruct audio_track; [|apply IH].
    unfold needs_resampling. simpl.
    destruct (_ || negb (a_sample_rate a =? audio_sample_rate)); simpl.
    + destruct (resample _ _) as [r [d|]]; simpl; [|done].
      destruct (fifo_write _ _); [|done].
      destruct (drain _ _ _) as [[acts ff'] ft]. by rewrite IH.
    + destruct (fifo_write _ _); [|done].
      destruct (drain _ _ _) as [[acts ff'] ft]. by rewrite IH.
  - destruct (quit_is_set it); [done|]. f_equal.
    destruct video_track; [|apply IH].
    destruct (_ && quit_after_sleep it); [done|]. f_equal.
    destruct (v_pts v); by rewrite IH.
  - destruct (quit_is_set it); [done|]. destruct (e =? EAGAIN); [|done].
    by rewrite IH.
  - done.
Qed.

End audio_facts.

Lemma winv_init {resampler : Type} (r0 : resampler) : winv (wstate_init r0) 0.
Proof. repeat split. Qed.

(** C3. Whatever the decoder produces and whatever timestamps the decoded
    audio frames carry, the [i]-th frame handed to the audio track is in the
    target format (s16, stereo, 48 kHz, time base 1/48000), holds exactly
    [int(48000 * AUDIO_PTIME)] = 960 samples, and has timestamp [i] times its
    sample count: the timestamps start at 0 and advance by the sample count
    without a gap.  Replacing the upstream timestamps changes nothing in
    what the worker does, and the FIFO never refuses a frame: the worker
    stops with an exception only if the resampler hands back nothing. *)
Theorem audio_frames_on_sample_grid
    {resampler : Type} (resample : resampler → AudioFrame → resampler * option (list Z))
    (audio_track video_track throttle_playback : bool)
    (r0 : resampler) (its : list iteration) (g : AudioFrame → option Z)
    (i : nat) (fr : AudioFrame) :
  audio_puts (player_worker resample audio_track video_track throttle_playback
                (wstate_init r0) its).1 !! i = Some fr →
  audio_samples_per_frame = 960
  ∧ a_samples fr = audio_samples_per_frame
  ∧ a_pts fr = Some (Z.of_nat i * a_samples fr)
  ∧ a_format fr = "s16" ∧ a_layout fr = "stereo" ∧ a_sample_rate fr = 48000
  ∧ a_time_base fr = (1 # 48000)%Q
  ∧ player_worker resample audio_track video_track throttle_playback
      (wstate_init r0) (map (retime g) its)
    = player_worker resample audio_track video_track throttle_playback
        (wstate_init r0) its
  ∧ ((∀ r a, (resample r a).2 ≠ None) →
     (player_worker resample audio_track video_track throttle_playback
        (wstate_init r0) its).2 ≠ Raised).
Proof.
  intros Hi.
  destruct (audio_puts_progression resample audio_track video_track throttle_playback
              its (wstate_init r0) 0 (winv_init r0)) as [Hp Hr].
  destruct (Hp i fr Hi) as (Hn & Hpts & Htb & Hfmt & Hlay & Hrate).
  split_and!; try done.
  - rewrite Hpts, Hn. f_equal. lia.
  - apply run_retimed.
Qed.

Definition jittery_audio : list iteration :=
  [audio_iteration (mkAudio "fltp" "mono" 44100 (replicate 1000 7) (Some 123456) (1 # 44100));
   audio_iteration (mkAudio "fltp" "mono" 44100 (replicate 1000 9) None (1 # 44100))].

Definition second_audio_frame : AudioFrame :=
  mkAudio "s16" "stereo" 48000 (replicate 40 7 ++ replicate 920 9) (Some 960) (1 # 48000).

Lemma audio_frames_on_sample_grid_witness :
  audio_puts (player_worker copy_resample true true true (wstate_init tt) jittery_audio).1
    !! 1%nat = Some second_audio_frame
  ∧ a_samples second_audio_frame = audio_samples_per_frame
  ∧ a_pts second_audio_frame = Some (Z.of_nat 1 * a_samples second_audio_frame).
Proof.
  assert (H : audio_puts (player_worker copy_resample true true true
                            (wstate_init tt) jittery_audio).1
              !! 1%nat = Some second_audio_frame) by (vm_compute; reflexivity).
  split; [exact H|].
  pose proof (audio_frames_on_sample_grid copy_resample true true true tt jittery_audio
                (λ _, None) 1 second_audio_frame H) as (_ & Hs & Hp & _).
  exact (conj Hs Hp).
Defined.

(** C4. Whatever the decoder produces, the frames handed to the video track
    are, in order, decoded video frames that carry a timestamp, each with
    the timestamp of the first of them subtracted: the first one handed over
    has timestamp 0, and the distance between the timestamps of any two of
    them is the distance between their original timestamps, so their order
    is kept.  A video frame without a timestamp is logged and dropped, and
    the worker goes on with the next decode in the same state. *)
Theorem video_pts_rebased_to_origin
    {resampler : Type} (resample : resampler → AudioFrame → resampler * option (list Z))
    (audio_track video_track throttle_playback : bool)
    (r0 : resampler) (its : list iteration)
    (st : wstate resampler) (it : iteration) (rest : list iteration) (v : VideoFrame) :
  video_track = true →
  quit_is_set it = false →
  decoded it = Decoded (FVideo v) →
  v_pts v = None →
  ((0 <? max_frame_to_decode it) && (max_frame_to_decode it <? v_index v))
    && quit_after_sleep it = false →
  (∃ origs,
     let puts := video_puts
       (player_worker resample audio_track video_track throttle_playback
          (wstate_init r0) its).1 in
     origs `sublist_of` video_inputs its
     ∧ Forall (λ o, is_Some (v_pts o)) origs
     ∧ puts = map (rebase (default 0 (head origs ≫= v_pts))) origs
     ∧ (∀ c, head puts = Some c → v_pts c = Some 0)
     ∧ (∀ i j oi oj ci cj,
          origs !! i = Some oi → origs !! j = Some oj →
          puts !! i = Some ci → puts !! j = Some cj →
          ∃ pi pj qi qj,
            v_pts oi = Some pi ∧ v_pts oj = Some pj
            ∧ v_pts ci = Some qi ∧ v_pts cj = Some qj
            ∧ qj - qi = pj - pi ∧ (pi ≤ pj → qi ≤ qj)))
  ∧ (∃ pre,
       video_puts pre = []
       ∧ player_worker resample audio_track video_track throttle_playback st (it :: rest)
         = with_actions (pre ++ [LogSkippingNoPts])
             (player_worker resample audio_track video_track throttle_playback st rest)).
Proof.
  intros Hv Hq Hd Hpts Hg. split.
  2:{ subst video_track. by eapply run_skips_untimed. }
  destruct (video_puts_rebased resample audio_track video_track throttle_playback
              its (wstate_init r0)) as (origs & Hsub & Hall & Heq).
  exists origs. cbn zeta. unfold origin in Heq. simpl in Heq.
  split_and!; [done..| |].
  - intros c. rewrite Heq. destruct origs as [|o origs]; [done|].
    apply Forall_cons_1 in Hall as [[p Hp] _].
    simpl. intros [= <-]. unfold rebase. simpl. destruct (v_pts o) as [p'|]; [|done].
    simpl. f_equal. lia.
  - intros i j oi oj ci cj Hoi Hoj. rewrite Heq, !list_lookup_fmap, Hoi, Hoj.
    simpl. intros [= <-] [= <-].
    destruct (proj1 (Forall_lookup _ _) Hall _ _ Hoi) as [pi Hpi].
    destruct (proj1 (Forall_lookup _ _) Hall _ _ Hoj) as [pj Hpj].
    exists pi, pj, (pi - default 0 (head origs ≫= v_pts)),
      (pj - default 0 (head origs ≫= v_pts)).
    simpl. rewrite Hpi, Hpj. simpl.
    split_and!; [done..| |]; lia.
Qed.

Definition untimed_frame : VideoFrame := mkVideo 1 None (1 # 1000) 1.

Definition webcam_frames : list iteration :=
  [video_iteration (-1) (mkVideo 0 (Some 7000) (1 # 1000) 0);
   video_iteration (-1) untimed_frame;
   video_iteration (-1) (mkVideo 2 (Some 7066) (1 # 1000) 2)].

Lemma video_pts_rebased_to_origin_witness :
  video_puts (player_worker copy_resample false true false (wstate_init tt) webcam_frames).1
  = [mkVideo 0 (Some 0) (1 # 1000) 0; mkVideo 2 (Some 66) (1 # 1000) 2]
  ∧ ∃ pre,
      video_puts pre = []
      ∧ player_worker copy_resample false true false (wstate_init tt)
          (video_iteration (-1) untimed_frame :: [])
        = with_actions (pre ++ [LogSkippingNoPts])
            (player_worker copy_resample false true false (wstate_init tt) []).
Proof.
  split; [reflexivity|].
  exact (proj2 (video_pts_rebased_to_origin copy_resample false true false tt webcam_frames
                  (wstate_init tt) (video_iteration (-1) untimed_frame) [] untimed_frame
                  eq_refl eq_refl eq_refl eq_refl eq_refl)).
Defined.

(** C8. A would-block decode error only makes the worker sleep 10 ms and go
    round the loop again, any number of times in a row, so the run goes on
    with what follows and no track is handed anything; at the end of the
    stream, or on any other decode error, the worker hands the end sentinel
    to the audio track and to the video track, each if present, and
    terminates at once. *)
Theorem worker_retries_then_ends
    {resampler : Type} (resample : resampler → AudioFrame → resampler * option (list Z))
    (audio_track video_track throttle_playback : bool)
    (st : wstate resampler) (its : list iteration) (it : iteration) (rest : list iteration) :
  Forall retries its →
  fails it →
  player_worker resample audio_track video_track throttle_playback st (its ++ rest)
  = with_actions (replicate (length its) (Sleep (1 # 100)))
      (player_worker resample audio_track video_track throttle_playback st rest)
  ∧ player_worker resample audio_track video_track throttle_playback st (it :: rest)
    = ((if audio_track then [Put Audio None] else [])
       ++ (if video_track then [Put Video None] else []), EndOfStream)
  ∧ player_worker resample audio_track video_track throttle_playback st (its ++ it :: rest)
    = (replicate (length its) (Sleep (1 # 100))
       ++ (if audio_track then [Put Audio None] else [])
       ++ (if video_track then [Put Video None] else []), EndOfStream).
Proof.
  intros Hits Hit. split_and!.
  - by apply run_retries.
  - by apply run_fails.
  - rewrite (run_retries _ _ _ _ _ _ _ Hits), (run_fails _ _ _ _ _ _ _ Hit). done.
Qed.

Lemma worker_retries_then_ends_witness :
  Forall retries [eagain_iteration; eagain_iteration]
  ∧ fails eof_iteration
  ∧ player_worker copy_resample true true true (wstate_init tt)
      ([eagain_iteration; eagain_iteration] ++ eof_iteration :: [eagain_iteration])
    = ([Sleep (1 # 100); Sleep (1 # 100); Put Audio None; Put Video None], EndOfStream).
Proof.
  assert (H1 : Forall retries [eagain_iteration; eagain_iteration])
    by (repeat constructor).
  assert (H2 : fails eof_iteration) by (split; [reflexivity | left; reflexivity]).
  split_and!; [exact H1 | exact H2 |].
  exact (proj2 (proj2 (worker_retries_then_ends copy_resample true true true
                         (wstate_init tt) _ _ [eagain_iteration] H1 H2))).
Defined.

(** C2 (the code at the failing input). With the cap at 5, the quit event
    never set and the cap never raised, the worker decodes the frame of
    index 6, sleeps one second once and then hands that frame and the
    following ones to the video track. *)
Theorem gate_sleeps_once_then_emits :
  player_worker copy_resample false true false (wstate_init tt)
    [video_iteration 5 (mkVideo 6 (Some 600) (1 # 1000) 0);
     video_iteration 5 (mkVideo 7 (Some 633) (1 # 1000) 1)]
  = ([LogAwaiting 6 5; Sleep 1; LogContinuing;
      Put Video (Some (FVideo (mkVideo 6 (Some 0) (1 # 1000) 0)));
      LogAwaiting 7 5; Sleep 1; LogContinuing;
      Put Video (Some (FVideo (mkVideo 7 (Some 33) (1 # 1000) 1)))], Looping).
Proof. reflexivity. Qed.

End WorkerFacts.

(** * Properties of the media player *)

Module PlayerFacts.
Import Media Player.

(** Only the thread in [__thread] can be running; while [__thread] is set
    some track is started and the container is open; while the container is
    open and some track is started, [__thread] is set; a live track still
    knows its player. *)
Record inv (s : state) : Prop := mkInv {
  inv_alive : ∀ tid, tid ∈ alive s → thread s = Some tid;
  inv_thread : is_Some (thread s) → started s ≠ ∅ ∧ container_open s = true;
  inv_started : started s ≠ ∅ → container_open s = true → is_Some (thread s);
  inv_bound : ∀ k t, get_track k s = Some t → ended t = false → player_bound t = true
}.

(** A track that has ended. *)
Definition terminal (k : kind) (s : state) : Prop :=
  ∃ t, get_track k s = Some t ∧ ended t = true.

Lemma get_track_set_track k k' t s :
  get_track k (set_track k' t s) = if decide (k = k') then Some t else get_track k s.
Proof. by destruct k, k'. Qed.

Lemma get_track_start k k' s : get_track k (_start k' s).1.1 = get_track k s.
Proof.
  unfold _start. simpl. destruct (thread s); [by destruct k|].
  by destruct (container_open s), k.
Qed.

Lemma get_track_stop_player k k' s : get_track k (_stop k' s).1.1 = get_track k s.
Proof.
  unfold _stop. simpl. destruct (decide _); [|by destruct k].
  destruct (thread s); simpl.
  - destruct (container_open s); simpl; by destruct k.
  - destruct (container_open s); simpl; by destruct k.
Qed.

Lemma player_inv_init a v th : inv (init a v th).
Proof.
  split; simpl.
  - intros tid Hin. set_solver.
  - intros [? [=]].
  - intros Hne. done.
  - intros k t Ht Hl. destruct k, a, v; simpl in Ht; by simplify_eq.
Qed.

Lemma player_inv_set_track k t s :
  inv s → (ended t = false → player_bound t = true) → inv (set_track k t s).
Proof.
  intros [Halive Hthread Hstarted Hbound] Ht. split.
  1-3: by destruct k.
  intros k' t'. rewrite get_track_set_track. case_decide; [|by apply Hbound].
  by intros [= <-].
Qed.

Lemma player_inv_start k s : inv s → inv (_start k s).1.1.
Proof.
  intros [Halive Hthread Hstarted Hbound]. split.
  4:{ intros k' t'. rewrite get_track_start. apply Hbound. }
  all: unfold _start; simpl; destruct (thread s) as [tid|] eqn:Hth.
  - simpl. by rewrite Hth.
  - assert (Hnone : alive s = ∅).
    { apply set_eq. intros tid. split; [|set_solver]. intros Hin.
      by specialize (Halive _ Hin). }
    destruct (container_open s) eqn:Hc; simpl; rewrite ?Hth; intros tid.
    + rewrite Hnone. set_solver.
    + rewrite Hnone. set_solver.
  - simpl. intros _. split; [set_solver|]. by apply Hthread.
  - destruct (container_open s) eqn:Hc; simpl; rewrite ?Hth.
    + intros _. split; [set_solver|done].
    + by intros [? [=]].
  - simpl. rewrite Hth. by eexists.
  - destruct (container_open s) eqn:Hc; simpl; rewrite ?Hth, ?Hc; [by eexists|done].
Qed.

Lemma player_inv_stop_player k s : inv s → inv (_stop k s).1.1.
Proof.
  intros [Halive Hthread Hstarted Hbound]. split.
  4:{ intros k' t'. rewrite get_track_stop_player. apply Hbound. }
  all: unfold _stop; simpl;
    destruct (decide (started s ∖ {[k]} = ∅)) as [Hempty|Hne]; simpl.
  - destruct (thread s) as [tid|] eqn:Hth.
    + destruct (Hthread ltac:(by eexists)) as [_ Hc]. rewrite Hc. simpl.
      intros tid' Hin. apply elem_of_difference in Hin as [Hin Hne].
      specialize (Halive _ Hin). set_solver.
    + simpl. destruct (container_open s) eqn:Hc; simpl; rewrite ?Hth; intros tid Hin;
        by specialize (Halive _ Hin).
  - done.
  - destruct (thread s) as [tid|] eqn:Hth.
    + destruct (Hthread ltac:(by eexists)) as [_ Hc]. rewrite Hc. simpl.
      by intros [? [=]].
    + simpl. destruct (container_open s) eqn:Hc; simpl; rewrite ?Hth; by intros [? [=]].
  - intros Hs. split; [done|]. by apply Hthread.
  - destruct (thread s) as [tid|] eqn:Hth.
    + destruct (Hthread ltac:(by eexists)) as [_ Hc]. by rewrite Hc.
    + simpl. destruct (container_open s) eqn:Hc; simpl; by rewrite ?Hc.
  - intros _ Hc. apply Hstarted; [set_solver|done].
Qed.

Lemma player_inv_stop k s : inv s → inv (stop k s).1.1.
Proof.
  intros Hs. unfold stop. destruct (get_track k s) as [t|]; [|done].
  destruct (player_bound t); [|by apply player_inv_set_track].
  assert (Hs1 : inv (set_track k (set_ended t) s)) by (by apply player_inv_set_track).
  pose proof (player_inv_stop_player k _ Hs1) as Hinv.
  destruct (_stop k (set_track k (set_ended t) s)) as [[s2 effs] ok]. simpl in *.
  destruct ok; [by apply player_inv_set_track|done].
Qed.

Lemma player_inv_deliver k now t item s :
  inv s → (ended t = false → player_bound t = true) →
  inv (deliver k now t item s).1.
Proof.
  intros Hs Ht. unfold deliver. destruct item as [f|].
  - destruct (time f); [|by apply player_inv_set_track].
    destruct (player_bound t && throttle_playback s); [|by apply player_inv_set_track].
    destruct (start t); by apply player_inv_set_track.
  - pose proof (player_inv_stop k (set_track k t s) (player_inv_set_track _ _ _ Hs Ht)) as Hinv.
    by destruct (stop k (set_track k t s)) as [[s' effs] ok].
Qed.

Lemma player_inv_step s e : inv s → inv (step s e).1.
Proof.
  intros Hs. destruct e as [k now|k now|k|k n|k item|tid]; simpl.
  - unfold recv. destruct (get_track k s) as [t|] eqn:Hk; [|done].
    destruct (ended t) eqn:He; [done|]. destruct (waiting t); [done|].
    pose proof (inv_bound _ Hs _ _ Hk He) as Hb. rewrite Hb. simpl.
    pose proof (player_inv_start k s Hs) as Hinv.
    destruct (_start k s) as [[s1 effs] ok]. simpl in *.
    destruct ok; [|done].
    destruct (queue t) as [|item q]; [by apply player_inv_set_track|].
    match goal with
    | |- context [deliver k now ?t' item s1] =>
        assert (Hd : inv (deliver k now t' item s1).1) by (by apply player_inv_deliver);
        by destruct (deliver k now t' item s1)
    end.
  - unfold wake. destruct (get_track k s) as [t|] eqn:Hk; [|done].
    destruct (waiting t); [|done]. destruct (queue t) as [|item q]; [done|].
    apply player_inv_deliver; [done|]. simpl. by apply (inv_bound _ Hs k).
  - pose proof (player_inv_stop k s Hs) as Hinv.
    by destruct (stop k s) as [[s' effs] ok].
  - unfold set_max_frame_to_decode. destruct (get_track k s) as [t|] eqn:Hk; [|done].
    apply player_inv_set_track; [done|]. simpl. by apply (inv_bound _ Hs k).
  - unfold worker_put. destruct (get_track k s) as [t|] eqn:Hk; [|done].
    apply player_inv_set_track; [done|]. simpl. by apply (inv_bound _ Hs k).
  - destruct Hs as [Halive Hthread Hstarted Hbound]. split; simpl; [|done..].
    intros tid' Hin. apply Halive. set_solver.
Qed.

Lemma player_run_app s es1 es2 :
  run s (es1 ++ es2)
  = ((run (run s es1).1 es2).1, (run s es1).2 ++ (run (run s es1).1 es2).2).
Proof.
  revert s. induction es1 as [|e es1 IH]; intros s; simpl.
  - by destruct (run s es2).
  - destruct (step s e) as [s1 out1]. rewrite IH.
    destruct (run s1 es1) as [s2 out2]. simpl.
    destruct (run s2 es2) as [s3 out3]. simpl. by rewrite app_assoc.
Qed.

Lemma player_inv_run es : ∀ s, inv s → inv (run s es).1.
Proof.
  induction es as [|e es IH]; intros s Hs; [done|].
  simpl. pose proof (player_inv_step s e Hs) as Hs1.
  destruct (step s e) as [s1 out1]. specialize (IH s1 Hs1).
  by destruct (run s1 es).
Qed.

Lemma terminal_recv k now s :
  terminal k s → recv k now s = (s, [Result k MediaStreamError]).
Proof. intros (t & Ht & He). unfold recv. by rewrite Ht, He. Qed.

Lemma terminal_stop k s : is_Some (get_track k s) → terminal k (stop k s).1.1.
Proof.
  intros [t Ht]. unfold stop. rewrite Ht.
  destruct (player_bound t).
  - pose proof (get_track_stop_player k k (set_track k (set_ended t) s)) as Hg.
    destruct (_stop k (set_track k (set_ended t) s)) as [[s2 effs] ok]. simpl in *.
    destruct ok; simpl.
    + eexists. rewrite get_track_set_track, decide_True by done. done.
    + eexists. rewrite Hg, get_track_set_track, decide_True by done. done.
  - simpl. eexists. rewrite get_track_set_track, decide_True by done. done.
Qed.

(** An ended track stays ended whatever a piece of the program does. *)
Definition keeps_ended (s s' : state) : Prop :=
  ∀ k, terminal k s → terminal k s'.

Lemma keeps_set_track k t s :
  (terminal k s → ended t = true) → keeps_ended s (set_track k t s).
Proof.
  intros Ht k' Hk'. unfold terminal. rewrite get_track_set_track.
  case_decide as Hk; [|done]. subst k'. eexists. split; [done|]. by apply Ht.
Qed.

Lemma keeps_start k s : keeps_ended s (_start k s).1.1.
Proof. intros k' Hk'. unfold terminal. by rewrite get_track_start. Qed.

Lemma keeps_stop_player k s : keeps_ended s (_stop k s).1.1.
Proof. intros k' Hk'. unfold terminal. by rewrite get_track_stop_player. Qed.

Lemma keeps_refl s : keeps_ended s s.
Proof. by intros k Hk. Qed.

Lemma keeps_stop k s : keeps_ended s (stop k s).1.1.
Proof.
  intros k' Hk'. destruct (decide (k' = k)) as [->|Hne].
  - apply terminal_stop. destruct Hk' as (t & -> & _). by eexists.
  - unfold stop. destruct (get_track k s) as [t|]; [|done].
    assert (H1 : terminal k' (set_track k (set_ended t) s)).
    { unfold terminal. rewrite get_track_set_track. by rewrite decide_False. }
    destruct (player_bound t); [|done].
    pose proof (keeps_stop_player k _ k' H1) as H2.
    destruct (_stop k (set_track k (set_ended t) s)) as [[s2 effs] ok]. simpl in *.
    destruct ok; [|done].
    unfold terminal. cbn [fst]. rewrite get_track_set_track. by rewrite decide_False.
Qed.

Lemma keeps_deliver k now t item s :
  (terminal k s → ended t = true) → keeps_ended s (deliver k now t item s).1.
Proof.
  intros Ht. unfold deliver. destruct item as [f|].
  - destruct (time f); [|by apply keeps_set_track].
    destruct (player_bound t && throttle_playback s); [|by apply keeps_set_track].
    destruct (start t); by apply keeps_set_track.
  - intros k' Hk'.
    pose proof (keeps_stop k (set_track k t s) k'
                  (keeps_set_track k t s Ht k' Hk')) as H.
    by destruct (stop k (set_track k t s)) as [[s' effs] ok].
Qed.

Lemma keeps_step s e : keeps_ended s (step s e).1.
Proof.
  destruct e as [k now|k now|k|k n|k item|tid]; simpl.
  - unfold recv. destruct (get_track k s) as [t|] eqn:Hk; [|apply keeps_refl].
    destruct (ended t) eqn:He; [apply keeps_refl|].
    destruct (waiting t); [apply keeps_refl|].
    destruct (player_bound t); simpl; [|apply keeps_refl].
    pose proof (keeps_start k s) as H1.
    pose proof (get_track_start k k s) as Hg.
    destruct (_start k s) as [[s1 effs] ok]. simpl in *.
    destruct ok; [|done].
    assert (Hlive : ¬ terminal k s1).
    { intros (t' & Ht' & He'). rewrite Hg, Hk in Ht'. congruence. }
    intros k' Hk'. specialize (H1 k' Hk').
    destruct (queue t) as [|item q].
    + simpl. by apply keeps_set_track.
    + match goal with
      | |- context [deliver k now ?t' item s1] =>
          pose proof (keeps_deliver k now t' item s1) as Hd;
          destruct (deliver k now t' item s1)
      end.
      by apply Hd.
  - unfold wake. destruct (get_track k s) as [t|] eqn:Hk; [|apply keeps_refl].
    destruct (waiting t); [|apply keeps_refl].
    destruct (queue t) as [|item q]; [apply keeps_refl|].
    apply keeps_deliver. intros (t' & Ht' & He'). simpl. congruence.
  - intros k' Hk'. pose proof (keeps_stop k s k' Hk') as H.
    by destruct (stop k s) as [[s' effs] ok].
  - unfold set_max_frame_to_decode.
    destruct (get_track k s) as [t|] eqn:Hk; [|apply keeps_refl].
    apply keeps_set_track. intros (t' & Ht' & He'). simpl. congruence.
  - unfold worker_put. destruct (get_track k s) as [t|] eqn:Hk; [|apply keeps_refl].
    apply keeps_set_track. intros (t' & Ht' & He'). simpl. congruence.
  - intros k' Hk'. unfold terminal. by destruct k'.
Qed.

Lemma keeps_run es : ∀ s, keeps_ended s (run s es).1.
Proof.
  induction es as [|e es IH]; intros s k Hk; [done|].
  simpl. pose proof (keeps_step s e k Hk) as H1.
  destruct (step s e) as [s1 out1]. specialize (IH s1 k H1).
  by destruct (run s1 es).
Qed.

Lemma results_effects k effs out :
  results k (map Effect effs ++ out) = results k out.
Proof.
  unfold results. rewrite omap_app.
  assert (H : omap (λ o, match o with
                         | Result k' r => if decide (k' = k) then Some r else None
                         | Effect _ => None
                         end) (map Effect effs) = []); [|by rewrite H].
  by induction effs.
Qed.

Lemma results_effects_only k effs : results k (map Effect effs) = [].
Proof. by rewrite <- (app_nil_r (map Effect effs)), results_effects. Qed.

Lemma results_own k r : results k [Result k r] = [r].
Proof. unfold results. simpl. by rewrite decide_True. Qed.

Lemma stop_player_ok k s : inv s → (_stop k s).2 = true.
Proof.
  intros Hs. unfold _stop. simpl. destruct (decide _); [|done].
  destruct (thread s) as [tid|] eqn:Hth; simpl.
  - destruct (inv_thread _ Hs) as [_ Hc]; [rewrite Hth; by eexists|].
    rewrite Hc. reflexivity.
  - destruct (container_open s); reflexivity.
Qed.

Lemma stop_ok k s : inv s → (stop k s).2 = true.
Proof.
  intros Hs. unfold stop. destruct (get_track k s) as [t|]; [|done].
  destruct (player_bound t); [|done].
  assert (Hs1 : inv (set_track k (set_ended t) s)) by (by apply player_inv_set_track).
  pose proof (stop_player_ok k _ Hs1) as Hok.
  destruct (_stop k (set_track k (set_ended t) s)) as [[s2 effs] ok].
  simpl in *. by subst ok.
Qed.

Lemma start_ok k s : container_open s = true → (_start k s).2 = true.
Proof. intros Hc. unfold _start. simpl. destruct (thread s); [done|]. by rewrite Hc. Qed.

Lemma deliver_sentinel k now t s :
  inv s → (ended t = false → player_bound t = true) →
  results k (deliver k now t None s).2 = [MediaStreamError]
  ∧ terminal k (deliver k now t None s).1.
Proof.
  intros Hs Ht. unfold deliver.
  assert (Hs1 : inv (set_track k t s)) by (by apply player_inv_set_track).
  pose proof (stop_ok k _ Hs1) as Hok.
  pose proof (terminal_stop k (set_track k t s)) as Hterm.
  destruct (stop k (set_track k t s)) as [[s' effs] ok]. simpl in *. subst ok.
  split; [by rewrite results_effects, results_own|].
  apply Hterm. rewrite get_track_set_track, decide_True by done. by eexists.
Qed.

Lemma deliver_frame k now t f s :
  results k (deliver k now t (Some f) s).2 = [Returned f]
  ∧ ∃ t', get_track k (deliver k now t (Some f) s).1 = Some t'
          ∧ queue t' = queue t ∧ ended t' = ended t.
Proof.
  unfold deliver.
  assert (Hplain : results k [Result k (Returned f)] = [Returned f]
                   ∧ ∃ t', get_track k (set_track k t s) = Some t'
                           ∧ queue t' = queue t ∧ ended t' = ended t).
  { split; [apply results_own|]. exists t.
    by rewrite get_track_set_track, decide_True. }
  destruct (time f) as [ft|]; [|done].
  destruct (player_bound t && throttle_playback s); [|done].
  destruct (start t) as [t0|]; simpl.
  - split; [unfold results; simpl; by rewrite decide_True|].
    exists t. by rewrite get_track_set_track, decide_True.
  - split; [apply results_own|]. eexists.
    rewrite get_track_set_track, decide_True by done. done.
Qed.

(** The event [e] is a [recv()] on the live track [t] of kind [k] that gets
    an item out of the queue: a suspended call that resumes, or a new call
    made while the player still holds its container. *)
Definition dequeues (s : state) (k : kind) (t : track) (e : event) : Prop :=
  get_track k s = Some t ∧ ended t = false
  ∧ ((waiting t = true ∧ ∃ now, e = Wake k now)
     ∨ (waiting t = false ∧ container_open s = true ∧ ∃ now, e = Recv k now)).

Lemma step_dequeues s k t e item q :
  inv s → dequeues s k t e → queue t = item :: q →
  ∃ s1 t1 now effs,
    inv s1 ∧ (ended t1 = false → player_bound t1 = true)
    ∧ queue t1 = q ∧ ended t1 = false
    ∧ step s e = ((deliver k now t1 item s1).1,
                  map Effect effs ++ (deliver k now t1 item s1).2).
Proof.
  intros Hs (Hk & He & [(Hw & now & ->) | (Hw & Hc & now & ->)]) Hq; simpl.
  - unfold wake. rewrite Hk, Hw, Hq.
    set (t1 := mkTrack (ended t) (player_bound t) q false (start t)
                       (max_frame_to_decode t)).
    exists s, t1, now, []. split_and!; try done.
    + simpl. by apply (inv_bound _ Hs k).
    + simpl. by destruct (deliver k now t1 item s).
  - unfold recv. rewrite Hk, He, Hw, (inv_bound _ Hs _ _ Hk He). simpl.
    pose proof (start_ok k s Hc) as Hok. pose proof (player_inv_start k s Hs) as Hs1.
    destruct (_start k s) as [[s1 effs] ok]. simpl in *. subst ok. rewrite Hq.
    set (t1 := mkTrack false true q false (start t) (max_frame_to_decode t)).
    exists s1, t1, now, effs. split_and!; try done.
    by destruct (deliver k now t1 item s1).
Qed.

Lemma error_terminal s k e :
  inv s → (∃ now, e = Recv k now ∨ e = Wake k now) →
  MediaStreamError ∈ results k (step s e).2 → terminal k (step s e).1.
Proof.
  intros Hs (now & [-> | ->]); simpl.
  - unfold recv. destruct (get_track k s) as [t|] eqn:Hk; [|by intros ?%elem_of_nil].
    destruct (ended t) eqn:He; [intros _; by exists t|].
    destruct (waiting t); [by intros ?%elem_of_nil|].
    rewrite (inv_bound _ Hs _ _ Hk He). simpl.
    pose proof (player_inv_start k s Hs) as Hs1.
    destruct (_start k s) as [[s1 effs] ok]. simpl in *.
    destruct ok.
    2:{ cbn [fst snd]. rewrite results_effects, results_own.
        by intros ?%list_elem_of_singleton. }
    destruct (queue t) as [|[f|] q].
    + cbn [fst snd]. rewrite results_effects_only. by intros ?%elem_of_nil.
    + match goal with
      | |- context [deliver k now ?t' (Some f) s1] =>
          destruct (deliver_frame k now t' f s1) as [Hr _];
          destruct (deliver k now t' (Some f) s1) as [s2 out]
      end.
      cbn [fst snd] in *. rewrite results_effects, Hr.
      by intros ?%list_elem_of_singleton.
    + match goal with
      | |- context [deliver k now ?t' None s1] =>
          destruct (deliver_sentinel k now t' s1 Hs1 ltac:(done)) as [_ Hterm];
          by destruct (deliver k now t' None s1) as [s2 out]
      end.
  - unfold wake. destruct (get_track k s) as [t|] eqn:Hk; [|by intros ?%elem_of_nil].
    destruct (waiting t); [|by intros ?%elem_of_nil].
    destruct (queue t) as [|[f|] q]; [by intros ?%elem_of_nil| |].
    + match goal with
      | |- context [deliver k now ?t' (Some f) s] =>
          destruct (deliver_frame k now t' f s) as [Hr _]
      end.
      rewrite Hr. by intros ?%list_elem_of_singleton.
    + intros _. apply deliver_sentinel; [done|]. simpl. by apply (inv_bound _ Hs k).
Qed.

(** The contract of [PlayerStreamTrack.recv()], on every state the player
    can reach. *)
Lemma player_recv_contract (a v th : bool) (es : list event) (k : kind) :
  let s := (run (init a v th) es).1 in
  (∀ now, terminal k s → step s (Recv k now) = (s, [Result k MediaStreamError]))
  ∧ (∀ t e q, dequeues s k t e → queue t = None :: q →
       results k (step s e).2 = [MediaStreamError] ∧ terminal k (step s e).1)
  ∧ (∀ t e f q, dequeues s k t e → queue t = Some f :: q →
       results k (step s e).2 = [Returned f]
       ∧ ∃ t', get_track k (step s e).1 = Some t' ∧ queue t' = q ∧ ended t' = false)
  ∧ (is_Some (get_track k s) → terminal k (step s (Stop k)).1)
  ∧ (∀ e, (∃ now, e = Recv k now ∨ e = Wake k now) →
       MediaStreamError ∈ results k (step s e).2 → terminal k (step s e).1)
  ∧ (terminal k s → ∀ es' now,
       terminal k (run s es').1
       ∧ step (run s es').1 (Recv k now) = ((run s es').1, [Result k MediaStreamError])).
Proof.
  intros s. assert (Hs : inv s) by apply player_inv_run, player_inv_init.
  split_and!.
  - intros now Hterm. exact (terminal_recv k now s Hterm).
  - intros t e q Hd Hq.
    destruct (step_dequeues s k t e None q Hs Hd Hq)
      as (s1 & t1 & now & effs & Hs1 & Hb & _ & _ & ->).
    cbn [fst snd]. rewrite results_effects. exact (deliver_sentinel k now t1 s1 Hs1 Hb).
  - intros t e f q Hd Hq.
    destruct (step_dequeues s k t e (Some f) q Hs Hd Hq)
      as (s1 & t1 & now & effs & Hs1 & Hb & Hq1 & He1 & ->).
    cbn [fst snd]. rewrite results_effects.
    destruct (deliver_frame k now t1 f s1) as (Hr & t' & Ht' & Hq' & He').
    split; [done|]. exists t'. split_and!; congruence.
  - intros Hsome. simpl. pose proof (terminal_stop k s Hsome) as H.
    by destruct (stop k s) as [[s' effs] ok].
  - intros e He. by apply error_terminal.
  - intros Hterm es' now. pose proof (keeps_run es' s k Hterm) as H.
    split; [done|]. exact (terminal_recv k now _ H).
Qed.

Lemma last_stop s k t tid :
  inv s → started s = {[k]} → get_track k s = Some t →
  player_bound t = true → thread s = Some tid →
  (step s (Stop k)).2
  = map Effect [LogDebug "Stopping worker thread"; QuitSet tid; ThreadJoin tid;
                ContainerClose]
  ∧ alive (step s (Stop k)).1 = ∅
  ∧ tid ∈ quit (step s (Stop k)).1
  ∧ thread (step s (Stop k)).1 = None
  ∧ container_open (step s (Stop k)).1 = false
  ∧ started (step s (Stop k)).1 = ∅.
Proof.
  intros Hs Hst Hk Hb Hth.
  destruct (inv_thread _ Hs) as [_ Hc]; [rewrite Hth; by eexists|].
  assert (Halive : alive s ∖ {[tid]} = ∅).
  { apply set_eq. intros tid'. split; [|set_solver]. intros Hin.
    apply elem_of_difference in Hin as [Hin Hne].
    pose proof (inv_alive _ Hs _ Hin) as H. set_solver. }
  simpl. unfold stop. rewrite Hk, Hb. unfold _stop.
  assert (Hfields : ∀ t', started (set_track k t' s) = started s
                     ∧ thread (set_track k t' s) = thread s
                     ∧ container_open (set_track k t' s) = container_open s
                     ∧ alive (set_track k t' s) = alive s
                     ∧ quit (set_track k t' s) = quit s)
    by (intros t'; by destruct k).
  destruct (Hfields (set_ended t)) as (E1 & E2 & E3 & E4 & E5).
  cbn [started set_started]. rewrite E1, Hst.
  rewrite decide_True by set_solver.
  cbn [thread container_open set_started]. rewrite E2, E3, Hth, Hc.
  cbn [fst snd container_open alive quit thread started set_started app].
  rewrite E4, E5.
  destruct k; cbn; (split_and!; [done|done|set_solver|done|done|set_solver]).
Qed.

(** C6 as stated fails: once the worker thread has returned by itself (end
    of stream or decode error), the audio track is still started while no
    decode thread is alive. *)
Lemma thread_exits_while_track_started :
  let s := (run (init true true true) [Recv Audio 0%Q; WorkerExit 0]).1 in
  Audio ∈ started s ∧ alive s = ∅ ∧ ¬ (alive s ≠ ∅ ↔ started s ≠ ∅).
Proof.
  cbn. split_and!; [set_solver|set_solver|].
  intros [_ H]. apply H.
  - intros Heq. assert (Hin : Audio ∈ (∅ : gset kind)) by (rewrite <- Heq; set_solver).
    by apply not_elem_of_empty in Hin.
  - set_solver.
Qed.

(** C6, amended. On every state the player can reach: at most one decode
    thread is alive; a decode thread is alive only while some track is
    started and the container is open; while a track is started and the
    container is open the player holds its thread (running, or returned by
    itself); and when the last started track stops, the player sets the quit
    flag, joins the thread and only then closes the container, after which
    no thread is alive. *)
Theorem one_decode_thread_joined_before_close (a v th : bool) (es : list event) :
  let s := (run (init a v th) es).1 in
  (∀ t1 t2, t1 ∈ alive s → t2 ∈ alive s → t1 = t2)
  ∧ (∀ tid, tid ∈ alive s →
       thread s = Some tid ∧ started s ≠ ∅ ∧ container_open s = true)
  ∧ (started s ≠ ∅ → container_open s = true → is_Some (thread s))
  ∧ (container_open s = false → alive s = ∅)
  ∧ (∀ k t tid,
       started s = {[k]} → get_track k s = Some t →
       player_bound t = true → thread s = Some tid →
       (step s (Stop k)).2
       = map Effect [LogDebug "Stopping worker thread"; QuitSet tid; ThreadJoin tid;
                     ContainerClose]
       ∧ alive (step s (Stop k)).1 = ∅
       ∧ tid ∈ quit (step s (Stop k)).1
       ∧ thread (step s (Stop k)).1 = None
       ∧ container_open (step s (Stop k)).1 = false
       ∧ started (step s (Stop k)).1 = ∅).
Proof.
  intros s. assert (Hs : inv s) by apply player_inv_run, player_inv_init.
  split_and!.
  - intros t1 t2 H1 H2. pose proof (inv_alive _ Hs _ H1).
    pose proof (inv_alive _ Hs _ H2). congruence.
  - intros tid Hin. pose proof (inv_alive _ Hs _ Hin) as Hth.
    split; [done|]. apply (inv_thread _ Hs). rewrite Hth. by eexists.
  - apply (inv_started _ Hs).
  - intros Hc. apply set_eq. intros tid. split; [|set_solver]. intros Hin.
    pose proof (inv_alive _ Hs _ Hin) as Hth.
    destruct (inv_thread _ Hs) as [_ Hc']; [rewrite Hth; by eexists|]. congruence.
  - intros k t tid. by apply last_stop.
Qed.

(** Both tracks are started, the video track stops first, the audio track
    last: only the last stop shuts the thread down. *)
Example one_decode_thread_joined_before_close_witness :
  let s := (run (init true true true) [Recv Audio 0%Q; Recv Video 0%Q; Stop Video]).1 in
  thread s = Some 0%nat
  ∧ (step s (Stop Audio)).2
    = map Effect [LogDebug "Stopping worker thread"; QuitSet 0; ThreadJoin 0;
                  ContainerClose].
Proof.
  pose (es := [Recv Audio 0%Q; Recv Video 0%Q; Stop Video]).
  assert (Hth : thread (run (init true true true) es).1 = Some 0%nat)
    by (vm_compute; reflexivity).
  split; [exact Hth|].
  assert (Hst : started (run (init true true true) es).1 = {[Audio]})
    by (vm_compute; reflexivity).
  assert (Hk : get_track Audio (run (init true true true) es).1
               = Some (mkTrack false true [] true None (-1)))
    by (vm_compute; reflexivity).
  exact (proj1 (proj2 (proj2 (proj2 (proj2
           (one_decode_thread_joined_before_close true true true es))))
           Audio _ 0%nat Hst Hk eq_refl Hth)).
Defined.

End PlayerFacts.

(** * Properties of the blackhole sink *)

Module BlackholeFacts.
Import Blackhole.

Local Open Scope nat_scope.

(** The tracks waiting for a task, in dictionary order. *)
Definition pending (items : list (nat * option nat)) : list nat :=
  omap (λ item : nat * option nat,
          match item.2 with None => Some item.1 | Some _ => None end) items.

Definition fresh_task (track : nat) : task := mkTask track false false.

(** Every dictionary key occurs once, every task in the dictionary has been
    spawned for its key, and every task that is not cancelled is in the
    dictionary under its track. *)
Record inv (s : state) : Prop := mkInv {
  inv_keys : NoDup (tracks s).*1;
  inv_entry : ∀ track t, (track, Some t) ∈ tracks s →
    ∃ k, spawned s !! t = Some k ∧ task_track k = track;
  inv_task : ∀ t k, spawned s !! t = Some k → cancelled k = false →
    (task_track k, Some t) ∈ tracks s
}.

Lemma sink_inv_init : inv init.
Proof. split; simpl; [constructor| |]; intros; set_solver. Qed.

Lemma start_items_spec items : ∀ sp,
  (start_items items sp).1.*1 = items.*1
  ∧ (start_items items sp).2 = sp ++ map fresh_task (pending items)
  ∧ pending (start_items items sp).1 = []
  ∧ (∀ track t, (track, Some t) ∈ items → (track, Some t) ∈ (start_items items sp).1)
  ∧ (∀ track t, (track, Some t) ∈ (start_items items sp).1 →
       (track, Some t) ∈ items
       ∨ (length sp ≤ t ∧ (start_items items sp).2 !! t = Some (fresh_task track)))
  ∧ (∀ t k, length sp ≤ t → (start_items items sp).2 !! t = Some k →
       (task_track k, Some t) ∈ (start_items items sp).1).
Proof.
  induction items as [|[track [t0|]] rest IH]; intros sp; simpl.
  - rewrite app_nil_r. split_and!; try done.
    + intros tr t Hin. by apply elem_of_nil in Hin.
    + intros t k Hlen Hk. apply lookup_lt_Some in Hk. lia.
  - destruct (IH sp) as (Hkeys & Hsp & Hpend & Hold & Hnew & Hfresh).
    destruct (start_items rest sp) as [rest' sp'] eqn:Hst. simpl in *.
    unfold pending in *. simpl.
    split_and!; try done.
    + by f_equal.
    + intros tr t Hin. apply elem_of_cons in Hin as [Heq | Hin];
        apply elem_of_cons; [by left | right; auto].
    + intros tr t Hin. apply elem_of_cons in Hin as [Heq | Hin].
      * left. apply elem_of_cons. by left.
      * destruct (Hnew _ _ Hin) as [? | ?]; [left | by right].
        apply elem_of_cons. by right.
    + intros t k Hlen Hk. apply elem_of_cons. right. by apply Hfresh.
  - destruct (IH (sp ++ [fresh_task track])) as (Hkeys & Hsp & Hpend & Hold & Hnew & Hfresh).
    fold (fresh_task track).
    destruct (start_items rest (sp ++ [fresh_task track])) as [rest' sp'] eqn:Hst.
    simpl in *. unfold pending in *. simpl. rewrite length_app in *. simpl in *.
    split_and!; try done.
    + by f_equal.
    + by rewrite Hsp, <- app_assoc.
    + intros tr t Hin. apply elem_of_cons in Hin as [[=] | Hin].
      apply elem_of_cons. right. auto.
    + intros tr t Hin. apply elem_of_cons in Hin as [[= -> ->] | Hin].
      * right. split; [lia|]. rewrite Hsp, <- app_assoc. simpl.
        by rewrite lookup_app_r, Nat.sub_diag by lia.
      * destruct (Hnew _ _ Hin) as [? | [? ?]]; [left | right].
        -- apply elem_of_cons. by right.
        -- split; [lia|done].
    + intros t k Hlen Hk. apply elem_of_cons.
      destruct (decide (t = length sp)) as [->|Hne].
      * rewrite Hsp, <- app_assoc in Hk. simpl in Hk.
        rewrite lookup_app_r, Nat.sub_diag in Hk by lia. simpl in Hk.
        injection Hk as <-. by left.
      * right. apply Hfresh; [lia|done].
Qed.

Lemma sink_inv_addTrack track s : inv s → inv (addTrack track s).
Proof.
  intros [Hk He Ht]. unfold addTrack. case_decide; [done|].
  split; simpl.
  - rewrite fmap_app. apply NoDup_app. split_and!; [done| |apply NoDup_singleton].
    intros x Hx Hx'. simpl in Hx'. apply list_elem_of_singleton in Hx'. by subst.
  - intros tr t Hin. apply elem_of_app in Hin as [Hin | Hin]; [by apply He|].
    by apply list_elem_of_singleton in Hin.
  - intros t k Hs Hc. apply elem_of_app. left. by apply Ht.
Qed.

Lemma sink_inv_start s : inv s → inv (start s).
Proof.
  intros [Hk He Ht]. unfold start.
  destruct (start_items_spec (tracks s) (spawned s))
    as (Hkeys & Hsp & _ & Hold & Hnew & Hfresh).
  destruct (start_items (tracks s) (spawned s)) as [items sp]. simpl in *.
  split; simpl.
  - by rewrite Hkeys.
  - intros tr t Hin. destruct (Hnew _ _ Hin) as [Hin' | [Hlen Hk']].
    + destruct (He _ _ Hin') as (k & Hk' & Htr). exists k. split; [|done].
      rewrite Hsp. by apply lookup_app_l_Some.
    + by exists (fresh_task tr).
  - intros t k Hk' Hc. destruct (decide (t < length (spawned s))) as [Hlt|Hge].
    + apply Hold, Ht; [|done]. by rewrite Hsp, lookup_app_l in Hk'.
    + apply Hfresh; [lia|done].
Qed.

Lemma cancel_lookup t sp u :
  cancel t sp !! u
  = (λ k, if decide (t = u) then mkTask (task_track k) true (returned k) else k) <$> sp !! u.
Proof.
  unfold cancel. destruct (sp !! t) as [k|] eqn:Hk.
  - destruct (decide (t = u)) as [->|Hne].
    + rewrite list_lookup_insert_eq by (by eapply lookup_lt_Some). by rewrite Hk.
    + rewrite list_lookup_insert_ne by done. by destruct (sp !! u).
  - destruct (decide (t = u)) as [->|Hne]; [by rewrite Hk|]. by destruct (sp !! u).
Qed.

Lemma cancel_all_lookup items : ∀ sp u k',
  foldl (λ sp (item : nat * option nat),
           match item.2 with Some t => cancel t sp | None => sp end) sp items !! u = Some k' →
  ∃ k, sp !! u = Some k ∧ task_track k' = task_track k
       ∧ (cancelled k = true → cancelled k' = true)
       ∧ ((∃ track, (track, Some u) ∈ items) → cancelled k' = true).
Proof.
  induction items as [|[track [t|]] rest IH]; intros sp u k' Hk'; simpl in Hk'.
  - exists k'. split_and!; try done. intros [? Hin]. by apply elem_of_nil in Hin.
  - destruct (IH _ _ _ Hk') as (k1 & Hk1 & Htr & Hmono & Hin).
    rewrite cancel_lookup in Hk1. destruct (sp !! u) as [k|] eqn:Hk; [|done].
    simpl in Hk1. injection Hk1 as <-. exists k. split_and!; try done.
    + rewrite Htr. by case_decide.
    + intros Hc. apply Hmono. by case_decide.
    + intros [tr Hel]. apply elem_of_cons in Hel as [[= -> ->] | Hel].
      * apply Hmono. by rewrite decide_True.
      * apply Hin. by exists tr.
  - destruct (IH _ _ _ Hk') as (k1 & Hk1 & Htr & Hmono & Hin).
    exists k1. split_and!; try done.
    intros [tr Hel]. apply elem_of_cons in Hel as [[=] | Hel]. apply Hin. by exists tr.
Qed.

Lemma sink_inv_stop s : inv s → inv (stop s).
Proof.
  intros [Hk He Ht]. unfold stop. split; simpl.
  - constructor.
  - intros tr t Hin. by apply elem_of_nil in Hin.
  - intros t k' Hk' Hc. exfalso.
    destruct (cancel_all_lookup _ _ _ _ Hk') as (k & Hsk & Htr & Hmono & Hin).
    destruct (cancelled k) eqn:Hck.
    + rewrite Hmono in Hc by done. done.
    + rewrite Hin in Hc; [done|]. exists (task_track k). by apply Ht.
Qed.

Lemma sink_inv_task_returns t s : inv s → inv (task_returns t s).
Proof.
  intros [Hk He Ht]. unfold task_returns.
  destruct (spawned s !! t) as [k|] eqn:Hst; [|done].
  split; simpl; [done| |].
  - intros tr u Hin. destruct (He _ _ Hin) as (k1 & Hk1 & Htr).
    destruct (decide (t = u)) as [->|Hne].
    + rewrite list_lookup_insert_eq by (by eapply lookup_lt_Some).
      eexists. split; [done|]. simpl. congruence.
    + rewrite list_lookup_insert_ne by done. eauto.
  - intros u k1 Hk1 Hc. destruct (decide (t = u)) as [->|Hne].
    + rewrite list_lookup_insert_eq in Hk1 by (by eapply lookup_lt_Some).
      injection Hk1 as <-. simpl in *. by apply Ht.
    + rewrite list_lookup_insert_ne in Hk1 by done. by apply Ht.
Qed.

Lemma sink_inv_run es : ∀ s, inv s → inv (run s es).
Proof.
  induction es as [|e es IH]; intros s Hs; [done|].
  simpl. apply IH. destruct e; simpl;
    auto using sink_inv_addTrack, sink_inv_start, sink_inv_stop, sink_inv_task_returns.
Qed.

Lemma consuming_unique s track t1 t2 :
  inv s → t1 ∈ consuming track s → t2 ∈ consuming track s → t1 = t2.
Proof.
  intros [Hk He Ht] H1 H2. unfold consuming in *.
  apply list_elem_of_filter in H1 as [H1 _], H2 as [H2 _].
  destruct (spawned s !! t1) as [k1|] eqn:Hk1; [|done].
  destruct (spawned s !! t2) as [k2|] eqn:Hk2; [|done].
  simpl in *. injection H1 as H1. injection H2 as H2.
  unfold is_consuming in *.
  apply andb_true_iff in H1 as [H1 _], H2 as [H2 _].
  apply andb_true_iff in H1 as [Htr1 Hc1], H2 as [Htr2 Hc2].
  apply bool_decide_eq_true in Htr1, Htr2. apply negb_true_iff in Hc1, Hc2.
  pose proof (Ht _ _ Hk1 Hc1) as Hin1. pose proof (Ht _ _ Hk2 Hc2) as Hin2.
  rewrite Htr1 in Hin1. rewrite Htr2 in Hin2.
  apply list_elem_of_lookup in Hin1 as [i Hi], Hin2 as [j Hj].
  assert (i = j) as ->.
  { eapply NoDup_lookup; [exact Hk| |]; rewrite list_lookup_fmap.
    - by rewrite Hi. - by rewrite Hj. }
  congruence.
Qed.

Lemma at_most_one {A} (l : list A) :
  NoDup l → (∀ x y, x ∈ l → y ∈ l → x = y) → length l ≤ 1.
Proof.
  intros Hnd Heq. destruct l as [|x [|y l]]; simpl; [lia..|].
  exfalso. apply NoDup_cons in Hnd as [Hx _]. apply Hx.
  rewrite (Heq x y); [left|left|right; left].
Qed.

Lemma addTrack_again track s : addTrack track (addTrack track s) = addTrack track s.
Proof.
  unfold addTrack at 2 3. case_decide as Hin.
  - unfold addTrack. by rewrite decide_True.
  - unfold addTrack. simpl. rewrite decide_True; [done|].
    rewrite fmap_app. apply elem_of_app. right. simpl. left.
Qed.

Lemma start_again s : start (start s) = start s.
Proof.
  unfold start at 2 3.
  destruct (start_items_spec (tracks s) (spawned s)) as (_ & _ & Hpend & _).
  destruct (start_items (tracks s) (spawned s)) as [items sp] eqn:Hst. simpl in *.
  unfold start. simpl.
  assert (Hfix : ∀ its sp0, pending its = [] → start_items its sp0 = (its, sp0)).
  { clear. induction its as [|[tr [t|]] rest IH]; intros sp0 Hp; simpl.
    - done.
    - unfold pending in Hp. simpl in Hp. by rewrite (IH sp0 Hp).
    - done. }
  by rewrite (Hfix _ _ Hpend).
Qed.

(** C10. After any sequence of [addTrack], [start], [stop] and task returns,
    at most one task is consuming any given track.  Adding a track a second
    time changes nothing; [start] creates one task for each track that has
    none, in dictionary order, keeps every task already in the dictionary,
    and a second [start] creates nothing. *)
Theorem blackhole_one_task_per_track (es : list event) (track : nat) :
  length (consuming track (run init es)) ≤ 1
  ∧ addTrack track (addTrack track (run init es)) = addTrack track (run init es)
  ∧ spawned (start (run init es))
    = spawned (run init es) ++ map fresh_task (pending (tracks (run init es)))
  ∧ pending (tracks (start (run init es))) = []
  ∧ (tracks (start (run init es))).*1 = (tracks (run init es)).*1
  ∧ (∀ t, (track, Some t) ∈ tracks (run init es) →
          (track, Some t) ∈ tracks (start (run init es)))
  ∧ start (start (run init es)) = start (run init es).
Proof.
  pose proof (sink_inv_run es init sink_inv_init) as Hinv.
  destruct (start_items_spec (tracks (run init es)) (spawned (run init es)))
    as (Hkeys & Hsp & Hpend & Hold & _).
  split_and!.
  - apply at_most_one.
    + apply NoDup_filter, NoDup_seq.
    + intros x y. by apply consuming_unique.
  - apply addTrack_again.
  - unfold start. by destruct (start_items _ _).
  - unfold start. by destruct (start_items _ _).
  - unfold start. by destruct (start_items _ _).
  - intros t Hin. unfold start. specialize (Hold _ _ Hin). by destruct (start_items _ _).
  - apply start_again.
Qed.

(** A run with the same track added twice and started twice. *)
Example blackhole_twice :
  let s := run init [AddTrack 7; AddTrack 7; Start; AddTrack 7; Start; AddTrack 9; Start] in
  tracks s = [(7, Some 0); (9, Some 1)]
  ∧ spawned s = [fresh_task 7; fresh_task 9]
  ∧ consuming 7 s = [0].
Proof. by vm_compute. Qed.

End BlackholeFacts.

(** * Properties of the relay *)

Module RelayFacts.
Import Media Relay.

Local Open Scope nat_scope.

Lemma broadcast_lookup item (ps : gset nat) (objs : gmap nat proxy) p :
  broadcast item ps objs !! p
  = if decide (p ∈ ps) then put_nowait item <$> objs !! p else objs !! p.
Proof.
  unfold broadcast.
  pose proof (set_fold_ind_L
    (λ (acc : gmap nat proxy) (X : gset nat),
       acc !! p = if decide (p ∈ X) then put_nowait item <$> objs !! p else objs !! p)
    (λ q acc, alter (put_nowait item) q acc) objs) as Hind.
  apply Hind.
  - by rewrite decide_False by set_solver.
  - intros x X acc Hx IH. rewrite lookup_alter.
    destruct (decide (x = p)) as [->|Hne].
    + rewrite IH, decide_False, decide_True by set_solver. done.
    + rewrite IH. destruct (decide (p ∈ X)).
      * by rewrite decide_True by set_solver.
      * by rewrite decide_False by set_solver.
Qed.

(** What holds of a relay on every state it can reach. *)
Record inv (s : state) : Prop := mkInv {
  inv_member : ∀ track ps p, proxies s !! track = Some ps → p ∈ ps →
    ∃ o, objects s !! p = Some o ∧ source o = Some track ∧ ended o = false;
  inv_bound : ∀ p o, objects s !! p = Some o → ended o = false → relay_bound o = true;
  inv_tasks : ∀ track t, tasks s !! track = Some t ↔ running s !! t = Some track;
  inv_registered : ∀ track, is_Some (tasks s !! track) → is_Some (proxies s !! track);
  inv_active : ∀ track ps p, proxies s !! track = Some ps → p ∈ ps →
    is_Some (tasks s !! track);
  inv_fresh_proxy : ∀ p, is_Some (objects s !! p) → p < next_proxy s;
  inv_fresh_task : ∀ t, is_Some (running s !! t) → t < next_task s
}.

Lemma relay_inv_init srcs : inv (init srcs).
Proof.
  split; simpl; intros; simplify_map_eq; done.
Qed.

Definition with_objects (objs : gmap nat proxy) (s : state) : state :=
  mkState (proxies s) (tasks s) objs (running s) (sources s) (next_proxy s) (next_task s).

(** Two proxies that differ at most in their queue and in whether a call is
    suspended. *)
Definition same_identity (o o' : proxy) : Prop :=
  ended o' = ended o ∧ relay_bound o' = relay_bound o ∧ source o' = source o.

Definition same_identities (objs objs' : gmap nat proxy) : Prop :=
  ∀ p, match objs !! p, objs' !! p with
       | Some o, Some o' => same_identity o o'
       | None, None => True
       | _, _ => False
       end.

Lemma relay_inv_objects s objs :
  inv s → same_identities (objects s) objs → inv (with_objects objs s).
Proof.
  intros [Hm Hb Ht Hr Ha Hfp Hft] Hsame. split; simpl; try done.
  - intros track ps p Hps Hp. destruct (Hm _ _ _ Hps Hp) as (o & Ho & Hsrc & He).
    specialize (Hsame p). rewrite Ho in Hsame.
    destruct (objs !! p) as [o'|]; [|done]. destruct Hsame as (E1 & E2 & E3).
    exists o'. split_and!; congruence.
  - intros p o' Ho' He. specialize (Hsame p). rewrite Ho' in Hsame.
    destruct (objects s !! p) as [o|] eqn:Ho; [|done]. destruct Hsame as (E1 & E2 & E3).
    rewrite E2. apply (Hb p o Ho). congruence.
  - intros p [o' Ho']. apply Hfp. specialize (Hsame p). rewrite Ho' in Hsame.
    by destruct (objects s !! p).
Qed.

Lemma same_identities_insert (objs : gmap nat proxy) p o o' :
  objs !! p = Some o → same_identity o o' → same_identities objs (<[p := o']> objs).
Proof.
  intros Ho Hsame q. destruct (decide (q = p)) as [->|Hne].
  - by rewrite Ho, lookup_insert_eq.
  - rewrite lookup_insert_ne by done. by destruct (objs !! q).
Qed.

Lemma same_identities_broadcast item ps (objs : gmap nat proxy) :
  same_identities objs (broadcast item ps objs).
Proof.
  intros q. rewrite broadcast_lookup.
  destruct (objs !! q) as [o|]; case_decide; simpl; done.
Qed.

Lemma relay_inv_set_object s p o o' :
  inv s → objects s !! p = Some o → same_identity o o' → inv (set_object p o' s).
Proof.
  intros Hs Ho Hsame.
  apply (relay_inv_objects s (<[p := o']> (objects s)) Hs).
  by eapply same_identities_insert.
Qed.

Lemma relay_inv_start s p o :
  inv s → objects s !! p = Some o → ended o = false → inv (_start p (source o) s).
Proof.
  intros Hs Ho He. pose proof Hs as [Hm Hb Ht Hr Ha Hfp Hft]. unfold _start.
  destruct (source o) as [track|] eqn:Hsrc; [|done].
  destruct (proxies s !! track) as [ps|] eqn:Hps; [|done].
  simpl. destruct (tasks s !! track) as [t|] eqn:Htask.
  - split; simpl; try done.
    + intros track' ps' p' Hps' Hp'.
      destruct (decide (track' = track)) as [->|Hne].
      * rewrite lookup_insert_eq in Hps'. injection Hps' as <-.
        apply elem_of_union in Hp' as [Hp' | Hp'].
        -- apply elem_of_singleton in Hp' as ->. by exists o.
        -- by eapply Hm.
      * rewrite lookup_insert_ne in Hps' by done. by eapply Hm.
    + intros track' Hsome. destruct (decide (track' = track)) as [->|Hne].
      * rewrite lookup_insert_eq. by eexists.
      * rewrite lookup_insert_ne by done. by apply Hr.
    + intros track' ps' p' Hps' Hp'.
      destruct (decide (track' = track)) as [->|Hne]; [by rewrite Htask|].
      rewrite lookup_insert_ne in Hps' by done. by eapply Ha.
  - assert (Hfresh : running s !! next_task s = None).
    { destruct (running s !! next_task s) eqn:Hrun; [|done].
      pose proof (Hft (next_task s) ltac:(by eexists)). lia. }
    split; simpl.
    + intros track' ps' p' Hps' Hp'.
      destruct (decide (track' = track)) as [->|Hne].
      * rewrite lookup_insert_eq in Hps'. injection Hps' as <-.
        apply elem_of_union in Hp' as [Hp' | Hp'].
        -- apply elem_of_singleton in Hp' as ->. by exists o.
        -- by eapply Hm.
      * rewrite lookup_insert_ne in Hps' by done. by eapply Hm.
    + done.
    + intros track' t'.
      destruct (decide (track' = track)) as [->|Hne];
        destruct (decide (t' = next_task s)) as [->|Hnt];
        rewrite ?lookup_insert_eq, ?lookup_insert_ne by done.
      * done.
      * split; [intros [= Heq]; congruence|].
        intros Hrun. apply Ht in Hrun. congruence.
      * split; [|intros [= Heq]; congruence].
        intros Htk. apply Ht in Htk. congruence.
      * apply Ht.
    + intros track' Hsome. destruct (decide (track' = track)) as [->|Hne].
      * rewrite lookup_insert_eq. by eexists.
      * rewrite lookup_insert_ne in Hsome by done.
        rewrite lookup_insert_ne by done. by apply Hr.
    + intros track' ps' p' Hps' Hp'.
      destruct (decide (track' = track)) as [->|Hne].
      * rewrite lookup_insert_eq. by eexists.
      * rewrite lookup_insert_ne in Hps' by done.
        rewrite lookup_insert_ne by done. by eapply Ha.
    + done.
    + intros t' Hsome. destruct (decide (t' = next_task s)) as [->|Hnt]; [lia|].
      rewrite lookup_insert_ne in Hsome by done. specialize (Hft _ Hsome). lia.
Qed.

Lemma relay_inv_stop_relay s p src : inv s → inv (_stop p src s).
Proof.
  intros [Hm Hb Ht Hr Ha Hfp Hft]. unfold _stop.
  destruct src as [track|]; [|done].
  destruct (proxies s !! track) as [ps|] eqn:Hps; [|done].
  split; simpl; try done.
  - intros track' ps' p' Hps' Hp'. destruct (decide (track' = track)) as [->|Hne].
    + rewrite lookup_insert_eq in Hps'. injection Hps' as <-.
      apply (Hm track ps p' Hps). set_solver.
    + rewrite lookup_insert_ne in Hps' by done. by eapply Hm.
  - intros track' Hsome. destruct (decide (track' = track)) as [->|Hne].
    + rewrite lookup_insert_eq. by eexists.
    + rewrite lookup_insert_ne by done. by apply Hr.
  - intros track' ps' p' Hps' Hp'. destruct (decide (track' = track)) as [->|Hne].
    + rewrite lookup_insert_eq in Hps'. injection Hps' as <-.
      apply (Ha track ps p' Hps). set_solver.
    + rewrite lookup_insert_ne in Hps' by done. by eapply Ha.
Qed.

(** After [_stop] the proxy is in no active set. *)
Lemma stop_relay_not_member s p o :
  inv s → objects s !! p = Some o →
  ∀ track ps, proxies (_stop p (source o) s) !! track = Some ps → p ∉ ps.
Proof.
  intros Hs Ho track ps Hps Hp. unfold _stop in Hps.
  destruct (source o) as [track0|] eqn:Hsrc.
  - destruct (proxies s !! track0) as [ps0|] eqn:Hps0.
    + simpl in Hps. destruct (decide (track = track0)) as [->|Hne].
      * rewrite lookup_insert_eq in Hps. injection Hps as <-. set_solver.
      * rewrite lookup_insert_ne in Hps by done.
        destruct (inv_member _ Hs _ _ _ Hps Hp) as (o' & Ho' & Hsrc' & _). congruence.
    + destruct (inv_member _ Hs _ _ _ Hps Hp) as (o' & Ho' & Hsrc' & _). congruence.
  - destruct (inv_member _ Hs _ _ _ Hps Hp) as (o' & Ho' & Hsrc' & _). congruence.
Qed.

(** Replacing a proxy that is in no active set by an ended one. *)
Lemma relay_inv_retire s p o' :
  inv s → is_Some (objects s !! p) → ended o' = true →
  (∀ track ps, proxies s !! track = Some ps → p ∉ ps) →
  inv (set_object p o' s).
Proof.
  intros [Hm Hb Ht Hr Ha Hfp Hft] Hsome He Hout. split; simpl; try done.
  - intros track ps q Hps Hq. destruct (decide (q = p)) as [->|Hne].
    + by destruct (Hout _ _ Hps).
    + rewrite lookup_insert_ne by done. by eapply Hm.
  - intros q oq Hoq Heq. destruct (decide (q = p)) as [->|Hne].
    + rewrite lookup_insert_eq in Hoq. congruence.
    + rewrite lookup_insert_ne in Hoq by done. by eapply Hb.
  - intros q Hq. destruct (decide (q = p)) as [->|Hne]; [by apply Hfp|].
    rewrite lookup_insert_ne in Hq by done. by apply Hfp.
Qed.

Lemma relay_inv_stop s p : inv s → inv (stop p s).
Proof.
  intros Hs. unfold stop. destruct (objects s !! p) as [o|] eqn:Ho; [|done].
  destruct (relay_bound o) eqn:Hbound.
  - apply relay_inv_retire; [by apply relay_inv_stop_relay| |done|].
    + unfold _stop. destruct (source o); [|by rewrite Ho].
      destruct (proxies s !! n); simpl; by rewrite Ho.
    + by apply stop_relay_not_member.
  - apply relay_inv_retire; [done|by rewrite Ho|done|].
    intros track ps Hps Hp.
    destruct (inv_member _ Hs _ _ _ Hps Hp) as (o' & Ho' & _ & He).
    assert (o' = o) as -> by congruence.
    pose proof (inv_bound _ Hs _ _ Ho He). congruence.
Qed.

Lemma relay_inv_deliver s p o o' item :
  inv s → objects s !! p = Some o → same_identity o o' →
  inv (deliver p o' item s).1.
Proof.
  intros Hs Ho Hsame. unfold deliver. destruct item as [f|]; simpl.
  - by eapply relay_inv_set_object.
  - apply relay_inv_stop. by eapply relay_inv_set_object.
Qed.

Lemma objects_start p src s : objects (_start p src s) = objects s.
Proof.
  unfold _start. destruct src as [track|]; [|done].
  destruct (proxies s !! track); [|done]. simpl. by destruct (tasks s !! track).
Qed.

Lemma objects_stop_relay p src s : objects (_stop p src s) = objects s.
Proof.
  unfold _stop. destruct src as [track|]; [|done].
  by destruct (proxies s !! track).
Qed.

Lemma relay_inv_recv s p : inv s → inv (recv p s).1.
Proof.
  intros Hs. unfold recv. destruct (objects s !! p) as [o|] eqn:Ho; [|done].
  destruct (ended o) eqn:He; [done|]. destruct (waiting o); [done|].
  pose proof (inv_bound _ Hs _ _ Ho He) as Hbd. rewrite Hbd. simpl.
  pose proof (relay_inv_start s p o Hs Ho He) as Hs1.
  assert (Ho1 : objects (_start p (source o) s) !! p = Some o)
    by (by rewrite objects_start).
  destruct (queue o) as [|item q]; simpl.
  - eapply relay_inv_set_object; [exact Hs1|exact Ho1|]. by repeat split.
  - eapply relay_inv_deliver; [exact Hs1|exact Ho1|]. by repeat split.
Qed.

Lemma relay_inv_wake s p : inv s → inv (wake p s).1.
Proof.
  intros Hs. unfold wake. destruct (objects s !! p) as [o|] eqn:Ho; [|done].
  destruct (waiting o); [|done]. destruct (queue o) as [|item q]; [done|].
  eapply relay_inv_deliver; [exact Hs|exact Ho|]. by repeat split.
Qed.

Lemma relay_inv_subscribe s track : inv s → inv (subscribe track s).1.
Proof.
  intros [Hm Hb Ht Hr Ha Hfp Hft]. unfold subscribe. simpl.
  assert (Hnew : objects s !! next_proxy s = None).
  { destruct (objects s !! next_proxy s) eqn:Hn; [|done].
    pose proof (Hfp (next_proxy s) ltac:(by eexists)). lia. }
  assert (Hlook : ∀ track' ps,
    match proxies s !! track with
    | Some _ => proxies s
    | None => <[track := ∅]> (proxies s)
    end !! track' = Some ps →
    proxies s !! track' = Some ps ∨ ps = ∅).
  { intros track' ps. destruct (proxies s !! track) eqn:Htr; [by left|].
    destruct (decide (track' = track)) as [->|Hne].
    - rewrite lookup_insert_eq. intros [= <-]. by right.
    - rewrite lookup_insert_ne by done. by left. }
  split; simpl; try done.
  - intros track' ps p Hps Hp. destruct (Hlook _ _ Hps) as [Hps' | ->]; [|set_solver].
    destruct (Hm _ _ _ Hps' Hp) as (o & Ho & Hrest). exists o. split; [|done].
    rewrite lookup_insert_ne; [done|]. intros <-. congruence.
  - intros p o Ho He. destruct (decide (p = next_proxy s)) as [->|Hne].
    + rewrite lookup_insert_eq in Ho. by injection Ho as <-.
    + rewrite lookup_insert_ne in Ho by done. by eapply Hb.
  - intros track' Hsome. specialize (Hr _ Hsome).
    destruct (proxies s !! track) eqn:Htr; [done|].
    destruct (decide (track' = track)) as [->|Hne].
    + rewrite lookup_insert_eq. by eexists.
    + by rewrite lookup_insert_ne.
  - intros track' ps p Hps Hp. destruct (Hlook _ _ Hps) as [Hps' | ->]; [|set_solver].
    by eapply Ha.
  - intros p Hsome. destruct (decide (p = next_proxy s)) as [->|Hne]; [lia|].
    rewrite lookup_insert_ne in Hsome by done. specialize (Hfp _ Hsome). lia.
Qed.

Lemma relay_inv_run_track s t : inv s → inv (run_track t s).
Proof.
  intros Hs. unfold run_track.
  destruct (running s !! t) as [track|] eqn:Hrun; [|done].
  destruct (source_recv track (sources s)) as [frame srcs].
  pose proof (proj2 (inv_tasks _ Hs track t) Hrun) as Htask.
  destruct (inv_registered _ Hs track ltac:(by eexists)) as [ps Hps]. rewrite Hps.
  pose proof (relay_inv_objects s (broadcast frame ps (objects s)) Hs
                (same_identities_broadcast _ _ _)) as Hs1.
  destruct Hs1 as [Hm Hb Ht Hr Ha Hfp Hft]. simpl in *.
  destruct frame as [f|]; split; simpl; try done.
  - intros track' ps' p Hps' Hp. apply lookup_delete_Some in Hps' as [Hne Hps'].
    by eapply Hm.
  - intros track' t'. rewrite !lookup_delete_Some. split.
    + intros [Hne Htk]. apply Ht in Htk. split; [|done]. intros ->. congruence.
    + intros [Hne Hrn]. apply Ht in Hrn. split; [|done]. intros ->. congruence.
  - intros track' [t' Htk]. apply lookup_delete_Some in Htk as [Hne Htk].
    rewrite lookup_delete_ne by done. apply Hr. by eexists.
  - intros track' ps' p Hps' Hp. apply lookup_delete_Some in Hps' as [Hne Hps'].
    rewrite lookup_delete_ne by done. by eapply Ha.
  - intros t' [tr Hrn]. apply lookup_delete_Some in Hrn as [Hne Hrn].
    apply Hft. by eexists.
Qed.

Lemma relay_inv_step s e : inv s → inv (step s e).1.
Proof.
  intros Hs. destruct e; simpl.
  - by apply relay_inv_subscribe.
  - by apply relay_inv_recv.
  - by apply relay_inv_wake.
  - by apply relay_inv_stop.
  - by apply relay_inv_run_track.
Qed.

Lemma relay_inv_run es : ∀ s, inv s → inv (run s es).1.
Proof.
  induction es as [|e es IH]; intros s Hs; [done|].
  cbn [run]. pose proof (relay_inv_step s e Hs) as Hs1.
  destruct (step s e) as [s1 out1]. specialize (IH s1 Hs1).
  by destruct (run s1 es).
Qed.

Lemma relay_run_cons s e es :
  run s (e :: es)
  = ((run (step s e).1 es).1, (step s e).2 ++ (run (step s e).1 es).2).
Proof.
  cbn [run]. destruct (step s e) as [s1 out1]. cbn [fst snd].
  by destruct (run s1 es).
Qed.

Lemma relay_run_app s es1 es2 :
  run s (es1 ++ es2)
  = ((run (run s es1).1 es2).1, (run s es1).2 ++ (run (run s es1).1 es2).2).
Proof.
  revert s. induction es1 as [|e es1 IH]; intros s.
  - simpl. by destruct (run s es2).
  - rewrite <- app_comm_cons, !relay_run_cons, IH. simpl. by rewrite app_assoc.
Qed.

Lemma results_app p out1 out2 :
  results p (out1 ++ out2) = results p out1 ++ results p out2.
Proof. apply omap_app. Qed.

Lemma at_most_one_key (m : gmap nat nat) :
  (∀ k1 k2, is_Some (m !! k1) → is_Some (m !! k2) → k1 = k2) → size m ≤ 1.
Proof.
  intros Heq. induction m as [|k v m Hk _] using map_ind.
  { rewrite map_size_empty. lia. }
  rewrite map_size_insert_None by done.
  assert (m = ∅) as ->; [|rewrite map_size_empty; lia].
  apply map_empty. intros k'. destruct (m !! k') as [v'|] eqn:Hk'; [|done].
  assert (k' = k) as ->; [|congruence].
  apply Heq.
  - destruct (decide (k' = k)) as [->|Hne]; [congruence|].
    rewrite lookup_insert_ne by done. by eexists.
  - rewrite lookup_insert_eq. by eexists.
Qed.

Lemma fanouts_lookup track s t :
  is_Some (fanouts track s !! t) ↔ running s !! t = Some track.
Proof.
  unfold fanouts. split.
  - intros [tr Htr]. apply map_lookup_filter_Some in Htr as [Hrun Heq].
    simpl in Heq. by subst.
  - intros Hrun. exists track. by apply map_lookup_filter_Some.
Qed.

Lemma one_fanout s track : inv s → size (fanouts track s) ≤ 1.
Proof.
  intros Hs. apply at_most_one_key. intros t1 t2 H1 H2.
  apply fanouts_lookup in H1, H2.
  apply (inv_tasks _ Hs) in H1, H2. congruence.
Qed.

(** The step [e] puts a new fan-out coroutine for [track] on the loop. *)
Definition spawns (track : nat) (s : state) (e : event) : Prop :=
  ∃ t, running (step s e).1 !! t = Some track ∧ running s !! t ≠ Some track.

Lemma running_stop p s : running (stop p s) = running s.
Proof.
  unfold stop. destruct (objects s !! p) as [o|]; [|done].
  destruct (relay_bound o); [|done]. simpl. unfold _stop.
  destruct (source o) as [track|]; [|done]. by destruct (proxies s !! track).
Qed.

Lemma running_deliver p o item s : running (deliver p o item s).1 = running s.
Proof. unfold deliver. destruct item; [done|]. simpl. by rewrite running_stop. Qed.

Lemma tasks_stop p s : tasks (stop p s) = tasks s.
Proof.
  unfold stop. destruct (objects s !! p) as [o|]; [|done].
  destruct (relay_bound o); [|done]. simpl. unfold _stop.
  destruct (source o) as [track|]; [|done]. by destruct (proxies s !! track).
Qed.

Lemma sources_stop p s : sources (stop p s) = sources s.
Proof.
  unfold stop. destruct (objects s !! p) as [o|]; [|done].
  destruct (relay_bound o); [|done]. simpl. unfold _stop.
  destruct (source o) as [track|]; [|done]. by destruct (proxies s !! track).
Qed.

Lemma spawn_only_on_recv s track e :
  inv s → spawns track s e →
  ∃ p o, e = Recv p ∧ objects s !! p = Some o ∧ ended o = false ∧ waiting o = false
         ∧ source o = Some track ∧ (p ∉ active track s)
         ∧ ∀ t, running s !! t ≠ Some track.
Proof.
  intros Hs (t & Hnew & Hold). destruct e as [track'|p|p|p|t']; simpl in Hnew.
  - done.
  - unfold recv in Hnew. destruct (objects s !! p) as [o|] eqn:Ho; [|done].
    destruct (ended o) eqn:He; [done|]. destruct (waiting o) eqn:Hw; [done|].
    rewrite (inv_bound _ Hs _ _ Ho He) in Hnew. simpl in Hnew.
    assert (Hrun : running (_start p (source o) s) !! t = Some track).
    { destruct (queue o) as [|item q]; [done|]. by rewrite running_deliver in Hnew. }
    clear Hnew. unfold _start in Hrun.
    destruct (source o) as [track0|] eqn:Hsrc; [|done].
    destruct (proxies s !! track0) as [ps|] eqn:Hps; [|done].
    simpl in Hrun. destruct (tasks s !! track0) as [t0|] eqn:Htask; [done|].
    simpl in Hrun. destruct (decide (t = next_task s)) as [->|Hne].
    2:{ by rewrite lookup_insert_ne in Hrun. }
    rewrite lookup_insert_eq in Hrun. injection Hrun as ->.
    exists p, o. split_and!; try done.
    + unfold active. rewrite Hps. simpl. intros Hp.
      destruct (inv_active _ Hs _ _ _ Hps Hp) as [? ?]. congruence.
    + intros t' Ht'. apply (inv_tasks _ Hs) in Ht'. congruence.
  - unfold wake in Hnew. destruct (objects s !! p) as [o|]; [|done].
    destruct (waiting o); [|done]. destruct (queue o) as [|item q]; [done|].
    by rewrite running_deliver in Hnew.
  - by rewrite running_stop in Hnew.
  - unfold run_track in Hnew. destruct (running s !! t') as [track'|]; [|done].
    destruct (source_recv track' (sources s)) as [frame srcs].
    destruct (proxies s !! track') as [ps|]; simpl in Hnew.
    + destruct frame; simpl in Hnew; [done|].
      by apply lookup_delete_Some in Hnew as [_ ?].
    + by apply lookup_delete_Some in Hnew as [_ ?].
Qed.

Lemma recv_spawns s track p o :
  inv s → objects s !! p = Some o → ended o = false → waiting o = false →
  source o = Some track → is_Some (proxies s !! track) → tasks s !! track = None →
  spawns track s (Recv p).
Proof.
  intros Hs Ho He Hw Hsrc [ps Hps] Htask. exists (next_task s). split.
  - simpl. unfold recv. rewrite Ho, He, Hw, (inv_bound _ Hs _ _ Ho He). simpl.
    assert (Hrun : running (_start p (source o) s) !! next_task s = Some track).
    { unfold _start. rewrite Hsrc, Hps. simpl. rewrite Htask. simpl.
      by rewrite lookup_insert_eq. }
    destruct (queue o) as [|item q]; [done|]. by rewrite running_deliver.
  - intros Hrun. pose proof (inv_fresh_task _ Hs (next_task s) (mk_is_Some _ _ Hrun)).
    lia.
Qed.

Lemma subscribe_spec s track :
  inv s →
  objects s !! (subscribe track s).2 = None
  ∧ objects (subscribe track s).1 !! (subscribe track s).2
    = Some (mkProxy false true (Some track) [] false)
  ∧ (∀ q, q ≠ (subscribe track s).2 →
       objects (subscribe track s).1 !! q = objects s !! q)
  ∧ is_Some (proxies (subscribe track s).1 !! track)
  ∧ (∀ track', active track' (subscribe track s).1 = active track' s)
  ∧ tasks (subscribe track s).1 = tasks s
  ∧ running (subscribe track s).1 = running s
  ∧ sources (subscribe track s).1 = sources s.
Proof.
  intros Hs. unfold subscribe. simpl. split_and!; try done.
  - destruct (objects s !! next_proxy s) eqn:Hn; [|done].
    pose proof (inv_fresh_proxy _ Hs (next_proxy s) (mk_is_Some _ _ Hn)). lia.
  - by rewrite lookup_insert_eq.
  - intros q Hq. by rewrite lookup_insert_ne.
  - destruct (proxies s !! track) eqn:Htr; [by rewrite Htr|].
    rewrite lookup_insert_eq. by eexists.
  - intros track'. unfold active. simpl.
    destruct (proxies s !! track) eqn:Htr; [done|].
    destruct (decide (track' = track)) as [->|Hne].
    + by rewrite lookup_insert_eq, Htr.
    + by rewrite lookup_insert_ne.
Qed.

(** C7. On every state the relay can reach, a source has at most one
    fan-out coroutine on the loop.  [subscribe] hands out a proxy that did
    not exist before, live, bound to the source and with an empty queue,
    makes the source known to the relay, and changes neither an active set
    nor the tasks nor what the sources have yet to emit.  A fan-out for a
    source appears only in a [recv()] of a live proxy of that source that is
    not yet in the active set, made while the source has no fan-out; and
    such a [recv()] does start one once the source is known. *)
Theorem relay_at_most_one_fanout
    (srcs : gmap nat (list Frame)) (es : list event) (track : nat) :
  let s := (run (init srcs) es).1 in
  size (fanouts track s) ≤ 1
  ∧ (∀ t1 t2, running s !! t1 = Some track → running s !! t2 = Some track → t1 = t2)
  ∧ (objects s !! (subscribe track s).2 = None
     ∧ objects (subscribe track s).1 !! (subscribe track s).2
       = Some (mkProxy false true (Some track) [] false)
     ∧ (∀ q, q ≠ (subscribe track s).2 →
          objects (subscribe track s).1 !! q = objects s !! q)
     ∧ is_Some (proxies (subscribe track s).1 !! track)
     ∧ (∀ track', active track' (subscribe track s).1 = active track' s)
     ∧ tasks (subscribe track s).1 = tasks s
     ∧ running (subscribe track s).1 = running s
     ∧ sources (subscribe track s).1 = sources s)
  ∧ (∀ e, spawns track s e →
       ∃ p o, e = Recv p ∧ objects s !! p = Some o ∧ ended o = false
              ∧ waiting o = false ∧ source o = Some track ∧ (p ∉ active track s)
              ∧ ∀ t, running s !! t ≠ Some track)
  ∧ (∀ p o, objects s !! p = Some o → ended o = false → waiting o = false →
       source o = Some track → is_Some (proxies s !! track) →
       tasks s !! track = None → spawns track s (Recv p)).
Proof.
  intros s. assert (Hs : inv s) by apply relay_inv_run, relay_inv_init.
  refine (conj _ (conj _ (conj _ (conj _ _)))).
  - by apply one_fanout.
  - intros t1 t2 H1 H2. apply (inv_tasks _ Hs) in H1, H2. congruence.
  - by apply subscribe_spec.
  - intros e. by apply spawn_only_on_recv.
  - intros p o. by apply recv_spawns.
Qed.

(** Fifty subscriptions start nothing; the first [recv()] starts the one
    fan-out, the second [recv()] of another proxy starts none. *)
Example relay_fifty_proxies_one_fanout :
  let s0 := (run (init {[7 := []]}) (replicate 50 (Subscribe 7))).1 in
  let s2 := (run s0 [Recv 3; Recv 42]).1 in
  size (fanouts 7 s0) = 0 ∧ size (fanouts 7 s2) = 1
  ∧ active 7 s2 = {[3; 42]}.
Proof. vm_compute. done. Qed.

(** A proxy that has ended. *)
Definition terminal (p : nat) (s : state) : Prop :=
  ∃ o, objects s !! p = Some o ∧ ended o = true.

Lemma relay_results_own p r : results p [(p, r)] = [r].
Proof. unfold results. simpl. by rewrite decide_True. Qed.

Lemma relay_terminal_recv p s :
  terminal p s → recv p s = (s, [(p, MediaStreamError)]).
Proof. intros (o & Ho & He). unfold recv. by rewrite Ho, He. Qed.

Lemma relay_terminal_stop p s : is_Some (objects s !! p) → terminal p (stop p s).
Proof.
  intros [o Ho]. unfold stop, terminal. rewrite Ho.
  destruct (relay_bound o); simpl; eexists; (split; [apply lookup_insert_eq|done]).
Qed.

Lemma objects_stop_other p q s : p ≠ q → objects (stop q s) !! p = objects s !! p.
Proof.
  intros Hne. unfold stop. destruct (objects s !! q) as [o|]; [|done].
  destruct (relay_bound o); simpl.
  - by rewrite lookup_insert_ne, objects_stop_relay.
  - by rewrite lookup_insert_ne.
Qed.

Lemma objects_deliver_other p q o item s :
  p ≠ q → objects (deliver q o item s).1 !! p = objects s !! p.
Proof.
  intros Hne. unfold deliver. destruct item; simpl.
  - by rewrite lookup_insert_ne.
  - rewrite objects_stop_other by done. simpl. by rewrite lookup_insert_ne.
Qed.

(** What a step of another proxy, of the relay or of a fan-out does to the
    proxy [p]: at most an item is put at the end of its queue. *)
Lemma objects_step_other s e p o :
  inv s → objects s !! p = Some o →
  e ≠ Recv p → e ≠ Wake p → e ≠ Stop p →
  objects (step s e).1 !! p = Some o
  ∨ ∃ t track ps item,
      e = Fanout t ∧ running s !! t = Some track ∧ proxies s !! track = Some ps
      ∧ p ∈ ps ∧ item = (source_recv track (sources s)).1
      ∧ objects (step s e).1 !! p = Some (put_nowait item o).
Proof.
  intros Hs Ho Hr Hw Hst. destruct e as [track|q|q|q|t]; simpl.
  - left. rewrite lookup_insert_ne; [done|]. intros <-.
    pose proof (inv_fresh_proxy _ Hs (next_proxy s) (mk_is_Some _ _ Ho)). lia.
  - left. assert (p ≠ q) by congruence. unfold recv.
    destruct (objects s !! q) as [oq|]; [|done].
    destruct (ended oq); [done|]. destruct (waiting oq); [done|].
    destruct (relay_bound oq); simpl; [|done].
    destruct (queue oq) as [|item r]; simpl.
    + by rewrite lookup_insert_ne, objects_start.
    + by rewrite objects_deliver_other, objects_start.
  - left. assert (p ≠ q) by congruence. unfold wake.
    destruct (objects s !! q) as [oq|]; [|done].
    destruct (waiting oq); [|done]. destruct (queue oq) as [|item r]; [done|].
    by rewrite objects_deliver_other.
  - left. assert (p ≠ q) by congruence. by rewrite objects_stop_other.
  - unfold run_track. destruct (running s !! t) as [track|] eqn:Hrun; [|by left].
    destruct (source_recv track (sources s)) as [frame srcs] eqn:Hsrc.
    destruct (proxies s !! track) as [ps|] eqn:Hps; [|by left].
    assert (Hlook : broadcast frame ps (objects s) !! p
                    = if decide (p ∈ ps) then Some (put_nowait frame o) else Some o).
    { rewrite broadcast_lookup, Ho. by case_decide. }
    destruct (decide (p ∈ ps)) as [Hin|Hout].
    + right. exists t, track, ps, frame. split_and!; try done.
      * by rewrite Hsrc.
      * by destruct frame.
    + left. by destruct frame.
Qed.

(** An ended proxy stays ended. *)
Lemma relay_terminal_step p s e : inv s → terminal p s → terminal p (step s e).1.
Proof.
  intros Hs (o & Ho & He).
  destruct (decide (e = Recv p)) as [->|Hr].
  { simpl. rewrite relay_terminal_recv; by exists o. }
  destruct (decide (e = Stop p)) as [->|Hst].
  { simpl. apply relay_terminal_stop. by eexists. }
  destruct (decide (e = Wake p)) as [->|Hw].
  { simpl. unfold wake. rewrite Ho. destruct (waiting o); [|by exists o].
    destruct (queue o) as [|[f|] q]; [by exists o| |]; simpl.
    - unfold terminal. simpl. eexists. split; [apply lookup_insert_eq|done].
    - apply relay_terminal_stop. simpl. rewrite lookup_insert_eq. by eexists. }
  destruct (objects_step_other s e p o Hs Ho Hr Hw Hst)
    as [Hsame | (t & track & ps & item & _ & _ & _ & _ & _ & Hput)].
  - by exists o.
  - eexists. split; [exact Hput|done].
Qed.

Lemma relay_terminal_run p es : ∀ s, inv s → terminal p s → terminal p (run s es).1.
Proof.
  induction es as [|e es IH]; intros s Hs Ht; [done|].
  rewrite relay_run_cons. simpl.
  apply IH; [by apply relay_inv_step|by apply relay_terminal_step].
Qed.

(** The event [e] is a [recv()] on the live proxy [p] that gets an item out
    of the queue: a suspended call that resumes, or a new call. *)
Definition dequeues (s : state) (p : nat) (o : proxy) (e : event) : Prop :=
  objects s !! p = Some o ∧ ended o = false
  ∧ ((waiting o = true ∧ e = Wake p) ∨ (waiting o = false ∧ e = Recv p)).

Lemma relay_step_dequeues s p o e item q :
  inv s → dequeues s p o e → queue o = item :: q →
  ∃ s1, step s e = deliver p (mkProxy false true (source o) q false) item s1
        ∧ is_Some (objects s1 !! p).
Proof.
  intros Hs (Ho & He & [(Hw & ->) | (Hw & ->)]) Hq; simpl.
  - unfold wake. rewrite Ho, Hw, Hq, He, (inv_bound _ Hs _ _ Ho He).
    exists s. split; [done|by eexists].
  - unfold recv. rewrite Ho, He, Hw, (inv_bound _ Hs _ _ Ho He), Hq. simpl.
    eexists. split; [done|]. rewrite objects_start. by eexists.
Qed.

Lemma relay_deliver_sentinel p o s :
  results p (deliver p o None s).2 = [MediaStreamError]
  ∧ terminal p (deliver p o None s).1.
Proof.
  simpl. split; [apply relay_results_own|].
  apply relay_terminal_stop. simpl. rewrite lookup_insert_eq. by eexists.
Qed.

Lemma relay_deliver_frame p o f s :
  results p (deliver p o (Some f) s).2 = [Returned f]
  ∧ objects (deliver p o (Some f) s).1 !! p = Some o.
Proof. simpl. split; [apply relay_results_own|by rewrite lookup_insert_eq]. Qed.

Lemma relay_error_terminal s p e :
  e = Recv p ∨ e = Wake p →
  MediaStreamError ∈ results p (step s e).2 → terminal p (step s e).1.
Proof.
  intros [-> | ->]; simpl.
  - unfold recv. destruct (objects s !! p) as [o|] eqn:Ho; [|by intros ?%elem_of_nil].
    destruct (ended o) eqn:He; [intros _; by exists o|].
    destruct (waiting o); [by intros ?%elem_of_nil|].
    destruct (relay_bound o); cbn [negb snd fst].
    2:{ rewrite relay_results_own. by intros ?%list_elem_of_singleton. }
    destruct (queue o) as [|[f|] q]; [by intros ?%elem_of_nil| |].
    + cbn [deliver snd]. rewrite relay_results_own. by intros ?%list_elem_of_singleton.
    + intros _. apply relay_deliver_sentinel.
  - unfold wake. destruct (objects s !! p) as [o|] eqn:Ho; [|by intros ?%elem_of_nil].
    destruct (waiting o); [|by intros ?%elem_of_nil].
    destruct (queue o) as [|[f|] q]; [by intros ?%elem_of_nil| |].
    + cbn [deliver snd]. rewrite relay_results_own. by intros ?%list_elem_of_singleton.
    + intros _. apply relay_deliver_sentinel.
Qed.

(** The contract of [RelayStreamTrack.recv()], on every state the relay can
    reach. *)
Lemma relay_recv_contract (srcs : gmap nat (list Frame)) (es : list event) (p : nat) :
  let s := (run (init srcs) es).1 in
  (terminal p s → step s (Recv p) = (s, [(p, MediaStreamError)]))
  ∧ (∀ o e q, dequeues s p o e → queue o = None :: q →
       results p (step s e).2 = [MediaStreamError] ∧ terminal p (step s e).1)
  ∧ (∀ o e f q, dequeues s p o e → queue o = Some f :: q →
       results p (step s e).2 = [Returned f]
       ∧ ∃ o', objects (step s e).1 !! p = Some o' ∧ queue o' = q ∧ ended o' = false)
  ∧ (is_Some (objects s !! p) → terminal p (step s (Stop p)).1)
  ∧ (∀ e, e = Recv p ∨ e = Wake p →
       MediaStreamError ∈ results p (step s e).2 → terminal p (step s e).1)
  ∧ (terminal p s → ∀ es',
       terminal p (run s es').1
       ∧ step (run s es').1 (Recv p) = ((run s es').1, [(p, MediaStreamError)])).
Proof.
  intros s. assert (Hs : inv s) by apply relay_inv_run, relay_inv_init.
  split_and!.
  - intros Hterm. exact (relay_terminal_recv p s Hterm).
  - intros o e q Hd Hq.
    destruct (relay_step_dequeues s p o e None q Hs Hd Hq) as (s1 & -> & _).
    apply relay_deliver_sentinel.
  - intros o e f q Hd Hq.
    destruct (relay_step_dequeues s p o e (Some f) q Hs Hd Hq) as (s1 & -> & _).
    destruct (relay_deliver_frame p (mkProxy false true (source o) q false) f s1)
      as [Hr Ho'].
    split; [done|]. eexists. split; [exact Ho'|done].
  - intros Hsome. by apply relay_terminal_stop.
  - intros e He. by apply relay_error_terminal.
  - intros Hterm es'. pose proof (relay_terminal_run p es' s Hs Hterm) as H.
    split; [done|]. exact (relay_terminal_recv p _ H).
Qed.

(** ** What the relay leaves alone *)

Lemma sources_start p src s : sources (_start p src s) = sources s.
Proof.
  unfold _start. destruct src as [track|]; [|done].
  destruct (proxies s !! track); [|done]. simpl. by destruct (tasks s !! track).
Qed.

Lemma sources_deliver p o item s : sources (deliver p o item s).1 = sources s.
Proof. unfold deliver. destruct item; [done|]. simpl. by rewrite sources_stop. Qed.

Lemma sources_recv p s : sources (recv p s).1 = sources s.
Proof.
  unfold recv. destruct (objects s !! p) as [o|]; [|done].
  destruct (ended o); [done|]. destruct (waiting o); [done|].
  destruct (relay_bound o); simpl; [|done].
  destruct (queue o) as [|item q]; simpl.
  - by rewrite sources_start.
  - by rewrite sources_deliver, sources_start.
Qed.

Lemma sources_wake p s : sources (wake p s).1 = sources s.
Proof.
  unfold wake. destruct (objects s !! p) as [o|]; [|done].
  destruct (waiting o); [|done]. destruct (queue o) as [|item q]; [done|].
  by rewrite sources_deliver.
Qed.

Lemma active_start p q src track s :
  p ∈ active track s → p ∈ active track (_start q src s).
Proof.
  unfold _start. destruct src as [track'|]; [|done].
  destruct (proxies s !! track') as [ps|] eqn:Hps; [|done].
  intros Hp.
  assert (Hin : p ∈ active track (set_proxies (<[track' := {[q]} ∪ ps]> (proxies s)) s)).
  { unfold active in *. simpl. destruct (decide (track = track')) as [->|Hne].
    - rewrite lookup_insert_eq. rewrite Hps in Hp. simpl in *. set_solver.
    - by rewrite lookup_insert_ne. }
  simpl. by destruct (tasks s !! track').
Qed.

Lemma active_stop_relay p q src track s :
  p ≠ q → p ∈ active track s → p ∈ active track (_stop q src s).
Proof.
  intros Hne. unfold _stop. destruct src as [track'|]; [|done].
  destruct (proxies s !! track') as [ps|] eqn:Hps; [|done].
  unfold active. simpl. destruct (decide (track = track')) as [->|Hnt].
  - rewrite lookup_insert_eq, Hps. simpl. set_solver.
  - by rewrite lookup_insert_ne.
Qed.

Lemma active_stop p q track s :
  p ≠ q → p ∈ active track s → p ∈ active track (stop q s).
Proof.
  intros Hne Hp. unfold stop. destruct (objects s !! q) as [o|]; [|done].
  destruct (relay_bound o); [|done].
  by apply (active_stop_relay p q (source o) track s).
Qed.

Lemma active_deliver p q o item track s :
  p ≠ q → p ∈ active track s → p ∈ active track (deliver q o item s).1.
Proof.
  intros Hne Hp. unfold deliver. destruct item; [done|]. simpl.
  by apply active_stop.
Qed.

(** A step of another proxy leaves [p] where it is. *)
Lemma other_proxy_step s e p q track :
  p ≠ q → e = Recv q ∨ e = Wake q ∨ e = Stop q →
  objects (step s e).1 !! p = objects s !! p
  ∧ sources (step s e).1 = sources s
  ∧ (p ∈ active track s → p ∈ active track (step s e).1)
  ∧ results p (step s e).2 = [].
Proof.
  intros Hne [-> | [-> | ->]]; simpl.
  - assert (Hres : results p (recv q s).2 = []).
    { unfold recv. destruct (objects s !! q) as [o|]; [|done].
      destruct (ended o); [unfold results; simpl; by rewrite decide_False|].
      destruct (waiting o); [done|].
      destruct (relay_bound o); simpl;
        [|unfold results; simpl; by rewrite decide_False].
      destruct (queue o) as [|[f|] r]; [done|..];
        unfold results; simpl; by rewrite decide_False. }
    split_and!; [|apply sources_recv| |done].
    + unfold recv. destruct (objects s !! q) as [o|]; [|done].
      destruct (ended o); [done|]. destruct (waiting o); [done|].
      destruct (relay_bound o); simpl; [|done].
      destruct (queue o) as [|item r]; simpl.
      * by rewrite lookup_insert_ne, objects_start.
      * by rewrite objects_deliver_other, objects_start.
    + intros Hp. unfold recv. destruct (objects s !! q) as [o|]; [|done].
      destruct (ended o); [done|]. destruct (waiting o); [done|].
      destruct (relay_bound o); simpl; [|done].
      destruct (queue o) as [|item r]; simpl.
      * by apply (active_start p q (source o) track s).
      * apply active_deliver; [done|]. by apply active_start.
  - assert (Hres : results p (wake q s).2 = []).
    { unfold wake. destruct (objects s !! q) as [o|]; [|done].
      destruct (waiting o); [|done].
      destruct (queue o) as [|[f|] r]; [done|..];
        unfold results; simpl; by rewrite decide_False. }
    split_and!; [|apply sources_wake| |done].
    + unfold wake. destruct (objects s !! q) as [o|]; [|done].
      destruct (waiting o); [|done]. destruct (queue o) as [|item r]; [done|].
      by rewrite objects_deliver_other.
    + intros Hp. unfold wake. destruct (objects s !! q) as [o|]; [|done].
      destruct (waiting o); [|done]. destruct (queue o) as [|item r]; [done|].
      by apply active_deliver.
  - split_and!; [by apply objects_stop_other|apply sources_stop| |done].
    intros Hp. by apply active_stop.
Qed.

(** A source that has nothing more to emit. *)
Definition exhausted (track : nat) (s : state) : Prop :=
  (source_recv track (sources s)).1 = None.

Lemma source_recv_some track (srcs : gmap nat (list Frame)) f fs :
  srcs !! track = Some (f :: fs) →
  source_recv track srcs = (Some f, <[track := fs]> srcs).
Proof. intros H. unfold source_recv. by rewrite H. Qed.

Lemma source_recv_none track (srcs : gmap nat (list Frame)) :
  srcs !! track = Some [] ∨ srcs !! track = None →
  source_recv track srcs = (None, srcs).
Proof. intros [H | H]; unfold source_recv; by rewrite H. Qed.

Lemma source_recv_other track track' (srcs : gmap nat (list Frame)) :
  track ≠ track' → (source_recv track' srcs).2 !! track = srcs !! track.
Proof.
  intros Hne. unfold source_recv. destruct (srcs !! track') as [[|f fs]|]; try done.
  simpl. by rewrite lookup_insert_ne.
Qed.

Lemma source_recv_exhausted track (srcs : gmap nat (list Frame)) :
  (source_recv track srcs).1 = None → (source_recv track srcs).2 = srcs.
Proof. unfold source_recv. by destruct (srcs !! track) as [[|f fs]|]. Qed.

Lemma source_recv_fst_ext track (srcs srcs' : gmap nat (list Frame)) :
  srcs !! track = srcs' !! track →
  (source_recv track srcs).1 = (source_recv track srcs').1.
Proof. intros H. unfold source_recv. rewrite H. by destruct (srcs' !! track) as [[|f fs]|]. Qed.

Lemma sources_run_track t s track :
  running s !! t = Some track →
  sources (run_track t s) = (source_recv track (sources s)).2.
Proof.
  intros Hrun. unfold run_track. rewrite Hrun.
  destruct (source_recv track (sources s)) as [frame srcs].
  destruct (proxies s !! track); [|done]. by destruct frame.
Qed.

Lemma exhausted_step track s e : exhausted track s → exhausted track (step s e).1.
Proof.
  unfold exhausted. intros Hex. destruct e as [tr|q|q|q|t]; simpl.
  - done.
  - by rewrite sources_recv.
  - by rewrite sources_wake.
  - by rewrite sources_stop.
  - destruct (running s !! t) as [track'|] eqn:Hrun.
    2:{ unfold run_track. by rewrite Hrun. }
    rewrite (sources_run_track _ _ _ Hrun).
    destruct (decide (track = track')) as [<-|Hne].
    + by rewrite source_recv_exhausted.
    + rewrite <- Hex. apply source_recv_fst_ext. by apply source_recv_other.
Qed.

(** ** What an active proxy receives *)

Lemma stop_object p o s :
  objects s !! p = Some o →
  ∃ o', objects (stop p s) !! p = Some o' ∧ ended o' = true ∧ queue o' = queue o.
Proof.
  intros Ho. unfold stop. rewrite Ho.
  destruct (relay_bound o); simpl; rewrite lookup_insert_eq; by eexists.
Qed.

Lemma active_set_object p o track s : active track (set_object p o s) = active track s.
Proof. done. Qed.

(** What [recv()] on the live proxy [p] does, when it is called ([Recv p])
    and when a suspended call resumes ([Wake p]): nothing, or the call
    suspends on an empty queue, or the first item of the queue is delivered. *)
Lemma consume_cases s p o e track :
  inv s → objects s !! p = Some o → ended o = false →
  e = Recv p ∨ e = Wake p →
  ∃ s1, objects s1 = objects s ∧ sources s1 = sources s
    ∧ (p ∈ active track s → p ∈ active track s1)
    ∧ ((step s e = (s, []) ∧ ¬ (dequeues s p o e ∧ queue o ≠ []))
       ∨ (queue o = []
          ∧ step s e = (set_object p (mkProxy false true (source o) [] true) s1, []))
       ∨ (∃ item q, queue o = item :: q
          ∧ step s e = deliver p (mkProxy false true (source o) q false) item s1)).
Proof.
  intros Hs Ho He [-> | ->]; simpl.
  - unfold recv. rewrite Ho, He, (inv_bound _ Hs _ _ Ho He).
    exists (_start p (source o) s).
    split; [apply objects_start|]. split; [apply sources_start|].
    split; [apply active_start|].
    destruct (waiting o) eqn:Hw.
    { left. split; [done|]. intros [(_ & _ & [[_ [=]] | [? _]]) _]. congruence. }
    simpl. destruct (queue o) as [|item q].
    + right. left. done.
    + right. right. by exists item, q.
  - unfold wake. rewrite Ho. exists s. split_and!; try done.
    destruct (waiting o) eqn:Hw.
    2:{ left. split; [done|]. intros [(_ & _ & [[? _] | [_ [=]]]) _]. congruence. }
    destruct (queue o) as [|item q].
    + left. split; [done|]. by intros [_ ?].
    + right. right. exists item, q. by rewrite He, (inv_bound _ Hs _ _ Ho He).
Qed.

Section delivery.
Variables (track p : nat) (fs : list Frame).

(** The [i]-th thing a consumer of the source's frames [fs] gets from
    [recv()]: the [i]-th frame, and [MediaStreamError] once they are over. *)
Definition expected (i : nat) : result :=
  match fs !! i with
  | Some f => Returned f
  | None => MediaStreamError
  end.

(** [p] has consumed [c] items; the fan-out has read [d] frames of the
    source and [p], in the active set, has the ones it did not consume yet
    in its queue. *)
Definition feeding (c d : nat) (s : state) : Prop :=
  ∃ o, objects s !! p = Some o ∧ ended o = false ∧ source o = Some track
    ∧ p ∈ active track s ∧ c ≤ d ≤ length fs
    ∧ sources s !! track = Some (drop d fs)
    ∧ queue o = map Some (take (d - c) (drop c fs)).

(** The source is over and its sentinel is in the queue of [p], after the
    frames [p] did not consume yet. *)
Definition draining (c : nat) (s : state) : Prop :=
  ∃ o n, objects s !! p = Some o ∧ ended o = false ∧ source o = Some track
    ∧ c ≤ length fs ∧ exhausted track s
    ∧ queue o = map Some (drop c fs) ++ replicate (S n) None.

(** [p] has consumed every frame and the sentinel, and is ended. *)
Definition finished (c : nat) (s : state) : Prop :=
  ∃ o n, objects s !! p = Some o ∧ ended o = true ∧ length fs < c
    ∧ queue o = replicate n None.

Definition delivered (c : nat) (s : state) : Prop :=
  (∃ d, feeding c d s) ∨ draining c s ∨ finished c s.

Lemma expected_frame c x : fs !! c = Some x → expected c = Returned x.
Proof. intros H. unfold expected. by rewrite H. Qed.

Lemma expected_over c : length fs ≤ c → expected c = MediaStreamError.
Proof. intros H. unfold expected. by rewrite lookup_ge_None_2. Qed.

Lemma exhausted_ext s s' :
  sources s' !! track = sources s !! track → exhausted track s → exhausted track s'.
Proof.
  unfold exhausted. intros Heq <-. by apply source_recv_fst_ext.
Qed.

Lemma delivered_frame c s s' :
  objects s' !! p = objects s !! p →
  sources s' !! track = sources s !! track →
  (p ∈ active track s → p ∈ active track s') →
  delivered c s → delivered c s'.
Proof.
  intros Hobj Hsrc Hact [[d (o & Ho & He & Hso & Hin & Hcd & Hs & Hq)]
                        | [(o & n & Ho & He & Hso & Hc & Hex & Hq)
                          | (o & n & Ho & He & Hc & Hq)]].
  - left. exists d, o. rewrite Hobj, Hsrc. split_and!; auto; lia.
  - right. left. exists o, n. rewrite Hobj. split_and!; auto.
    by apply (exhausted_ext s).
  - right. right. exists o, n. by rewrite Hobj.
Qed.

(** A [recv()] of [p] once the source is over: nothing happens, which is
    the case only when no call can get at the queue, or the next expected
    item is delivered. *)
Lemma draining_consume c s e :
  inv s → draining c s → e = Recv p ∨ e = Wake p →
  (step s e = (s, []) ∧ ¬ (∃ o, dequeues s p o e))
  ∨ (results p (step s e).2 = [expected c]
     ∧ ((S c ≤ length fs ∧ draining (S c) (step s e).1)
        ∨ finished (S c) (step s e).1)).
Proof.
  intros Hs (o & n & Ho & He & Hso & Hc & Hex & Hq) Hev.
  destruct (consume_cases s p o e track Hs Ho He Hev)
    as (s1 & Hobj & Hsources & Hact & [[Hstep Hno] | [[Hq0 Hstep]
                                       | (item & q & Hq1 & Hstep)]]).
  - left. split; [done|]. intros (o' & Hd). apply Hno.
    assert (o' = o) as -> by (destruct Hd as (Ho' & _); congruence).
    split; [done|]. rewrite Hq. by destruct (map Some (drop c fs)).
  - rewrite Hq0 in Hq. by destruct (map Some (drop c fs)).
  - right. destruct (fs !! c) as [x|] eqn:Hx.
    + rewrite (drop_S _ _ _ Hx) in Hq. simpl in Hq. rewrite Hq1 in Hq.
      injection Hq as -> ->. pose proof (lookup_lt_Some _ _ _ Hx) as Hlt.
      rewrite Hstep. split.
      * rewrite (proj1 (relay_deliver_frame p _ x s1)).
        by rewrite (expected_frame _ _ Hx).
      * left. split; [lia|]. simpl. eexists. exists n. simpl.
        rewrite lookup_insert_eq. split_and!; try done; try lia.
        apply (exhausted_ext s); [simpl; by rewrite Hsources|done].
    + apply lookup_ge_None in Hx. rewrite (drop_ge fs c) in Hq by done.
      simpl in Hq. rewrite Hq1 in Hq. injection Hq as -> ->.
      rewrite Hstep. split.
      * rewrite (proj1 (relay_deliver_sentinel p _ s1)). by rewrite expected_over.
      * right. simpl.
        destruct (stop_object p (mkProxy false true (source o) (replicate n None) false)
                    (set_object p (mkProxy false true (source o) (replicate n None) false) s1))
          as (o' & Ho' & He' & Hq').
        { simpl. apply lookup_insert_eq. }
        exists o', n. split_and!; try done. lia.
Qed.

(** A [recv()] of [p] consumes nothing, or the next expected item. *)
Lemma delivered_consume c s e :
  inv s → delivered c s → e = Recv p ∨ e = Wake p →
  (delivered c (step s e).1 ∧ results p (step s e).2 = [])
  ∨ (delivered (S c) (step s e).1 ∧ results p (step s e).2 = [expected c]).
Proof.
  intros Hs [[d (o & Ho & He & Hso & Hin & Hcd & Hsrc & Hq)]
            | [Hdr | (o & n & Ho & He & Hc & Hq)]] Hev.
  - destruct (consume_cases s p o e track Hs Ho He Hev)
      as (s1 & Hobj & Hsources & Hact & [[Hstep _] | [[Hq0 Hstep]
                                         | (item & q & Hq1 & Hstep)]]).
    + left. rewrite Hstep. split; [|done]. left. exists d, o. split_and!; auto; lia.
    + left. rewrite Hstep. split; [|done]. left. exists d. eexists.
      simpl. rewrite lookup_insert_eq, Hsources. split_and!; try done; try lia.
      * rewrite active_set_object. auto.
      * simpl. by rewrite <- Hq.
    + destruct (fs !! c) as [x|] eqn:Hx.
      2:{ apply lookup_ge_None in Hx. rewrite (drop_ge fs c), take_nil in Hq by done.
          simpl in Hq. congruence. }
      rewrite (drop_S _ _ _ Hx) in Hq.
      destruct (d - c) as [|m] eqn:Hm; [simpl in Hq; congruence|].
      simpl in Hq. rewrite Hq1 in Hq. injection Hq as -> ->.
      right. rewrite Hstep. split; [simpl|].
      * left. exists d. eexists. simpl. rewrite lookup_insert_eq, Hsources.
        split_and!; try done; try lia.
        -- rewrite active_set_object. auto.
        -- simpl. by replace (d - S c) with m by lia.
      * rewrite (proj1 (relay_deliver_frame p _ x s1)). by rewrite (expected_frame _ _ Hx).
  - destruct (draining_consume c s e Hs Hdr Hev) as [[Hstep _] | [Hres [[_ H] | H]]].
    + left. rewrite Hstep. split; [|done]. right. by left.
    + right. split; [|done]. right. by left.
    + right. split; [|done]. right. by right.
  - assert (Hover : expected c = MediaStreamError) by (apply expected_over; lia).
    destruct Hev as [-> | ->]; simpl.
    + right. rewrite relay_terminal_recv by (by exists o). cbn [fst snd]. split.
      * right. right. exists o, n. split_and!; try done. lia.
      * rewrite relay_results_own. by rewrite Hover.
    + unfold wake. rewrite Ho.
      destruct (waiting o).
      2:{ left. split; [|done]. right. right. by exists o, n. }
      destruct (queue o) as [|item q] eqn:Hq1.
      { left. split; [|done]. right. right. exists o, n. by rewrite Hq1. }
      destruct n as [|n]; [done|]. simpl in Hq. injection Hq as -> ->.
      right. split; [simpl|].
      * right. right.
        destruct (stop_object p (mkProxy (ended o) (relay_bound o) (source o)
                                   (replicate n None) false)
                    (set_object p (mkProxy (ended o) (relay_bound o) (source o)
                                     (replicate n None) false) s))
          as (o' & Ho' & He' & Hq').
        { simpl. apply lookup_insert_eq. }
        exists o', n. split_and!; try done. lia.
      * rewrite (proj1 (relay_deliver_sentinel p _ s)). by rewrite Hover.
Qed.

Lemma active_member s : p ∈ active track s → ∃ ps, proxies s !! track = Some ps ∧ p ∈ ps.
Proof.
  unfold active. destruct (proxies s !! track) as [ps|]; simpl; [eauto|set_solver].
Qed.

(** One pass of the fan-out of [track] while the source still emits. *)
Lemma fanout_feeding c d s t :
  feeding c d s → running s !! t = Some track →
  (d < length fs ∧ feeding c (S d) (run_track t s))
  ∨ (d = length fs ∧ draining c (run_track t s)).
Proof.
  intros (o & Ho & He & Hso & Hin & Hcd & Hsrc & Hq) Hrun.
  destruct (active_member _ Hin) as (ps & Hps & Hp).
  destruct (fs !! d) as [x|] eqn:Hx.
  - left. pose proof (lookup_lt_Some _ _ _ Hx) as Hlt. split; [lia|].
    unfold run_track.
    rewrite Hrun, (source_recv_some track _ x (drop (S d) fs)), Hps.
    2:{ rewrite Hsrc. f_equal. by apply drop_S. }
    exists (put_nowait (Some x) o). simpl.
    rewrite broadcast_lookup, decide_True, Ho by done.
    split_and!; try done; try lia.
    + by rewrite lookup_insert_eq.
    + simpl. rewrite Hq. replace (S d - c) with (S (d - c)) by lia.
      rewrite (take_S_r _ _ x), map_app; [done|].
      rewrite lookup_drop. by replace (c + (d - c)) with d by lia.
  - right. apply lookup_ge_None in Hx. assert (d = length fs) as -> by lia.
    split; [done|]. rewrite drop_all in Hsrc.
    unfold run_track. rewrite Hrun, (source_recv_none track), Hps by auto.
    exists (put_nowait None o), 0. simpl.
    rewrite broadcast_lookup, decide_True, Ho by done.
    split_and!; try done; try lia.
    + unfold exhausted. simpl. by rewrite source_recv_none by auto.
    + simpl. rewrite Hq. rewrite take_ge; [done|]. rewrite length_drop. lia.
Qed.

(** One pass of the fan-out of [track] once the source is over. *)
Lemma fanout_draining c s t :
  draining c s → running s !! t = Some track → draining c (run_track t s).
Proof.
  intros (o & n & Ho & He & Hso & Hc & Hex & Hq) Hrun.
  pose proof (source_recv_exhausted _ _ Hex) as Hsame. pose proof Hex as Hex'.
  unfold exhausted in Hex. unfold run_track. rewrite Hrun.
  destruct (source_recv track (sources s)) as [frame srcs]. simpl in Hex, Hsame.
  subst frame srcs.
  destruct (proxies s !! track) as [ps|] eqn:Hps.
  - destruct (decide (p ∈ ps)) as [Hin|Hout].
    + exists (put_nowait None o), (S n). simpl.
      rewrite broadcast_lookup, decide_True, Ho by done.
      split_and!; try done. simpl. rewrite Hq, <- app_assoc. f_equal.
      by rewrite <- (replicate_S_end (S n)).
    + exists o, n. simpl. rewrite broadcast_lookup, decide_False, Ho by done.
      by split_and!.
  - exists o, n. by split_and!.
Qed.

Lemma finished_other c s e :
  inv s → finished c s → e ≠ Recv p → e ≠ Wake p → e ≠ Stop p →
  finished c (step s e).1.
Proof.
  intros Hs (o & n & Ho & He & Hc & Hq) Hr Hw Hst.
  destruct (objects_step_other s e p o Hs Ho Hr Hw Hst)
    as [Hsame | (t & track' & ps & item & _ & _ & Hps & Hin & _ & _)].
  - by exists o, n.
  - destruct (inv_member _ Hs _ _ _ Hps Hin) as (o' & Ho' & _ & He'). congruence.
Qed.

Lemma active_run_track_other s t track' :
  running s !! t = Some track' → track ≠ track' →
  active track (run_track t s) = active track s.
Proof.
  intros Hrun Hne. unfold run_track, active. rewrite Hrun.
  destruct (source_recv track' (sources s)) as [frame srcs].
  destruct (proxies s !! track') as [ps|]; [|done].
  destruct frame; simpl; [done|]. by rewrite lookup_delete_ne.
Qed.

(** A step that is not one of [p]'s own leaves what [p] has consumed. *)
Lemma delivered_other c s e :
  inv s → delivered c s → e ≠ Recv p → e ≠ Wake p → e ≠ Stop p →
  delivered c (step s e).1 ∧ results p (step s e).2 = [].
Proof.
  intros Hs HJ Hr Hw Hst.
  destruct e as [tr|q|q|q|t].
  - split; [|done]. cbn [step fst].
    destruct (subscribe_spec s tr Hs) as (Hnew & _ & Hobj & _ & Hact & _ & _ & Hsrc).
    apply (delivered_frame c s); [| by rewrite Hsrc | by rewrite Hact | done].
    apply Hobj. intros ->.
    destruct HJ as [[d (o & Ho & _)] | [(o & n & Ho & _) | (o & n & Ho & _)]];
      congruence.
  - assert (p ≠ q) as Hne by congruence.
    destruct (other_proxy_step s (Recv q) p q track Hne) as (Ho & Hsrc & Hact & Hres);
      [auto|].
    split; [|done]. apply (delivered_frame c s); auto. by rewrite Hsrc.
  - assert (p ≠ q) as Hne by congruence.
    destruct (other_proxy_step s (Wake q) p q track Hne) as (Ho & Hsrc & Hact & Hres);
      [auto|].
    split; [|done]. apply (delivered_frame c s); auto. by rewrite Hsrc.
  - assert (p ≠ q) as Hne by congruence.
    destruct (other_proxy_step s (Stop q) p q track Hne) as (Ho & Hsrc & Hact & Hres);
      [auto|].
    split; [|done]. apply (delivered_frame c s); auto. by rewrite Hsrc.
  - split; [|done]. simpl.
    destruct (running s !! t) as [track'|] eqn:Hrun.
    2:{ unfold run_track. by rewrite Hrun. }
    destruct HJ as [[d Hfeed] | [Hdr | Hfin]].
    + destruct (decide (track' = track)) as [->|Hne].
      * destruct (fanout_feeding c d s t Hfeed Hrun) as [[_ H] | [_ H]].
        -- left. by exists (S d).
        -- right. by left.
      * destruct Hfeed as (o & Ho & He & Hso & Hin & Hcd & Hsrc & Hq).
        apply (delivered_frame c s).
        -- destruct (objects_step_other s (Fanout t) p o Hs Ho Hr Hw Hst)
             as [Hsame | (t' & track2 & ps & item & [= <-] & Hrun' & Hps & Hp & _ & _)].
           ++ simpl in Hsame. congruence.
           ++ destruct (inv_member _ Hs _ _ _ Hps Hp) as (o' & Ho' & Hso' & _).
              congruence.
        -- rewrite (sources_run_track _ _ _ Hrun). by apply source_recv_other.
        -- by rewrite (active_run_track_other s t track') by done.
        -- left. exists d, o. split_and!; auto; lia.
    + destruct (decide (track' = track)) as [->|Hne].
      * right. left. by apply fanout_draining.
      * destruct Hdr as (o & n & Ho & He & Hso & Hc & Hex & Hq).
        apply (delivered_frame c s).
        -- destruct (objects_step_other s (Fanout t) p o Hs Ho Hr Hw Hst)
             as [Hsame | (t' & track2 & ps & item & [= <-] & Hrun' & Hps & Hp & _ & _)].
           ++ simpl in Hsame. congruence.
           ++ destruct (inv_member _ Hs _ _ _ Hps Hp) as (o' & Ho' & Hso' & _).
              congruence.
        -- rewrite (sources_run_track _ _ _ Hrun). by apply source_recv_other.
        -- by rewrite (active_run_track_other s t track') by done.
        -- right. left. exists o, n. by split_and!.
    + right. right. exact (finished_other c s (Fanout t) Hs Hfin Hr Hw Hst).
Qed.

(** Over any run in which [p] is not stopped, [p] receives the expected
    items, one after the other. *)
Lemma delivered_run es : ∀ c s,
  inv s → delivered c s → Stop p ∉ es →
  ∃ n, delivered (c + n) (run s es).1
       ∧ results p (run s es).2 = map expected (seq c n).
Proof.
  induction es as [|e es IH]; intros c s Hs HJ Hno.
  { exists 0. simpl. by rewrite Nat.add_0_r. }
  apply not_elem_of_cons in Hno as [Hne Hno].
  rewrite relay_run_cons. cbn [fst snd]. rewrite results_app.
  pose proof (relay_inv_step s e Hs) as Hs1.
  destruct (decide (e = Recv p ∨ e = Wake p)) as [Hev|Hev].
  - destruct (delivered_consume c s e Hs HJ Hev) as [[HJ1 Hres] | [HJ1 Hres]].
    + destruct (IH c _ Hs1 HJ1 Hno) as (n & HJn & Hrn).
      exists n. by rewrite Hres, Hrn.
    + destruct (IH (S c) _ Hs1 HJ1 Hno) as (n & HJn & Hrn).
      exists (S n). rewrite Hres, Hrn. split; [|done].
      by replace (c + S n) with (S c + n) by lia.
  - destruct (delivered_other c s e Hs HJ) as [HJ1 Hres]; [tauto|tauto|congruence|].
    destruct (IH c _ Hs1 HJ1 Hno) as (n & HJn & Hrn).
    exists n. by rewrite Hres, Hrn.
Qed.

(** While the source emits, its fan-out can be run until the sentinel is in
    the queue of [p]. *)
Lemma feeding_progress m : ∀ c d s,
  inv s → feeding c d s → length fs - d = m →
  ∃ es, (Stop p ∉ es) ∧ draining c (run s es).1.
Proof.
  induction m as [|m IH]; intros c d s Hs Hfeed Hm.
  - pose proof Hfeed as (o & Ho & He & Hso & Hin & Hcd & _).
    destruct (active_member _ Hin) as (ps & Hps & Hp).
    destruct (inv_active _ Hs _ _ _ Hps Hp) as [t Ht].
    apply (inv_tasks _ Hs) in Ht.
    destruct (fanout_feeding c d s t Hfeed Ht) as [[Hlt _] | [_ H]]; [lia|].
    exists [Fanout t]. split; [|done].
    apply not_elem_of_cons. split; [done|apply not_elem_of_nil].
  - pose proof Hfeed as (o & Ho & He & Hso & Hin & Hcd & _).
    destruct (active_member _ Hin) as (ps & Hps & Hp).
    destruct (inv_active _ Hs _ _ _ Hps Hp) as [t Ht].
    apply (inv_tasks _ Hs) in Ht.
    destruct (fanout_feeding c d s t Hfeed Ht) as [[Hlt H] | [Heq _]]; [|lia].
    destruct (IH c (S d) (run_track t s)) as (es & Hno & Hdr);
      [exact (relay_inv_step s (Fanout t) Hs)|done|lia|].
    exists (Fanout t :: es). split.
    + apply not_elem_of_cons. by split.
    + by rewrite relay_run_cons.
Qed.

(** Once the sentinel is in its queue, [p] can consume up to it. *)
Lemma draining_progress m : ∀ c s,
  inv s → draining c s → length fs - c = m →
  ∃ es, (Stop p ∉ es) ∧ ∃ c', finished c' (run s es).1.
Proof.
  induction m as [|m IH]; intros c s Hs Hdr Hm.
  - pose proof Hdr as (o & n & Ho & He & Hso & Hc & _).
    set (e := if waiting o then Wake p else Recv p).
    assert (Hev : e = Recv p ∨ e = Wake p) by (unfold e; destruct (waiting o); auto).
    assert (Hd : dequeues s p o e).
    { split; [done|]. split; [done|]. unfold e. destruct (waiting o); auto. }
    destruct (draining_consume c s e Hs Hdr Hev)
      as [[_ Hno] | [_ [[Hlt _] | Hfin]]]; [destruct Hno; eauto|lia|].
    exists [e]. split.
    + apply not_elem_of_cons. split; [destruct Hev; congruence|apply not_elem_of_nil].
    + exists (S c). rewrite relay_run_cons. done.
  - pose proof Hdr as (o & n & Ho & He & Hso & Hc & _).
    set (e := if waiting o then Wake p else Recv p).
    assert (Hev : e = Recv p ∨ e = Wake p) by (unfold e; destruct (waiting o); auto).
    assert (Hd : dequeues s p o e).
    { split; [done|]. split; [done|]. unfold e. destruct (waiting o); auto. }
    assert (Hne : Stop p ≠ e) by (destruct Hev; congruence).
    destruct (draining_consume c s e Hs Hdr Hev)
      as [[_ Hno] | [_ [[Hlt Hdr1] | Hfin]]]; [destruct Hno; eauto| |].
    + destruct (IH (S c) (step s e).1) as (es & Hnoes & c' & Hfin);
        [by apply relay_inv_step|done|lia|].
      exists (e :: es). split; [apply not_elem_of_cons; by split|].
      exists c'. by rewrite relay_run_cons.
    + exists [e]. split; [apply not_elem_of_cons; split; [done|apply not_elem_of_nil]|].
      exists (S c). by rewrite relay_run_cons.
Qed.

Lemma expected_frames : map expected (seq 0 (length fs)) = map Returned fs.
Proof.
  apply list_eq. intros i. rewrite !list_lookup_fmap.
  destruct (fs !! i) as [x|] eqn:Hx.
  - rewrite lookup_seq_lt by (by apply lookup_lt_Some in Hx). simpl.
    by rewrite (expected_frame _ _ Hx).
  - rewrite lookup_seq_ge by (by apply lookup_ge_None in Hx). done.
Qed.

Lemma expected_errors m : ∀ c,
  length fs ≤ c → map expected (seq c m) = replicate m MediaStreamError.
Proof.
  induction m as [|m IH]; intros c Hc; [done|].
  simpl. rewrite expected_over by done. f_equal. apply IH. lia.
Qed.

Lemma expected_all n :
  length fs < n →
  map expected (seq 0 n)
  = map Returned fs ++ replicate (n - length fs) MediaStreamError.
Proof.
  intros Hn. replace n with (length fs + (n - length fs)) at 1 by lia.
  rewrite seq_app, map_app, expected_frames. f_equal. by apply expected_errors.
Qed.

(** From wherever it is, [p] can be brought to the end of the stream. *)
Lemma delivered_progress c s :
  inv s → delivered c s →
  ∃ es, (Stop p ∉ es) ∧ ∃ c', finished c' (run s es).1.
Proof.
  intros Hs [[d Hfeed] | [Hdr | Hfin]].
  - destruct (feeding_progress _ c d s Hs Hfeed eq_refl) as (es1 & Hno1 & Hdr).
    destruct (draining_progress _ c (run s es1).1 (relay_inv_run es1 s Hs) Hdr eq_refl)
      as (es2 & Hno2 & c' & Hfin).
    exists (es1 ++ es2). split.
    + intros [?|?]%elem_of_app; tauto.
    + exists c'. by rewrite relay_run_app.
  - exact (draining_progress _ c s Hs Hdr eq_refl).
  - exists []. split; [apply not_elem_of_nil|]. by exists c.
Qed.

Lemma finished_delivered c c' s : finished c' s → delivered c s → length fs < c.
Proof.
  intros (o & n & Ho & He & _) [[d (o' & Ho' & He' & _)]
                               | [(o' & n' & Ho' & He' & _) | (o' & n' & _ & _ & Hc & _)]];
    [congruence|congruence|done].
Qed.

End delivery.

Definition video_frame (n : nat) : Frame :=
  FVideo (mkVideo (Z.of_nat n) (Some (Z.of_nat n)) (1 # 30) n).

(** C1, as stated, fails: two proxies of the source [0], which emits two
    frames, are both obtained by [subscribe()] before the fan-out of the
    source exists, let alone broadcasts.  Proxy [0] calls [recv()] before
    the first frame is broadcast and proxy [1] only after it: proxy [0]
    receives both frames and then the end of the stream, proxy [1] never
    receives the first frame.  A proxy joins the active set in its first
    [recv()] ([MediaRelay._start]), not in [subscribe()]. *)
Example relay_late_first_recv_misses_frames :
  let f1 := video_frame 1 in
  let f2 := video_frame 2 in
  let s0 := (run (init {[0 := [f1; f2]]}) [Subscribe 0; Subscribe 0]).1 in
  let out := (run s0 [Recv 0; Fanout 0; Recv 1; Fanout 0; Fanout 0;
                      Wake 0; Recv 0; Recv 0; Wake 1; Recv 1; Recv 1]).2 in
  objects s0 !! 1 = Some (mkProxy false true (Some 0) [] false)
  ∧ sources s0 !! 0 = Some [f1; f2]
  ∧ size (fanouts 0 s0) = 0
  ∧ results 0 out = [Returned f1; Returned f2; MediaStreamError]
  ∧ results 1 out = [Returned f2; MediaStreamError; MediaStreamError].
Proof. vm_compute. done. Qed.

(** C1, amended: on every state the relay can reach, a proxy [p] that is in
    the active set of a source (it has called [recv()]) with an empty queue,
    while the source has the frames [fs] left to emit, receives over any
    further run in which it is not stopped a prefix of: the frames [fs] in
    the order of emission, then [MediaStreamError] at every further call;
    and every such run can be continued so that [p] has received all the
    frames of [fs] and then the end of the stream. *)
Theorem relay_active_proxy_receives_source_order
    (srcs : gmap nat (list Frame)) (es0 : list event) (track p : nat)
    (fs : list Frame) (es : list event) :
  let s := (run (init srcs) es0).1 in
  p ∈ active track s →
  (∃ o, objects s !! p = Some o ∧ queue o = []) →
  sources s !! track = Some fs →
  Stop p ∉ es →
  (∃ n, results p (run s es).2 = map (expected fs) (seq 0 n))
  ∧ (∃ es' n, (Stop p ∉ es')
       ∧ results p (run s (es ++ es')).2
         = map Returned fs ++ replicate (S n) MediaStreamError).
Proof.
  intros s Hin (o & Ho & Hq) Hsrc Hno.
  assert (Hs : inv s) by apply relay_inv_run, relay_inv_init.
  assert (H0 : delivered track p fs 0 s).
  { left. exists 0. destruct (active_member track p s Hin) as (ps & Hps & Hp).
    destruct (inv_member _ Hs _ _ _ Hps Hp) as (o' & Ho' & Hso & He).
    assert (o' = o) as -> by congruence.
    exists o. rewrite Hq. split_and!; try done; try lia. }
  destruct (delivered_run track p fs es 0 s Hs H0 Hno) as (n & HJ & Hres).
  split; [by exists n|].
  destruct (delivered_progress track p fs _ _ (relay_inv_run es s Hs) HJ)
    as (es' & Hno' & c' & Hfin).
  assert (Hno2 : Stop p ∉ es ++ es') by (intros [?|?]%elem_of_app; tauto).
  destruct (delivered_run track p fs (es ++ es') 0 s Hs H0 Hno2) as (n' & HJ' & Hres').
  rewrite relay_run_app in HJ'. cbn [fst] in HJ'.
  pose proof (finished_delivered track p fs _ _ _ Hfin HJ') as Hlt.
  exists es', (n' - length fs - 1). split; [done|].
  rewrite Hres', (expected_all fs n') by (simpl in Hlt; lia).
  do 2 f_equal. simpl in Hlt. lia.
Qed.

(** The first proxy of a source that emits two frames calls [recv()], the
    fan-out reads a frame and the suspended call resumes. *)
Example relay_active_proxy_receives_source_order_witness :
  let fs := [video_frame 1; video_frame 2] in
  let s := (run (init {[0 := fs]}) [Subscribe 0; Recv 0]).1 in
  (∃ n, results 0 (run s [Fanout 0; Wake 0]).2 = map (expected fs) (seq 0 n))
  ∧ (∃ es' n, (Stop 0 ∉ es')
       ∧ results 0 (run s ([Fanout 0; Wake 0] ++ es')).2
         = map Returned fs ++ replicate (S n) MediaStreamError).
Proof.
  pose (fs := [video_frame 1; video_frame 2]).
  assert (Hin : 0 ∈ active 0 (run (init {[0 := fs]}) [Subscribe 0; Recv 0]).1).
  { assert (Heq : active 0 (run (init {[0 := fs]}) [Subscribe 0; Recv 0]).1 = {[0]})
      by (vm_compute; reflexivity).
    rewrite Heq. apply elem_of_singleton_2. reflexivity. }
  assert (Ho : objects (run (init {[0 := fs]}) [Subscribe 0; Recv 0]).1 !! 0
               = Some (mkProxy false true (Some 0) [] true))
    by (vm_compute; reflexivity).
  assert (Hsrc : sources (run (init {[0 := fs]}) [Subscribe 0; Recv 0]).1 !! 0 = Some fs)
    by (vm_compute; reflexivity).
  assert (Hno : Stop 0 ∉ [Fanout 0; Wake 0]).
  { intros H. apply elem_of_cons in H as [H|H]; [discriminate H|].
    apply elem_of_cons in H as [H|H]; [discriminate H|].
    by apply elem_of_nil in H. }
  exact (relay_active_proxy_receives_source_order {[0 := fs]} [Subscribe 0; Recv 0]
           0 0 fs [Fanout 0; Wake 0] Hin
           (ex_intro _ _ (conj Ho eq_refl)) Hsrc Hno).
Defined.

(** ** Stopping one proxy *)

(** The relay without the proxy [p]: what the other proxies, the fan-outs
    and the sources can tell of the state. *)
Definition strip (p : nat) (s : state) : state :=
  mkState ((λ ps : gset nat, ps ∖ {[p]}) <$> proxies s) (tasks s)
    (delete p (objects s)) (running s) (sources s) (next_proxy s) (next_task s).

Lemma strip_set_object p q o s :
  p ≠ q → strip p (set_object q o s) = set_object q o (strip p s).
Proof.
  intros Hne. unfold strip, set_object. simpl. f_equal. by apply delete_insert_ne.
Qed.

Lemma strip_set_object_own p o s : strip p (set_object p o s) = strip p s.
Proof. unfold strip. simpl. by rewrite delete_insert_eq. Qed.

Lemma strip_start p q src s :
  p ≠ q → strip p (_start q src s) = _start q src (strip p s).
Proof.
  intros Hne. unfold _start. destruct src as [track|]; [|done].
  cbn [strip proxies]. rewrite lookup_fmap.
  destruct (proxies s !! track) as [ps|] eqn:Hps; simpl; [|done].
  assert (Hset : ({[q]} ∪ ps) ∖ {[p]} = {[q]} ∪ ps ∖ {[p]}) by set_solver.
  destruct (tasks s !! track); unfold strip; simpl; f_equal;
    by rewrite fmap_insert, Hset.
Qed.

Lemma strip_start_own p src s :
  (∀ track, src = Some track → is_Some (proxies s !! track) →
     is_Some (tasks s !! track)) →
  strip p (_start p src s) = strip p s.
Proof.
  intros Htask. unfold _start. destruct src as [track|]; [|done].
  destruct (proxies s !! track) as [ps|] eqn:Hps; [|done].
  destruct (Htask track eq_refl (mk_is_Some _ _ Hps)) as [t Ht]. simpl. rewrite Ht.
  unfold strip. simpl. f_equal. rewrite fmap_insert. apply insert_id.
  rewrite lookup_fmap, Hps. simpl. f_equal. set_solver.
Qed.

Lemma strip_stop_relay p q src s :
  strip p (_stop q src s) = _stop q src (strip p s).
Proof.
  unfold _stop. destruct src as [track|]; [|done].
  cbn [strip proxies]. rewrite lookup_fmap.
  destruct (proxies s !! track) as [ps|] eqn:Hps; simpl; [|done].
  assert (Hset : ps ∖ {[q]} ∖ {[p]} = ps ∖ {[p]} ∖ {[q]}) by set_solver.
  unfold strip, set_proxies. simpl. by rewrite fmap_insert, Hset.
Qed.

Lemma strip_stop_relay_own p src s : strip p (_stop p src s) = strip p s.
Proof.
  unfold _stop. destruct src as [track|]; [|done].
  destruct (proxies s !! track) as [ps|] eqn:Hps; [|done].
  unfold strip. simpl. f_equal. rewrite fmap_insert. apply insert_id.
  rewrite lookup_fmap, Hps. simpl. f_equal. set_solver.
Qed.

Lemma strip_stop p q s : p ≠ q → strip p (stop q s) = stop q (strip p s).
Proof.
  intros Hne. unfold stop. cbn [strip objects]. rewrite lookup_delete_ne by done.
  destruct (objects s !! q) as [o|]; [|done].
  destruct (relay_bound o).
  - by rewrite strip_set_object, strip_stop_relay.
  - by rewrite strip_set_object.
Qed.

Lemma strip_stop_own p s : strip p (stop p s) = strip p s.
Proof.
  unfold stop. destruct (objects s !! p) as [o|]; [|done].
  destruct (relay_bound o).
  - by rewrite strip_set_object_own, strip_stop_relay_own.
  - by rewrite strip_set_object_own.
Qed.

Lemma strip_deliver p q o item s :
  p ≠ q →
  deliver q o item (strip p s) = (strip p (deliver q o item s).1, (deliver q o item s).2).
Proof.
  intros Hne. unfold deliver. destruct item; simpl.
  - by rewrite strip_set_object.
  - by rewrite strip_stop, strip_set_object.
Qed.

Lemma strip_deliver_own p o item s : strip p (deliver p o item s).1 = strip p s.
Proof.
  unfold deliver. destruct item; simpl.
  - by rewrite strip_set_object_own.
  - by rewrite strip_stop_own, strip_set_object_own.
Qed.

Lemma strip_broadcast p item (ps : gset nat) (objs : gmap nat proxy) :
  delete p (broadcast item ps objs) = broadcast item (ps ∖ {[p]}) (delete p objs).
Proof.
  apply map_eq. intros i. rewrite broadcast_lookup.
  destruct (decide (i = p)) as [->|Hne].
  - rewrite !lookup_delete_eq. by rewrite decide_False by set_solver.
  - rewrite !lookup_delete_ne by done. rewrite broadcast_lookup.
    destruct (decide (i ∈ ps)).
    + by rewrite decide_True by set_solver.
    + by rewrite decide_False by set_solver.
Qed.

Lemma strip_run_track p t s : strip p (run_track t s) = run_track t (strip p s).
Proof.
  unfold run_track. cbn [strip running sources proxies]. 
  destruct (running s !! t) as [track|]; [|done].
  destruct (source_recv track (sources s)) as [frame srcs].
  rewrite lookup_fmap.
  destruct (proxies s !! track) as [ps|]; simpl; [|done].
  destruct frame; unfold strip; simpl; f_equal;
    try apply strip_broadcast; by rewrite fmap_delete.
Qed.

(** A step that is not one of [p]'s own does to the relay without [p] what
    it does to the relay. *)
Lemma strip_step p s e :
  e ≠ Recv p → e ≠ Wake p → e ≠ Stop p → p ≠ next_proxy s →
  step (strip p s) e = (strip p (step s e).1, (step s e).2).
Proof.
  intros Hr Hw Hst Hnew. destruct e as [tr|q|q|q|t]; simpl.
  - f_equal. unfold strip. simpl. rewrite lookup_fmap.
    destruct (proxies s !! tr); simpl; f_equal.
    + by rewrite delete_insert_ne.
    + rewrite fmap_insert. f_equal. set_solver.
    + by rewrite delete_insert_ne.
  - assert (p ≠ q) as Hne by congruence.
    unfold recv. cbn [strip objects]. rewrite lookup_delete_ne by done.
    destruct (objects s !! q) as [o|]; [|done].
    destruct (ended o); [done|]. destruct (waiting o); [done|].
    destruct (relay_bound o); simpl; [|done].
    destruct (queue o) as [|item r].
    + simpl. by rewrite strip_set_object, strip_start.
    + by rewrite <- strip_start, strip_deliver.
  - assert (p ≠ q) as Hne by congruence.
    unfold wake. cbn [strip objects]. rewrite lookup_delete_ne by done.
    destruct (objects s !! q) as [o|]; [|done].
    destruct (waiting o); [|done].
    destruct (queue o) as [|item r]; [done|].
    by rewrite strip_deliver.
  - assert (p ≠ q) as Hne by congruence. by rewrite strip_stop.
  - by rewrite strip_run_track.
Qed.

(** A step of [p]'s own does nothing to the relay without [p], unless it
    spawns a fan-out. *)
Lemma strip_own p s e :
  e = Recv p ∨ e = Wake p ∨ e = Stop p →
  (∀ o track, objects s !! p = Some o → ended o = false → source o = Some track →
     is_Some (tasks s !! track)) →
  strip p (step s e).1 = strip p s.
Proof.
  intros [-> | [-> | ->]] Htask; simpl.
  - unfold recv. destruct (objects s !! p) as [o|] eqn:Ho; [|done].
    destruct (ended o) eqn:He; [done|]. destruct (waiting o); [done|].
    destruct (relay_bound o); simpl; [|done].
    assert (Hst : strip p (_start p (source o) s) = strip p s).
    { apply strip_start_own. intros track Hso _. by apply (Htask o). }
    destruct (queue o) as [|item r]; simpl.
    + by rewrite strip_set_object_own.
    + by rewrite strip_deliver_own.
  - unfold wake. destruct (objects s !! p) as [o|]; [|done].
    destruct (waiting o); [|done]. destruct (queue o) as [|item r]; [done|].
    by rewrite strip_deliver_own.
  - apply strip_stop_own.
Qed.

Lemma strip_lookup p q sA sB :
  strip p sA = strip p sB → q ≠ p → objects sA !! q = objects sB !! q.
Proof.
  intros Heq Hne. apply (f_equal objects) in Heq. simpl in Heq.
  rewrite <- (lookup_delete_ne (objects sA) p q), <- (lookup_delete_ne (objects sB) p q)
    by done.
  by rewrite Heq.
Qed.

Lemma tasks_start_mono p src track s :
  is_Some (tasks s !! track) → is_Some (tasks (_start p src s) !! track).
Proof.
  intros Ht. unfold _start. destruct src as [track'|]; [|done].
  destruct (proxies s !! track'); [|done]. simpl.
  destruct (tasks s !! track') eqn:Ht'; [done|]. simpl.
  rewrite lookup_insert_ne; [done|]. intros <-. rewrite Ht' in Ht. by destruct Ht.
Qed.

Lemma tasks_deliver p o item s : tasks (deliver p o item s).1 = tasks s.
Proof. unfold deliver. destruct item; [done|]. simpl. by rewrite tasks_stop. Qed.

(** Only a fan-out that reads the end of its source removes a task. *)
Lemma tasks_kept track s e :
  (∀ t, e ≠ Fanout t) →
  is_Some (tasks s !! track) → is_Some (tasks (step s e).1 !! track).
Proof.
  intros Hnf Ht. destruct e as [tr|q|q|q|t]; simpl.
  - done.
  - unfold recv. destruct (objects s !! q) as [o|]; [|done].
    destruct (ended o); [done|]. destruct (waiting o); [done|].
    destruct (relay_bound o); simpl; [|done].
    destruct (queue o) as [|item r]; simpl.
    + by apply tasks_start_mono.
    + rewrite tasks_deliver. by apply tasks_start_mono.
  - unfold wake. destruct (objects s !! q) as [o|]; [|done].
    destruct (waiting o); [|done]. destruct (queue o) as [|item r]; [done|].
    by rewrite tasks_deliver.
  - by rewrite tasks_stop.
  - by destruct (Hnf t).
Qed.

(** What the consumer of [q] does not do yields it nothing. *)
Lemma results_other q s e :
  e ≠ Recv q → e ≠ Wake q → results q (step s e).2 = [].
Proof.
  intros Hr Hw. destruct e as [tr|q'|q'|q'|t]; try done.
  - assert (q ≠ q') as Hne by congruence.
    by apply (other_proxy_step s (Recv q') q q' 0 Hne); auto.
  - assert (q ≠ q') as Hne by congruence.
    by apply (other_proxy_step s (Wake q') q q' 0 Hne); auto.
Qed.

(** The proxy [q] has ended, or has the sentinel in its queue. *)
Definition settled (q : nat) (s : state) : Prop :=
  ∃ o, objects s !! q = Some o ∧ (ended o = true ∨ None ∈ queue o).

Lemma terminal_settled q s : terminal q s → settled q s.
Proof. intros (o & Ho & He). exists o. auto. Qed.

(** A proxy in the active set of a source whose fan-out runs stays there,
    with the fan-out, until it ends or gets the sentinel. *)
Lemma still_served track q s e :
  inv s → is_Some (tasks s !! track) → q ∈ active track s →
  (is_Some (tasks (step s e).1 !! track) ∧ q ∈ active track (step s e).1)
  ∨ settled q (step s e).1.
Proof.
  intros Hs Ht Hq.
  destruct (active_member track q s Hq) as (ps & Hps & Hin).
  destruct (inv_member _ Hs _ _ _ Hps Hin) as (o & Ho & Hso & He).
  pose proof (inv_bound _ Hs _ _ Ho He) as Hb.
  destruct e as [tr|q'|q'|q'|t].
  - left. cbn [step fst].
    destruct (subscribe_spec s tr Hs) as (_ & _ & _ & _ & Hact & Htasks & _).
    rewrite Htasks, Hact. done.
  - destruct (decide (q' = q)) as [->|Hne].
    + simpl. unfold recv. rewrite Ho, He, Hb. destruct (waiting o); [by left|]. simpl.
      pose proof (tasks_start_mono q (source o) track s Ht) as Ht1.
      pose proof (active_start q q (source o) track s Hq) as Hq1.
      destruct (queue o) as [|[f|] r]; simpl.
      * by left.
      * by left.
      * right. apply terminal_settled, relay_terminal_stop. simpl.
        rewrite lookup_insert_eq. by eexists.
    + left. split; [apply tasks_kept; [done|done]|].
      by apply (other_proxy_step s (Recv q') q q' track); auto.
  - destruct (decide (q' = q)) as [->|Hne].
    + simpl. unfold wake. rewrite Ho. destruct (waiting o); [|by left].
      destruct (queue o) as [|[f|] r]; simpl.
      * by left.
      * by left.
      * right. apply terminal_settled, relay_terminal_stop. simpl.
        rewrite lookup_insert_eq. by eexists.
    + left. split; [apply tasks_kept; [done|done]|].
      by apply (other_proxy_step s (Wake q') q q' track); auto.
  - destruct (decide (q' = q)) as [->|Hne].
    + right. apply terminal_settled. simpl. apply relay_terminal_stop. by eexists.
    + left. split; [apply tasks_kept; [done|done]|].
      by apply (other_proxy_step s (Stop q') q q' track); auto.
  - simpl. destruct (running s !! t) as [track'|] eqn:Hrun.
    2:{ left. unfold run_track. by rewrite Hrun. }
    destruct (decide (track' = track)) as [->|Hne].
    + unfold run_track. rewrite Hrun.
      destruct (source_recv track (sources s)) as [[f|] srcs]; rewrite Hps.
      * left. simpl. split; [done|]. unfold active. simpl. by rewrite Hps.
      * right. exists (put_nowait None o). simpl.
        rewrite broadcast_lookup, decide_True, Ho by done. split; [done|].
        right. simpl. apply elem_of_app. right. apply list_elem_of_singleton. done.
    + left. rewrite (active_run_track_other track s t track') by done.
      split; [|done]. unfold run_track. rewrite Hrun.
      destruct (source_recv track' (sources s)) as [[f|] srcs];
        destruct (proxies s !! track'); simpl; try done.
      by rewrite lookup_delete_ne.
Qed.

(** A live proxy keeps its source. *)
Lemma source_kept track p o s e :
  inv s → objects s !! p = Some o → (ended o = false → source o = Some track) →
  ∃ o', objects (step s e).1 !! p = Some o'
        ∧ (ended o' = false → source o' = Some track).
Proof.
  intros Hs Ho Hso.
  assert (Hsame : ∃ o', objects s !! p = Some o'
                        ∧ (ended o' = false → source o' = Some track))
    by (by exists o).
  destruct (decide (e = Recv p)) as [->|Hr].
  { simpl. unfold recv. rewrite Ho.
    destruct (ended o) eqn:He; [done|]. destruct (waiting o); [done|].
    destruct (relay_bound o); simpl; [|done].
    destruct (queue o) as [|[f|] r]; simpl.
    - rewrite lookup_insert_eq. eexists. split; [done|]. simpl. auto.
    - rewrite lookup_insert_eq. eexists. split; [done|]. simpl. auto.
    - destruct (relay_terminal_stop p
                  (set_object p (mkProxy false true (source o) r false)
                     (_start p (source o) s))) as (o' & Ho' & He').
      { simpl. rewrite lookup_insert_eq. by eexists. }
      exists o'. split; [done|]. congruence. }
  destruct (decide (e = Wake p)) as [->|Hw].
  { simpl. unfold wake. rewrite Ho. destruct (waiting o); [|done].
    destruct (queue o) as [|[f|] r]; simpl.
    - done.
    - rewrite lookup_insert_eq. eexists. split; [done|]. simpl. auto.
    - destruct (relay_terminal_stop p
                  (set_object p (mkProxy (ended o) (relay_bound o) (source o) r false) s))
        as (o' & Ho' & He').
      { simpl. rewrite lookup_insert_eq. by eexists. }
      exists o'. split; [done|]. congruence. }
  destruct (decide (e = Stop p)) as [->|Hst].
  { simpl. destruct (relay_terminal_stop p s (mk_is_Some _ _ Ho)) as (o' & Ho' & He').
    exists o'. split; [done|]. congruence. }
  destruct (objects_step_other s e p o Hs Ho Hr Hw Hst)
    as [Hkeep | (t & track' & ps & item & _ & _ & _ & _ & _ & Hput)].
  - by exists o.
  - exists (put_nowait item o). split; [done|]. simpl. auto.
Qed.

(** What a step that is not one of [q]'s own does to [q]: nothing, or an
    item is put in its queue, and only if [q] is live. *)
Lemma other_view q o s e :
  inv s → objects s !! q = Some o →
  e ≠ Recv q → e ≠ Wake q → e ≠ Stop q →
  objects (step s e).1 !! q = Some o
  ∨ (ended o = false ∧ ∃ item, objects (step s e).1 !! q = Some (put_nowait item o)).
Proof.
  intros Hs Ho Hr Hw Hst.
  destruct (objects_step_other s e q o Hs Ho Hr Hw Hst)
    as [Hsame | (t & track' & ps & item & _ & _ & Hps & Hin & _ & Hput)].
  - by left.
  - right. destruct (inv_member _ Hs _ _ _ Hps Hin) as (o' & Ho' & _ & He).
    split; [congruence|]. by exists item.
Qed.

(** What the consumer of a proxy can tell of it: whether it has ended,
    whether a call is suspended in [self._queue.get()], and the queue. *)
Definition view : Type := bool * bool * list (option Frame).

Definition view_of (o : proxy) : view := (ended o, waiting o, queue o).

(** [recv], [wake] and [stop] as the proxy they are called on sees them. *)
Definition own_recv (v : view) : view * list result :=
  let '(e, w, l) := v in
  if e then (v, [MediaStreamError])
  else if w then (v, [])
  else match l with
       | [] => ((false, true, []), [])
       | Some f :: r => ((false, false, r), [Returned f])
       | None :: r => ((true, false, r), [MediaStreamError])
       end.

Definition own_wake (v : view) : view * list result :=
  let '(e, w, l) := v in
  if w then
    match l with
    | [] => (v, [])
    | Some f :: r => ((e, false, r), [Returned f])
    | None :: r => ((true, false, r), [MediaStreamError])
    end
  else (v, []).

Definition own_stop (v : view) : view * list result :=
  let '(e, w, l) := v in ((true, w, l), []).

Definition own (e : event) (v : view) : view * list result :=
  match e with
  | Recv _ => own_recv v
  | Wake _ => own_wake v
  | Stop _ => own_stop v
  | _ => (v, [])
  end.

Lemma stop_view q o s :
  objects s !! q = Some o →
  ∃ o', objects (stop q s) !! q = Some o' ∧ view_of o' = (true, waiting o, queue o).
Proof.
  intros Ho. unfold stop. rewrite Ho.
  destruct (relay_bound o); simpl; rewrite lookup_insert_eq; by eexists.
Qed.

Lemma own_step q o s e :
  inv s → objects s !! q = Some o →
  e = Recv q ∨ e = Wake q ∨ e = Stop q →
  ∃ o', objects (step s e).1 !! q = Some o'
        ∧ view_of o' = (own e (view_of o)).1
        ∧ results q (step s e).2 = (own e (view_of o)).2.
Proof.
  intros Hs Ho [-> | [-> | ->]]; cbn [step own]; unfold view_of.
  - unfold recv, own_recv. rewrite Ho.
    destruct (ended o) eqn:He.
    { exists o. cbn [fst snd]. rewrite relay_results_own. unfold view_of. by rewrite He. }
    rewrite (inv_bound _ Hs _ _ Ho He).
    destruct (waiting o) eqn:Hw.
    { exists o. cbn [fst snd]. unfold view_of. by rewrite He, Hw. }
    cbn [negb]. destruct (queue o) as [|[f|] r] eqn:Hq.
    + eexists. cbn [fst snd set_object objects]. rewrite lookup_insert_eq. done.
    + eexists. cbn [deliver fst snd set_object objects].
      rewrite lookup_insert_eq, relay_results_own. done.
    + cbn [deliver fst snd]. rewrite relay_results_own.
      destruct (stop_view q (mkProxy false true (source o) r false)
                  (set_object q (mkProxy false true (source o) r false)
                     (_start q (source o) s))) as (o' & Ho' & Hv').
      { simpl. apply lookup_insert_eq. }
      exists o'. done.
  - unfold wake, own_wake. rewrite Ho.
    destruct (waiting o) eqn:Hw.
    2:{ exists o. cbn [fst snd]. unfold view_of. by rewrite Hw. }
    destruct (queue o) as [|[f|] r] eqn:Hq.
    + exists o. cbn [fst snd]. unfold view_of. by rewrite Hw, Hq.
    + eexists. cbn [deliver fst snd set_object objects].
      rewrite lookup_insert_eq, relay_results_own. done.
    + cbn [deliver fst snd]. rewrite relay_results_own.
      destruct (stop_view q (mkProxy (ended o) (relay_bound o) (source o) r false)
                  (set_object q (mkProxy (ended o) (relay_bound o) (source o) r false) s))
        as (o' & Ho' & Hv').
      { simpl. apply lookup_insert_eq. }
      exists o'. done.
  - unfold own_stop. cbn [fst snd].
    destruct (stop_view q o s Ho) as (o' & Ho' & Hv'). exists o'. done.
Qed.

(** The queue up to its first sentinel, which is as far as a consumer gets. *)
Fixpoint trunc (l : list (option Frame)) : list (option Frame) :=
  match l with
  | [] => []
  | None :: _ => [None]
  | Some f :: r => Some f :: trunc r
  end.

Lemma trunc_app l x : None ∈ l → trunc (l ++ [x]) = trunc l.
Proof.
  induction l as [|[f|] r IH]; simpl; intros H.
  - by apply elem_of_nil in H.
  - f_equal. apply IH. apply elem_of_cons in H as [H|H]; [discriminate H|done].
  - done.
Qed.

(** Two views no consumer can tell apart, whatever is put in the queues
    later: nothing is left to read, or the queues agree up to the first
    sentinel and either have it or get nothing more. *)
Definition alike (a b : view) : Prop :=
  a.1.1 = b.1.1 ∧ a.1.2 = b.1.2
  ∧ ((a.1.1 = true ∧ a.1.2 = false)
     ∨ (trunc a.2 = trunc b.2 ∧ (a.1.1 = true ∨ (None ∈ a.2 ∧ None ∈ b.2)))).

Lemma alike_same o : ended o = true ∨ None ∈ queue o → alike (view_of o) (view_of o).
Proof.
  intros H. unfold alike, view_of. simpl. split; [done|]. split; [done|].
  right. split; [done|]. tauto.
Qed.

Lemma alike_own e a b :
  alike a b → alike (own e a).1 (own e b).1 ∧ (own e a).2 = (own e b).2.
Proof.
  destruct a as [[ea wa] la], b as [[eb wb] lb]. unfold alike. simpl.
  intros (-> & -> & H).
  destruct e as [tr|q|q|q|t]; simpl.
  - done.
  - destruct eb; [done|]. destruct wb; [done|].
    destruct H as [[? _] | [Ht [? | [Ha Hb]]]]; try discriminate.
    destruct la as [|[fa|] ra], lb as [|[fb|] rb]; simpl in Ht; try discriminate;
      simpl.
    + by apply elem_of_nil in Ha.
    + injection Ht as -> Ht. split; [|done]. split; [done|]. split; [done|].
      right. split; [done|]. right.
      apply elem_of_cons in Ha as [?|Ha]; [discriminate|].
      apply elem_of_cons in Hb as [?|Hb]; [discriminate|]. done.
    + split; [|done]. split; [done|]. split; [done|]. by left.
  - destruct wb; [|done].
    destruct H as [[_ ?] | [Ht Hor]]; [discriminate|].
    destruct la as [|[fa|] ra], lb as [|[fb|] rb]; simpl in Ht; try discriminate;
      simpl.
    + split; [|done]. split; [done|]. split; [done|]. right. by split.
    + injection Ht as -> Ht. split; [|done]. split; [done|]. split; [done|].
      destruct Hor as [-> | [Ha Hb]]; [by left|].
      right. split; [done|]. right.
      apply elem_of_cons in Ha as [?|Ha]; [discriminate|].
      apply elem_of_cons in Hb as [?|Hb]; [discriminate|]. done.
    + split; [|done]. split; [done|]. split; [done|]. by left.
  - split; [|done]. split; [done|]. split; [done|].
    destruct H as [[_ ->] | [Ht _]]; [by left|].
    right. split; [done|]. by left.
  - done.
Qed.

Lemma alike_put a b a' b' :
  alike (view_of a) (view_of b) →
  a' = a ∨ (ended a = false ∧ ∃ item, a' = put_nowait item a) →
  b' = b ∨ (ended b = false ∧ ∃ item, b' = put_nowait item b) →
  alike (view_of a') (view_of b').
Proof.
  unfold alike, view_of. simpl. intros (He & Hw & H) Ha Hb.
  assert (Hlive : ended a = false →
            trunc (queue a) = trunc (queue b) ∧ None ∈ queue a ∧ None ∈ queue b).
  { intros Hf. destruct H as [[? _] | [Ht [? | ?]]]; [congruence| congruence|done]. }
  destruct Ha as [-> | [Hfa (x & ->)]], Hb as [-> | [Hfb (y & ->)]]; simpl.
  - done.
  - destruct (Hlive ltac:(congruence)) as (Ht & Hna & Hnb).
    split; [done|]. split; [done|]. right. rewrite trunc_app by done.
    split; [done|]. right. split; [done|]. apply elem_of_app. by left.
  - destruct (Hlive Hfa) as (Ht & Hna & Hnb).
    split; [done|]. split; [done|]. right. rewrite trunc_app by done.
    split; [done|]. right. split; [|done]. apply elem_of_app. by left.
  - destruct (Hlive Hfa) as (Ht & Hna & Hnb).
    split; [done|]. split; [done|]. right. rewrite !trunc_app by done.
    split; [done|]. right. split; apply elem_of_app; by left.
Qed.

(** The relay stopped at [p] ([sA]) and the relay not stopped ([sB]), once
    the consumer of [q] cannot tell them apart any more. *)
Definition apart (q : nat) (sA sB : state) : Prop :=
  inv sA ∧ inv sB
  ∧ ∃ a b, objects sA !! q = Some a ∧ objects sB !! q = Some b
           ∧ alike (view_of a) (view_of b).

Lemma apart_step q sA sB e :
  apart q sA sB →
  apart q (step sA e).1 (step sB e).1
  ∧ results q (step sA e).2 = results q (step sB e).2.
Proof.
  intros (HA & HB & a & b & Ha & Hb & Hab).
  pose proof (relay_inv_step sA e HA) as HA'.
  pose proof (relay_inv_step sB e HB) as HB'.
  destruct (decide (e = Recv q ∨ e = Wake q ∨ e = Stop q)) as [Hown|Hother].
  - destruct (own_step q a sA e HA Ha Hown) as (a' & Ha' & Hva & Hra).
    destruct (own_step q b sB e HB Hb Hown) as (b' & Hb' & Hvb & Hrb).
    destruct (alike_own e _ _ Hab) as [Hab' Hout].
    split; [|by rewrite Hra, Hrb].
    split; [done|]. split; [done|]. exists a', b'. by rewrite Hva, Hvb.
  - assert (Hr : e ≠ Recv q) by tauto. assert (Hw : e ≠ Wake q) by tauto.
    assert (Hst : e ≠ Stop q) by tauto.
    split; [|by rewrite !results_other].
    split; [done|]. split; [done|].
    destruct (other_view q a sA e HA Ha Hr Hw Hst) as [Ha' | [Hfa (x & Ha')]];
      destruct (other_view q b sB e HB Hb Hr Hw Hst) as [Hb' | [Hfb (y & Hb')]];
      eexists _, _; (split; [exact Ha'|]); (split; [exact Hb'|]);
      apply (alike_put a b); eauto.
Qed.

Section stopping.
Variables (p q track : nat).
Hypothesis Hpq : p ≠ q.

(** The relay stopped at [p] ([sA]) and the relay not stopped ([sB]) while
    the fan-out of [track] runs: they differ in [p] only. *)
Definition lockstep (sA sB : state) : Prop :=
  inv sA ∧ inv sB ∧ strip p sA = strip p sB ∧ terminal p sA
  ∧ (∃ o, objects sB !! p = Some o ∧ (ended o = false → source o = Some track))
  ∧ is_Some (tasks sB !! track) ∧ q ∈ active track sB.

Lemma lockstep_step sA sB e :
  lockstep sA sB →
  (lockstep (step sA e).1 (step sB e).1 ∨ apart q (step sA e).1 (step sB e).1)
  ∧ results q (step sA e).2 = results q (step sB e).2.
Proof.
  intros (HA & HB & Hstrip & HtA & (o & Ho & Hso) & Ht & Hq).
  pose proof (relay_inv_step sA e HA) as HA'.
  pose proof (relay_inv_step sB e HB) as HB'.
  assert (Hcore : strip p (step sA e).1 = strip p (step sB e).1
                  ∧ results q (step sA e).2 = results q (step sB e).2).
  { destruct (decide (e = Recv p ∨ e = Wake p ∨ e = Stop p)) as [Hown|Hother].
    - split.
      + rewrite (strip_own p sA e Hown), (strip_own p sB e Hown); [done| |].
        * intros o' tr Ho' He' Hso'. assert (o' = o) as -> by congruence.
          rewrite (Hso He') in Hso'. by injection Hso' as <-.
        * intros o' tr Ho' He' _. destruct HtA as (oA & HoA & HeA). congruence.
      + rewrite !results_other; [done|..];
          destruct Hown as [-> | [-> | ->]]; congruence.
    - assert (Hr : e ≠ Recv p) by tauto. assert (Hw : e ≠ Wake p) by tauto.
      assert (Hst : e ≠ Stop p) by tauto.
      assert (HpA : p ≠ next_proxy sA).
      { destruct HtA as (oA & HoA & _).
        pose proof (inv_fresh_proxy _ HA p (mk_is_Some _ _ HoA)). lia. }
      assert (HpB : p ≠ next_proxy sB).
      { pose proof (inv_fresh_proxy _ HB p (mk_is_Some _ _ Ho)). lia. }
      pose proof (strip_step p sA e Hr Hw Hst HpA) as EA.
      pose proof (strip_step p sB e Hr Hw Hst HpB) as EB.
      rewrite Hstrip, EB in EA.
      pose proof (f_equal fst EA) as E1. pose proof (f_equal snd EA) as E2.
      cbn [fst snd] in E1, E2. split; [done|]. by rewrite E2. }
  destruct Hcore as [Hstrip' Hres]. split; [|done].
  pose proof (relay_terminal_step p sA e HA HtA) as HtA'.
  destruct (source_kept track p o sB e HB Ho Hso) as (o' & Ho' & Hso').
  destruct (still_served track q sB e HB Ht Hq) as [[Ht' Hq'] | (b & Hb & Hset)].
  - left. split_and!; try done. by exists o'.
  - right. split; [done|]. split; [done|]. exists b, b.
    rewrite (strip_lookup p q _ _ Hstrip') by done.
    split; [done|]. split; [done|]. by apply alike_same.
Qed.

(** Nothing the consumer of [q] receives tells the two relays apart. *)
Lemma unaffected_run es : ∀ sA sB,
  lockstep sA sB ∨ apart q sA sB →
  results q (run sA es).2 = results q (run sB es).2.
Proof.
  induction es as [|e es IH]; intros sA sB H; [done|].
  rewrite !relay_run_cons. cbn [snd]. rewrite !results_app.
  destruct H as [H | H].
  - destruct (lockstep_step sA sB e H) as [Hnext ->]. f_equal. by apply IH.
  - destruct (apart_step q sA sB e H) as [Hnext ->]. f_equal. apply IH. by right.
Qed.

End stopping.

(** C9. On every state the relay can reach, let [p] be a live proxy of the
    source [track] and [q] another proxy in the active set of [track].
    [stop()] on [p] takes [p], and nothing else, out of the active sets;
    it leaves every other proxy, the tasks, the fan-out coroutines on the
    loop and the sources as they are, and the fan-out of [track] is still
    there.  Whatever happens next, to [p] too, the consumer of [q] receives
    from its [recv()] calls the same sequence as if [p] had not been
    stopped. *)
Theorem relay_stop_leaves_other_proxies
    (srcs : gmap nat (list Frame)) (es0 : list event) (track p q : nat) (o : proxy) :
  let s := (run (init srcs) es0).1 in
  objects s !! p = Some o → ended o = false → source o = Some track →
  q ≠ p → q ∈ active track s →
  (∀ track', active track' (stop p s) = active track' s ∖ {[p]})
  ∧ q ∈ active track (stop p s)
  ∧ (∀ q', q' ≠ p → objects (stop p s) !! q' = objects s !! q')
  ∧ tasks (stop p s) = tasks s
  ∧ running (stop p s) = running s
  ∧ sources (stop p s) = sources s
  ∧ (∃ t, tasks (stop p s) !! track = Some t ∧ running (stop p s) !! t = Some track)
  ∧ ∀ es, results q (run (stop p s) es).2 = results q (run s es).2.
Proof.
  intros s Ho He Hso Hne Hq.
  assert (Hs : inv s) by apply relay_inv_run, relay_inv_init.
  destruct (active_member track q s Hq) as (ps & Hps & Hin).
  destruct (inv_active _ Hs _ _ _ Hps Hin) as [t Ht].
  assert (Hact : ∀ track', active track' (stop p s) = active track' s ∖ {[p]}).
  { intros track'. unfold stop. rewrite Ho, (inv_bound _ Hs _ _ Ho He), Hso.
    rewrite active_set_object. unfold _stop. rewrite Hps. unfold active. simpl.
    destruct (decide (track' = track)) as [->|Hnt].
    - by rewrite lookup_insert_eq, Hps.
    - rewrite lookup_insert_ne by done.
      destruct (proxies s !! track') as [ps'|] eqn:Hps'; simpl; [|set_solver].
      assert (p ∉ ps'); [|set_solver].
      intros Hp. destruct (inv_member _ Hs _ _ _ Hps' Hp) as (o' & Ho' & Hso' & _).
      congruence. }
  split_and!.
  - exact Hact.
  - rewrite Hact. set_solver.
  - intros q' Hq'. by apply objects_stop_other.
  - apply tasks_stop.
  - apply running_stop.
  - apply sources_stop.
  - exists t. rewrite tasks_stop, running_stop. split; [done|].
    by apply (inv_tasks _ Hs).
  - intros es. apply (unaffected_run p q track); [done|]. left.
    split_and!; try done.
    + by apply relay_inv_stop.
    + apply strip_stop_own.
    + apply relay_terminal_stop. by eexists.
    + exists o. auto.
Qed.

(** Two proxies of a source with three frames have each received the first
    one when proxy [0] is stopped. *)
Example relay_stop_leaves_other_proxies_witness :
  let s := (run (init {[0 := [video_frame 1; video_frame 2; video_frame 3]]})
              [Subscribe 0; Subscribe 0; Recv 0; Recv 1; Fanout 0; Wake 0; Wake 1]).1 in
  (∀ track', active track' (stop 0 s) = active track' s ∖ {[0]})
  ∧ 1 ∈ active 0 (stop 0 s)
  ∧ (∀ q', q' ≠ 0 → objects (stop 0 s) !! q' = objects s !! q')
  ∧ tasks (stop 0 s) = tasks s
  ∧ running (stop 0 s) = running s
  ∧ sources (stop 0 s) = sources s
  ∧ (∃ t, tasks (stop 0 s) !! 0 = Some t ∧ running (stop 0 s) !! t = Some 0)
  ∧ ∀ es, results 1 (run (stop 0 s) es).2 = results 1 (run s es).2.
Proof.
  pose (srcs := ({[0 := [video_frame 1; video_frame 2; video_frame 3]]}
                 : gmap nat (list Frame))).
  pose (es0 := [Subscribe 0; Subscribe 0; Recv 0; Recv 1; Fanout 0; Wake 0; Wake 1]).
  assert (Ho : objects (run (init srcs) es0).1 !! 0
               = Some (mkProxy false true (Some 0) [] false))
    by (vm_compute; reflexivity).
  assert (Hq : 1 ∈ active 0 (run (init srcs) es0).1).
  { assert (Heq : active 0 (run (init srcs) es0).1 = {[0; 1]})
      by (vm_compute; reflexivity).
    rewrite Heq. apply elem_of_union_r, elem_of_singleton_2. reflexivity. }
  assert (Hne : 1 ≠ 0) by discriminate.
  exact (relay_stop_leaves_other_proxies srcs es0 0 0 1 _ Ho eq_refl eq_refl Hne Hq).
Defined.

(** Scenario C of the specification, on three frames: proxy [0] is stopped
    after the first frame, proxy [1] goes on to receive the second and the
    third frame and then the end of the stream. *)
Example relay_stop_after_first_frame :
  let s := (run (init {[0 := [video_frame 1; video_frame 2; video_frame 3]]})
              [Subscribe 0; Subscribe 0; Recv 0; Recv 1; Fanout 0; Wake 0; Wake 1]).1 in
  let es := [Recv 0; Recv 1; Fanout 0; Wake 0; Wake 1; Fanout 0; Fanout 0;
             Recv 1; Recv 1] in
  results 1 (run (stop 0 s) es).2
  = [Returned (video_frame 2); Returned (video_frame 3); MediaStreamError]
  ∧ results 1 (run s es).2
    = [Returned (video_frame 2); Returned (video_frame 3); MediaStreamError]
  ∧ results 0 (run (stop 0 s) es).2 = [MediaStreamError]
  ∧ results 0 (run s es).2 = [Returned (video_frame 2)].
Proof. vm_compute. done. Qed.

End RelayFacts.

(** * The contract of [recv()] on both kinds of track *)

Module TrackFacts.
Import Media.

(** C5. For a player track and for a relay proxy alike, on every state the
    program can reach: [recv()] on a track that is not live fails at once
    with [MediaStreamError] and changes nothing; a [recv()] that takes the
    end sentinel out of the queue ends the track and fails with the same
    error; a [recv()] that takes a frame out of the queue returns that frame
    and leaves the track live with the rest of the queue; after [stop()],
    and after any [recv()] that failed with [MediaStreamError], the track is
    ended, it stays ended whatever happens next, and every later [recv()]
    fails with [MediaStreamError] and changes nothing.  (For a player track
    a new call gets to the queue while the player still holds its
    container.) *)
Theorem recv_fails_once_ended
    (a v th : bool) (pes : list Player.event) (k : kind)
    (srcs : gmap nat (list Frame)) (res : list Relay.event) (p : nat) :
  let ps := (Player.run (Player.init a v th) pes).1 in
  let rs := (Relay.run (Relay.init srcs) res).1 in
  ((∀ now, PlayerFacts.terminal k ps →
      Player.step ps (Player.Recv k now)
      = (ps, [Player.Result k Player.MediaStreamError]))
   ∧ (∀ t e q, PlayerFacts.dequeues ps k t e → Player.queue t = None :: q →
        Player.results k (Player.step ps e).2 = [Player.MediaStreamError]
        ∧ PlayerFacts.terminal k (Player.step ps e).1)
   ∧ (∀ t e f q, PlayerFacts.dequeues ps k t e → Player.queue t = Some f :: q →
        Player.results k (Player.step ps e).2 = [Player.Returned f]
        ∧ ∃ t', Player.get_track k (Player.step ps e).1 = Some t'
                ∧ Player.queue t' = q ∧ Player.ended t' = false)
   ∧ (is_Some (Player.get_track k ps) →
        PlayerFacts.terminal k (Player.step ps (Player.Stop k)).1)
   ∧ (∀ e, (∃ now, e = Player.Recv k now ∨ e = Player.Wake k now) →
        Player.MediaStreamError ∈ Player.results k (Player.step ps e).2 →
        PlayerFacts.terminal k (Player.step ps e).1)
   ∧ (PlayerFacts.terminal k ps → ∀ es' now,
        PlayerFacts.terminal k (Player.run ps es').1
        ∧ Player.step (Player.run ps es').1 (Player.Recv k now)
          = ((Player.run ps es').1, [Player.Result k Player.MediaStreamError])))
  ∧ ((RelayFacts.terminal p rs →
        Relay.step rs (Relay.Recv p) = (rs, [(p, Relay.MediaStreamError)]))
     ∧ (∀ o e q, RelayFacts.dequeues rs p o e → Relay.queue o = None :: q →
          Relay.results p (Relay.step rs e).2 = [Relay.MediaStreamError]
          ∧ RelayFacts.terminal p (Relay.step rs e).1)
     ∧ (∀ o e f q, RelayFacts.dequeues rs p o e → Relay.queue o = Some f :: q →
          Relay.results p (Relay.step rs e).2 = [Relay.Returned f]
          ∧ ∃ o', Relay.objects (Relay.step rs e).1 !! p = Some o'
                  ∧ Relay.queue o' = q ∧ Relay.ended o' = false)
     ∧ (is_Some (Relay.objects rs !! p) →
          RelayFacts.terminal p (Relay.step rs (Relay.Stop p)).1)
     ∧ (∀ e, e = Relay.Recv p ∨ e = Relay.Wake p →
          Relay.MediaStreamError ∈ Relay.results p (Relay.step rs e).2 →
          RelayFacts.terminal p (Relay.step rs e).1)
     ∧ (RelayFacts.terminal p rs → ∀ es',
          RelayFacts.terminal p (Relay.run rs es').1
          ∧ Relay.step (Relay.run rs es').1 (Relay.Recv p)
            = ((Relay.run rs es').1, [(p, Relay.MediaStreamError)]))).
Proof.
  intros ps rs. split.
  - exact (PlayerFacts.player_recv_contract a v th pes k).
  - exact (RelayFacts.relay_recv_contract srcs res p).
Qed.

Definition sample_frame (n : nat) : Frame := FVideo (mkVideo (Z.of_nat n) (Some 0%Z) 0 n).

(** A player track reads a frame, then the sentinel, then fails again and
    again; a proxy that was stopped fails at once. *)
Example recv_fails_once_ended_sample :
  Player.results Video
    (Player.run (Player.init false true false)
       [Player.WorkerPut Video (Some (sample_frame 1)); Player.WorkerPut Video None;
        Player.Recv Video 0; Player.Recv Video 0; Player.Recv Video 0;
        Player.Recv Video 0]).2
  = [Player.Returned (sample_frame 1); Player.MediaStreamError;
     Player.MediaStreamError; Player.MediaStreamError]
  ∧ Relay.results 0
      (Relay.run (Relay.init ∅)
         [Relay.Subscribe 5; Relay.Stop 0; Relay.Recv 0; Relay.Recv 0]).2
    = [Relay.MediaStreamError; Relay.MediaStreamError].
Proof. split; vm_compute; reflexivity. Qed.

End TrackFacts.

(** * More on the relay: late, stale and idle proxies *)

Module RelayMore.
Import Media Relay RelayFacts.

Local Open Scope nat_scope.











Lemma running_run_track_frame t track f fs s :
  inv s → running s !! t = Some track → sources s !! track = Some (f :: fs) →
  running (run_track t s) = running s ∧ tasks (run_track t s) = tasks s.
Proof.
  intros Hs Hrun Hsrc. unfold run_track.
  pose proof (proj2 (inv_tasks _ Hs track t) Hrun) as Htask.
  destruct (inv_registered _ Hs track (mk_is_Some _ _ Htask)) as [ps Hps].
  by rewrite Hrun, (source_recv_some track _ f fs Hsrc), Hps.
Qed.

Lemma feeding_fanouts track p fs t n : ∀ d s,
  inv s → feeding track p fs 0 d s → running s !! t = Some track →
  d + n ≤ length fs →
  feeding track p fs 0 (d + n) (run s (replicate n (Fanout t))).1
  ∧ running (run s (replicate n (Fanout t))).1 !! t = Some track
  ∧ results p (run s (replicate n (Fanout t))).2 = [].
Proof.
  induction n as [|n IH]; intros d s Hs Hfeed Hrun Hlen.
  { simpl. by rewrite Nat.add_0_r. }
  cbn [replicate]. rewrite relay_run_cons. cbn [fst snd step].
  pose proof Hfeed as (o & _ & _ & _ & _ & _ & Hsrc & _).
  destruct (fs !! d) as [x|] eqn:Hx; [|apply lookup_ge_None in Hx; lia].
  rewrite (drop_S _ _ _ Hx) in Hsrc.
  destruct (running_run_track_frame t track _ _ s Hs Hrun Hsrc) as [Hrun' _].
  destruct (fanout_feeding track p fs 0 d s t Hfeed Hrun) as [[_ Hfeed'] | [Heq _]]; [|lia].
  destruct (IH (S d) (run_track t s)) as (H1 & H2 & H3).
  - exact (relay_inv_step s (Fanout t) Hs).
  - done.
  - by rewrite Hrun'.
  - lia.
  - replace (d + S n) with (S d + n) by lia. done.
Qed.

(** Nothing holds the fan-out back: while a proxy in the active set does not
    read, every frame the fan-out takes from the source is added to its
    queue.  After [n] passes of the fan-out the queue of the proxy holds the
    first [n] frames of the source, in order. *)
Theorem relay_unread_frames_pile_up
    (srcs : gmap nat (list Frame)) (es0 : list event) (track p t : nat)
    (fs : list Frame) (n : nat) :
  let s := (run (init srcs) es0).1 in
  p ∈ active track s →
  (∃ o, objects s !! p = Some o ∧ queue o = []) →
  sources s !! track = Some fs →
  running s !! t = Some track →
  n ≤ length fs →
  let r := run s (replicate n (Fanout t)) in
  (∃ o', objects r.1 !! p = Some o' ∧ queue o' = map Some (take n fs))
  ∧ sources r.1 !! track = Some (drop n fs)
  ∧ results p r.2 = [].
Proof.
  intros s Hin (o & Ho & Hq) Hsrc Hrun Hn r.
  assert (Hs : inv s) by apply relay_inv_run, relay_inv_init.
  assert (H0 : feeding track p fs 0 0 s).
  { destruct (active_member track p s Hin) as (ps & Hps & Hp).
    destruct (inv_member _ Hs _ _ _ Hps Hp) as (o' & Ho' & Hso & He).
    assert (o' = o) as -> by congruence.
    exists o. rewrite Hq. split_and!; try done; try lia. }
  destruct (feeding_fanouts track p fs t n 0 s Hs H0 Hrun Hn)
    as ((o' & Ho' & _ & _ & _ & _ & Hsrc' & Hq') & _ & Hres).
  rewrite Nat.sub_0_r in Hq'. simpl in Hq'.
  split; [by exists o'|]. done.
Qed.

(** One proxy has called [recv()] on a source of three frames; it does not
    read on while the fan-out makes two passes. *)
Example relay_unread_frames_pile_up_witness :
  let fs := [video_frame 1; video_frame 2; video_frame 3] in
  let s := (run (init {[0 := fs]}) [Subscribe 0; Recv 0]).1 in
  let r := run s (replicate 2 (Fanout 0)) in
  (∃ o', objects r.1 !! 0 = Some o' ∧ queue o' = map Some (take 2 fs))
  ∧ sources r.1 !! 0 = Some (drop 2 fs)
  ∧ results 0 r.2 = [].
Proof.
  pose (fs := [video_frame 1; video_frame 2; video_frame 3]).
  pose (srcs := ({[0 := fs]} : gmap nat (list Frame))).
  assert (Hin : 0 ∈ active 0 (run (init srcs) [Subscribe 0; Recv 0]).1).
  { assert (Heq : active 0 (run (init srcs) [Subscribe 0; Recv 0]).1 = {[0]})
      by (vm_compute; reflexivity).
    rewrite Heq. apply elem_of_singleton_2. reflexivity. }
  assert (Ho : objects (run (init srcs) [Subscribe 0; Recv 0]).1 !! 0
               = Some (mkProxy false true (Some 0) [] true))
    by (vm_compute; reflexivity).
  assert (Hsrc : sources (run (init srcs) [Subscribe 0; Recv 0]).1 !! 0 = Some fs)
    by (vm_compute; reflexivity).
  assert (Hrun : running (run (init srcs) [Subscribe 0; Recv 0]).1 !! 0 = Some 0)
    by (vm_compute; reflexivity).
  assert (Hn : 2 ≤ length fs) by (simpl; lia).
  exact (relay_unread_frames_pile_up srcs [Subscribe 0; Recv 0] 0 0 0 fs 2 Hin
           (ex_intro _ _ (conj Ho eq_refl)) Hsrc Hrun Hn).
Defined.

Lemma broadcast_nobody item (objs : gmap nat proxy) : broadcast item ∅ objs = objs.
Proof.
  apply map_eq. intros i. rewrite broadcast_lookup. by rewrite decide_False by set_solver.
Qed.

Lemma drains fs : ∀ s t track,
  inv s → running s !! t = Some track → active track s = ∅ →
  sources s !! track = Some fs →
  let r := run s (replicate (S (length fs)) (Fanout t)) in
  objects r.1 = objects s ∧ r.2 = []
  ∧ sources r.1 !! track = Some []
  ∧ running r.1 !! t = None ∧ tasks r.1 !! track = None ∧ proxies r.1 !! track = None.
Proof.
  induction fs as [|f fs IH]; intros s t track Hs Hrun Hact Hsrc r; subst r.
  - cbn [length replicate]. rewrite relay_run_cons. cbn [run fst snd step].
    pose proof (proj2 (inv_tasks _ Hs track t) Hrun) as Htask.
    destruct (inv_registered _ Hs track (mk_is_Some _ _ Htask)) as [ps Hps].
    assert (ps = ∅) as -> by (unfold active in Hact; by rewrite Hps in Hact).
    unfold run_track. rewrite Hrun, (source_recv_none track), Hps by auto. simpl.
    rewrite broadcast_nobody, !lookup_delete_eq. done.
  - cbn [length replicate]. rewrite relay_run_cons. cbn [fst snd step].
    pose proof (proj2 (inv_tasks _ Hs track t) Hrun) as Htask.
    destruct (inv_registered _ Hs track (mk_is_Some _ _ Htask)) as [ps Hps].
    assert (ps = ∅) as -> by (unfold active in Hact; by rewrite Hps in Hact).
    assert (Hnext : run_track t s
                    = mkState (proxies s) (tasks s) (objects s) (running s)
                        (<[track := fs]> (sources s)) (next_proxy s) (next_task s)).
    { unfold run_track. rewrite Hrun, (source_recv_some track _ f fs Hsrc), Hps.
      by rewrite broadcast_nobody. }
    destruct (IH (run_track t s) t track) as (H1 & H2 & H3 & H4 & H5 & H6).
    + exact (relay_inv_step s (Fanout t) Hs).
    + by rewrite Hnext.
    + rewrite Hnext. unfold active in *. simpl. done.
    + rewrite Hnext. simpl. by rewrite lookup_insert_eq.
    + change (replicate (S (length fs)) (Fanout t))
        with (Fanout t :: replicate (length fs) (Fanout t)) in *.
      rewrite H1, H2. split_and!; try done. by rewrite Hnext.
Qed.

(** Stopping every proxy of a source does not stop its fan-out: with an
    empty active set the fan-out still takes every frame from the source,
    hands it to nobody, and only at the end of the source does it finish and
    make the relay forget the source. *)
Theorem relay_fanout_drains_unwatched_source
    (srcs : gmap nat (list Frame)) (es0 : list event) (track t : nat)
    (fs : list Frame) :
  let s := (run (init srcs) es0).1 in
  running s !! t = Some track → active track s = ∅ →
  sources s !! track = Some fs →
  (∀ n, n ≤ length fs →
     running (run s (replicate n (Fanout t))).1 !! t = Some track
     ∧ sources (run s (replicate n (Fanout t))).1 !! track = Some (drop n fs)
     ∧ objects (run s (replicate n (Fanout t))).1 = objects s)
  ∧ let r := run s (replicate (S (length fs)) (Fanout t)) in
    objects r.1 = objects s ∧ r.2 = []
    ∧ sources r.1 !! track = Some []
    ∧ running r.1 !! t = None ∧ tasks r.1 !! track = None
    ∧ proxies r.1 !! track = None.
Proof.
  intros s Hrun Hact Hsrc.
  assert (Hs : inv s) by apply relay_inv_run, relay_inv_init.
  split; [|by apply drains].
  intros n. revert Hs Hrun Hact Hsrc. generalize s fs. clear.
  induction n as [|n IH]; intros s fs Hs Hrun Hact Hsrc Hn.
  { simpl. by rewrite drop_0. }
  destruct fs as [|f fs]; [simpl in Hn; lia|].
  cbn [replicate]. rewrite relay_run_cons. cbn [fst snd step].
  pose proof (proj2 (inv_tasks _ Hs track t) Hrun) as Htask.
  destruct (inv_registered _ Hs track (mk_is_Some _ _ Htask)) as [ps Hps].
  assert (ps = ∅) as -> by (unfold active in Hact; by rewrite Hps in Hact).
  assert (Hnext : run_track t s
                  = mkState (proxies s) (tasks s) (objects s) (running s)
                      (<[track := fs]> (sources s)) (next_proxy s) (next_task s)).
  { unfold run_track. rewrite Hrun, (source_recv_some track _ f fs Hsrc), Hps.
    by rewrite broadcast_nobody. }
  destruct (IH (run_track t s) fs) as (H1 & H2 & H3).
  - exact (relay_inv_step s (Fanout t) Hs).
  - by rewrite Hnext.
  - rewrite Hnext. unfold active in *. simpl. done.
  - rewrite Hnext. simpl. by rewrite lookup_insert_eq.
  - simpl in Hn. lia.
  - rewrite H1, H2, H3. split_and!; try done. by rewrite Hnext.
Qed.

(** The only proxy of a source of two frames is stopped after its first
    [recv()]. *)
Example relay_fanout_drains_unwatched_source_witness :
  let fs := [video_frame 1; video_frame 2] in
  let s := (run (init {[0 := fs]}) [Subscribe 0; Recv 0; Stop 0]).1 in
  (∀ n, n ≤ length fs →
     running (run s (replicate n (Fanout 0))).1 !! 0 = Some 0
     ∧ sources (run s (replicate n (Fanout 0))).1 !! 0 = Some (drop n fs)
     ∧ objects (run s (replicate n (Fanout 0))).1 = objects s)
  ∧ let r := run s (replicate (S (length fs)) (Fanout 0)) in
    objects r.1 = objects s ∧ r.2 = []
    ∧ sources r.1 !! 0 = Some []
    ∧ running r.1 !! 0 = None ∧ tasks r.1 !! 0 = None
    ∧ proxies r.1 !! 0 = None.
Proof.
  pose (fs := [video_frame 1; video_frame 2]).
  pose (srcs := ({[0 := fs]} : gmap nat (list Frame))).
  pose (es0 := [Subscribe 0; Recv 0; Stop 0]).
  assert (Hrun : running (run (init srcs) es0).1 !! 0 = Some 0)
    by (vm_compute; reflexivity).
  assert (Hact : active 0 (run (init srcs) es0).1 = ∅) by (vm_compute; reflexivity).
  assert (Hsrc : sources (run (init srcs) es0).1 !! 0 = Some fs)
    by (vm_compute; reflexivity).
  exact (relay_fanout_drains_unwatched_source srcs es0 0 0 fs Hrun Hact Hsrc).
Defined.

(** A source that has ended can be subscribed to again: the first
    [recv()] of the new proxy starts a new fan-out, whose only pass finds
    the source ended, hands the proxy the sentinel and makes the relay
    forget the source again; the suspended [recv()] then fails with
    [MediaStreamError]. *)
Theorem relay_subscribe_to_ended_source
    (srcs : gmap nat (list Frame)) (es0 : list event) (track : nat) :
  let s := (run (init srcs) es0).1 in
  exhausted track s → tasks s !! track = None →
  let p := next_proxy s in
  let t := next_task s in
  let r := run s [Subscribe track; Recv p; Fanout t; Wake p] in
  (subscribe track s).2 = p
  ∧ running (run s [Subscribe track; Recv p]).1 !! t = Some track
  ∧ results p r.2 = [MediaStreamError]
  ∧ terminal p r.1
  ∧ proxies r.1 !! track = None ∧ tasks r.1 !! track = None
  ∧ running r.1 !! t = None.
Proof.
  intros s Hex Htask p t r.
  assert (Hs : inv s) by apply relay_inv_run, relay_inv_init.
  assert (Hnone : ∀ ps, proxies s !! track = Some ps → ps = ∅).
  { intros ps Hps. apply set_eq. intros q. split; [|set_solver].
    intros Hq. destruct (inv_active _ Hs _ _ _ Hps Hq) as [t' Ht']. congruence. }
  assert (Hsrc : source_recv track (sources s) = (None, sources s)).
  { pose proof (source_recv_exhausted _ _ Hex) as H2. unfold exhausted in Hex.
    destruct (source_recv track (sources s)) as [x y]. simpl in *. by subst. }
  assert (Hobj : objects s !! p = None).
  { destruct (objects s !! p) eqn:Hp; [|done].
    pose proof (inv_fresh_proxy _ Hs p (mk_is_Some _ _ Hp)). unfold p in *. lia. }
  assert (Hrun : running s !! t = None).
  { destruct (running s !! t) eqn:Ht; [|done].
    pose proof (inv_fresh_task _ Hs t (mk_is_Some _ _ Ht)). unfold t in *. lia. }
  set (o0 := mkProxy false true (Some track) [] false).
  set (o1 := mkProxy false true (Some track) [] true).
  assert (Hsub : ∃ prx, (subscribe track s).1
            = mkState prx (tasks s) (<[p := o0]> (objects s)) (running s) (sources s)
                (S p) t ∧ prx !! track = Some ∅).
  { unfold subscribe. destruct (proxies s !! track) as [ps|] eqn:Hps.
    - exists (proxies s). split; [done|]. by rewrite Hps, (Hnone ps).
    - eexists. split; [done|]. by rewrite lookup_insert_eq. }
  destruct Hsub as (prx & Hsub & Hprx).
  set (s1 := mkState prx (tasks s) (<[p := o0]> (objects s)) (running s) (sources s)
               (S p) t) in *.
  set (s2 := mkState (<[track := {[p]} ∪ ∅]> prx) (<[track := t]> (tasks s))
               (<[p := o1]> (<[p := o0]> (objects s))) (<[t := track]> (running s))
               (sources s) (S p) (S t)).
  set (s3 := mkState (delete track (proxies s2)) (delete track (tasks s2))
               (broadcast None ({[p]} ∪ ∅) (objects s2)) (delete t (running s2))
               (sources s) (S p) (S t)).
  assert (E1 : step s (Subscribe track) = (s1, [])) by (cbn [step]; by rewrite Hsub).
  assert (E2 : step s1 (Recv p) = (s2, [])).
  { simpl. unfold recv. simpl. rewrite lookup_insert_eq. simpl.
    rewrite Hprx. simpl. by rewrite Htask. }
  assert (E3 : step s2 (Fanout t) = (s3, [])).
  { simpl. unfold run_track. simpl. rewrite !lookup_insert_eq. by rewrite Hsrc. }
  assert (Ho3 : objects s3 !! p = Some (mkProxy false true (Some track) [None] true)).
  { unfold s3. simpl. rewrite broadcast_lookup, decide_True by set_solver.
    by rewrite lookup_insert_eq. }
  assert (E4 : step s3 (Wake p)
               = (set_object p (mkProxy true false None [] false)
                    (set_object p (mkProxy false true (Some track) [] false) s3),
                  [(p, MediaStreamError)])).
  { simpl. unfold wake. rewrite Ho3. simpl. unfold stop. simpl.
    rewrite lookup_insert_eq. simpl. by rewrite lookup_delete_eq. }
  split; [done|]. split.
  { cbn [run]. rewrite E1, E2. simpl. by rewrite lookup_insert_eq. }
  subst r. cbn [run]. rewrite E1, E2, E3, E4. cbn [fst snd app].
  split_and!.
  - apply relay_results_own.
  - eexists. simpl. rewrite lookup_insert_eq. done.
  - simpl. apply lookup_delete_eq.
  - simpl. apply lookup_delete_eq.
  - simpl. apply lookup_delete_eq.
Qed.

(** The only frame source [0] ever had is none: its first fan-out ends at
    once; a second subscription follows. *)
Example relay_subscribe_to_ended_source_witness :
  let s := (run (init {[0 := []]}) [Subscribe 0; Recv 0; Fanout 0; Wake 0]).1 in
  let r := run s [Subscribe 0; Recv 1; Fanout 1; Wake 1] in
  (subscribe 0 s).2 = 1
  ∧ running (run s [Subscribe 0; Recv 1]).1 !! 1 = Some 0
  ∧ results 1 r.2 = [MediaStreamError]
  ∧ terminal 1 r.1
  ∧ proxies r.1 !! 0 = None ∧ tasks r.1 !! 0 = None
  ∧ running r.1 !! 1 = None.
Proof.
  pose (srcs := ({[0 := []]} : gmap nat (list Frame))).
  pose (es0 := [Subscribe 0; Recv 0; Fanout 0; Wake 0]).
  assert (Hex : exhausted 0 (run (init srcs) es0).1) by (vm_compute; reflexivity).
  assert (Ht : tasks (run (init srcs) es0).1 !! 0 = None) by (vm_compute; reflexivity).
  exact (relay_subscribe_to_ended_source srcs es0 0 Hex Ht).
Defined.

End RelayMore.

(** * More on the blackhole sink *)

Module BlackholeMore.
Import Media Blackhole BlackholeFacts.

Local Open Scope nat_scope.

Lemma consume_frames fs : ∀ rest,
  blackhole_consume (map Some fs ++ None :: rest) = (fs, true).
Proof.
  induction fs as [|f fs IH]; intros rest; [done|].
  simpl. by rewrite IH.
Qed.

Lemma consume_unended fs : blackhole_consume (map Some fs) = (fs, false).
Proof. induction fs as [|f fs IH]; [done|]. simpl. by rewrite IH. Qed.

(** [blackhole_consume] discards every frame its track yields up to the
    first [MediaStreamError] and returns there, without another [recv()];
    on a track that does not end it discards on and does not return. *)
Theorem blackhole_consume_drains_track (fs : list Frame) (rest : list (option Frame)) :
  blackhole_consume (map Some fs ++ None :: rest) = (fs, true)
  ∧ blackhole_consume (map Some fs) = (fs, false)
  ∧ (∀ outcomes, (blackhole_consume outcomes).2 = true → None ∈ outcomes).
Proof.
  split; [apply consume_frames|]. split; [apply consume_unended|].
  induction outcomes as [|[f|] os IH]; simpl.
  - done.
  - destruct (blackhole_consume os) as [gs b]. simpl in *.
    intros Hb. apply elem_of_cons. right. by apply IH.
  - intros _. apply elem_of_cons. by left.
Qed.

Lemma filter_none {A} (P : A → Prop) `{!∀ x, Decision (P x)} (l : list A) :
  (∀ x, x ∈ l → ¬ P x) → filter P l = [].
Proof.
  induction l as [|x l IH]; intros Hl; [done|].
  rewrite filter_cons_False by (apply Hl; left). apply IH.
  intros y Hy. apply Hl. by right.
Qed.

Lemma cancel_length t sp : length (cancel t sp) = length sp.
Proof. unfold cancel. destruct (sp !! t); [|done]. apply length_insert. Qed.

Lemma stop_length s : length (spawned (stop s)) = length (spawned s).
Proof.
  unfold stop. simpl. generalize (spawned s).
  induction (tracks s) as [|[tr [t|]] rest IH]; intros sp; simpl; [done| |].
  - by rewrite IH, cancel_length.
  - apply IH.
Qed.

(** [stop()] cancels every task of the blackhole and forgets every track:
    afterwards no task consumes anything and [start()] starts nothing.  A
    track has to be added again to be consumed again, and is then consumed
    by one new task. *)
Theorem blackhole_stop_forgets_tracks (es : list event) (track : nat) :
  let s := run init es in
  tracks (stop s) = []
  ∧ (∀ t k, spawned (stop s) !! t = Some k → cancelled k = true)
  ∧ (∀ track', consuming track' (stop s) = [])
  ∧ start (stop s) = stop s
  ∧ consuming track (start (addTrack track (stop s))) = [length (spawned s)].
Proof.
  intros s.
  pose proof (sink_inv_stop s (sink_inv_run es init sink_inv_init)) as [_ _ Htask].
  assert (Hall : ∀ t k, spawned (stop s) !! t = Some k → cancelled k = true).
  { intros t k Hk. destruct (cancelled k) eqn:Hc; [done|].
    specialize (Htask t k Hk Hc). by apply elem_of_nil in Htask. }
  assert (Hidle : ∀ track' sp,
            (∀ t k, sp !! t = Some k → cancelled k = true) →
            filter (λ t, is_consuming track' <$> sp !! t = Some true)
                   (seq 0 (length sp)) = []).
  { intros track' sp Hsp. apply filter_none. intros t _ Ht.
    destruct (sp !! t) as [k|] eqn:Hk; [|done]. simpl in Ht.
    injection Ht as Ht. unfold is_consuming in Ht. rewrite (Hsp t k Hk) in Ht.
    by rewrite andb_false_r in Ht. }
  split_and!; try done.
  - intros track'. unfold consuming. by apply Hidle.
  - unfold addTrack. rewrite decide_False by (simpl; apply not_elem_of_nil).
    unfold start. cbn [tracks spawned].
    change (tracks (stop s)) with (@nil (nat * option nat)).
    cbn [app start_items].
    unfold consuming. cbn [spawned]. rewrite length_app. cbn [length].
    rewrite Nat.add_1_r, seq_S, filter_app. cbn [Nat.add].
    rewrite stop_length.
    assert (Hold : filter
              (λ t, is_consuming track
                      <$> (spawned (stop s) ++ [mkTask track false false]) !! t
                    = Some true) (seq 0 (length (spawned s))) = []).
    { apply filter_none. intros t Ht%elem_of_seq Hc.
      rewrite lookup_app_l in Hc by (rewrite stop_length; lia).
      destruct (spawned (stop s) !! t) as [k|] eqn:Hk; [|done]. simpl in Hc.
      injection Hc as Hc. unfold is_consuming in Hc. rewrite (Hall t k Hk) in Hc.
      by rewrite andb_false_r in Hc. }
    rewrite Hold. cbn [app]. apply filter_singleton_True; [exact []|].
    rewrite lookup_app_r by (rewrite stop_length; lia).
    rewrite stop_length, Nat.sub_diag. simpl. f_equal.
    unfold is_consuming. simpl. by rewrite bool_decide_eq_true_2.
Qed.

End BlackholeMore.

(** * More on the player: the life of the decode thread and of the container *)

Module PlayerMore.
Import Media Player PlayerFacts.

Local Open Scope nat_scope.

(** The decode threads started in a list of effects, in what is observed. *)
Definition starts_in (effs : list effect) : nat :=
  length (omap (λ e, match e with ThreadStart tid => Some tid | _ => None end) effs).

Definition thread_starts (out : list obs) : nat := starts_in (effects out).

Lemma effects_app a b : effects (a ++ b) = effects a ++ effects b.
Proof. apply omap_app. Qed.

Lemma effects_map_effect effs : effects (map Effect effs) = effs.
Proof.
  induction effs as [|e effs IH]; [done|].
  change (effects (map Effect (e :: effs))) with (e :: effects (map Effect effs)).
  by rewrite IH.
Qed.

Lemma starts_in_app a b : starts_in (a ++ b) = starts_in a + starts_in b.
Proof. unfold starts_in. by rewrite omap_app, length_app. Qed.

Lemma thread_starts_app a b : thread_starts (a ++ b) = thread_starts a + thread_starts b.
Proof. unfold thread_starts. by rewrite effects_app, starts_in_app. Qed.

Lemma thread_starts_effects effs : thread_starts (map Effect effs) = starts_in effs.
Proof. unfold thread_starts. by rewrite effects_map_effect. Qed.

(** The player has started at most one thread, and none if it still holds
    its container without a thread. *)
Definition once (s : state) : Prop :=
  next_thread s ≤ 1
  ∧ (thread s = None → container_open s = true → next_thread s = 0).

(** What a piece of the program does to the thread count: [n] threads
    started, none once the container is closed, and a closed container stays
    closed. *)
Definition counted (s s' : state) (n : nat) : Prop :=
  (once s → once s')
  ∧ next_thread s' = next_thread s + n
  ∧ (container_open s = false → container_open s' = false ∧ n = 0).

Lemma counted_refl s : counted s s 0.
Proof. split; [done|]. split; [lia|done]. Qed.

Lemma counted_trans s1 s2 s3 n m :
  counted s1 s2 n → counted s2 s3 m → counted s1 s3 (n + m).
Proof.
  intros (H1 & H2 & H3) (H4 & H5 & H6). split; [auto|]. split; [lia|].
  intros Hc. destruct (H3 Hc) as [Hc2 ->]. destruct (H6 Hc2) as [Hc3 ->]. done.
Qed.

Lemma counted_set_track k t s : counted s (set_track k t s) 0.
Proof. unfold counted, once. destruct k; simpl; (split; [done|]); (split; [lia|done]). Qed.

Lemma counted_start k s : counted s (_start k s).1.1 (starts_in (_start k s).1.2).
Proof.
  destruct s as [co th st au vi tp al qu nt].
  unfold _start, counted, once, starts_in. simpl.
  destruct th as [tid|]; simpl; [split; [done|]; split; [lia|done]|].
  destruct co; simpl.
  - split; [|split; [lia|done]].
    intros [Hle H0]. rewrite (H0 eq_refl eq_refl). split; [lia|done].
  - split; [done|]. split; [lia|done].
Qed.

Lemma counted_stop_player k s :
  counted s (_stop k s).1.1 0 ∧ starts_in (_stop k s).1.2 = 0.
Proof.
  destruct s as [co th st au vi tp al qu nt].
  unfold _stop, counted, once, starts_in. simpl.
  destruct (decide (st ∖ {[k]} = ∅)); simpl.
  2:{ split; [|done]. split; [done|]. split; [lia|done]. }
  destruct th as [tid|]; simpl.
  - destruct co; simpl.
    + split; [|done]. split; [intros [Hle _]; by split|]. split; [lia|done].
    + split; [|done]. split; [done|]. split; [lia|done].
  - destruct co; simpl.
    + split; [|done]. split; [intros [Hle _]; by split|]. split; [lia|done].
    + split; [|done]. split; [done|]. split; [lia|done].
Qed.

Lemma counted_stop k s : counted s (stop k s).1.1 0 ∧ starts_in (stop k s).1.2 = 0.
Proof.
  unfold stop. destruct (get_track k s) as [t|]; [|split; [apply counted_refl|done]].
  pose proof (counted_set_track k (set_ended t) s) as H1.
  destruct (player_bound t); [|done].
  destruct (counted_stop_player k (set_track k (set_ended t) s)) as [H2 H3].
  destruct (_stop k (set_track k (set_ended t) s)) as [[s2 effs] ok]. simpl in *.
  pose proof (counted_trans _ _ _ _ _ H1 H2) as H12.
  destruct ok; simpl; [|done]. split; [|done].
  exact (counted_trans _ _ _ _ _ H12 (counted_set_track k _ s2)).
Qed.

Lemma counted_deliver k now t item s :
  counted s (deliver k now t item s).1 0 ∧ thread_starts (deliver k now t item s).2 = 0.
Proof.
  unfold deliver. destruct item as [f|].
  - assert (H : ∀ t' out, thread_starts out = 0 →
              counted s (set_track k t' s, out).1 0
              ∧ thread_starts (set_track k t' s, out).2 = 0).
    { intros t' out Hout. split; [apply counted_set_track|done]. }
    destruct (time f); [|by apply H].
    destruct (player_bound t && throttle_playback s); [|by apply H].
    destruct (start t); by apply H.
  - pose proof (counted_set_track k t s) as H1.
    destruct (counted_stop k (set_track k t s)) as [H2 H3].
    destruct (stop k (set_track k t s)) as [[s' effs] ok]. cbn [fst snd] in *.
    split; [exact (counted_trans _ _ _ _ _ H1 H2)|].
    rewrite thread_starts_app, thread_starts_effects, H3. by destruct ok.
Qed.

Lemma counted_step s e : counted s (step s e).1 (thread_starts (step s e).2).
Proof.
  destruct e as [k now|k now|k|k n|k item|tid]; cbn [step].
  - unfold recv. destruct (get_track k s) as [t|]; [|apply counted_refl].
    destruct (ended t); [apply counted_refl|].
    destruct (waiting t); [apply counted_refl|].
    destruct (player_bound t); cbn [negb]; [|apply counted_refl].
    pose proof (counted_start k s) as H1.
    destruct (_start k s) as [[s1 effs] ok]. cbn [fst snd] in *.
    destruct ok.
    2:{ cbn [fst snd]. rewrite thread_starts_app, thread_starts_effects.
        change (thread_starts [Result k AttributeError]) with 0.
        by rewrite Nat.add_0_r. }
    destruct (queue t) as [|item q].
    + cbn [fst snd]. rewrite thread_starts_effects.
      rewrite <- (Nat.add_0_r (starts_in effs)).
      exact (counted_trans _ _ _ _ _ H1 (counted_set_track k _ s1)).
    + match goal with
      | |- context [deliver k now ?t' item s1] =>
          destruct (counted_deliver k now t' item s1) as [H2 H3];
          destruct (deliver k now t' item s1) as [s2 out]
      end.
      cbn [fst snd] in *. rewrite thread_starts_app, thread_starts_effects, H3.
      exact (counted_trans _ _ _ _ _ H1 H2).
  - unfold wake. destruct (get_track k s) as [t|]; [|apply counted_refl].
    destruct (waiting t); [|apply counted_refl].
    destruct (queue t) as [|item q]; [apply counted_refl|].
    match goal with
    | |- context [deliver k now ?t' item s] =>
        destruct (counted_deliver k now t' item s) as [H2 H3]
    end.
    by rewrite H3.
  - destruct (counted_stop k s) as [H2 H3].
    destruct (stop k s) as [[s' effs] ok]. cbn [fst snd] in *.
    by rewrite thread_starts_effects, H3.
  - unfold set_max_frame_to_decode. cbn [fst snd].
    destruct (get_track k s); [|apply counted_refl].
    apply counted_set_track.
  - unfold worker_put. cbn [fst snd].
    destruct (get_track k s); [|apply counted_refl].
    apply counted_set_track.
  - cbn [fst snd]. change (thread_starts []) with 0.
    unfold worker_exit, counted, once. simpl. split; [done|]. split; [lia|done].
Qed.

Lemma counted_run es : ∀ s, counted s (run s es).1 (thread_starts (run s es).2).
Proof.
  induction es as [|e es IH]; intros s; [apply counted_refl|].
  simpl. pose proof (counted_step s e) as H1.
  destruct (step s e) as [s1 out1]. specialize (IH s1).
  destruct (run s1 es) as [s2 out2]. cbn [fst snd] in *.
  rewrite thread_starts_app. exact (counted_trans _ _ _ _ _ H1 IH).
Qed.

(** A player starts at most one decode thread in its life: whatever is done
    to its tracks, at most one thread start is ever observed, and from the
    moment the container is closed none is started any more and the
    container stays closed.  A player whose tracks have all been stopped is
    not restarted by a later [recv()]. *)
Theorem player_starts_one_thread_ever (a v th : bool) (es : list event) :
  let r := run (init a v th) es in
  thread_starts r.2 = next_thread r.1
  ∧ thread_starts r.2 ≤ 1
  ∧ (container_open r.1 = false →
     ∀ es', thread_starts (run r.1 es').2 = 0
            ∧ container_open (run r.1 es').1 = false
            ∧ alive (run r.1 es').1 = ∅).
Proof.
  intros r. destruct (counted_run es (init a v th)) as (Honce & Hnext & _).
  fold r in Honce, Hnext.
  assert (H0 : once (init a v th)) by (split; simpl; [lia|done]).
  destruct (Honce H0) as [Hle _]. simpl in Hnext.
  split; [lia|]. split; [lia|].
  intros Hc es'. destruct (counted_run es' r.1) as (_ & _ & Hclosed).
  destruct (Hclosed Hc) as [Hc' Hz]. split; [done|]. split; [done|].
  assert (Hs : inv (run r.1 es').1).
  { apply player_inv_run. unfold r. apply player_inv_run, player_inv_init. }
  apply set_eq. intros tid. split; [|set_solver]. intros Hin.
  pose proof (inv_alive _ Hs _ Hin) as Hth.
  destruct (inv_thread _ Hs (mk_is_Some _ _ Hth)) as [_ Hopen]. congruence.
Qed.

(** ** [recv()] once the container is closed *)

Lemma fields_set_track k t s :
  started (set_track k t s) = started s
  ∧ container_open (set_track k t s) = container_open s
  ∧ thread (set_track k t s) = thread s.
Proof. by destruct k. Qed.

Lemma start_facts k s :
  inv s →
  started (_start k s).1.1 = {[k]} ∪ started s
  ∧ container_open (_start k s).1.1 = container_open s
  ∧ ((_start k s).2 = true → container_open s = true)
  ∧ (container_open s = false →
     _start k s = (set_started ({[k]} ∪ started s) s, [], false)).
Proof.
  intros Hs. unfold _start. simpl.
  destruct (thread s) as [tid|] eqn:Hth; simpl.
  - destruct (inv_thread _ Hs (mk_is_Some _ _ Hth)) as [_ Hc].
    split_and!; try done. congruence.
  - destruct (container_open s) eqn:Hc; simpl; by rewrite ?Hc.
Qed.

Lemma stop_player_facts k s :
  started (_stop k s).1.1 = started s ∖ {[k]}
  ∧ (container_open (_stop k s).1.1 = false →
     container_open s = false ∨ started s ∖ {[k]} = ∅)
  ∧ (container_open s = false → container_open (_stop k s).1.1 = false).
Proof.
  destruct s as [co th st au vi tp al qu nt]. unfold _stop. simpl.
  destruct (decide (st ∖ {[k]} = ∅)) as [Hempty|Hne]; simpl.
  - destruct th as [tid|], co; simpl; split_and!; auto.
  - split_and!; auto.
Qed.

(** A live track with a suspended [recv()] has been started, and no live
    track has a suspended [recv()] once the container is closed. *)
Definition attended (s : state) : Prop :=
  (∀ k t, get_track k s = Some t → ended t = false → waiting t = true → k ∈ started s)
  ∧ (container_open s = false →
     ∀ k t, get_track k s = Some t → ended t = false → waiting t = false).

Lemma attended_init a v th : attended (init a v th).
Proof.
  split; [|done]. intros k t Hk _ Hw.
  destruct k, a, v; simpl in Hk; by simplify_eq.
Qed.

Lemma attended_set_track k t s :
  attended s →
  (ended t = false → waiting t = true → k ∈ started s ∧ container_open s = true) →
  attended (set_track k t s).
Proof.
  intros [H1 H2] Ht. destruct (fields_set_track k t s) as (E1 & E2 & _).
  split.
  - intros k' t'. rewrite get_track_set_track, E1. case_decide as Hk.
    + intros [= <-] He Hw. subst k'. by apply Ht.
    + apply H1.
  - rewrite E2. intros Hc k' t'. rewrite get_track_set_track. case_decide as Hk.
    + intros [= <-] He. destruct (waiting t) eqn:Hw; [|done].
      destruct (Ht He eq_refl) as [_ Hopen]. congruence.
    + by apply H2.
Qed.

Lemma attended_start k s : inv s → attended s → attended (_start k s).1.1.
Proof.
  intros Hs [H1 H2]. destruct (start_facts k s Hs) as (E1 & E2 & _). split.
  - intros k' t'. rewrite get_track_start, E1. intros Hk He Hw.
    apply elem_of_union_r. by apply (H1 k' t').
  - rewrite E2. intros Hc k' t'. rewrite get_track_start. by apply H2.
Qed.

Lemma attended_stop_player k s :
  attended s → terminal k s → attended (_stop k s).1.1.
Proof.
  intros [H1 H2] (t & Ht & He). destruct (stop_player_facts k s) as (E1 & E2 & _).
  assert (Hin : ∀ k' t', get_track k' s = Some t' → ended t' = false →
                         waiting t' = true → k' ∈ started s ∖ {[k]}).
  { intros k' t' Hk' He' Hw'. apply elem_of_difference. split; [by apply (H1 k' t')|].
    intros ->%elem_of_singleton. congruence. }
  split.
  - intros k' t'. rewrite get_track_stop_player, E1. apply Hin.
  - intros Hc k' t'. rewrite get_track_stop_player. intros Hk' He'.
    destruct (E2 Hc) as [Hclosed | Hempty]; [by apply (H2 Hclosed k' t')|].
    destruct (waiting t') eqn:Hw'; [|done].
    pose proof (Hin k' t' Hk' He' Hw') as Hmem. rewrite Hempty in Hmem. set_solver.
Qed.

Lemma attended_stop k s : attended s → attended (stop k s).1.1.
Proof.
  intros Hs. unfold stop. destruct (get_track k s) as [t|] eqn:Hk; [|done].
  assert (H1 : attended (set_track k (set_ended t) s))
    by (apply attended_set_track; [done|by intros [=]]).
  destruct (player_bound t); [|done].
  assert (Hterm : terminal k (set_track k (set_ended t) s)).
  { eexists. rewrite get_track_set_track, decide_True by done. done. }
  pose proof (attended_stop_player k _ H1 Hterm) as H2.
  destruct (_stop k (set_track k (set_ended t) s)) as [[s2 effs] ok]. cbn [fst snd] in *.
  destruct ok; [|done]. apply attended_set_track; [done|by intros [=]].
Qed.

Lemma attended_deliver k now t item s :
  attended s → waiting t = false → attended (deliver k now t item s).1.
Proof.
  intros Hs Hw. unfold deliver. destruct item as [f|].
  - assert (H : ∀ t' out, waiting t' = false →
              attended (set_track k t' s, out : list obs).1).
    { intros t' out Hw'. apply attended_set_track; [done|]. congruence. }
    destruct (time f); [|by apply H].
    destruct (player_bound t && throttle_playback s); [|by apply H].
    destruct (start t); by apply H.
  - assert (H1 : attended (set_track k t s))
      by (apply attended_set_track; [done|congruence]).
    pose proof (attended_stop k _ H1) as H2.
    by destruct (stop k (set_track k t s)) as [[s' effs] ok].
Qed.

Lemma attended_step s e : inv s → attended s → attended (step s e).1.
Proof.
  intros Hs Ha. destruct e as [k now|k now|k|k n|k item|tid]; cbn [step].
  - unfold recv. destruct (get_track k s) as [t|] eqn:Hk; [|done].
    destruct (ended t) eqn:He; [done|]. destruct (waiting t); [done|].
    destruct (player_bound t); cbn [negb]; [|done].
    pose proof (attended_start k s Hs Ha) as H1.
    destruct (start_facts k s Hs) as (E1 & E2 & E3 & _).
    destruct (_start k s) as [[s1 effs] ok]. cbn [fst snd] in *.
    destruct ok; [|done].
    destruct (queue t) as [|item q].
    + cbn [fst]. apply attended_set_track; [done|]. intros _ _.
      rewrite E1, E2. split; [set_solver|by apply E3].
    + match goal with
      | |- context [deliver k now ?t' item s1] =>
          pose proof (attended_deliver k now t' item s1 H1 eq_refl) as H2;
          by destruct (deliver k now t' item s1)
      end.
  - unfold wake. destruct (get_track k s) as [t|] eqn:Hk; [|done].
    destruct (waiting t); [|done]. destruct (queue t) as [|item q]; [done|].
    by apply attended_deliver.
  - pose proof (attended_stop k s Ha) as H.
    by destruct (stop k s) as [[s' effs] ok].
  - unfold set_max_frame_to_decode. cbn [fst].
    destruct (get_track k s) as [t|] eqn:Hk; [|done].
    apply attended_set_track; [done|]. simpl. intros He Hw.
    destruct Ha as [H1 H2]. split; [by apply (H1 k t)|].
    destruct (container_open s) eqn:Hc; [done|]. rewrite (H2 eq_refl k t Hk He) in Hw.
    done.
  - unfold worker_put. cbn [fst].
    destruct (get_track k s) as [t|] eqn:Hk; [|done].
    apply attended_set_track; [done|]. simpl. intros He Hw.
    destruct Ha as [H1 H2]. split; [by apply (H1 k t)|].
    destruct (container_open s) eqn:Hc; [done|]. rewrite (H2 eq_refl k t Hk He) in Hw.
    done.
  - destruct Ha as [H1 H2]. cbn [fst]. split.
    + intros k t Hk. apply (H1 k t). by destruct k.
    + intros Hc k t Hk. apply (H2 Hc k t). by destruct k.
Qed.

Lemma attended_run es : ∀ s, inv s → attended s → attended (run s es).1.
Proof.
  induction es as [|e es IH]; intros s Hs Ha; [done|].
  simpl. pose proof (player_inv_step s e Hs) as Hs1.
  pose proof (attended_step s e Hs Ha) as Ha1.
  destruct (step s e) as [s1 out1]. specialize (IH s1 Hs1 Ha1).
  by destruct (run s1 es).
Qed.

Definition kind_of (e : event) : option kind :=
  match e with
  | Recv k _ | Wake k _ | Stop k | SetMax k _ | WorkerPut k _ => Some k
  | WorkerExit _ => None
  end.

Lemma results_foreign k k' r : k ≠ k' → results k [Result k' r] = [].
Proof. intros Hne. unfold results. simpl. rewrite decide_False; [done|congruence]. Qed.

Lemma get_track_stop_other k k' s :
  k ≠ k' → get_track k (stop k' s).1.1 = get_track k s.
Proof.
  intros Hne. unfold stop. destruct (get_track k' s) as [t|]; [|done].
  assert (H1 : get_track k (set_track k' (set_ended t) s) = get_track k s)
    by (by rewrite get_track_set_track, decide_False).
  destruct (player_bound t); [|done].
  pose proof (get_track_stop_player k k' (set_track k' (set_ended t) s)) as H2.
  destruct (_stop k' (set_track k' (set_ended t) s)) as [[s2 effs] ok]. cbn [fst snd] in *.
  destruct ok; cbn [fst]; [|congruence].
  rewrite get_track_set_track, decide_False by done. congruence.
Qed.

Lemma deliver_other k k' now t item s :
  k ≠ k' →
  get_track k (deliver k' now t item s).1 = get_track k s
  ∧ results k (deliver k' now t item s).2 = [].
Proof.
  intros Hne. unfold deliver. destruct item as [f|].
  - assert (H : ∀ t' pre, results k (map Effect pre) = [] →
              get_track k (set_track k' t' s,
                           map Effect pre ++ [Result k' (Returned f)]).1 = get_track k s
              ∧ results k (set_track k' t' s,
                           map Effect pre ++ [Result k' (Returned f)]).2 = []).
    { intros t' pre Hpre. cbn [fst snd].
      rewrite get_track_set_track, decide_False by done.
      by rewrite results_effects, results_foreign. }
    destruct (time f); [|by apply (H t []) ].
    destruct (player_bound t && throttle_playback s); [|by apply (H t [])].
    destruct (start t) as [t0|].
    + apply (H t [AsyncSleep _]). apply results_effects_only.
    + by apply (H _ []).
  - pose proof (get_track_stop_other k k' (set_track k' t s) Hne) as H1.
    destruct (stop k' (set_track k' t s)) as [[s' effs] ok]. cbn [fst snd] in *.
    rewrite H1, get_track_set_track, decide_False by done.
    split; [done|]. rewrite results_effects. by apply results_foreign.
Qed.

(** What is done to one track of the player leaves the other track as it is
    and yields nothing on it. *)
Lemma step_other_kind k s e :
  kind_of e ≠ Some k →
  get_track k (step s e).1 = get_track k s ∧ results k (step s e).2 = [].
Proof.
  destruct e as [k' now|k' now|k'|k' n|k' item|tid]; cbn [kind_of step]; intros Hne.
  - assert (k ≠ k') as Hk by congruence.
    unfold recv. destruct (get_track k' s) as [t|]; [|done].
    destruct (ended t); [cbn [fst snd]; by rewrite results_foreign|].
    destruct (waiting t); [done|].
    destruct (player_bound t); cbn [negb];
      [|cbn [fst snd]; by rewrite results_foreign].
    pose proof (get_track_start k k' s) as H1.
    destruct (_start k' s) as [[s1 effs] ok]. cbn [fst snd] in *.
    destruct ok.
    2:{ cbn [fst snd]. by rewrite results_effects, results_foreign. }
    destruct (queue t) as [|item q].
    + cbn [fst snd]. rewrite get_track_set_track, decide_False by done.
      by rewrite results_effects_only.
    + match goal with
      | |- context [deliver k' now ?t' item s1] =>
          destruct (deliver_other k k' now t' item s1 Hk) as [H2 H3];
          destruct (deliver k' now t' item s1) as [s2 out]
      end.
      cbn [fst snd] in *. rewrite results_effects. split; congruence.
  - assert (k ≠ k') as Hk by congruence.
    unfold wake. destruct (get_track k' s) as [t|]; [|done].
    destruct (waiting t); [|done]. destruct (queue t) as [|item q]; [done|].
    by apply deliver_other.
  - assert (k ≠ k') as Hk by congruence.
    pose proof (get_track_stop_other k k' s Hk) as H1.
    destruct (stop k' s) as [[s' effs] ok]. cbn [fst snd] in *.
    by rewrite results_effects_only.
  - assert (k ≠ k') as Hk by congruence.
    unfold set_max_frame_to_decode. cbn [fst snd].
    destruct (get_track k' s); [|done].
    by rewrite get_track_set_track, decide_False.
  - assert (k ≠ k') as Hk by congruence.
    unfold worker_put. cbn [fst snd].
    destruct (get_track k' s); [|done].
    by rewrite get_track_set_track, decide_False.
  - cbn [fst snd]. split; [by destruct k|done].
Qed.

Lemma stop_waiting k t s :
  get_track k s = Some t →
  ∃ t', get_track k (stop k s).1.1 = Some t' ∧ waiting t' = waiting t.
Proof.
  intros Hk. unfold stop. rewrite Hk.
  destruct (player_bound t).
  - pose proof (get_track_stop_player k k (set_track k (set_ended t) s)) as H2.
    destruct (_stop k (set_track k (set_ended t) s)) as [[s2 effs] ok]. cbn [fst snd] in *.
    destruct ok; cbn [fst].
    + eexists. rewrite get_track_set_track, decide_True by done. done.
    + eexists. rewrite H2, get_track_set_track, decide_True by done. done.
  - cbn [fst]. eexists. rewrite get_track_set_track, decide_True by done. done.
Qed.

(** The container is closed and no [recv()] is suspended on the track. *)
Definition shut (k : kind) (s : state) : Prop :=
  container_open s = false ∧ ∃ t, get_track k s = Some t ∧ waiting t = false.

Lemma shut_step k s e :
  inv s → shut k s →
  shut k (step s e).1
  ∧ ∀ r, r ∈ results k (step s e).2 → r = AttributeError ∨ r = MediaStreamError.
Proof.
  intros Hs [Hc (t & Hk & Hw)].
  destruct (counted_step s e) as (_ & _ & Hclosed).
  destruct (Hclosed Hc) as [Hc' _].
  assert (Hnone : ∀ s', container_open s' = false →
            (∃ t', get_track k s' = Some t' ∧ waiting t' = false) →
            shut k (s', [] : list obs).1
            ∧ ∀ r, r ∈ results k (s', [] : list obs).2 →
                   r = AttributeError ∨ r = MediaStreamError).
  { intros s' Hcs Ht'. split; [by split|]. intros r Hr. by apply elem_of_nil in Hr. }
  destruct (decide (kind_of e = Some k)) as [Hkind|Hkind].
  2:{ destruct (step_other_kind k s e Hkind) as [Hg Hr]. split.
      - split; [done|]. exists t. by rewrite Hg.
      - intros r Hin. rewrite Hr in Hin. by apply elem_of_nil in Hin. }
  destruct e as [k' now|k' now|k'|k' n|k' item|tid]; cbn [kind_of] in Hkind;
    try discriminate; injection Hkind as ->; cbn [step] in *.
  - unfold recv in *. rewrite Hk in *. destruct (ended t) eqn:He.
    { split; [split; [done|by exists t]|].
      intros r Hr. cbn [snd] in Hr. rewrite results_own in Hr.
      apply list_elem_of_singleton in Hr. auto. }
    rewrite Hw in *. rewrite (inv_bound _ Hs _ _ Hk He) in *. cbn [negb] in *.
    destruct (start_facts k s Hs) as (_ & _ & _ & Hfail). rewrite (Hfail Hc) in *.
    cbn [fst snd map app] in *. split.
    + split; [done|]. exists t. split; [|done]. by destruct k.
    + intros r Hr. rewrite results_own in Hr. apply list_elem_of_singleton in Hr. auto.
  - unfold wake in *. rewrite Hk, Hw in *. apply Hnone; [done|by exists t].
  - destruct (stop_waiting k t s Hk) as (t' & Hk' & Hw').
    destruct (stop k s) as [[s' effs] ok]. cbn [fst snd] in *. split.
    + split; [done|]. exists t'. split; [done|congruence].
    + intros r Hr. rewrite results_effects_only in Hr. by apply elem_of_nil in Hr.
  - unfold set_max_frame_to_decode in *. rewrite Hk in *. apply Hnone; [done|].
    eexists. rewrite get_track_set_track, decide_True by done. done.
  - unfold worker_put in *. rewrite Hk in *. apply Hnone; [done|].
    eexists. rewrite get_track_set_track, decide_True by done. done.
Qed.

Lemma shut_run k es : ∀ s,
  inv s → shut k s →
  ∀ r, r ∈ results k (run s es).2 → r = AttributeError ∨ r = MediaStreamError.
Proof.
  induction es as [|e es IH]; intros s Hs Hsh r Hr.
  { by apply elem_of_nil in Hr. }
  destruct (shut_step k s e Hs Hsh) as [Hsh1 Hr1].
  pose proof (player_inv_step s e Hs) as Hs1.
  simpl in Hr. destruct (step s e) as [s1 out1]. specialize (IH s1 Hs1 Hsh1).
  destruct (run s1 es) as [s2 out2]. cbn [fst snd] in *.
  unfold results in Hr. rewrite omap_app in Hr. apply elem_of_app in Hr as [Hr|Hr].
  - by apply Hr1.
  - by apply IH.
Qed.

(** [recv()] on a track that is still live when the player has closed its
    container (its other track was started and stopped first) fails with
    [AttributeError]: [_start] adds the track to [__started] and then
    formats a log line with the name of a container that is [None].  No
    thread is started, and the track never yields a frame: every [recv()]
    on it fails with [AttributeError] until it is stopped and with
    [MediaStreamError] afterwards, whatever the worker had queued. *)
Theorem player_recv_after_close_fails
    (a v th : bool) (es : list event) (k : kind) (t : track) (now : Q) :
  let s := (run (init a v th) es).1 in
  container_open s = false → get_track k s = Some t → ended t = false →
  step s (Recv k now)
  = (set_started ({[k]} ∪ started s) s, [Result k AttributeError])
  ∧ ∀ es' r, r ∈ results k (run s es').2 → r = AttributeError ∨ r = MediaStreamError.
Proof.
  intros s Hc Hk He.
  assert (Hs : inv s) by apply player_inv_run, player_inv_init.
  assert (Ha : attended s).
  { apply attended_run; [apply player_inv_init|apply attended_init]. }
  pose proof (proj2 Ha Hc k t Hk He) as Hw.
  split.
  - cbn [step]. unfold recv. rewrite Hk, He, Hw, (inv_bound _ Hs _ _ Hk He).
    cbn [negb]. destruct (start_facts k s Hs) as (_ & _ & _ & Hfail).
    by rewrite (Hfail Hc).
  - intros es'. apply shut_run; [done|]. split; [done|]. by exists t.
Qed.

(** The audio track is started and stopped while the video track, which has
    a frame in its queue, has not been read yet. *)
Example player_recv_after_close_fails_witness :
  let f := FVideo (mkVideo 0 (Some 0%Z) (1 # 30) 0) in
  let s := (run (init true true true)
              [Recv Audio 0%Q; WorkerPut Video (Some f); Stop Audio]).1 in
  step s (Recv Video 1%Q)
  = (set_started ({[Video]} ∪ started s) s, [Result Video AttributeError])
  ∧ ∀ es' r, r ∈ results Video (run s es').2 → r = AttributeError ∨ r = MediaStreamError.
Proof.
  pose (f := FVideo (mkVideo 0 (Some 0%Z) (1 # 30) 0)).
  pose (es := [Recv Audio 0%Q; WorkerPut Video (Some f); Stop Audio]).
  assert (Hc : container_open (run (init true true true) es).1 = false)
    by (vm_compute; reflexivity).
  assert (Hk : get_track Video (run (init true true true) es).1
               = Some (mkTrack false true [Some f] false None (-1)))
    by (vm_compute; reflexivity).
  exact (player_recv_after_close_fails true true true es Video _ 1%Q Hc Hk eq_refl).
Defined.

End PlayerMore.

(** * More on the decode worker: what it puts, when it sleeps *)

Module WorkerMore.
Import Media Worker WorkerFacts.

#[local] Arguments drain : simpl never.

(** An action that is not an end sentinel and that, if it hands a frame to a
    track, hands an audio frame to the audio track or a timestamped video
    frame to the video track, the track being there. *)
Definition plain (audio_track video_track : bool) (a : action) : Prop :=
  match a with
  | Put Audio (Some (FAudio _)) => audio_track = true
  | Put Video (Some (FVideo v)) => video_track = true ∧ is_Some (v_pts v)
  | Put _ _ => False
  | _ => True
  end.

(** What the cap on decoded video frames makes the worker do. *)
Definition gate_action (a : action) : Prop :=
  a = Sleep 1 ∨ a = LogContinuing ∨ ∃ i c, a = LogAwaiting i c.

(** A pass that decodes a video frame whose index is beyond a positive cap. *)
Definition gated (it : iteration) : Prop :=
  ∃ v, decoded it = Decoded (FVideo v)
       ∧ 0 < max_frame_to_decode it ∧ max_frame_to_decode it < v_index v.

(** The 100 ms sleep of the read-ahead throttle. *)
Definition is_nap (a : action) : bool :=
  match a with
  | Sleep q => (Qnum q =? 1) && (Z.pos (Qden q) =? 10)
  | _ => false
  end.

Definition naps (acts : list action) : nat := length (filter (λ a, is_nap a = true) acts).

Definition is_decoded (it : iteration) : bool :=
  match decoded it with Decoded _ => true | _ => false end.

Lemma naps_none acts : (∀ a, a ∈ acts → is_nap a = false) → naps acts = 0%nat.
Proof.
  unfold naps. induction acts as [|a acts IH]; intros Hacts; [done|].
  rewrite filter_cons_False.
  - apply IH. intros b Hb. apply Hacts. by right.
  - rewrite Hacts; [done|by left].
Qed.

Lemma naps_app a b : naps (a ++ b) = (naps a + naps b)%nat.
Proof. unfold naps. by rewrite filter_app, length_app. Qed.

Section more.

Context {resampler : Type}.
Variable resample : resampler → AudioFrame → resampler * option (list Z).

Lemma drain_plain vt fuel : ∀ ff ft, Forall (plain true vt) (drain fuel ff ft).1.1.
Proof.
  induction fuel as [|n IH]; intros ff ft; [constructor|].
  change (drain (S n) ff ft) with
    (match fifo_read ff audio_samples_per_frame with
     | Some (fr, ff') =>
         let '(acts, ff'', ft') := drain n ff' (a_time fr) in
         (Put Audio (Some (FAudio fr)) :: acts, ff'', ft')
     | None => ([], ff, ft)
     end).
  destruct (fifo_read ff audio_samples_per_frame) as [[fr ff']|]; [|constructor].
  specialize (IH ff' (a_time fr)).
  destruct (drain n ff' (a_time fr)) as [[acts ff''] ft'']. simpl in *.
  by constructor.
Qed.

Lemma drain_no_gate fuel : ∀ ff ft a,
  a ∈ (drain fuel ff ft).1.1 → ¬ gate_action a ∧ is_nap a = false.
Proof.
  induction fuel as [|n IH]; intros ff ft a; [by intros ?%elem_of_nil|].
  change (drain (S n) ff ft) with
    (match fifo_read ff audio_samples_per_frame with
     | Some (fr, ff') =>
         let '(acts, ff'', ft') := drain n ff' (a_time fr) in
         (Put Audio (Some (FAudio fr)) :: acts, ff'', ft')
     | None => ([], ff, ft)
     end).
  destruct (fifo_read ff audio_samples_per_frame) as [[fr ff']|];
    [|by intros ?%elem_of_nil].
  specialize (IH ff' (a_time fr) a).
  destruct (drain n ff' (a_time fr)) as [[acts ff''] ft'']. simpl in *.
  intros [-> | Hin]%elem_of_cons; [|by apply IH].
  split; [|done]. by intros [? | [? | (i & c & ?)]].
Qed.

Lemma throttle_plain at_ vt th (st : wstate resampler) it :
  Forall (plain at_ vt) (throttle th st it).
Proof.
  unfold throttle. destruct th; [|constructor].
  destruct (frame_time st); [|constructor].
  case_match; repeat constructor.
Qed.

Lemma throttle_no_gate th (st : wstate resampler) it a :
  a ∈ throttle th st it → ¬ gate_action a.
Proof.
  unfold throttle. destruct th; [|by intros ?%elem_of_nil].
  destruct (frame_time st); [|by intros ?%elem_of_nil].
  case_match; [|by intros ?%elem_of_nil].
  intros ->%list_elem_of_singleton. by intros [? | [? | (i & c & ?)]].
Qed.

Lemma throttle_naps th (st : wstate resampler) it :
  (naps (throttle th st it) ≤ 1)%nat ∧ (th = false → throttle th st it = []).
Proof.
  unfold throttle. destruct th; [|split; [unfold naps; simpl; lia|done]].
  split; [|done]. destruct (frame_time st); [|unfold naps; simpl; lia].
  case_match; unfold naps; simpl; lia.
Qed.

(** The shape of what the worker does: plain actions, then the end
    sentinels exactly when it ends on the end of the stream. *)
Definition shaped (at_ vt : bool) (r : list action * outcome) : Prop :=
  ∃ pre, Forall (plain at_ vt) pre
         ∧ ((r.1 = pre ∧ r.2 ≠ EndOfStream)
            ∨ (r.1 = pre ++ sentinels at_ vt ∧ r.2 = EndOfStream)).

Lemma shaped_with at_ vt acts r :
  Forall (plain at_ vt) acts → shaped at_ vt r → shaped at_ vt (with_actions acts r).
Proof.
  intros Hacts (pre & Hpre & H). exists (acts ++ pre).
  split; [by apply Forall_app|]. unfold with_actions. simpl.
  destruct H as [[-> Ho] | [-> Ho]]; [by left|right]. by rewrite app_assoc.
Qed.

Lemma shaped_stop at_ vt acts o :
  Forall (plain at_ vt) acts → o ≠ EndOfStream → shaped at_ vt (acts, o).
Proof. intros Hacts Ho. exists acts. split; [done|]. by left. Qed.

Lemma shaped_end at_ vt : shaped at_ vt (sentinels at_ vt, EndOfStream).
Proof. exists []. split; [constructor|]. by right. Qed.

Lemma worker_shaped at_ vt th its : ∀ st,
  shaped at_ vt (player_worker resample at_ vt th st its).
Proof.
  induction its as [|it rest IH]; intros st.
  { apply shaped_stop; [constructor|done]. }
  simpl. destruct (quit_is_set it); [apply shaped_stop; [constructor|done]|].
  destruct (decoded it) as [[a|v]|e|].
  - apply shaped_with; [apply throttle_plain|].
    destruct at_; [|apply IH].
    destruct (if needs_resampling a then _ else _) as [r [a1|]];
      [|apply shaped_stop; [constructor|done]].
    destruct (fifo_write _ _) as [ff|]; [|apply shaped_stop; [constructor|done]].
    pose proof (drain_plain vt (S (length (fifo_buf ff))) ff (frame_time st)) as Hd.
    destruct (drain _ ff (frame_time st)) as [[acts ff'] ft]. simpl in Hd.
    apply shaped_with; [done|apply IH].
  - apply shaped_with; [apply throttle_plain|].
    destruct vt; [|apply IH].
    destruct (_ && quit_after_sleep it);
      [apply shaped_stop; [repeat constructor|done]|].
    apply shaped_with; [case_match; repeat constructor|].
    destruct (v_pts v) as [pts|].
    + apply shaped_with; [|apply IH]. repeat constructor. simpl. by eexists.
    + apply shaped_with; [repeat constructor|apply IH].
  - destruct (e =? EAGAIN); [|apply shaped_end].
    apply shaped_with; [repeat constructor|apply IH].
  - apply shaped_end.
Qed.

Lemma plain_no_sentinel at_ vt pre k :
  Forall (plain at_ vt) pre → Put k None ∉ pre.
Proof.
  intros Hpre Hin. rewrite Forall_forall in Hpre. specialize (Hpre _ Hin).
  by destruct k.
Qed.

Lemma sentinel_track at_ vt k item :
  Put k item ∈ sentinels at_ vt →
  item = None ∧ (if k is Audio then at_ else vt) = true.
Proof.
  unfold sentinels. destruct at_, vt; simpl; intros Hin;
    repeat (apply elem_of_cons in Hin as [[= -> ->] | Hin]; [done|]);
    by apply elem_of_nil in Hin.
Qed.

(** Whatever the decoder produces, the worker hands audio frames to the
    audio track only and timestamped video frames to the video track only,
    and never to a track the player does not have; it puts an end sentinel
    on a track only when it ends on the end of the stream or a decode error,
    and then the sentinels are the last thing it does.  A worker that is
    told to quit, or that fails, leaves no sentinel. *)
Theorem worker_puts_are_routed
    (audio_track video_track throttle_playback : bool)
    (st : wstate resampler) (its : list iteration) :
  let r := player_worker resample audio_track video_track throttle_playback st its in
  (∀ k item, Put k item ∈ r.1 →
     (if k is Audio then audio_track else video_track) = true
     ∧ match item with
       | Some (FAudio _) => k = Audio
       | Some (FVideo v) => k = Video ∧ is_Some (v_pts v)
       | None => r.2 = EndOfStream
       end)
  ∧ (r.2 = EndOfStream →
     ∃ pre, r.1 = pre ++ sentinels audio_track video_track
            ∧ ∀ k, Put k None ∉ pre)
  ∧ (r.2 ≠ EndOfStream → ∀ k, Put k None ∉ r.1).
Proof.
  intros r. destruct (worker_shaped audio_track video_track throttle_playback its st)
    as (pre & Hpre & H). fold r in H.
  assert (Hplain : ∀ k item, Put k item ∈ pre →
            (if k is Audio then audio_track else video_track) = true
            ∧ match item with
              | Some (FAudio _) => k = Audio
              | Some (FVideo v) => k = Video ∧ is_Some (v_pts v)
              | None => r.2 = EndOfStream
              end).
  { intros k item Hin. rewrite Forall_forall in Hpre. specialize (Hpre _ Hin).
    destruct k, item as [[a|v]|]; simpl in Hpre; try done. destruct Hpre. done. }
  split_and!.
  - intros k item Hin. destruct H as [[E Ho] | [E Ho]]; rewrite E in Hin.
    + by apply Hplain.
    + apply elem_of_app in Hin as [Hin|Hin]; [by apply Hplain|].
      destruct (sentinel_track _ _ _ _ Hin) as [-> Hk]. done.
  - intros Ho. destruct H as [[E Hne] | [E _]]; [done|].
    exists pre. split; [done|]. intros k. by apply (plain_no_sentinel _ _ _ _ Hpre).
  - intros Hne k. destruct H as [[E _] | [_ Ho]]; [|done].
    rewrite E. by apply (plain_no_sentinel _ _ _ _ Hpre).
Qed.

Lemma gate_with acts (r : list action * outcome) (P : Prop) :
  (∀ a, a ∈ acts → gate_action a → P) →
  ((∀ a, a ∈ r.1 → gate_action a → P) ∧ (r.2 = QuitWhileAwaiting → P)) →
  (∀ a, a ∈ (with_actions acts r).1 → gate_action a → P)
  ∧ ((with_actions acts r).2 = QuitWhileAwaiting → P).
Proof.
  intros Hacts [Hr Ho]. unfold with_actions. simpl. split; [|done].
  intros a [Hin|Hin]%elem_of_app; eauto.
Qed.

Lemma worker_gate at_ vt th its : ∀ st,
  let r := player_worker resample at_ vt th st its in
  (∀ a, a ∈ r.1 → gate_action a → vt = true ∧ Exists gated its)
  ∧ (r.2 = QuitWhileAwaiting → vt = true ∧ Exists gated its).
Proof.
  induction its as [|it rest IH]; intros st.
  { simpl. split; [by intros a ?%elem_of_nil|done]. }
  assert (Hrest : ∀ st',
    let r := player_worker resample at_ vt th st' rest in
    (∀ a, a ∈ r.1 → gate_action a → vt = true ∧ Exists gated (it :: rest))
    ∧ (r.2 = QuitWhileAwaiting → vt = true ∧ Exists gated (it :: rest))).
  { intros st'. destruct (IH st') as [H1 H2]. split.
    - intros a Hin Hg. destruct (H1 a Hin Hg). split; [done|by apply Exists_cons_tl].
    - intros Ho. destruct (H2 Ho). split; [done|by apply Exists_cons_tl]. }
  assert (Hnone : ∀ acts o, (∀ a, a ∈ acts → ¬ gate_action a) → o ≠ QuitWhileAwaiting →
    (∀ a, a ∈ ((acts, o) : list action * outcome).1 → gate_action a →
       vt = true ∧ Exists gated (it :: rest))
    ∧ (((acts, o) : list action * outcome).2 = QuitWhileAwaiting →
       vt = true ∧ Exists gated (it :: rest))).
  { intros acts o Hacts Ho. simpl. split; [|done]. intros a Hin Hg.
    by destruct (Hacts a Hin). }
  assert (Hsent : ∀ a, a ∈ sentinels at_ vt → ¬ gate_action a).
  { intros a Hin [-> | [-> | (i & c & ->)]]; unfold sentinels in Hin;
      destruct at_, vt; simpl in Hin;
      repeat (apply elem_of_cons in Hin as [[=] | Hin]); by apply elem_of_nil in Hin. }
  simpl. destruct (quit_is_set it); [apply Hnone; [by intros a ?%elem_of_nil|done]|].
  destruct (decoded it) as [[a|v]|e|] eqn:Hd.
  - apply gate_with; [intros a0 Hin Hg; by destruct (throttle_no_gate _ _ _ _ Hin)|].
    destruct at_; [|apply Hrest].
    destruct (if needs_resampling a then _ else _) as [r [a1|]];
      [|apply Hnone; [by intros a0 ?%elem_of_nil|done]].
    destruct (fifo_write _ _) as [ff|]; [|apply Hnone; [by intros a0 ?%elem_of_nil|done]].
    pose proof (drain_no_gate (S (length (fifo_buf ff))) ff (frame_time st)) as Hdr.
    destruct (drain _ ff (frame_time st)) as [[acts ff'] ft]. simpl in Hdr.
    apply gate_with; [|apply Hrest].
    intros a0 Hin Hg. by destruct (Hdr a0 Hin).
  - apply gate_with; [intros a0 Hin Hg; by destruct (throttle_no_gate _ _ _ _ Hin)|].
    destruct vt; [|apply Hrest].
    destruct ((0 <? max_frame_to_decode it) && (max_frame_to_decode it <? v_index v))
      eqn:Haw.
    + assert (Hg : true = true ∧ Exists gated (it :: rest)).
      { split; [done|]. apply Exists_cons_hd. exists v.
        apply andb_true_iff in Haw as [H1 H2]. split; [done|]. lia. }
      destruct (quit_after_sleep it); cbn [andb]; [done|].
      apply gate_with; [done|].
      destruct (v_pts v); (apply gate_with; [done|apply Hrest]).
    + cbn [andb]. apply gate_with; [by intros a0 ?%elem_of_nil|].
      destruct (v_pts v) as [pts|]; (apply gate_with; [|apply Hrest]).
      * intros a0 ->%list_elem_of_singleton. by intros [? | [? | (i & c & ?)]].
      * intros a0 ->%list_elem_of_singleton. by intros [? | [? | (i & c & ?)]].
  - destruct (e =? EAGAIN); [|by apply Hnone].
    apply gate_with; [|apply Hrest].
    intros a0 ->%list_elem_of_singleton. by intros [? | [? | (i & c & ?)]].
  - by apply Hnone.
Qed.

(** The cap on decoded video frames makes the worker log, sleep a second or
    return early only for a video frame whose index is beyond a positive
    cap, and only if the player has a video track.  With a cap of zero or
    less (no limit) the worker never pauses for it. *)
Theorem worker_pauses_only_beyond_positive_cap
    (audio_track video_track throttle_playback : bool)
    (st : wstate resampler) (its : list iteration) :
  let r := player_worker resample audio_track video_track throttle_playback st its in
  (∀ a, a ∈ r.1 → gate_action a → video_track = true ∧ Exists gated its)
  ∧ (r.2 = QuitWhileAwaiting → video_track = true ∧ Exists gated its)
  ∧ (Forall (λ it, max_frame_to_decode it ≤ 0) its →
     (Sleep 1 ∉ r.1) ∧ r.2 ≠ QuitWhileAwaiting).
Proof.
  intros r.
  destruct (worker_gate audio_track video_track throttle_playback its st) as [H1 H2].
  fold r in H1, H2. split; [done|]. split; [done|].
  intros Hcap.
  assert (Hno : ¬ Exists gated its).
  { intros Hex. apply Exists_exists in Hex as (it & Hin & v & _ & Hpos & _).
    rewrite Forall_forall in Hcap. specialize (Hcap it Hin). lia. }
  split.
  - intros Hin. destruct (H1 _ Hin) as [_ Hex]; [by left|done].
  - intros Ho. by destruct (H2 Ho).
Qed.

Lemma worker_naps at_ vt th its : ∀ st,
  (naps (player_worker resample at_ vt th st its).1
   ≤ length (filter (λ it, is_decoded it = true) its))%nat
  ∧ (th = false → naps (player_worker resample at_ vt th st its).1 = 0%nat).
Proof.
  induction its as [|it rest IH]; intros st.
  { simpl. split; [unfold naps; simpl; lia|done]. }
  assert (Hrest : ∀ st' acts (n : nat),
    naps acts = 0%nat →
    (naps (with_actions acts (player_worker resample at_ vt th st' rest)).1
     ≤ length (filter (λ it, is_decoded it = true) rest))%nat
    ∧ (th = false →
       naps (with_actions acts (player_worker resample at_ vt th st' rest)).1 = 0%nat)).
  { intros st' acts _ Hacts. destruct (IH st') as [H1 H2].
    unfold with_actions. simpl. rewrite naps_app, Hacts. split; [done|]. auto. }
  simpl.
  destruct (quit_is_set it); [split; [unfold naps; simpl; lia|done]|].
  destruct (decoded it) as [f|e|] eqn:Hd.
  - rewrite filter_cons_True by (unfold is_decoded; by rewrite Hd). cbn [length].
    destruct (throttle_naps th st it) as [Hone Hoff].
    set (tail := match f with FAudio _ => _ | FVideo _ => _ end).
    assert (Htail : (naps tail.1 ≤ length (filter (λ it, is_decoded it = true) rest))%nat
                    ∧ (th = false → naps tail.1 = 0%nat)).
    { subst tail. destruct f as [a|v].
      - destruct at_; [|apply IH].
        destruct (if needs_resampling a then _ else _) as [r [a1|]];
          [|split; [unfold naps; simpl; lia|done]].
        destruct (fifo_write _ _) as [ff|]; [|split; [unfold naps; simpl; lia|done]].
        pose proof (drain_no_gate (S (length (fifo_buf ff))) ff (frame_time st)) as Hdr.
        destruct (drain _ ff (frame_time st)) as [[acts ff'] ft]. simpl in Hdr.
        apply (Hrest _ _ 0%nat). apply naps_none.
        intros a0 Hin. by destruct (Hdr a0 Hin).
      - destruct vt; [|apply IH].
        destruct (_ && quit_after_sleep it); [split; [unfold naps; simpl; lia|done]|].
        match goal with
        | |- context [with_actions ?g (match v_pts v with _ => _ end)] =>
            assert (Hg : naps g = 0%nat) by (by case_match)
        end.
        destruct (v_pts v) as [pts|].
        + match goal with
          | |- context [with_actions ?g (with_actions ?p (player_worker _ _ _ _ ?st' rest))] =>
              destruct (Hrest st' p 0%nat eq_refl) as [H1 H2]
          end.
          unfold with_actions in *. simpl in *. rewrite naps_app, Hg. split; [done|auto].
        + destruct (Hrest st [LogSkippingNoPts] 0%nat eq_refl) as [H1 H2].
          unfold with_actions in *. simpl in *. rewrite naps_app, Hg. split; [done|auto]. }
    destruct Htail as [H1 H2]. unfold with_actions. simpl. rewrite naps_app.
    split; [lia|]. intros Hth. by rewrite (Hoff Hth), (H2 Hth).
  - rewrite filter_cons_False by (unfold is_decoded; by rewrite Hd).
    destruct (e =? EAGAIN).
    + by apply (Hrest st [Sleep (1 # 100)] 0%nat).
    + split; [|intros _]; unfold naps, sentinels; destruct at_, vt; simpl; lia.
  - rewrite filter_cons_False by (unfold is_decoded; by rewrite Hd).
    split; [|intros _]; unfold naps, sentinels; destruct at_, vt; simpl; lia.
Qed.

(** The read-ahead throttle never holds the worker for more than 100 ms per
    decoded frame, however far ahead of the clock the decoder is, and a
    worker of an unthrottled (real-time) player never sleeps for it. *)
Theorem worker_throttle_naps_once_per_frame
    (audio_track video_track throttle_playback : bool)
    (st : wstate resampler) (its : list iteration) :
  let r := player_worker resample audio_track video_track throttle_playback st its in
  (naps r.1 ≤ length (filter (λ it, is_decoded it = true) its))%nat
  ∧ (throttle_playback = false → naps r.1 = 0%nat).
Proof.
  intros r. exact (worker_naps audio_track video_track throttle_playback its st).
Qed.

(** The samples the worker writes to the FIFO for the decoded audio frames
    of [its], one frame after the other: the samples of a frame that is in
    the target format already, what the resampler makes of any other. *)
Fixpoint audio_stream (r : resampler) (its : list iteration) : list Z :=
  match its with
  | [] => []
  | it :: rest =>
      match decoded it with
      | Decoded (FAudio a) =>
          if needs_resampling a then
            let '(r', out) :=
              resample r (mkAudio (a_format a) (a_layout a) (a_sample_rate a)
                                  (a_data a) None (a_time_base a)) in
            default [] out ++ audio_stream r' rest
          else a_data a ++ audio_stream r rest
      | _ => audio_stream r rest
      end
  end.

Lemma fifo_write_buf ff a ff' :
  fifo_write ff a = Some ff' → fifo_buf ff' = fifo_buf ff ++ a_data a.
Proof.
  unfold fifo_write, a_samples.
  destruct (Z.eqb_spec (Z.of_nat (length (a_data a))) 0) as [Hz|Hnz].
  { intros [= <-]. destruct (a_data a); [by rewrite app_nil_r|simpl in Hz; lia]. }
  destruct (fifo_template ff) as [t|].
  - destruct (same_attrs t a); [|done].
    destruct (pts_matches ff a); [|done]. by intros [= <-].
  - destruct (pts_matches _ a); [|done]. by intros [= <-].
Qed.

Lemma fifo_read_data ff k fr ff' :
  fifo_ok ff k → fifo_read ff audio_samples_per_frame = Some (fr, ff') →
  a_data fr ++ fifo_buf ff' = fifo_buf ff.
Proof.
  intros _. unfold fifo_read.
  destruct (fifo_template ff) as [[[[fmt lay] rate] tb]|]; [|done].
  destruct (_ <? 1); [done|]. change (audio_samples_per_frame =? 0) with false.
  cbv iota. destruct (_ <? audio_samples_per_frame); [done|].
  intros [= <- <-]. simpl. apply take_drop.
Qed.

Lemma fifo_read_none ff k :
  fifo_ok ff k → fifo_read ff audio_samples_per_frame = None →
  (length (fifo_buf ff) < 960)%nat.
Proof.
  intros (Ht & _ & _). unfold fifo_read.
  destruct (fifo_template ff) as [[[[fmt lay] rate] tb]|].
  - destruct (Z.ltb_spec (Z.of_nat (length (fifo_buf ff))) 1) as [Hlt|Hge]; [lia|].
    change (audio_samples_per_frame =? 0) with false. cbv iota.
    change audio_samples_per_frame with 960.
    destruct (Z.ltb_spec (Z.of_nat (length (fifo_buf ff))) 960) as [Hlt|Hge']; [lia|done].
  - rewrite Ht. simpl. lia.
Qed.

Lemma drain_data fuel : ∀ ff ft k,
  fifo_ok ff k →
  concat (map a_data (audio_puts (drain fuel ff ft).1.1)) ++ fifo_buf (drain fuel ff ft).1.2
  = fifo_buf ff.
Proof.
  induction fuel as [|n IH]; intros ff ft k Hok; [done|].
  change (drain (S n) ff ft) with
    (match fifo_read ff audio_samples_per_frame with
     | Some (fr, ff') =>
         let '(acts, ff'', ft') := drain n ff' (a_time fr) in
         (Put Audio (Some (FAudio fr)) :: acts, ff'', ft')
     | None => ([], ff, ft)
     end).
  destruct (fifo_read ff audio_samples_per_frame) as [[fr ff']|] eqn:Hrd; [|done].
  destruct (fifo_read_ok _ _ _ _ Hok Hrd) as (_ & Hok' & _ & _).
  pose proof (fifo_read_data _ _ _ _ Hok Hrd) as Hdata.
  specialize (IH ff' (a_time fr) (k + 1) Hok').
  destruct (drain n ff' (a_time fr)) as [[acts ff''] ft'']. simpl in *.
  by rewrite <- app_assoc, IH.
Qed.

Lemma run_then_fails at_ vt th x its : ∀ st,
  fails x →
  (player_worker resample at_ vt th st its).2 = Looping →
  player_worker resample at_ vt th st (its ++ [x])
  = ((player_worker resample at_ vt th st its).1 ++ sentinels at_ vt, EndOfStream).
Proof.
  intros st Hx. revert st.
  induction its as [|it rest IH]; intros st.
  { intros _. simpl app. by rewrite (run_fails resample at_ vt th st x [] Hx). }
  assert (Hrec : ∀ st' acts,
    (with_actions acts (player_worker resample at_ vt th st' rest)).2 = Looping →
    with_actions acts (player_worker resample at_ vt th st' (rest ++ [x]))
    = ((with_actions acts (player_worker resample at_ vt th st' rest)).1
       ++ sentinels at_ vt, EndOfStream)).
  { intros st' acts Ho. unfold with_actions in *. simpl in *.
    rewrite (IH st' Ho). simpl. by rewrite app_assoc. }
  assert (Hrec2 : ∀ st' acts acts',
    (with_actions acts (with_actions acts' (player_worker resample at_ vt th st' rest))).2
    = Looping →
    with_actions acts (with_actions acts' (player_worker resample at_ vt th st' (rest ++ [x])))
    = ((with_actions acts
          (with_actions acts' (player_worker resample at_ vt th st' rest))).1
       ++ sentinels at_ vt, EndOfStream)).
  { intros st' acts acts' Ho. unfold with_actions in *. simpl in *.
    rewrite (IH st' Ho). simpl. by rewrite !app_assoc. }
  rewrite <- app_comm_cons. simpl.
  destruct (quit_is_set it); [done|].
  destruct (decoded it) as [[a|v]|e|].
  - destruct at_; [|apply Hrec].
    destruct (if needs_resampling a then _ else _) as [r [a1|]]; [|done].
    destruct (fifo_write _ _) as [ff|]; [|done].
    destruct (drain _ ff (frame_time st)) as [[acts ff'] ft]. apply Hrec2.
  - destruct vt; [|apply Hrec].
    destruct (_ && quit_after_sleep it); [done|].
    destruct (v_pts v) as [pts|].
    + intros Ho. unfold with_actions in *. simpl in *.
      rewrite (IH _ Ho). simpl. by rewrite <- !app_assoc.
    + intros Ho. unfold with_actions in *. simpl in *.
      rewrite (IH _ Ho). simpl. by rewrite <- !app_assoc.
  - destruct (e =? EAGAIN); [apply Hrec|done].
  - done.
Qed.

Lemma audio_conserved vt th its : ∀ st k,
  winv st k → (length (fifo_buf (audio_fifo st)) < 960)%nat →
  (player_worker resample true vt th st its).2 = Looping →
  ∃ leftover,
    fifo_buf (audio_fifo st) ++ audio_stream (audio_resampler st) its
    = concat (map a_data (audio_puts (player_worker resample true vt th st its).1))
      ++ leftover
    ∧ (length leftover < 960)%nat.
Proof.
  induction its as [|it rest IH]; intros st k Hinv Hlen.
  { intros _. exists (fifo_buf (audio_fifo st)). simpl. by rewrite app_nil_r. }
  assert (Hskip : ∀ st' pre,
    audio_puts pre = [] → winv st' k →
    audio_fifo st' = audio_fifo st → audio_resampler st' = audio_resampler st →
    (with_actions pre (player_worker resample true vt th st' rest)).2 = Looping →
    ∃ leftover,
      fifo_buf (audio_fifo st) ++ audio_stream (audio_resampler st) rest
      = concat (map a_data
                  (audio_puts (with_actions pre
                                 (player_worker resample true vt th st' rest)).1))
        ++ leftover
      ∧ (length leftover < 960)%nat).
  { intros st' pre Hpre Hinv' Hf Hr Ho. unfold with_actions in *. simpl in *.
    rewrite audio_puts_app, Hpre. simpl. rewrite <- Hf, <- Hr.
    apply (IH st' k); [done|by rewrite Hf|done]. }
  simpl. destruct (quit_is_set it); [done|].
  destruct (decoded it) as [[a|v]|e|] eqn:Hd.
  - (* an audio frame *)
    destruct Hinv as [Hsamples Hok].
    assert (Hwrite : ∀ r d,
      let a2 := mkAudio audio_format_name audio_layout_name audio_sample_rate d
                        (Some (audio_samples st)) (1 # 48000) in
      let res :=
        with_actions (throttle th st it)
          match fifo_write (audio_fifo st) a2 with
          | Some ff =>
              let '(acts, ff', ft) := drain (S (length (fifo_buf ff))) ff (frame_time st) in
              with_actions acts
                (player_worker resample true vt th
                   (mkW ff' (audio_samples st + a_samples a2) r
                        (video_first_pts st) ft) rest)
          | None => ([], Raised)
          end in
      res.2 = Looping →
      ∃ leftover,
        fifo_buf (audio_fifo st) ++ d ++ audio_stream r rest
        = concat (map a_data (audio_puts res.1)) ++ leftover
        ∧ (length leftover < 960)%nat).
    { intros r d a2 res. subst res a2. rewrite Hsamples.
      destruct (fifo_write_ok (audio_fifo st) k d Hok) as (ff & Hwr & Hok' & Hw).
      rewrite Hwr. pose proof (fifo_write_buf _ _ _ Hwr) as Hbuf. simpl in Hbuf.
      destruct (drain_ok (S (length (fifo_buf ff))) ff (frame_time st) k Hok')
        as (_ & Hok'' & Hw').
      pose proof (drain_completes (S (length (fifo_buf ff))) ff (frame_time st) k Hok'
                    ltac:(lia)) as Hdone.
      pose proof (drain_data (S (length (fifo_buf ff))) ff (frame_time st) k Hok') as Hdd.
      destruct (drain _ ff (frame_time st)) as [[acts ff'] ft].
      cbn [fst snd] in Hok'', Hw', Hdone, Hdd.
      pose proof (fifo_read_none _ _ Hok'' Hdone) as Hshort.
      set (st' := mkW _ _ _ _ _).
      intros Ho. unfold with_actions in Ho. cbn [fst snd] in Ho.
      destruct (IH st' (k + Z.of_nat (length (audio_puts acts)))) as (leftover & E & Hl).
      { split; [|done]. unfold st', a_samples. simpl. lia. }
      { done. }
      { done. }
      exists leftover. split; [|done].
      unfold with_actions. cbn [fst snd].
      rewrite !audio_puts_app, audio_puts_throttle. cbn [app].
      rewrite map_app, concat_app, <- app_assoc, <- E.
      unfold st'. cbn [audio_fifo audio_resampler].
      rewrite !app_assoc. f_equal. by rewrite <- Hbuf, Hdd. }
    destruct (needs_resampling a) eqn:Hn.
    + destruct (resample _ _) as [r [d|]] eqn:Hres; cbn [option_map default].
      * apply (Hwrite r d).
      * done.
    + destruct (no_resampling_needed a Hn) as (Hf & Hl & Hr).
      cbn [a_format a_layout a_sample_rate a_data]. rewrite Hf, Hl, Hr.
      apply (Hwrite (audio_resampler st) (a_data a)).
  - (* a video frame *)
    destruct vt.
    2:{ apply (Hskip st (throttle th st it)); [apply audio_puts_throttle|done..]. }
    destruct (_ && quit_after_sleep it); [done|].
    match goal with
    | |- context [with_actions (throttle th st it) (with_actions ?g _)] =>
        assert (Hg : audio_puts g = []) by (by case_match); set (gate := g) in *
    end.
    destruct (v_pts v) as [pts|].
    + intros Ho. unfold with_actions in *. cbn [fst snd] in *.
      rewrite !audio_puts_app, audio_puts_throttle, Hg. cbn [app audio_puts omap].
      match goal with
      | |- context [player_worker resample true true th ?st' rest] =>
          destruct (IH st' k) as (leftover & E & Hl); [done|done|done|]
      end.
      by exists leftover.
    + intros Ho. unfold with_actions in *. cbn [fst snd] in *.
      rewrite !audio_puts_app, audio_puts_throttle, Hg. cbn [app audio_puts omap].
      destruct (IH st k) as (leftover & E & Hl); [done|done|done|].
      by exists leftover.
  - destruct (e =? EAGAIN); [|done].
    by apply (Hskip st [Sleep (1 # 100)]).
  - done.
Qed.

Lemma frames_length (puts : list AudioFrame) :
  (∀ i fr, puts !! i = Some fr → a_samples fr = 960) →
  length (concat (map a_data puts)) = (960 * length puts)%nat.
Proof.
  induction puts as [|fr puts IH]; intros H; [done|].
  simpl. rewrite length_app, IH by (intros i fr' Hi; apply (H (S i) fr' Hi)).
  specialize (H 0%nat fr eq_refl). unfold a_samples in H. lia.
Qed.

(** Between the decoder and the audio track no sample is lost, doubled or
    moved: the frames put on the track, laid end to end, are the samples
    fed to the FIFO, except for a tail of fewer than 960 samples that stays
    in the FIFO.  That tail is never delivered: when the stream ends the
    worker puts the end sentinels and nothing else. *)
Theorem worker_audio_samples_conserved
    (video_track throttle_playback : bool) (r0 : resampler) (its : list iteration) :
  let r := player_worker resample true video_track throttle_playback
             (wstate_init r0) its in
  r.2 = Looping →
  (∃ leftover,
     audio_stream r0 its = concat (map a_data (audio_puts r.1)) ++ leftover
     ∧ (length leftover < 960)%nat)
  ∧ length (audio_puts r.1) = (length (audio_stream r0 its) / 960)%nat
  ∧ ∀ x, fails x →
      let r' := player_worker resample true video_track throttle_playback
                  (wstate_init r0) (its ++ [x]) in
      audio_puts r'.1 = audio_puts r.1 ∧ r'.2 = EndOfStream.
Proof.
  intros r Ho.
  destruct (audio_conserved video_track throttle_playback its (wstate_init r0) 0
              (winv_init r0) ltac:(simpl; lia) Ho) as (leftover & E & Hl).
  simpl in E. fold r in E.
  destruct (audio_puts_progression resample true video_track throttle_playback its
              (wstate_init r0) 0 (winv_init r0)) as [Hprog _].
  fold r in Hprog.
  assert (Hlen : length (concat (map a_data (audio_puts r.1)))
                 = (960 * length (audio_puts r.1))%nat).
  { apply frames_length. intros i fr Hi. by destruct (Hprog i fr Hi). }
  split_and!.
  - by exists leftover.
  - rewrite E, length_app, Hlen.
    apply (Nat.div_unique _ 960 _ (length leftover)); lia.
  - intros x Hx r'. subst r'.
    rewrite (run_then_fails true video_track throttle_playback x its _ Hx Ho).
    fold r. cbn [fst snd]. split; [|done].
    by rewrite audio_puts_app, audio_puts_sentinels, app_nil_r.
Qed.

End more.

(** A frame of 1000 samples in the target format: 960 of them go to the
    track, 40 stay behind. *)
Example worker_audio_samples_conserved_witness :
  let its := [audio_iteration (mkAudio "s16" "stereo" 48000 (replicate 1000 7) None 0)] in
  let r := player_worker copy_resample true false true (wstate_init tt) its in
  (∃ leftover,
     audio_stream copy_resample tt its = concat (map a_data (audio_puts r.1)) ++ leftover
     ∧ (length leftover < 960)%nat)
  ∧ length (audio_puts r.1) = (length (audio_stream copy_resample tt its) / 960)%nat
  ∧ ∀ x, fails x →
      let r' := player_worker copy_resample true false true (wstate_init tt)
                  (its ++ [x]) in
      audio_puts r'.1 = audio_puts r.1 ∧ r'.2 = EndOfStream.
Proof.
  apply (worker_audio_samples_conserved copy_resample false true tt
           [audio_iteration (mkAudio "s16" "stereo" 48000 (replicate 1000 7) None 0)]).
  vm_compute. reflexivity.
Defined.

End WorkerMore.

(** * The recorder: what ends up in the file *)

Module RecorderMore.
Import Media Recorder.
Local Open Scope nat_scope.

(** The tracks handed to [addTrack], in order. *)
Definition added (es : list event) : list nat :=
  omap (λ e, match e with AddTrack track => Some track | _ => None end) es.

(** The packets written to the file for the stream [idx], in order. *)
Definition pkts_of {packet : Type} (idx : nat) (mx : list (nat * packet)) : list packet :=
  (filter (λ p : nat * packet, p.1 = idx) mx).*2.

(** The frames a track has yet to yield. *)
Definition frames_of (srcs : gmap nat (list Frame)) (track : nat) : list Frame :=
  default [] (srcs !! track).

Lemma pkts_of_app {packet : Type} idx (a b : list (nat * packet)) :
  pkts_of idx (a ++ b) = pkts_of idx a ++ pkts_of idx b.
Proof. unfold pkts_of. by rewrite filter_app, fmap_app. Qed.

Lemma pkts_of_same {packet : Type} idx (ps : list packet) :
  pkts_of idx (map (pair idx) ps) = ps.
Proof.
  unfold pkts_of. induction ps as [|p ps IH]; [done|].
  simpl. rewrite filter_cons_True by done. simpl. by f_equal.
Qed.

Lemma pkts_of_other {packet : Type} idx j (ps : list packet) :
  idx ≠ j → pkts_of idx (map (pair j) ps) = [].
Proof.
  intros Hne. unfold pkts_of. induction ps as [|p ps IH]; [done|].
  simpl. rewrite filter_cons_False by (simpl; congruence). done.
Qed.

Lemma nodup_fst_eq (items : list (nat * context)) k c1 c2 :
  NoDup items.*1 → (k, c1) ∈ items → (k, c2) ∈ items → c1 = c2.
Proof.
  induction items as [|[k' c'] items IH]; intros Hnd H1 H2.
  - by apply elem_of_nil in H1.
  - rewrite fmap_cons in Hnd. apply NoDup_cons in Hnd as [Hnotin Hnd].
    apply elem_of_cons in H1 as [H1|H1]; apply elem_of_cons in H2 as [H2|H2].
    + congruence.
    + exfalso. apply Hnotin. simpl. injection H1 as -> ->.
      apply list_elem_of_fmap. by exists (k', c2).
    + exfalso. apply Hnotin. simpl. injection H2 as -> ->.
      apply list_elem_of_fmap. by exists (k', c1).
    + by apply IH.
Qed.

Lemma elem_of_dict_set track c0 items k c :
  (k, c) ∈ dict_set track c0 items ↔
  (k = track ∧ c = c0) ∨ (k ≠ track ∧ (k, c) ∈ items).
Proof.
  unfold dict_set. destruct (decide (track ∈ items.*1)) as [Hin|Hnotin].
  - rewrite list_elem_of_fmap. split.
    + intros [[k' c'] [Heq Hel]]. simpl in Heq.
      destruct (decide (k' = track)) as [->|Hne].
      * left. by injection Heq as -> ->.
      * right. injection Heq as -> ->. done.
    + intros [[-> ->]|[Hne Hel]].
      * apply list_elem_of_fmap in Hin as [[k' c'] [Hk Hel]]. simpl in Hk. subst k'.
        exists (track, c'). simpl. by rewrite decide_True.
      * exists (k, c). simpl. by rewrite decide_False.
  - rewrite elem_of_app, list_elem_of_singleton. split.
    + intros [Hel|Heq].
      * right. split; [|done]. intros ->. apply Hnotin.
        apply list_elem_of_fmap. by exists (track, c).
      * left. by injection Heq as -> ->.
    + intros [[-> ->]|[_ Hel]]; auto.
Qed.

Lemma dict_set_keys track c0 items :
  NoDup items.*1 → NoDup (dict_set track c0 items).*1.
Proof.
  intros Hnd. unfold dict_set. destruct (decide (track ∈ items.*1)) as [Hin|Hnotin].
  - match goal with |- NoDup ?l => replace l with (items.*1) end; [done|].
    clear. induction items as [|[k c] items IH]; [done|].
    cbn [map]. rewrite !fmap_cons, <- IH. f_equal.
    simpl. by destruct (decide (k = track)).
  - rewrite fmap_app. apply NoDup_app. split_and!; [done| |apply NoDup_singleton].
    intros x Hx Hx'. apply list_elem_of_singleton in Hx'. simpl in Hx'. by subst.
Qed.

Section more.
Context {packet encoder : Type}.
Variable new_encoder : stream → encoder.
Variable encode : encoder → option Frame → encoder * list packet.
Variable track_kind : nat → kind.

(** What a codec that started in state [e] has turned the frames into. *)
Fixpoint encode_all (e : encoder) (frames : list (option Frame))
  : encoder * list packet :=
  match frames with
  | [] => (e, [])
  | f :: rest =>
      let '(e1, p1) := encode e f in
      let '(e2, p2) := encode_all e1 rest in
      (e2, p1 ++ p2)
  end.

Lemma encode_all_snoc e frames f :
  encode_all e (frames ++ [f]) =
  ((encode (encode_all e frames).1 f).1,
   (encode_all e frames).2 ++ (encode (encode_all e frames).1 f).2).
Proof.
  revert e. induction frames as [|g frames IH]; intros e; simpl.
  - destruct (encode e f) as [e1 p1]. simpl. by rewrite app_nil_r.
  - destruct (encode e g) as [e1 p1]. rewrite IH.
    destruct (encode_all e1 frames) as [e2 p2]. simpl.
    by rewrite app_assoc.
Qed.

(** *** The loop of [start()] *)

Lemma recorder_start_items_spec items (rn : gmap nat (nat * nat)) next :
  let r := start_items items rn next in
  next ≤ r.2
  ∧ r.1.1.*1 = items.*1
  ∧ (∀ k c, (k, c) ∈ r.1.1 →
       ((k, c) ∈ items ∧ ctx_task c ≠ None)
       ∨ ∃ t, c = mkContext (ctx_stream c) (Some t) ∧ next ≤ t < r.2
              ∧ (k, mkContext (ctx_stream c) None) ∈ items
              ∧ r.1.2 !! t = Some (k, ctx_stream c))
  ∧ (∀ k c, (k, c) ∈ items → ctx_task c ≠ None → (k, c) ∈ r.1.1)
  ∧ (∀ t x, r.1.2 !! t = Some x →
       rn !! t = Some x ∨ (next ≤ t < r.2 ∧ (x.1, mkContext x.2 (Some t)) ∈ r.1.1))
  ∧ (∀ t x, rn !! t = Some x → t < next → r.1.2 !! t = Some x).
Proof.
  revert rn next. induction items as [|[k0 c0] items IH]; intros rn next; simpl.
  - split_and!; try done; try lia.
    + intros k c H. by apply elem_of_nil in H.
    + intros t x H. by left.
  - destruct (ctx_task c0) as [t0|] eqn:Etask.
    + specialize (IH rn next).
      destruct (start_items items rn next) as [[items' rn'] next'].
      cbn [fst snd] in *. destruct IH as (Hle & Hkeys & Hnew & Hold & Hrn & Hkeep).
      split_and!; try done.
      * by rewrite !fmap_cons, Hkeys.
      * intros k c Hel. apply elem_of_cons in Hel as [Heq|Hel].
        -- injection Heq as -> ->. left. split; [left|congruence].
        -- destruct (Hnew k c Hel) as [[H1 H2]|(t & H1 & H2 & H3 & H4)].
           ++ left. split; [by right|done].
           ++ right. exists t. split_and!; try done; try lia. by right.
      * intros k c Hel Ht. apply elem_of_cons in Hel as [Heq|Hel].
        -- injection Heq as -> ->. left.
        -- right. by apply Hold.
      * intros t x Hl. destruct (Hrn t x Hl) as [H|[H1 H2]]; [by left|].
        right. split; [done|by right].
    + specialize (IH (<[next := (k0, ctx_stream c0)]> rn) (S next)).
      destruct (start_items items (<[next := (k0, ctx_stream c0)]> rn) (S next))
        as [[items' rn'] next'].
      cbn [fst snd] in *. destruct IH as (Hle & Hkeys & Hnew & Hold & Hrn & Hkeep).
      assert (Hhead : rn' !! next = Some (k0, ctx_stream c0)).
      { apply Hkeep; [by rewrite lookup_insert_eq|lia]. }
      split_and!; try lia.
      * by rewrite !fmap_cons, Hkeys.
      * intros k c Hel. apply elem_of_cons in Hel as [Heq|Hel].
        -- injection Heq as -> ->. right. exists next. simpl.
           split_and!; try done; try lia.
           destruct c0 as [i0 ta0]. simpl in *. subst ta0. left.
        -- destruct (Hnew k c Hel) as [[H1 H2]|(t & H1 & H2 & H3 & H4)].
           ++ left. split; [by right|done].
           ++ right. exists t. split_and!; try done; try lia. by right.
      * intros k c Hel Ht. apply elem_of_cons in Hel as [Heq|Hel].
        -- injection Heq as -> ->. congruence.
        -- right. by apply Hold.
      * intros t x Hl. destruct (Hrn t x Hl) as [H|[H1 H2]].
        -- destruct (decide (t = next)) as [->|Hne].
           ++ rewrite lookup_insert_eq in H. injection H as <-. simpl.
              right. split; [lia|left].
           ++ rewrite lookup_insert_ne in H by done. by left.
        -- right. split; [lia|by right].
      * intros t x Hl Hlt. apply Hkeep; [|lia].
        rewrite lookup_insert_ne by lia. done.
Qed.

(** *** Encoding into one stream *)

Lemma encode_mux_at idx f sts (mx : list (nat * packet)) st e :
  sts !! idx = Some (st, e) →
  encode_mux encode idx f sts mx =
  (<[idx := (st, (encode e f).1)]> sts, mx ++ map (pair idx) (encode e f).2).
Proof.
  intros H. unfold encode_mux. rewrite H. by destruct (encode e f).
Qed.

Lemma encode_mux_length idx f sts (mx : list (nat * packet)) :
  length (encode_mux encode idx f sts mx).1 = length sts.
Proof.
  unfold encode_mux. destruct (sts !! idx) as [[st e]|]; [|done].
  destruct (encode e f). simpl. by rewrite length_insert.
Qed.

Lemma encode_mux_other idx idx' f sts (mx : list (nat * packet)) :
  idx' ≠ idx →
  (encode_mux encode idx f sts mx).1 !! idx' = sts !! idx'
  ∧ pkts_of idx' (encode_mux encode idx f sts mx).2 = pkts_of idx' mx.
Proof.
  intros Hne. unfold encode_mux. destruct (sts !! idx) as [[st e]|]; [|done].
  destruct (encode e f) as [e' pkts]. simpl. split.
  - by rewrite list_lookup_insert_ne.
  - by rewrite pkts_of_app, pkts_of_other, app_nil_r.
Qed.

Lemma encode_mux_elem idx f sts (mx : list (nat * packet)) p :
  p ∈ (encode_mux encode idx f sts mx).2 → p ∈ mx ∨ p.1 = idx.
Proof.
  unfold encode_mux. destruct (sts !! idx) as [[st e]|]; [|by left].
  destruct (encode e f) as [e' pkts]. simpl. rewrite elem_of_app.
  intros [H|H]; [by left|right].
  apply list_elem_of_fmap in H as [q [-> _]]. done.
Qed.

(** *** The loop of [stop()] *)

Lemma stop_items_length items sts (mx : list (nat * packet)) rn :
  length (stop_items encode items sts mx rn).1.1 = length sts.
Proof.
  revert sts mx rn. induction items as [|[k c] items IH]; intros sts mx rn; [done|].
  simpl. destruct (ctx_task c) as [t|]; [|apply IH].
  pose proof (encode_mux_length (ctx_stream c) None sts mx) as Hlen.
  destruct (encode_mux encode (ctx_stream c) None sts mx) as [sts' mx'].
  rewrite IH. done.
Qed.

Lemma stop_items_running items sts (mx : list (nat * packet)) rn t x :
  (stop_items encode items sts mx rn).2 !! t = Some x ↔
  rn !! t = Some x ∧ ¬ ∃ k c, (k, c) ∈ items ∧ ctx_task c = Some t.
Proof.
  revert sts mx rn. induction items as [|[k c] items IH]; intros sts mx rn.
  - simpl. split; [intros H; split; [done|]|by intros [H _]].
    intros (k & c & H' & _). by apply elem_of_nil in H'.
  - simpl. destruct (ctx_task c) as [t0|] eqn:Etask.
    + destruct (encode_mux encode (ctx_stream c) None sts mx) as [sts' mx'].
      rewrite IH. split.
      * intros [Hl Hno]. apply lookup_delete_Some in Hl as [Hne Hl].
        split; [done|]. intros (k' & c' & Hel & Ht).
        apply elem_of_cons in Hel as [Heq|Hel].
        -- injection Heq as -> ->. congruence.
        -- apply Hno. by exists k', c'.
      * intros [Hl Hno]. split.
        -- apply lookup_delete_Some. split; [|done].
           intros ->. apply Hno. exists k, c. split; [left|done].
        -- intros (k' & c' & Hel & Ht). apply Hno. exists k', c'. split; [by right|done].
    + rewrite IH. split.
      * intros [Hl Hno]. split; [done|]. intros (k' & c' & Hel & Ht).
        apply elem_of_cons in Hel as [Heq|Hel].
        -- injection Heq as -> ->. congruence.
        -- apply Hno. by exists k', c'.
      * intros [Hl Hno]. split; [done|].
        intros (k' & c' & Hel & Ht). apply Hno. exists k', c'. split; [by right|done].
Qed.

Lemma stop_items_untouched items sts (mx : list (nat * packet)) rn idx :
  (∀ k c, (k, c) ∈ items → ctx_task c ≠ None → ctx_stream c ≠ idx) →
  (stop_items encode items sts mx rn).1.1 !! idx = sts !! idx
  ∧ pkts_of idx (stop_items encode items sts mx rn).1.2 = pkts_of idx mx.
Proof.
  revert sts mx rn. induction items as [|[k c] items IH]; intros sts mx rn Hno; [done|].
  simpl. destruct (ctx_task c) as [t0|] eqn:Etask.
  - assert (Hne : idx ≠ ctx_stream c).
    { intros ->. eapply (Hno k c); [left|congruence|done]. }
    pose proof (encode_mux_other (ctx_stream c) idx None sts mx Hne) as [H1 H2].
    destruct (encode_mux encode (ctx_stream c) None sts mx) as [sts' mx'].
    simpl in H1, H2. rewrite <- H1, <- H2. apply IH.
    intros k' c' Hel. apply (Hno k'). by right.
  - apply IH. intros k' c' Hel. apply (Hno k'). by right.
Qed.

Lemma stop_items_flushed items sts (mx : list (nat * packet)) rn k c st e :
  NoDup items.*1 →
  (∀ k1 c1 k2 c2, (k1, c1) ∈ items → (k2, c2) ∈ items →
     ctx_stream c1 = ctx_stream c2 → k1 = k2) →
  (k, c) ∈ items → ctx_task c ≠ None →
  sts !! ctx_stream c = Some (st, e) →
  (stop_items encode items sts mx rn).1.1 !! ctx_stream c = Some (st, (encode e None).1)
  ∧ pkts_of (ctx_stream c) (stop_items encode items sts mx rn).1.2 =
    pkts_of (ctx_stream c) mx ++ (encode e None).2.
Proof.
  revert sts mx rn. induction items as [|[k0 c0] items IH];
    intros sts mx rn Hnd Hinj Hel Htask Hst.
  - by apply elem_of_nil in Hel.
  - rewrite fmap_cons in Hnd. apply NoDup_cons in Hnd as [Hnotin Hnd].
    simpl in Hnotin.
    assert (Hinj' : ∀ k1 c1 k2 c2, (k1, c1) ∈ items → (k2, c2) ∈ items →
              ctx_stream c1 = ctx_stream c2 → k1 = k2).
    { intros k1 c1 k2 c2 H1 H2. apply Hinj; by right. }
    assert (Hrest : ∀ k' c', (k', c') ∈ items → ctx_stream c' ≠ ctx_stream c0).
    { intros k' c' Hel' Heq. apply Hnotin.
      rewrite <- (Hinj k' c' k0 c0); [|by right|left|done].
      apply list_elem_of_fmap. by exists (k', c'). }
    apply elem_of_cons in Hel as [Heq|Hel].
    + injection Heq as -> ->. simpl.
      destruct (ctx_task c0) as [t0|] eqn:Etask; [|done].
      rewrite (encode_mux_at _ _ _ _ _ _ Hst).
      destruct (stop_items_untouched items
                  (<[ctx_stream c0 := (st, (encode e None).1)]> sts)
                  (mx ++ map (pair (ctx_stream c0)) (encode e None).2)
                  (delete t0 rn) (ctx_stream c0)) as [H1 H2].
      { intros k' c' Hel' _. by eapply Hrest. }
      rewrite H1, H2. split.
      * apply list_lookup_insert_eq. by eapply lookup_lt_Some.
      * by rewrite pkts_of_app, pkts_of_same.
    + assert (Hne : ctx_stream c ≠ ctx_stream c0) by by eapply Hrest.
      simpl. destruct (ctx_task c0) as [t0|] eqn:Etask; [|by apply IH].
      pose proof (encode_mux_other (ctx_stream c0) (ctx_stream c) None sts mx Hne)
        as [H1 H2].
      destruct (encode_mux encode (ctx_stream c0) None sts mx) as [sts' mx'].
      simpl in H1, H2. rewrite <- H2. apply IH; try done. by rewrite H1.
Qed.

Lemma stop_items_elem items sts (mx : list (nat * packet)) rn p :
  p ∈ (stop_items encode items sts mx rn).1.2 →
  p ∈ mx ∨ ∃ k c, (k, c) ∈ items ∧ p.1 = ctx_stream c.
Proof.
  revert sts mx rn. induction items as [|[k0 c0] items IH]; intros sts mx rn Hp.
  - by left.
  - simpl in Hp. destruct (ctx_task c0) as [t0|].
    + pose proof (encode_mux_elem (ctx_stream c0) None sts mx p) as Hm.
      destruct (encode_mux encode (ctx_stream c0) None sts mx) as [sts' mx'].
      simpl in Hm. destruct (IH _ _ _ Hp) as [H|(k & c & H1 & H2)].
      * destruct (Hm H) as [H'|H']; [by left|].
        right. exists k0, c0. split; [left|done].
      * right. exists k, c. split; [by right|done].
    + destruct (IH _ _ _ Hp) as [H|(k & c & H1 & H2)]; [by left|].
      right. exists k, c. split; [by right|done].
Qed.

(** *** What every reachable recorder satisfies when no track is added twice *)

(** [owner] lists the track of each stream of the container. *)
Record good (fmt : string) (srcs : gmap nat (list Frame)) (owner : list nat)
    (s : state packet encoder) : Prop := {
  g_fmt : format_name s = fmt;
  g_len : length (streams s) = length owner;
  g_nodup : NoDup (tracks s).*1;
  g_keys : ∀ k c, (k, c) ∈ tracks s → owner !! ctx_stream c = Some k;
  g_running : ∀ t k idx, running s !! t = Some (k, idx) →
    container_open s = true ∧ (k, mkContext idx (Some t)) ∈ tracks s;
  g_stream : ∀ idx k, owner !! idx = Some k →
    ∃ e consumed tail,
      streams s !! idx = Some (new_stream (track_kind k) fmt, e)
      ∧ encode_all (new_encoder (new_stream (track_kind k) fmt))
          (map Some consumed ++ tail) = (e, pkts_of idx (muxed s))
      ∧ frames_of srcs k = consumed ++ frames_of (sources s) k
      ∧ (tail = [] ∨ tail = [None] ∧ container_open s = false);
  g_other : ∀ k, k ∉ owner → frames_of (sources s) k = frames_of srcs k;
  g_mux : ∀ p, p ∈ muxed s → p.1 < length (streams s);
  g_closed : container_open s = false → tracks s = []
}.

Lemma pkts_of_fresh idx (mx : list (nat * packet)) :
  (∀ p, p ∈ mx → p.1 ≠ idx) → pkts_of idx mx = [].
Proof.
  intros H. unfold pkts_of. induction mx as [|p mx IH]; [done|].
  rewrite filter_cons_False.
  - apply IH. intros q Hq. apply H. by right.
  - apply H. left.
Qed.

Lemma good_init fmt srcs : good fmt srcs [] (init fmt srcs).
Proof.
  constructor; simpl; try done.
  - apply NoDup_nil_2.
  - intros k c H. by apply elem_of_nil in H.
  - intros p H. by apply elem_of_nil in H.
Qed.

Lemma good_addTrack fmt srcs owner s k :
  good fmt srcs owner s → k ∉ owner → container_open s = true →
  good fmt srcs (owner ++ [k]) (addTrack new_encoder track_kind k s).1.
Proof.
  intros [Gf Gl Gn Gk Gr Gs Go Gm Gc] Hk Hopen. unfold addTrack. rewrite Hopen.
  cbn [fst]. constructor; cbn [format_name container_open streams muxed tracks
                                 running next_task sources].
  - done.
  - rewrite !length_app. simpl. lia.
  - by apply dict_set_keys.
  - intros k' c Hel. apply elem_of_dict_set in Hel as [[-> ->]|[Hne Hel]].
    + cbn [ctx_stream]. rewrite Gl. by rewrite lookup_app_r, Nat.sub_diag.
    + apply lookup_app_l_Some. by apply Gk.
  - intros t k' idx Hl. destruct (Gr t k' idx Hl) as [_ Hel]. split; [done|].
    apply elem_of_dict_set. right. split; [|done].
    intros ->. apply Hk. eapply list_elem_of_lookup_2. by apply (Gk _ _ Hel).
  - intros idx k' Hl. apply lookup_app_Some in Hl as [Hl|[Hge Hl]].
    + destruct (Gs idx k' Hl) as (e & consumed & tl & H1 & H2 & H3 & H4).
      exists e, consumed, tl. split_and!; try done.
      * by apply lookup_app_l_Some.
      * destruct H4 as [H4|[_ H4]]; [by left|congruence].
    + apply list_lookup_singleton_Some in Hl as [Hz <-].
      assert (idx = length (streams s)) as -> by lia.
      exists (new_encoder (new_stream (track_kind k) fmt)), [], [].
      split_and!.
      * rewrite lookup_app_r, Nat.sub_diag by done. by rewrite Gf.
      * simpl. f_equal. symmetry. apply pkts_of_fresh.
        intros p Hp. specialize (Gm p Hp). lia.
      * simpl. symmetry. by apply Go.
      * by left.
  - intros k' Hk'. apply Go. intros H. apply Hk'. apply elem_of_app. by left.
  - intros p Hp. rewrite length_app. specialize (Gm p Hp). lia.
  - done.
Qed.

Lemma good_start fmt srcs owner s :
  good fmt srcs owner s → good fmt srcs owner (start s).
Proof.
  intros [Gf Gl Gn Gk Gr Gs Go Gm Gc]. unfold start.
  pose proof (recorder_start_items_spec (tracks s) (running s) (next_task s)) as H.
  cbn zeta in H.
  destruct (start_items (tracks s) (running s) (next_task s)) as [[items rn] next].
  cbn [fst snd] in H. destruct H as (Hle & Hkeys & Hnew & Hold & Hrn & Hkeep).
  constructor; cbn [format_name container_open streams muxed tracks
                      running next_task sources]; try done.
  - by rewrite Hkeys.
  - intros k c Hel. destruct (Hnew k c Hel) as [[H1 _]|(t & _ & _ & H3 & _)].
    + by apply Gk.
    + apply (Gk _ _ H3).
  - intros t k idx Hl. destruct (Hrn t _ Hl) as [H|[_ H]].
    + destruct (Gr _ _ _ H) as [Ho Hel]. split; [done|].
      apply Hold; [done|]. simpl. congruence.
    + cbn [fst snd] in H. split; [|done].
      destruct (container_open s) eqn:Hopen; [done|].
      specialize (Gc eq_refl).
      destruct (Hnew _ _ H) as [[H1 _]|(t' & _ & _ & H3 & _)].
      * rewrite Gc in H1. by apply elem_of_nil in H1.
      * rewrite Gc in H3. by apply elem_of_nil in H3.
  - intros Hc. specialize (Gc Hc). rewrite Gc in Hkeys.
    destruct items; [done|discriminate].
Qed.

Lemma good_stop fmt srcs owner s :
  good fmt srcs owner s → good fmt srcs owner (stop encode s).
Proof.
  intros G. unfold stop. destruct (container_open s) eqn:Hopen; [|done].
  destruct G as [Gf Gl Gn Gk Gr Gs Go Gm Gc].
  assert (Hinj : ∀ k1 c1 k2 c2, (k1, c1) ∈ tracks s → (k2, c2) ∈ tracks s →
            ctx_stream c1 = ctx_stream c2 → k1 = k2).
  { intros k1 c1 k2 c2 H1 H2 Heq. apply Gk in H1. apply Gk in H2.
    rewrite Heq in H1. congruence. }
  pose proof (stop_items_length (tracks s) (streams s) (muxed s) (running s)) as Hlen.
  pose proof (stop_items_running (tracks s) (streams s) (muxed s) (running s)) as Hrn.
  pose proof (stop_items_untouched (tracks s) (streams s) (muxed s) (running s)) as Hun.
  pose proof (λ k c st e, stop_items_flushed (tracks s) (streams s) (muxed s)
                 (running s) k c st e Gn Hinj) as Hfl.
  pose proof (stop_items_elem (tracks s) (streams s) (muxed s) (running s)) as Hel.
  destruct (stop_items encode (tracks s) (streams s) (muxed s) (running s))
    as [[sts mx] rn].
  cbn [fst snd] in *.
  constructor; cbn [format_name container_open streams muxed tracks
                      running next_task sources]; try done.
  - by rewrite Hlen.
  - apply NoDup_nil_2.
  - intros k c H. by apply elem_of_nil in H.
  - intros t k idx Hl. apply Hrn in Hl as [Hl Hno]. exfalso. apply Hno.
    destruct (Gr _ _ _ Hl) as [_ H]. by exists k, (mkContext idx (Some t)).
  - intros idx k Hl.
    destruct (Gs idx k Hl) as (e & consumed & tl & H1 & H2 & H3 & H4).
    destruct H4 as [->|[_ H4]]; [|congruence].
    destruct (decide (Exists (λ kv : nat * context,
                ctx_task kv.2 ≠ None ∧ ctx_stream kv.2 = idx) (tracks s)))
      as [Hex|Hnex].
    + apply Exists_exists in Hex as [[k' c] (Hin & Htask & Hidx)].
      cbn [snd] in Htask, Hidx. subst idx.
      destruct (Hfl k' c _ e Hin Htask H1) as [F1 F2].
      exists (encode e None).1, consumed, [None]. split_and!; try done.
      * rewrite encode_all_snoc. rewrite app_nil_r in H2. rewrite H2. cbn [fst snd].
        by rewrite F2.
      * by right.
    + destruct (Hun idx) as [U1 U2].
      { intros k' c Hin Htask Hidx. apply Hnex. apply Exists_exists.
        by exists (k', c). }
      exists e, consumed, []. split_and!; try done.
      * by rewrite U1.
      * by rewrite U2.
      * by left.
  - intros p Hp. rewrite Hlen. destruct (Hel p Hp) as [H|(k & c & H1 & H2)].
    + by apply Gm.
    + rewrite H2, Gl. eapply lookup_lt_Some. by apply (Gk _ _ H1).
Qed.

Lemma frames_of_insert srcs k fs k' :
  frames_of (<[k := fs]> srcs) k' = if decide (k' = k) then fs else frames_of srcs k'.
Proof.
  unfold frames_of. destruct (decide (k' = k)) as [->|Hne].
  - by rewrite lookup_insert_eq.
  - by rewrite lookup_insert_ne.
Qed.

Lemma good_less_running fmt srcs owner s t :
  good fmt srcs owner s →
  good fmt srcs owner
    (mkState (format_name s) (container_open s) (streams s) (muxed s) (tracks s)
       (delete t (running s)) (next_task s) (sources s)).
Proof.
  intros [Gf Gl Gn Gk Gr Gs Go Gm Gc].
  constructor; cbn [format_name container_open streams muxed tracks
                      running next_task sources]; try done.
  intros t' k idx Hl. apply lookup_delete_Some in Hl as [_ Hl]. by apply Gr.
Qed.

Lemma good_run_track fmt srcs owner s t :
  good fmt srcs owner s → NoDup owner →
  good fmt srcs owner (run_track encode t s).1.
Proof.
  intros G Hnd. unfold run_track.
  destruct (running s !! t) as [[k idx]|] eqn:Hrun; [|done].
  unfold Relay.source_recv.
  destruct (sources s !! k) as [[|f fs]|] eqn:Hsrc; cbn [fst];
    try by apply good_less_running.
  destruct G as [Gf Gl Gn Gk Gr Gs Go Gm Gc].
  destruct (Gr _ _ _ Hrun) as [Hopen Hctx].
  pose proof (Gk _ _ Hctx) as Hown. cbn [ctx_stream] in Hown.
  destruct (Gs idx k Hown) as (e & consumed & tl & H1 & H2 & H3 & H4).
  destruct H4 as [->|[_ H4]]; [|congruence].
  rewrite (encode_mux_at _ _ _ _ _ _ H1), Hopen. cbn [fst].
  assert (Hlt : idx < length (streams s)) by by eapply lookup_lt_Some.
  constructor; cbn [format_name container_open streams muxed tracks
                      running next_task sources]; try done.
  - by rewrite length_insert.
  - intros t' k' idx' Hl. split; [done|]. by apply (Gr t').
  - intros idx' k' Hl. destruct (decide (idx' = idx)) as [->|Hne].
    + assert (k' = k) as -> by congruence.
      exists (encode e (Some f)).1, (consumed ++ [f]), []. split_and!.
      * by rewrite list_lookup_insert_eq.
      * rewrite app_nil_r in *. rewrite map_app. cbn [map].
        rewrite encode_all_snoc, H2. cbn [fst snd].
        by rewrite pkts_of_app, pkts_of_same.
      * rewrite frames_of_insert, decide_True by done.
        rewrite H3. unfold frames_of at 1. rewrite Hsrc. simpl.
        by rewrite <- app_assoc.
      * by left.
    + assert (k' ≠ k).
      { intros ->. apply Hne. by eapply NoDup_lookup. }
      destruct (Gs idx' k' Hl) as (e' & consumed' & tl' & H1' & H2' & H3' & H4').
      exists e', consumed', tl'. split_and!; try done.
      * by rewrite list_lookup_insert_ne.
      * by rewrite pkts_of_app, pkts_of_other, app_nil_r.
      * by rewrite frames_of_insert, decide_False.
      * destruct H4' as [H4'|[_ H4']]; [by left|congruence].
  - intros k' Hk'. rewrite frames_of_insert, decide_False; [by apply Go|].
    intros ->. apply Hk'. by eapply list_elem_of_lookup_2.
  - intros p Hp. rewrite length_insert. apply elem_of_app in Hp as [Hp|Hp].
    + by apply Gm.
    + apply list_elem_of_fmap in Hp as [q [-> _]]. done.
Qed.

Lemma recorder_run_cons s e es :
  run new_encoder encode track_kind s (e :: es) =
  ((run new_encoder encode track_kind (step new_encoder encode track_kind s e).1 es).1,
   (step new_encoder encode track_kind s e).2
   ++ (run new_encoder encode track_kind (step new_encoder encode track_kind s e).1 es).2).
Proof.
  cbn [run]. destruct (step new_encoder encode track_kind s e) as [s1 out1].
  cbn [fst snd]. by destruct (run new_encoder encode track_kind s1 es).
Qed.

Lemma good_run fmt srcs es : ∀ owner s,
  good fmt srcs owner s → NoDup (owner ++ added es) →
  ∃ owner', good fmt srcs owner' (run new_encoder encode track_kind s es).1
            ∧ NoDup owner'
            ∧ ∀ k, k ∈ owner' → k ∈ owner ∨ k ∈ added es.
Proof.
  induction es as [|e es IH]; intros owner s G Hnd.
  - exists owner. rewrite app_nil_r in Hnd. cbn [run fst]. auto.
  - rewrite recorder_run_cons. cbn [fst].
    assert (Hsame : ∀ s', good fmt srcs owner s' → added (e :: es) = added es →
              ∃ owner', good fmt srcs owner'
                          (run new_encoder encode track_kind s' es).1
                        ∧ NoDup owner'
                        ∧ ∀ k, k ∈ owner' → k ∈ owner ∨ k ∈ added (e :: es)).
    { intros s' G' Heq. rewrite Heq in *. by apply IH. }
    destruct e as [track| | |t]; cbn [step fst].
    + change (added (AddTrack track :: es)) with (track :: added es) in *.
      apply NoDup_app in Hnd as (Hn1 & Hdis & Hn2).
      apply NoDup_cons in Hn2 as [Hnotin Hn2].
      destruct (container_open s) eqn:Hopen.
      * destruct (IH (owner ++ [track]) (addTrack new_encoder track_kind track s).1)
          as (owner' & G' & Hnd' & Hsub).
        { apply good_addTrack; [done| |done]. intros H. eapply Hdis; [done|left]. }
        { rewrite <- app_assoc. apply NoDup_app. split_and!; [done| |].
          - intros x Hx Hx'. by eapply Hdis.
          - by apply NoDup_cons. }
        exists owner'. split_and!; [done..|].
        intros k Hk. destruct (Hsub k Hk) as [H|H].
        -- apply elem_of_app in H as [H|H]; [by left|].
           apply list_elem_of_singleton in H as ->. right. left.
        -- right. by right.
      * unfold addTrack. rewrite Hopen. cbn [fst].
        destruct (IH owner s) as (owner' & G' & Hnd' & Hsub); [done| |].
        { apply NoDup_app. split_and!; [done| |done].
          intros x Hx Hx'. eapply Hdis; [done|by right]. }
        exists owner'. split_and!; [done..|].
        intros k Hk. destruct (Hsub k Hk) as [H|H]; [by left|right; by right].
    + apply Hsame; [by apply good_start|done].
    + apply Hsame; [by apply good_stop|done].
    + apply Hsame; [|done]. apply good_run_track; [done|].
      by apply NoDup_app in Hnd as (Hn1 & _ & _).
Qed.

(** With the container closed, no track and no task left, nothing moves. *)
Lemma frozen_step s e :
  container_open s = false → tracks s = [] → running s = ∅ →
  (step new_encoder encode track_kind s e).1 = s
  ∧ ∀ o, o ∈ (step new_encoder encode track_kind s e).2 →
         ∃ track, o = AddTrackFailed track.
Proof.
  intros Hc Ht Hr. destruct e as [track| | |t]; cbn [step fst snd].
  - unfold addTrack. rewrite Hc. split; [done|].
    intros o Ho. apply list_elem_of_singleton in Ho. by exists track.
  - split; [|intros o Ho; by apply elem_of_nil in Ho].
    unfold start. rewrite Ht. simpl. destruct s. simpl in *. by subst.
  - split; [|intros o Ho; by apply elem_of_nil in Ho].
    unfold stop. by rewrite Hc.
  - unfold run_track. rewrite Hr, lookup_empty. split; [done|].
    intros o Ho. by apply elem_of_nil in Ho.
Qed.

Lemma frozen_run s es :
  container_open s = false → tracks s = [] → running s = ∅ →
  (run new_encoder encode track_kind s es).1 = s
  ∧ ∀ o, o ∈ (run new_encoder encode track_kind s es).2 →
         ∃ track, o = AddTrackFailed track.
Proof.
  intros Hc Ht Hr. induction es as [|e es IH]; [split; [done|]|].
  - intros o Ho. by apply elem_of_nil in Ho.
  - rewrite recorder_run_cons. cbn [fst snd].
    destruct (frozen_step s e Hc Ht Hr) as [E1 E2]. rewrite E1.
    destruct IH as [I1 I2]. split; [done|].
    intros o Ho. apply elem_of_app in Ho as [Ho|Ho]; auto.
Qed.

(** When no track was handed to [addTrack] twice, [stop()] ends the
    recording for good: it leaves the container closed, no track and no
    task behind, and whatever is called afterwards changes nothing, writes
    nothing and encodes nothing; all that can still be seen is [addTrack]
    failing on the container that is [None]. *)
Theorem recorder_stop_is_final fmt srcs es :
  NoDup (added es) →
  let s := stop encode (run new_encoder encode track_kind (init fmt srcs) es).1 in
  container_open s = false ∧ tracks s = [] ∧ running s = ∅
  ∧ ∀ es', (run new_encoder encode track_kind s es').1 = s
           ∧ ∀ o, o ∈ (run new_encoder encode track_kind s es').2 →
                  ∃ track, o = AddTrackFailed track.
Proof.
  intros Hnd s.
  destruct (good_run fmt srcs es [] (init fmt srcs) (good_init fmt srcs) Hnd)
    as (owner & G & Hown & _).
  apply good_stop in G. fold s in G.
  assert (Hc : container_open s = false).
  { unfold s, stop.
    destruct (container_open (run new_encoder encode track_kind (init fmt srcs) es).1)
      eqn:Hopen; [|done].
    by destruct (stop_items encode _ _ _ _) as [[sts mx] rn]. }
  assert (Ht : tracks s = []) by by apply (g_closed _ _ _ _ G).
  assert (Hr : running s = ∅).
  { apply map_empty. intros t. destruct (running s !! t) as [[k idx]|] eqn:Hl; [|done].
    destruct (g_running _ _ _ _ G _ _ _ Hl) as [Ho _]. congruence. }
  split_and!; try done. intros es'. by apply frozen_run.
Qed.

(** When no track was handed to [addTrack] twice, every stream of the file
    belongs to one added track and has the codec [addTrack] chose for that
    track's kind; the packets written for it are what its codec made of the
    frames taken from the track so far, each once and in order, followed by
    the flush at most once, and only once the container is closed.  No
    frame taken from a track is dropped, and no packet of another stream is
    mixed in. *)
Theorem recorder_stream_encodes_track_prefix fmt srcs es idx st e :
  NoDup (added es) →
  let s := (run new_encoder encode track_kind (init fmt srcs) es).1 in
  streams s !! idx = Some (st, e) →
  ∃ track consumed tail,
    track ∈ added es
    ∧ st = new_stream (track_kind track) fmt
    ∧ encode_all (new_encoder st) (map Some consumed ++ tail)
      = (e, pkts_of idx (muxed s))
    ∧ frames_of srcs track = consumed ++ frames_of (sources s) track
    ∧ (tail = [] ∨ tail = [None] ∧ container_open s = false).
Proof.
  intros Hnd s Hst.
  destruct (good_run fmt srcs es [] (init fmt srcs) (good_init fmt srcs) Hnd)
    as (owner & G & Hown & Hsub).
  fold s in G.
  assert (Hlt : idx < length owner).
  { rewrite <- (g_len _ _ _ _ G). by eapply lookup_lt_Some. }
  apply lookup_lt_is_Some in Hlt as [track Htrack].
  destruct (g_stream _ _ _ _ G idx track Htrack)
    as (e' & consumed & tl & H1 & H2 & H3 & H4).
  rewrite Hst in H1. injection H1 as -> ->.
  exists track, consumed, tl. split_and!; try done.
  destruct (Hsub track) as [H|H]; [by eapply list_elem_of_lookup_2| |done].
  by apply elem_of_nil in H.
Qed.

(** *** What every reachable recorder satisfies *)

Record tidy (s : state packet encoder) : Prop := {
  t_nodup : NoDup (tracks s).*1;
  t_idx : ∀ k1 c1 k2 c2, (k1, c1) ∈ tracks s → (k2, c2) ∈ tracks s →
    ctx_stream c1 = ctx_stream c2 → k1 = k2;
  t_lt : ∀ k c, (k, c) ∈ tracks s → ctx_stream c < length (streams s);
  t_tasks : ∀ k1 c1 k2 c2 t, (k1, c1) ∈ tracks s → (k2, c2) ∈ tracks s →
    ctx_task c1 = Some t → ctx_task c2 = Some t → k1 = k2;
  t_fresh : ∀ k c t, (k, c) ∈ tracks s → ctx_task c = Some t → t < next_task s;
  t_run : ∀ t x, running s !! t = Some x → t < next_task s
}.

Lemma tidy_init fmt srcs : tidy (init fmt srcs).
Proof.
  constructor; simpl.
  - apply NoDup_nil_2.
  - intros k1 c1 k2 c2 H. by apply elem_of_nil in H.
  - intros k c H. by apply elem_of_nil in H.
  - intros k1 c1 k2 c2 t H. by apply elem_of_nil in H.
  - intros k c t H. by apply elem_of_nil in H.
  - intros t x H. by rewrite lookup_empty in H.
Qed.

Lemma tidy_addTrack s track :
  tidy s → tidy (addTrack new_encoder track_kind track s).1.
Proof.
  intros T. unfold addTrack. destruct (container_open s); [|done].
  destruct T as [Tn Ti Tl Tt Tf Tr]. cbn [fst].
  constructor; cbn [format_name container_open streams muxed tracks
                      running next_task sources]; try done.
  - by apply dict_set_keys.
  - intros k1 c1 k2 c2 H1 H2 Heq.
    apply elem_of_dict_set in H1 as [[-> ->]|[Hne1 H1]];
      apply elem_of_dict_set in H2 as [[-> ->]|[Hne2 H2]]; try done.
    + cbn [ctx_stream] in Heq. apply Tl in H2. lia.
    + cbn [ctx_stream] in Heq. apply Tl in H1. lia.
    + by eapply Ti.
  - intros k c H. rewrite length_app. simpl.
    apply elem_of_dict_set in H as [[-> ->]|[Hne H]].
    + cbn [ctx_stream]. lia.
    + apply Tl in H. lia.
  - intros k1 c1 k2 c2 t H1 H2 E1 E2.
    apply elem_of_dict_set in H1 as [[-> ->]|[Hne1 H1]]; [done|].
    apply elem_of_dict_set in H2 as [[-> ->]|[Hne2 H2]]; [done|].
    by eapply Tt.
  - intros k c t H E. apply elem_of_dict_set in H as [[-> ->]|[Hne H]]; [done|].
    by eapply Tf.
Qed.

Lemma tidy_start s : tidy s → tidy (start s).
Proof.
  intros [Tn Ti Tl Tt Tf Tr]. unfold start.
  pose proof (recorder_start_items_spec (tracks s) (running s) (next_task s)) as H.
  cbn zeta in H.
  destruct (start_items (tracks s) (running s) (next_task s)) as [[items rn] next].
  cbn [fst snd] in H. destruct H as (Hle & Hkeys & Hnew & Hold & Hrn & Hkeep).
  assert (Hmem : ∀ k c, (k, c) ∈ items →
            ∃ c0, (k, c0) ∈ tracks s ∧ ctx_stream c0 = ctx_stream c).
  { intros k c Hel. destruct (Hnew k c Hel) as [[H1 _]|(t & _ & _ & H3 & _)].
    - by exists c.
    - by eexists. }
  constructor; cbn [format_name container_open streams muxed tracks
                      running next_task sources].
  - by rewrite Hkeys.
  - intros k1 c1 k2 c2 H1 H2 Heq.
    destruct (Hmem _ _ H1) as (d1 & D1 & E1). destruct (Hmem _ _ H2) as (d2 & D2 & E2).
    eapply Ti; [exact D1|exact D2|congruence].
  - intros k c Hel. destruct (Hmem _ _ Hel) as (d & D & E). rewrite <- E. by eapply Tl.
  - intros k1 c1 k2 c2 t H1 H2 E1 E2.
    destruct (Hnew _ _ H1) as [[O1 _]|(t1 & C1 & L1 & _ & R1)];
      destruct (Hnew _ _ H2) as [[O2 _]|(t2 & C2 & L2 & _ & R2)].
    + by eapply Tt.
    + rewrite C2 in E2. cbn [ctx_task] in E2. injection E2 as ->.
      pose proof (Tf _ _ _ O1 E1). lia.
    + rewrite C1 in E1. cbn [ctx_task] in E1. injection E1 as ->.
      pose proof (Tf _ _ _ O2 E2). lia.
    + rewrite C1 in E1. rewrite C2 in E2. cbn [ctx_task] in E1, E2.
      injection E1 as ->. injection E2 as ->. congruence.
  - intros k c t Hel E. destruct (Hnew _ _ Hel) as [[O _]|(t1 & C1 & L1 & _)].
    + pose proof (Tf _ _ _ O E). lia.
    + rewrite C1 in E. cbn [ctx_task] in E. injection E as ->. lia.
  - intros t x Hl. destruct (Hrn _ _ Hl) as [H|[H _]]; [|lia].
    apply Tr in H. lia.
Qed.

Lemma tidy_stop s : tidy s → tidy (stop encode s).
Proof.
  intros T. unfold stop. destruct (container_open s); [|done].
  pose proof (stop_items_running (tracks s) (streams s) (muxed s) (running s)) as Hrn.
  destruct (stop_items encode (tracks s) (streams s) (muxed s) (running s))
    as [[sts mx] rn].
  cbn [snd] in Hrn.
  constructor; cbn [format_name container_open streams muxed tracks
                      running next_task sources].
  - apply NoDup_nil_2.
  - intros k1 c1 k2 c2 H. by apply elem_of_nil in H.
  - intros k c H. by apply elem_of_nil in H.
  - intros k1 c1 k2 c2 t H. by apply elem_of_nil in H.
  - intros k c t H. by apply elem_of_nil in H.
  - intros t x Hl. apply Hrn in Hl as [Hl _]. by eapply (t_run _ T).
Qed.

Lemma tidy_same_tracks s s' :
  tidy s → tracks s' = tracks s → length (streams s') = length (streams s) →
  next_task s' = next_task s →
  (∀ t x, running s' !! t = Some x → running s !! t = Some x) →
  tidy s'.
Proof.
  intros [Tn Ti Tl Tt Tf Tr] Et El En Er.
  constructor; rewrite ?Et, ?El, ?En; try done.
  intros t x Hl. apply Er in Hl. by eapply Tr.
Qed.

Lemma tidy_run_track s t : tidy s → tidy (run_track encode t s).1.
Proof.
  intros T. unfold run_track.
  destruct (running s !! t) as [[k idx]|] eqn:Hrun; [|done].
  destruct (Relay.source_recv k (sources s)) as [[f|] srcs].
  - pose proof (encode_mux_length idx (Some f) (streams s) (muxed s)) as Hlen.
    destruct (encode_mux encode idx (Some f) (streams s) (muxed s)) as [sts mx].
    cbn [fst] in Hlen.
    destruct (container_open s); [|destruct (decide _)]; cbn [fst];
      (eapply tidy_same_tracks; [exact T|done..|]);
      cbn [running]; try done.
    intros t' x Hl. by apply lookup_delete_Some in Hl as [_ Hl].
  - cbn [fst]. eapply tidy_same_tracks; [exact T|done..|].
    cbn [running]. intros t' x Hl. by apply lookup_delete_Some in Hl as [_ Hl].
Qed.

Lemma tidy_run es : ∀ s,
  tidy s → tidy (run new_encoder encode track_kind s es).1.
Proof.
  induction es as [|e es IH]; intros s T; [done|].
  rewrite recorder_run_cons. cbn [fst]. apply IH.
  destruct e; cbn [step fst].
  - by apply tidy_addTrack.
  - by apply tidy_start.
  - by apply tidy_stop.
  - by apply tidy_run_track.
Qed.

(** Handing a track to [addTrack] again while it is being recorded replaces
    its context by a new one without a task.  The next [start()] and
    [stop()] then deal with the new context only: [stop()] closes the
    container although the first task is still running, and the stream of
    that task is never flushed.  The first packet that task gets out of its
    codec afterwards makes it fail on the container that is [None], and the
    packet is lost. *)
Theorem recorder_readd_leaks_task fmt srcs es track idx t st e :
  let s := (run new_encoder encode track_kind (init fmt srcs) es).1 in
  container_open s = true →
  (track, mkContext idx (Some t)) ∈ tracks s →
  running s !! t = Some (track, idx) →
  streams s !! idx = Some (st, e) →
  let s' := (run new_encoder encode track_kind s [AddTrack track; Start; Stop]).1 in
  container_open s' = false
  ∧ tracks s' = []
  ∧ running s' !! t = Some (track, idx)
  ∧ streams s' !! idx = Some (st, e)
  ∧ pkts_of idx (muxed s') = pkts_of idx (muxed s)
  ∧ ∀ f rest, sources s !! track = Some (f :: rest) →
      (encode e (Some f)).2 ≠ [] →
      (run_track encode t s').2 = [TaskFailed t]
      ∧ running (run_track encode t s').1 !! t = None
      ∧ muxed (run_track encode t s').1 = muxed s'.
Proof.
  intros s Hopen Hctx Hrun Hst s'.
  assert (T : tidy s) by (apply tidy_run, tidy_init).
  destruct T as [Tn Ti Tl Tt Tf Tr].
  assert (Hlt : idx < length (streams s)) by by eapply lookup_lt_Some.
  assert (Htn : t < next_task s) by by eapply Tr.
  set (c1 := mkContext (length (streams s)) None).
  set (st1 := new_stream (track_kind track) (format_name s)).
  assert (E1 : (addTrack new_encoder track_kind track s).1 =
               mkState (format_name s) true (streams s ++ [(st1, new_encoder st1)])
                 (muxed s) (dict_set track c1 (tracks s)) (running s) (next_task s)
                 (sources s)).
  { unfold addTrack. by rewrite Hopen. }
  assert (Es : s' = stop encode (start (addTrack new_encoder track_kind track s).1)).
  { unfold s'. by rewrite !recorder_run_cons. }
  rewrite Es, E1. clear Es E1 s'.
  unfold start.
  cbn [format_name container_open streams muxed tracks running next_task sources].
  pose proof (recorder_start_items_spec (dict_set track c1 (tracks s)) (running s)
                (next_task s)) as H.
  cbn zeta in H.
  destruct (start_items (dict_set track c1 (tracks s)) (running s) (next_task s))
    as [[items rn] next].
  cbn [fst snd] in H. destruct H as (Hle & Hkeys & Hnew & Hold & Hrn & Hkeep).
  unfold stop.
  cbn [format_name container_open streams muxed tracks running next_task sources].
  pose proof (stop_items_running items (streams s ++ [(st1, new_encoder st1)])
                (muxed s) rn t (track, idx)) as Hsr.
  pose proof (stop_items_untouched items (streams s ++ [(st1, new_encoder st1)])
                (muxed s) rn idx) as Hsu.
  destruct (stop_items encode items (streams s ++ [(st1, new_encoder st1)])
              (muxed s) rn) as [[sts mx] rn'].
  cbn [fst snd] in Hsr, Hsu.
  cbn [format_name container_open streams muxed tracks running next_task sources].
  assert (Hrun' : rn' !! t = Some (track, idx)).
  { apply Hsr. split; [by apply Hkeep|].
    intros (k & c & Hel & Htask).
    destruct (Hnew _ _ Hel) as [[O _]|(t1 & C1 & L1 & _)].
    - apply elem_of_dict_set in O as [[-> ->]|[Hne O]]; [done|].
      apply Hne. by eapply (Tt k c track _ t O Hctx).
    - rewrite C1 in Htask. cbn [ctx_task] in Htask. injection Htask as ->. lia. }
  destruct Hsu as [U1 U2].
  { intros k c Hel _ Heq.
    assert (∃ c0, (k, c0) ∈ dict_set track c1 (tracks s) ∧ ctx_stream c0 = idx)
      as (c0 & O & E).
    { destruct (Hnew _ _ Hel) as [[O _]|(t1 & _ & _ & O & _)]; by eexists. }
    apply elem_of_dict_set in O as [[-> ->]|[Hne O]].
    - unfold c1 in E. cbn [ctx_stream] in E. lia.
    - apply Hne. by eapply (Ti k c0 track _ O Hctx). }
  assert (Hst' : sts !! idx = Some (st, e)).
  { rewrite U1. by apply lookup_app_l_Some. }
  split_and!; try done.
  intros f rest Hsrc Hpk. unfold run_track.
  cbn [format_name container_open streams muxed tracks running next_task sources].
  rewrite Hrun'. unfold Relay.source_recv. rewrite Hsrc.
  rewrite (encode_mux_at _ _ _ _ _ _ Hst').
  rewrite decide_False.
  - cbn [fst snd running muxed]. by rewrite lookup_delete_eq.
  - rewrite length_app, length_map.
    destruct (encode e (Some f)).2; [done|]. simpl. lia.
Qed.

End more.

(** A codec for the examples: its state counts the calls, a frame gives one
    packet and the flush gives one. *)
Definition count_encode (e : nat) (f : option Frame) : nat * list (option Frame) :=
  (S e, [f]).

Definition a_picture : Frame := FVideo (mkVideo 0 (Some 0%Z) (1 # 30) 0).

Example recorder_stop_is_final_witness :
  let s := stop count_encode
             (run (λ _, 0) count_encode (λ _, Video)
                (init "mp4" {[0 := [a_picture]]}) [AddTrack 0; Start; RunTrack 0]).1 in
  container_open s = false ∧ tracks s = [] ∧ running s = ∅
  ∧ ∀ es', (run (λ _, 0) count_encode (λ _, Video) s es').1 = s
           ∧ ∀ o, o ∈ (run (λ _, 0) count_encode (λ _, Video) s es').2 →
                  ∃ track, o = AddTrackFailed track.
Proof.
  apply (recorder_stop_is_final (λ _, 0) count_encode (λ _, Video) "mp4"
           {[0 := [a_picture]]} [AddTrack 0; Start; RunTrack 0]).
  vm_compute. apply NoDup_singleton.
Defined.

Example recorder_stream_encodes_track_prefix_witness :
  let s := (run (λ _, 0) count_encode (λ _, Video)
              (init "mp4" {[0 := [a_picture]]})
              [AddTrack 0; Start; RunTrack 0; Stop]).1 in
  ∃ track consumed tail,
    track ∈ added [AddTrack 0; Start; RunTrack 0; Stop]
    ∧ new_stream Video "mp4" = new_stream ((λ _, Video) track) "mp4"
    ∧ encode_all count_encode ((λ _, 0) (new_stream Video "mp4"))
        (map Some consumed ++ tail)
      = (2, pkts_of 0 (muxed s))
    ∧ frames_of {[0 := [a_picture]]} track = consumed ++ frames_of (sources s) track
    ∧ (tail = [] ∨ tail = [None] ∧ container_open s = false).
Proof.
  assert (Hn : NoDup (added [AddTrack 0; Start; RunTrack 0; Stop]))
    by (vm_compute; apply NoDup_singleton).
  assert (Hs : streams (run (λ _, 0) count_encode (λ _, Video)
                          (init "mp4" {[0 := [a_picture]]})
                          [AddTrack 0; Start; RunTrack 0; Stop]).1 !! 0
               = Some (new_stream Video "mp4", 2))
    by (vm_compute; reflexivity).
  exact (recorder_stream_encodes_track_prefix (λ _, 0) count_encode (λ _, Video)
           "mp4" {[0 := [a_picture]]} [AddTrack 0; Start; RunTrack 0; Stop]
           0 _ 2 Hn Hs).
Defined.

Example recorder_readd_leaks_task_witness :
  let s := (run (λ _, 0) count_encode (λ _, Video)
              (init "mp4" {[0 := [a_picture]]}) [AddTrack 0; Start]).1 in
  let s' := (run (λ _, 0) count_encode (λ _, Video) s
               [AddTrack 0; Start; Stop]).1 in
  container_open s' = false
  ∧ tracks s' = []
  ∧ running s' !! 0 = Some (0, 0)
  ∧ streams s' !! 0 = Some (new_stream Video "mp4", 0)
  ∧ pkts_of 0 (muxed s') = pkts_of 0 (muxed s)
  ∧ ∀ f rest, sources s !! 0 = Some (f :: rest) →
      (count_encode 0 (Some f)).2 ≠ [] →
      (run_track count_encode 0 s').2 = [TaskFailed 0]
      ∧ running (run_track count_encode 0 s').1 !! 0 = None
      ∧ muxed (run_track count_encode 0 s').1 = muxed s'.
Proof.
  apply (recorder_readd_leaks_task (λ _, 0) count_encode (λ _, Video) "mp4"
           {[0 := [a_picture]]} [AddTrack 0; Start] 0 0 0).
  - vm_compute; reflexivity.
  - vm_compute. left.
  - vm_compute; reflexivity.
  - vm_compute; reflexivity.
Defined.

End RecorderMore.

(** * More on the player: the order of the frames *)

Module PlayerOrder.
Import Media Player PlayerFacts PlayerMore.

(** What the worker has put on the queue of the track [k], in order. *)
Definition puts (k : kind) (es : list event) : list (option Frame) :=
  omap (λ e, match e with
             | WorkerPut k' item => if decide (k' = k) then Some item else None
             | _ => None
             end) es.

(** The frames [recv()] has returned on the track [k], in order. *)
Definition returned (k : kind) (out : list obs) : list Frame :=
  omap (λ r, match r with Returned f => Some f | _ => None end) (results k out).

(** The track has ended and no [recv()] is suspended on it. *)
Definition spent (t : track) : Prop := ended t = true ∧ waiting t = false.

Lemma player_results_app k a b : results k (a ++ b) = results k a ++ results k b.
Proof. unfold results. by rewrite omap_app. Qed.

Lemma returned_app k a b : returned k (a ++ b) = returned k a ++ returned k b.
Proof. unfold returned. by rewrite player_results_app, omap_app. Qed.

Lemma returned_effects k effs out :
  returned k (map Effect effs ++ out) = returned k out.
Proof. unfold returned. by rewrite results_effects. Qed.

Lemma returned_effects_only k effs : returned k (map Effect effs) = [].
Proof. unfold returned. by rewrite results_effects_only. Qed.

Lemma puts_other k e : kind_of e ≠ Some k → puts k [e] = [].
Proof.
  destruct e as [k' now|k' now|k'|k' n|k' item|tid]; try done.
  intros Hne. cbn [kind_of] in Hne. unfold puts. simpl.
  rewrite decide_False; [done|]. congruence.
Qed.

Lemma puts_own k item : puts k [WorkerPut k item] = [item].
Proof. unfold puts. simpl. by rewrite decide_True. Qed.

Lemma stop_track_fields k t s :
  get_track k s = Some t →
  ∃ t', get_track k (stop k s).1.1 = Some t'
        ∧ queue t' = queue t ∧ waiting t' = waiting t ∧ ended t' = true.
Proof.
  intros Hk. unfold stop. rewrite Hk.
  destruct (player_bound t).
  - pose proof (get_track_stop_player k k (set_track k (set_ended t) s)) as H2.
    destruct (_stop k (set_track k (set_ended t) s)) as [[s2 effs] ok]. cbn [fst snd] in *.
    destruct ok; cbn [fst].
    + eexists. rewrite get_track_set_track, decide_True by done. done.
    + eexists. rewrite H2, get_track_set_track, decide_True by done. done.
  - cbn [fst]. eexists. rewrite get_track_set_track, decide_True by done. done.
Qed.

(** What one dequeued item does to the track and to the consumer. *)
Lemma deliver_item k now t item s :
  ∃ t', get_track k (deliver k now t item s).1 = Some t' ∧ queue t' = queue t
        ∧ match item with
          | Some f => returned k (deliver k now t item s).2 = [f]
          | None => returned k (deliver k now t item s).2 = []
                    ∧ ended t' = true ∧ waiting t' = waiting t
          end.
Proof.
  destruct item as [f|].
  - destruct (deliver_frame k now t f s) as [Hr (t' & Hk & Hq & _)].
    exists t'. split_and!; try done. unfold returned. by rewrite Hr.
  - unfold deliver.
    destruct (stop_track_fields k t (set_track k t s)) as (t' & Hk & Hq & Hw & He).
    { by rewrite get_track_set_track, decide_True. }
    destruct (stop k (set_track k t s)) as [[s' effs] ok]. cbn [fst snd] in *.
    exists t'. split_and!; try done.
    rewrite returned_effects. unfold returned. rewrite results_own. by destruct ok.
Qed.

Lemma fifo_step k s e t :
  get_track k s = Some t →
  ∃ t', get_track k (step s e).1 = Some t'
    ∧ ((queue t' = queue t ++ puts k [e] ∧ returned k (step s e).2 = []
        ∧ (spent t → spent t'))
       ∨ (¬ spent t ∧ puts k [e] = []
          ∧ ∃ f, queue t = Some f :: queue t' ∧ returned k (step s e).2 = [f])
       ∨ (¬ spent t ∧ puts k [e] = []
          ∧ queue t = None :: queue t' ∧ returned k (step s e).2 = []
          ∧ spent t')).
Proof.
  intros Hk.
  assert (Hidle : ∀ out, returned k out = [] → puts k [e] = [] →
            ∃ t', get_track k (s, out).1 = Some t'
              ∧ ((queue t' = queue t ++ puts k [e] ∧ returned k (s, out).2 = []
                  ∧ (spent t → spent t'))
                 ∨ (¬ spent t ∧ puts k [e] = []
                    ∧ ∃ f, queue t = Some f :: queue t' ∧ returned k (s, out).2 = [f])
                 ∨ (¬ spent t ∧ puts k [e] = []
                    ∧ queue t = None :: queue t' ∧ returned k (s, out).2 = []
                    ∧ spent t'))).
  { intros out Hr Hp. exists t. split; [done|]. left. rewrite Hp, app_nil_r. auto. }
  destruct (decide (kind_of e = Some k)) as [Hkind|Hkind].
  2:{ destruct (step_other_kind k s e Hkind) as [H1 H2].
      exists t. split; [congruence|]. left.
      rewrite (puts_other k e Hkind), app_nil_r. unfold returned. rewrite H2. auto. }
  assert (Hdeq : ∀ now s1 effs item q,
            queue t = item :: q → ¬ spent t → puts k [e] = [] →
            let t1 := mkTrack (ended t) (player_bound t) q false (start t)
                        (max_frame_to_decode t) in
            ∃ t', get_track k (deliver k now t1 item s1).1 = Some t'
              ∧ ((queue t' = queue t ++ puts k [e]
                  ∧ returned k (map Effect effs ++ (deliver k now t1 item s1).2) = []
                  ∧ (spent t → spent t'))
                 ∨ (¬ spent t ∧ puts k [e] = []
                    ∧ ∃ f, queue t = Some f :: queue t'
                           ∧ returned k (map Effect effs ++ (deliver k now t1 item s1).2)
                             = [f])
                 ∨ (¬ spent t ∧ puts k [e] = []
                    ∧ queue t = None :: queue t'
                    ∧ returned k (map Effect effs ++ (deliver k now t1 item s1).2) = []
                    ∧ spent t'))).
  { intros now s1 effs item q Hq Hnf Hp t1.
    destruct (deliver_item k now t1 item s1) as (t' & Hk' & Hq' & Hitem).
    exists t'. split; [done|]. rewrite returned_effects.
    destruct item as [f|].
    - right. left. split_and!; try done. exists f. by rewrite Hq, Hq'.
    - right. right. destruct Hitem as (Hr & He & Hw).
      split_and!; try done. by rewrite Hq, Hq'. }
  destruct e as [k' now|k' now|k'|k' n|k' item|tid]; cbn [kind_of] in Hkind;
    try discriminate; injection Hkind as ->; cbn [step].
  - unfold recv. rewrite Hk.
    destruct (ended t) eqn:He.
    { apply Hidle; [|done]. unfold returned. by rewrite results_own. }
    destruct (waiting t) eqn:Hw; [by apply Hidle|].
    destruct (player_bound t) eqn:Hb; cbn [negb].
    2:{ apply Hidle; [|done]. unfold returned. by rewrite results_own. }
    pose proof (get_track_start k k s) as Hst.
    destruct (_start k s) as [[s1 effs] ok]. cbn [fst snd] in Hst.
    destruct ok.
    2:{ exists t. cbn [fst snd]. split; [congruence|]. left.
        rewrite returned_effects. unfold returned. rewrite results_own.
        cbn [puts omap]. rewrite app_nil_r. split_and!; try done. }
    destruct (queue t) as [|item q] eqn:Hq.
    + eexists. cbn [fst snd]. rewrite get_track_set_track, decide_True by done.
      split; [done|]. left. cbn [queue]. rewrite returned_effects_only.
      split_and!; try done. intros [H _]. congruence.
    + pose proof (Hdeq now s1 effs item q eq_refl) as Hd. cbn zeta in Hd.
      destruct (deliver k now (mkTrack false true q false (start t)
                                 (max_frame_to_decode t)) item s1) as [s2 out].
      cbn [fst snd] in *. apply Hd; [|done]. intros [H _]. congruence.
  - unfold wake. rewrite Hk.
    destruct (waiting t) eqn:Hw; [|by apply Hidle].
    destruct (queue t) as [|item q] eqn:Hq; [by apply Hidle|].
    pose proof (Hdeq now s [] item q eq_refl) as Hd. cbn zeta in Hd.
    cbn [map app] in Hd. apply Hd; [|done]. intros [_ H]. congruence.
  - destruct (stop_track_fields k t s Hk) as (t' & Hk' & Hq' & Hw' & He').
    destruct (stop k s) as [[s' effs] ok]. cbn [fst snd] in *.
    exists t'. split; [done|]. left. rewrite returned_effects_only.
    cbn [puts omap]. rewrite app_nil_r. split_and!; try done.
    intros [_ H]. split; congruence.
  - unfold set_max_frame_to_decode. rewrite Hk. cbn [fst snd].
    eexists. rewrite get_track_set_track, decide_True by done. split; [done|].
    left. cbn [queue puts omap]. rewrite app_nil_r. split_and!; try done.
  - unfold worker_put. rewrite Hk. cbn [fst snd].
    eexists. rewrite get_track_set_track, decide_True by done. split; [done|].
    left. cbn [queue]. rewrite puts_own. split_and!; try done.
Qed.

Lemma puts_cons k e es : puts k (e :: es) = puts k [e] ++ puts k es.
Proof. unfold puts. simpl. by destruct (match e with WorkerPut _ _ => _ | _ => _ end). Qed.

Lemma fifo_run_cons s e es :
  run s (e :: es) = ((run (step s e).1 es).1, (step s e).2 ++ (run (step s e).1 es).2).
Proof.
  cbn [run]. destruct (step s e) as [s1 out1]. cbn [fst snd].
  by destruct (run s1 es).
Qed.

Lemma finished_run k es : ∀ s t,
  get_track k s = Some t → spent t →
  ∃ t', get_track k (run s es).1 = Some t' ∧ spent t'
        ∧ queue t' = queue t ++ puts k es ∧ returned k (run s es).2 = [].
Proof.
  induction es as [|e es IH]; intros s t Hk Hf.
  - exists t. cbn [run fst snd]. rewrite app_nil_r. done.
  - rewrite fifo_run_cons, puts_cons. cbn [fst snd].
    destruct (fifo_step k s e t Hk)
      as (t1 & Hk1 & [(Hq & Hr & Hf1)|[(Hnf & _)|(Hnf & _)]]); try done.
    destruct (IH _ _ Hk1 (Hf1 Hf)) as (t' & Hk' & Hf' & Hq' & Hr').
    exists t'. split_and!; try done.
    + by rewrite Hq', Hq, app_assoc.
    + by rewrite returned_app, Hr, Hr'.
Qed.

Lemma fifo_run k es : ∀ s t,
  get_track k s = Some t →
  ∃ t' sentinel,
    get_track k (run s es).1 = Some t'
    ∧ queue t ++ puts k es = map Some (returned k (run s es).2) ++ sentinel ++ queue t'
    ∧ (sentinel = [] ∨ sentinel = [None] ∧ spent t').
Proof.
  induction es as [|e es IH]; intros s t Hk.
  - exists t, []. cbn [run fst snd]. rewrite app_nil_r. split_and!; auto.
  - rewrite fifo_run_cons, puts_cons. cbn [fst snd].
    destruct (fifo_step k s e t Hk)
      as (t1 & Hk1 & [(Hq & Hr & _)|[(_ & Hp & f & Hq & Hr)|(_ & Hp & Hq & Hr & Hf1)]]).
    + destruct (IH _ _ Hk1) as (t' & sentinel & Hk' & Hq' & Hs').
      exists t', sentinel. split_and!; try done.
      rewrite returned_app, Hr. cbn [app]. rewrite <- Hq', Hq. by rewrite app_assoc.
    + destruct (IH _ _ Hk1) as (t' & sentinel & Hk' & Hq' & Hs').
      exists t', sentinel. split_and!; try done.
      rewrite returned_app, Hr, Hp, Hq. cbn [app map]. by rewrite <- Hq'.
    + destruct (finished_run k es _ _ Hk1 Hf1) as (t' & Hk' & Hf' & Hq' & Hr').
      exists t', [None]. split_and!; try done; [|by right].
      rewrite returned_app, Hr, Hr', Hp, Hq. cbn [app map]. by rewrite Hq'.
Qed.

Lemma absent_run k es : ∀ s,
  get_track k s = None →
  get_track k (run s es).1 = None ∧ results k (run s es).2 = [].
Proof.
  induction es as [|e es IH]; intros s Hk; [done|].
  rewrite fifo_run_cons. cbn [fst snd].
  assert (Hstep : get_track k (step s e).1 = None ∧ results k (step s e).2 = []).
  { destruct (decide (kind_of e = Some k)) as [Hkind|Hkind].
    2:{ destruct (step_other_kind k s e Hkind) as [H1 H2]. split; congruence. }
    destruct e as [k' now|k' now|k'|k' n|k' item|tid]; cbn [kind_of] in Hkind;
      try discriminate; injection Hkind as ->; cbn [step].
    - unfold recv. by rewrite Hk.
    - unfold wake. by rewrite Hk.
    - unfold stop. by rewrite Hk.
    - unfold set_max_frame_to_decode. by rewrite Hk.
    - unfold worker_put. by rewrite Hk. }
  destruct Hstep as [H1 H2]. destruct (IH _ H1) as [H3 H4].
  split; [done|]. by rewrite player_results_app, H2, H4.
Qed.

(** A player track is a queue between the decode worker and its consumer:
    whatever the order of [recv()], [stop()] and worker events, the items
    the worker has put on a track are the frames [recv()] has returned, in
    the same order and each once, then the end sentinel if [recv()] has
    taken it, then what is still queued.  Once the sentinel is taken the
    track is ended and nothing more leaves the queue.  On a kind the
    container has no stream for, [recv()] yields nothing at all. *)
Theorem player_track_is_fifo (a v th : bool) (es : list event) (k : kind) :
  let r := run (init a v th) es in
  match get_track k r.1 with
  | Some t =>
      ∃ sentinel,
        puts k es = map Some (returned k r.2) ++ sentinel ++ queue t
        ∧ (sentinel = [] ∨ sentinel = [None] ∧ ended t = true ∧ waiting t = false)
  | None => results k r.2 = []
  end.
Proof.
  intros r. destruct (get_track k (init a v th)) as [t0|] eqn:Hk0.
  - destruct (fifo_run k es _ _ Hk0) as (t' & sentinel & Hk' & Hq & Hs).
    fold r in Hk'. rewrite Hk'. exists sentinel. split.
    + assert (queue t0 = []) as Hq0.
      { destruct k, a, v; simpl in Hk0; try discriminate; by injection Hk0 as <-. }
      by rewrite Hq0 in Hq.
    + destruct Hs as [->|[-> Hf]]; [by left|by right].
  - destruct (absent_run k es _ Hk0) as [H1 H2]. fold r in H1, H2. by rewrite H1.
Qed.

End PlayerOrder.

(** * Opening a player: the streams kept and the pacing *)

Module PlayerInitFacts.
Import Media Player PlayerFacts PlayerInit.
Local Open Scope nat_scope.

(** The stream at [i] is an audio or a video stream and the first of its
    type. *)
Definition is_first (types : list string) (i : nat) : bool :=
  match types !! i with
  | Some ty =>
      bool_decide (ty = "audio" ∨ ty = "video") && bool_decide (ty ∉ take i types)
  | None => false
  end.

Lemma filter_seq_ext (P Q : nat → bool) n :
  (∀ i, i < n → P i = Q i) →
  filter (λ i, P i = true) (seq 0 n) = filter (λ i, Q i = true) (seq 0 n).
Proof.
  induction n as [|n IH]; intros H; [done|].
  rewrite seq_S, !filter_app, IH by (intros i Hi; apply H; lia).
  f_equal. simpl.
  destruct (P n) eqn:HP; pose proof HP as HQ; rewrite (H n) in HQ by lia.
  - rewrite !filter_cons_True by done. done.
  - rewrite !filter_cons_False by congruence. done.
Qed.

Lemma is_first_app_lt pre rest i :
  i < length pre → is_first (pre ++ rest) i = is_first pre i.
Proof.
  intros Hi. unfold is_first. rewrite lookup_app_l by done.
  destruct (pre !! i) as [ty|]; [|done].
  by rewrite take_app_le by lia.
Qed.

Lemma is_first_app_here pre ty rest :
  is_first (pre ++ ty :: rest) (length pre)
  = bool_decide (ty = "audio" ∨ ty = "video") && bool_decide (ty ∉ pre).
Proof.
  unfold is_first. rewrite list_lookup_middle by done.
  by rewrite take_app_length.
Qed.

Lemma filter_first_snoc pre ty :
  filter (λ i, is_first (pre ++ [ty]) i = true) (seq 0 (length (pre ++ [ty])))
  = filter (λ i, is_first pre i = true) (seq 0 (length pre))
    ++ (if bool_decide (ty = "audio" ∨ ty = "video") && bool_decide (ty ∉ pre)
        then [length pre] else []).
Proof.
  rewrite length_app. simpl. rewrite Nat.add_1_r, seq_S, filter_app. simpl. f_equal.
  - apply filter_seq_ext. intros i Hi. by apply is_first_app_lt.
  - pose proof (is_first_app_here pre ty []) as H.
    destruct (bool_decide (ty = "audio" ∨ ty = "video") && bool_decide (ty ∉ pre)).
    + by rewrite filter_cons_True.
    + rewrite filter_cons_False; [done|]. congruence.
Qed.

Lemma bool_decide_elem_snoc (x ty : string) pre :
  bool_decide (x ∈ pre ++ [ty]) = bool_decide (x ∈ pre) || bool_decide (x = ty).
Proof.
  apply eq_true_iff_eq. rewrite orb_true_iff, !bool_decide_eq_true.
  rewrite elem_of_app, list_elem_of_singleton. done.
Qed.

Lemma examine_from_spec rest : ∀ pre a v kept,
  a = bool_decide ("audio" ∈ pre) →
  v = bool_decide ("video" ∈ pre) →
  kept = filter (λ i, is_first pre i = true) (seq 0 (length pre)) →
  length kept = Nat.b2n a + Nat.b2n v →
  let r := examine_from (length pre) rest a v kept in
  r.1.1 = bool_decide ("audio" ∈ pre ++ rest)
  ∧ r.1.2 = bool_decide ("video" ∈ pre ++ rest)
  ∧ r.2 = filter (λ i, is_first (pre ++ rest) i = true) (seq 0 (length (pre ++ rest)))
  ∧ length r.2 = Nat.b2n r.1.1 + Nat.b2n r.1.2.
Proof.
  induction rest as [|ty rest IH]; intros pre a v kept Ha Hv Hk Hl.
  - cbn zeta. cbn [examine_from fst snd]. by rewrite app_nil_r.
  - cbn zeta. cbn [examine_from].
    assert (Hnext : ∀ a' v' kept',
              a' = bool_decide ("audio" ∈ pre ++ [ty]) →
              v' = bool_decide ("video" ∈ pre ++ [ty]) →
              kept' = filter (λ i, is_first (pre ++ [ty]) i = true)
                        (seq 0 (length (pre ++ [ty]))) →
              length kept' = Nat.b2n a' + Nat.b2n v' →
              let r := examine_from (S (length pre)) rest a' v' kept' in
              r.1.1 = bool_decide ("audio" ∈ pre ++ ty :: rest)
              ∧ r.1.2 = bool_decide ("video" ∈ pre ++ ty :: rest)
              ∧ r.2 = filter (λ i, is_first (pre ++ ty :: rest) i = true)
                        (seq 0 (length (pre ++ ty :: rest)))
              ∧ length r.2 = Nat.b2n r.1.1 + Nat.b2n r.1.2).
    { intros a' v' kept' Ha' Hv' Hk' Hl'.
      pose proof (IH (pre ++ [ty]) a' v' kept' Ha' Hv' Hk' Hl') as H.
      rewrite length_app, Nat.add_1_r, <- app_assoc in H. exact H. }
    rewrite filter_first_snoc, !bool_decide_elem_snoc in Hnext.
    rewrite <- Ha, <- Hv, <- Hk in Hnext.
    destruct (decide (ty = "audio")) as [->|Hna].
    + rewrite (bool_decide_true ("audio" = "audio")),
        (bool_decide_false ("video" = "audio")),
        (bool_decide_true ("audio" = "audio" ∨ "audio" = "video")),
        orb_true_r, orb_false_r in Hnext by (done || auto).
      cbn [andb] in Hnext.
      rewrite (bool_decide_true ("audio" = "audio")) by done. cbn [andb].
      destruct a; cbn [negb].
      * rewrite (bool_decide_false ("audio" = "video")) by done. cbn [andb].
        symmetry in Ha. apply bool_decide_eq_true in Ha.
        rewrite (bool_decide_false ("audio" ∉ pre)), app_nil_r in Hnext by auto.
        by apply Hnext.
      * symmetry in Ha. apply bool_decide_eq_false in Ha.
        rewrite (bool_decide_true ("audio" ∉ pre)) in Hnext by done.
        apply Hnext; try done. rewrite length_app, Hl. simpl. lia.
    + rewrite (bool_decide_false (ty = "audio")) by done. cbn [andb].
      rewrite (bool_decide_false ("audio" = ty)), orb_false_r in Hnext by done.
      destruct (decide (ty = "video")) as [->|Hnv].
      * rewrite (bool_decide_true ("video" = "video")),
          (bool_decide_true ("video" = "audio" ∨ "video" = "video")),
          orb_true_r in Hnext by (done || auto).
        cbn [andb] in Hnext.
        rewrite (bool_decide_true ("video" = "video")) by done. cbn [andb].
        destruct v; cbn [negb].
        -- symmetry in Hv. apply bool_decide_eq_true in Hv.
           rewrite (bool_decide_false ("video" ∉ pre)), app_nil_r in Hnext by auto.
           by apply Hnext.
        -- symmetry in Hv. apply bool_decide_eq_false in Hv.
           rewrite (bool_decide_true ("video" ∉ pre)) in Hnext by done.
           apply Hnext; try done. rewrite length_app, Hl. simpl. lia.
      * rewrite (bool_decide_false (ty = "video")) by done. cbn [andb].
        rewrite (bool_decide_false ("video" = ty)), orb_false_r,
          (bool_decide_false (ty = "audio" ∨ ty = "video")) in Hnext by (done || tauto).
        cbn [andb] in Hnext. rewrite app_nil_r in Hnext.
        by apply Hnext.
Qed.

(** [MediaPlayer.__init__] keeps the first audio stream and the first video
    stream of the container, in container order, and nothing else: a track
    of a kind exists exactly when the container has a stream of that type,
    at most two streams are handed to the decoder, and a stream is among
    them exactly when it is an audio or video stream that no stream of the
    same type precedes. *)
Theorem player_examine_keeps_first_of_each_kind (types : list string) :
  let r := examine types in
  r.1.1 = bool_decide ("audio" ∈ types)
  ∧ r.1.2 = bool_decide ("video" ∈ types)
  ∧ r.2 = filter (λ i, is_first types i = true) (seq 0 (length types))
  ∧ length r.2 ≤ 2
  ∧ ∀ i, i ∈ r.2 ↔
      ∃ ty, types !! i = Some ty ∧ (ty = "audio" ∨ ty = "video")
            ∧ ∀ j, j < i → types !! j ≠ Some ty.
Proof.
  intros r.
  destruct (examine_from_spec types [] false false []) as (H1 & H2 & H3 & H4);
    try done.
  change (examine_from (length []) types false false []) with r in *.
  cbn [app] in *. split_and!; try done.
  - rewrite H4. destruct r.1.1, r.1.2; simpl; lia.
  - intros i. rewrite H3, list_elem_of_filter, elem_of_seq. unfold is_first. split.
    + intros [Hf _]. destruct (types !! i) as [ty|] eqn:Hty; [|done].
      apply andb_true_iff in Hf as [Hk Hn].
      apply bool_decide_eq_true in Hk. apply bool_decide_eq_true in Hn.
      exists ty. split_and!; try done.
      intros j Hj Hl. apply Hn. apply list_elem_of_lookup. exists j.
      by rewrite lookup_take_lt.
    + intros (ty & Hty & Hk & Hn). rewrite Hty. split.
      * apply andb_true_iff. rewrite !bool_decide_eq_true. split; [done|].
        intros Hin. apply list_elem_of_lookup in Hin as [j Hj].
        pose proof (lookup_lt_Some _ _ _ Hj) as Hlt. rewrite length_take in Hlt.
        apply (Hn j); [lia|]. by rewrite lookup_take_lt in Hj by lia.
      * apply lookup_lt_Some in Hty. lia.
Qed.

(** The waits [recv()] has asked [asyncio.sleep] for. *)
Definition sleeps (out : list obs) : list Q :=
  omap (λ o, match o with Effect (AsyncSleep w) => Some w | _ => None end) out.

Lemma sleeps_app a b : sleeps (a ++ b) = sleeps a ++ sleeps b.
Proof. unfold sleeps. by rewrite omap_app. Qed.

Lemma unpaced_set_track k t s :
  throttle_playback (set_track k t s) = throttle_playback s.
Proof. by destruct k. Qed.

Lemma unpaced_start k s :
  throttle_playback (_start k s).1.1 = throttle_playback s
  ∧ sleeps (map Effect (_start k s).1.2) = [].
Proof.
  unfold _start. simpl. destruct (thread s); [done|].
  by destruct (container_open s).
Qed.

Lemma unpaced_stop_player k s :
  throttle_playback (_stop k s).1.1 = throttle_playback s
  ∧ sleeps (map Effect (_stop k s).1.2) = [].
Proof.
  destruct s as [co th st au vi tp al qu nt]. unfold _stop, set_started.
  cbn [container_open thread started audio video throttle_playback alive quit
       next_thread].
  destruct (decide _); [|done]. by destruct th, co.
Qed.

Lemma unpaced_stop k s :
  throttle_playback (stop k s).1.1 = throttle_playback s
  ∧ sleeps (map Effect (stop k s).1.2) = [].
Proof.
  unfold stop. destruct (get_track k s) as [t|]; [|done].
  destruct (player_bound t); [|cbn [fst snd]; by rewrite unpaced_set_track].
  destruct (unpaced_stop_player k (set_track k (set_ended t) s)) as [H1 H2].
  rewrite unpaced_set_track in H1.
  destruct (_stop k (set_track k (set_ended t) s)) as [[s2 effs] ok].
  cbn [fst snd] in *. destruct ok; cbn [fst snd]; [|done].
  by rewrite unpaced_set_track.
Qed.

Lemma unpaced_deliver k now t item s :
  throttle_playback s = false →
  throttle_playback (deliver k now t item s).1 = false
  ∧ sleeps (deliver k now t item s).2 = [].
Proof.
  intros Hs. unfold deliver. destruct item as [f|].
  - rewrite Hs, andb_false_r.
    destruct (time f); cbn [fst snd]; by rewrite unpaced_set_track.
  - destruct (unpaced_stop k (set_track k t s)) as [H1 H2].
    rewrite unpaced_set_track in H1.
    destruct (stop k (set_track k t s)) as [[s' effs] ok]. cbn [fst snd] in *.
    split; [congruence|]. rewrite sleeps_app, H2. by destruct ok.
Qed.

Lemma unpaced_step s e :
  throttle_playback s = false →
  throttle_playback (step s e).1 = false ∧ sleeps (step s e).2 = [].
Proof.
  intros Hs. destruct e as [k now|k now|k|k n|k item|tid]; cbn [step].
  - unfold recv. destruct (get_track k s) as [t|]; [|done].
    destruct (ended t); [done|]. destruct (waiting t); [done|].
    destruct (player_bound t); cbn [negb]; [|done].
    destruct (unpaced_start k s) as [H1 H2].
    destruct (_start k s) as [[s1 effs] ok]. cbn [fst snd] in *.
    destruct ok.
    2:{ cbn [fst snd]. split; [congruence|]. by rewrite sleeps_app, H2. }
    destruct (queue t) as [|item q].
    + cbn [fst snd]. rewrite unpaced_set_track. split; [congruence|done].
    + match goal with
      | |- context [deliver k now ?t' item s1] =>
          destruct (unpaced_deliver k now t' item s1) as [D1 D2]; [congruence|];
          destruct (deliver k now t' item s1) as [s2 out]
      end.
      cbn [fst snd] in *. split; [done|]. by rewrite sleeps_app, H2, D2.
  - unfold wake. destruct (get_track k s) as [t|]; [|done].
    destruct (waiting t); [|done]. destruct (queue t) as [|item q]; [done|].
    by apply unpaced_deliver.
  - destruct (unpaced_stop k s) as [H1 H2].
    destruct (stop k s) as [[s' effs] ok]. cbn [fst snd] in *.
    split; [congruence|done].
  - unfold set_max_frame_to_decode. destruct (get_track k s); [|done].
    cbn [fst snd]. by rewrite unpaced_set_track.
  - unfold worker_put. destruct (get_track k s); [|done].
    cbn [fst snd]. by rewrite unpaced_set_track.
  - done.
Qed.

Lemma unpaced_run es : ∀ s,
  throttle_playback s = false →
  throttle_playback (run s es).1 = false ∧ sleeps (run s es).2 = [].
Proof.
  induction es as [|e es IH]; intros s Hs; [done|].
  cbn [run]. destruct (unpaced_step s e Hs) as [H1 H2].
  destruct (step s e) as [s1 out1]. cbn [fst snd] in *.
  destruct (IH s1 H1) as [H3 H4].
  destruct (run s1 es) as [s2 out2]. cbn [fst snd] in *.
  split; [done|]. by rewrite sleeps_app, H2, H4.
Qed.

(** A player opened on a container one of whose format names is a real-time
    format does not throttle playback, and then [recv()] never sleeps,
    whatever the timestamps of the frames and whatever is called. *)
Theorem player_real_time_source_never_sleeps
    (types format_names : list string) (c : string) (es : list event) :
  c ∈ format_names → c ∈ REAL_TIME_FORMATS →
  throttle_playback (player_init types format_names) = false
  ∧ sleeps (run (player_init types format_names) es).2 = [].
Proof.
  intros Hc Hr.
  assert (Ht : throttle_playback (player_init types format_names) = false).
  { unfold player_init, init. cbn [throttle_playback]. unfold throttle_of.
    apply not_true_is_false. intros Hall.
    rewrite forallb_forall in Hall. apply list_elem_of_In in Hc.
    specialize (Hall c Hc). apply negb_true_iff, bool_decide_eq_false in Hall.
    done. }
  split; [done|]. by apply unpaced_run.
Qed.

Example player_real_time_source_never_sleeps_witness :
  throttle_playback (player_init ["video"] ["video4linux2"; "v4l2"]) = false
  ∧ sleeps (run (player_init ["video"] ["video4linux2"; "v4l2"])
              [Recv Video 0%Q;
               WorkerPut Video (Some (FVideo (mkVideo 0 (Some 0%Z) (1 # 30) 0)));
               Wake Video 1%Q]).2 = [].
Proof.
  apply (player_real_time_source_never_sleeps ["video"] ["video4linux2"; "v4l2"] "v4l2").
  - right. left.
  - vm_compute. repeat (first [left | right]).
Defined.

End PlayerInitFacts.

(** * The sink of the web server *)

Module OfferFacts.
Import Media Blackhole BlackholeFacts.





End OfferFacts.
